(** * node-resource-pool: a shallow embedding of [lib/pool.js]

    The pool object, its request queues, its resource lists and the methods
    of [Pool.prototype] are translated to Rocq functions over an explicit
    state.  The embedding follows the revision of the pool that keeps two
    request queues ([agingRequests] and [agelessRequests]).

    - JavaScript numbers that the pool computes with are modelled by
      [jsval]: an integer (all times are integral milliseconds), [NaN], or
      [undefined].
    - Objects have an identity; requests, resources and callback closures
      carry the allocation number they were created with.
    - Everything the pool calls that is not its own code (the clock, the
      factory, [validate], [compare], event listeners, completion callbacks)
      is either an oracle of the environment or an entry of the [log].
    - A completion callback ([request.done]) is client code that may call
      the public methods of the pool again before it returns, as the
      test-suite does ("should acquire inside acquire"); the methods are
      therefore parametrised by [invoke], the behaviour of the callbacks,
      and loops whose body reaches a callback take a [fuel] budget.
      [None] means that the call does not return within the budget (or
      raises). *)

From Stdlib Require Import ZArith Lia Bool List Sorted.
From stdpp Require Import base list numbers sorting.
Import ListNotations.

Open Scope Z_scope.

(** ** JavaScript values used as numbers *)

Inductive jsval : Type :=
| JUndefined
| JNaN
| JNum (z : Z).

(** [!!v] *)
Definition truthy (v : jsval) : bool :=
  match v with
  | JNum z => negb (z =? 0)
  | _ => false
  end.

(** [a || b] *)
Definition js_or (a b : jsval) : jsval := if truthy a then a else b.

(** [a + b] on numbers; [undefined] converts to [NaN]. *)
Definition js_add (a b : jsval) : jsval :=
  match a, b with
  | JNum x, JNum y => JNum (x + y)
  | _, _ => JNaN
  end.

(** [a - b] *)
Definition js_sub (a b : jsval) : jsval :=
  match a, b with
  | JNum x, JNum y => JNum (x - y)
  | _, _ => JNaN
  end.

(** the global [isNaN(v)] *)
Definition js_isNaN (v : jsval) : bool :=
  match v with
  | JNum _ => false
  | _ => true
  end.

(** [a < b], [a > b], [a >= b]: false as soon as one side is not a number *)
Definition js_lt (a b : jsval) : bool :=
  match a, b with
  | JNum x, JNum y => x <? y
  | _, _ => false
  end.

Definition js_gt (a b : jsval) : bool := js_lt b a.

Definition js_ge (a b : jsval) : bool :=
  match a, b with
  | JNum x, JNum y => y <=? x
  | _, _ => false
  end.

(** [v || d] where the default [d] is a number: always a number *)
Definition js_default (v : jsval) (d : Z) : Z :=
  match js_or v (JNum d) with
  | JNum z => z
  | _ => d
  end.

(** ** Data model *)

(** Opaque resource handles made by the factory. *)
Definition Value : Type := nat.

(** Keys of the [ERRORS] table. *)
Inductive ErrCode : Type :=
| POOL_ACQUIRE_DURING_DRAINING
| POOL_ACQUIRE_TIMEOUT_ERROR
| POOL_ACQUIRE_ABORTED_BY_DRAIN
| POOL_MAX_REQUESTS_LIMIT.

(** The object built by [_createRequest].  [done] is the closure passed to
    [acquire] (absent for [acquireSync]); [originalCall], an [Error] kept
    for its stack trace, is not modelled. *)
Record Request : Type := mkRequest {
  req_id : nat;
  done : option nat;
  createdAt : Z;
  acquireTimeoutAt : jsval
}.

(** The object built in the callback of [_createResource]; [idleAt] and
    [request] are the properties added later by [_storeResource] and
    [_serveRequest]. *)
Record Resource : Type := mkResource {
  res_id : nat;
  value : Value;
  res_createdAt : Z;
  expiresAt : jsval;
  idleAt : jsval;
  request : option Request
}.

(** The second argument of [acquire]'s callback, or none for [drain]'s. *)
Inductive Outcome : Type :=
| Failure (code : ErrCode)
| Success (v : Value)
| Drained.

(** What the factory passes to the callback of [create]. *)
Inductive CreateResult : Type :=
| CreateError
| CreateOk (v : Value).

(** Calls that leave the pool's own code. *)
Inductive Effect : Type :=
| emit_enqueueRequest (r : Request)
| emit_serveError (code : ErrCode) (r : Request)
| emit_serveSuccess (r : Request) (v : Value)
| emit_createSuccess (v : Value)
| emit_createError
| emit_release (r : Resource)
| emit_destroy (r : Resource)
| emit_drain
| call_done (r : Request) (o : Outcome)
| call_createResource (cid : nat)
| call_destroyResource (r : Resource) (did : nat)
| call_setInterval (id : nat) (interval : Z)
| call_clearInterval (id : nat)
| call_setTimeout (delay : Z)
| call_tick.

(** Callbacks handed to [setTimeout] and [tick] that have not run yet. *)
Inductive Timer : Type :=
| T_scheduledMaintain
| T_backoff
| T_waitDrain (done : option nat)
| T_done (k : nat).

(** The [options] of the constructor. *)
Record Options : Type := mkOptions {
  o_min : jsval;
  o_max : jsval;
  o_maxCreating : jsval;
  o_maxRequests : jsval;
  o_acquireTimeout : jsval;
  o_idleTimeout : jsval;
  o_idleCheckInterval : jsval;
  o_expireTimeout : jsval;
  o_expireCheckInterval : jsval;
  o_maintenanceInterval : jsval;
  o_maintenanceTimeout : jsval;
  o_backoff : bool
}.

(** The [options] of [acquire] and [acquireSync]. *)
Record AcquireOptions : Type := mkAcquireOptions {
  timeout : jsval
}.

(** The fields of the pool that never change after construction. *)
Record Config : Type := mkConfig {
  min : Z;
  max : Z;
  maxCreating : jsval;
  maxRequests : jsval;
  acquireTimeout : jsval;
  idleTimeout : jsval;
  idleCheckInterval : Z;
  expireTimeout : jsval;
  expireCheckInterval : Z;
  maintenanceTimeout : Z;
  backoff : bool
}.

(** The pool object together with the run-time around it: [log] is the
    history of outgoing calls (newest first), [timers] the pending
    one-shot callbacks, [creating] and [destroying] the factory callbacks
    whose [called] flag is still false, [fresh] the next object identity
    and [ticks] the number of questions asked to the environment. *)
Record World : Type := mkWorld {
  cfg : Config;
  maintenanceInterval : Z;
  agingRequests : list Request;
  agelessRequests : list Request;
  freeResources : list Resource;
  lentResources : list Resource;
  creatingResourceCount : Z;
  destroyingResourceCount : Z;
  lastIdleCheckAt : Z;
  lastExpireCheckAt : Z;
  isDraining : bool;
  isMaintaining : bool;
  isMaintenanceScheduled : bool;
  _maintenanceIntervalID : option nat;
  log : list Effect;
  timers : list Timer;
  creating : list nat;
  destroying : list nat;
  fresh : nat;
  ticks : nat
}.

(** ** Field updates *)

Definition set_maintenanceInterval (v : Z) (w : World) : World :=
  mkWorld (cfg w) v (agingRequests w) (agelessRequests w) (freeResources w)
    (lentResources w) (creatingResourceCount w) (destroyingResourceCount w)
    (lastIdleCheckAt w) (lastExpireCheckAt w) (isDraining w) (isMaintaining w)
    (isMaintenanceScheduled w) (_maintenanceIntervalID w) (log w) (timers w)
    (creating w) (destroying w) (fresh w) (ticks w).

Definition set_agingRequests (v : list Request) (w : World) : World :=
  mkWorld (cfg w) (maintenanceInterval w) v (agelessRequests w) (freeResources w)
    (lentResources w) (creatingResourceCount w) (destroyingResourceCount w)
    (lastIdleCheckAt w) (lastExpireCheckAt w) (isDraining w) (isMaintaining w)
    (isMaintenanceScheduled w) (_maintenanceIntervalID w) (log w) (timers w)
    (creating w) (destroying w) (fresh w) (ticks w).

Definition set_agelessRequests (v : list Request) (w : World) : World :=
  mkWorld (cfg w) (maintenanceInterval w) (agingRequests w) v (freeResources w)
    (lentResources w) (creatingResourceCount w) (destroyingResourceCount w)
    (lastIdleCheckAt w) (lastExpireCheckAt w) (isDraining w) (isMaintaining w)
    (isMaintenanceScheduled w) (_maintenanceIntervalID w) (log w) (timers w)
    (creating w) (destroying w) (fresh w) (ticks w).

Definition set_freeResources (v : list Resource) (w : World) : World :=
  mkWorld (cfg w) (maintenanceInterval w) (agingRequests w) (agelessRequests w) v
    (lentResources w) (creatingResourceCount w) (destroyingResourceCount w)
    (lastIdleCheckAt w) (lastExpireCheckAt w) (isDraining w) (isMaintaining w)
    (isMaintenanceScheduled w) (_maintenanceIntervalID w) (log w) (timers w)
    (creating w) (destroying w) (fresh w) (ticks w).

Definition set_lentResources (v : list Resource) (w : World) : World :=
  mkWorld (cfg w) (maintenanceInterval w) (agingRequests w) (agelessRequests w)
    (freeResources w) v (creatingResourceCount w) (destroyingResourceCount w)
    (lastIdleCheckAt w) (lastExpireCheckAt w) (isDraining w) (isMaintaining w)
    (isMaintenanceScheduled w) (_maintenanceIntervalID w) (log w) (timers w)
    (creating w) (destroying w) (fresh w) (ticks w).

Definition set_creatingResourceCount (v : Z) (w : World) : World :=
  mkWorld (cfg w) (maintenanceInterval w) (agingRequests w) (agelessRequests w)
    (freeResources w) (lentResources w) v (destroyingResourceCount w)
    (lastIdleCheckAt w) (lastExpireCheckAt w) (isDraining w) (isMaintaining w)
    (isMaintenanceScheduled w) (_maintenanceIntervalID w) (log w) (timers w)
    (creating w) (destroying w) (fresh w) (ticks w).

Definition set_destroyingResourceCount (v : Z) (w : World) : World :=
  mkWorld (cfg w) (maintenanceInterval w) (agingRequests w) (agelessRequests w)
    (freeResources w) (lentResources w) (creatingResourceCount w) v
    (lastIdleCheckAt w) (lastExpireCheckAt w) (isDraining w) (isMaintaining w)
    (isMaintenanceScheduled w) (_maintenanceIntervalID w) (log w) (timers w)
    (creating w) (destroying w) (fresh w) (ticks w).

Definition set_lastIdleCheckAt (v : Z) (w : World) : World :=
  mkWorld (cfg w) (maintenanceInterval w) (agingRequests w) (agelessRequests w)
    (freeResources w) (lentResources w) (creatingResourceCount w)
    (destroyingResourceCount w) v (lastExpireCheckAt w) (isDraining w)
    (isMaintaining w) (isMaintenanceScheduled w) (_maintenanceIntervalID w)
    (log w) (timers w) (creating w) (destroying w) (fresh w) (ticks w).

Definition set_lastExpireCheckAt (v : Z) (w : World) : World :=
  mkWorld (cfg w) (maintenanceInterval w) (agingRequests w) (agelessRequests w)
    (freeResources w) (lentResources w) (creatingResourceCount w)
    (destroyingResourceCount w) (lastIdleCheckAt w) v (isDraining w)
    (isMaintaining w) (isMaintenanceScheduled w) (_maintenanceIntervalID w)
    (log w) (timers w) (creating w) (destroying w) (fresh w) (ticks w).

Definition set_isDraining (v : bool) (w : World) : World :=
  mkWorld (cfg w) (maintenanceInterval w) (agingRequests w) (agelessRequests w)
    (freeResources w) (lentResources w) (creatingResourceCount w)
    (destroyingResourceCount w) (lastIdleCheckAt w) (lastExpireCheckAt w) v
    (isMaintaining w) (isMaintenanceScheduled w) (_maintenanceIntervalID w)
    (log w) (timers w) (creating w) (destroying w) (fresh w) (ticks w).

Definition set_isMaintaining (v : bool) (w : World) : World :=
  mkWorld (cfg w) (maintenanceInterval w) (agingRequests w) (agelessRequests w)
    (freeResources w) (lentResources w) (creatingResourceCount w)
    (destroyingResourceCount w) (lastIdleCheckAt w) (lastExpireCheckAt w)
    (isDraining w) v (isMaintenanceScheduled w) (_maintenanceIntervalID w)
    (log w) (timers w) (creating w) (destroying w) (fresh w) (ticks w).

Definition set_isMaintenanceScheduled (v : bool) (w : World) : World :=
  mkWorld (cfg w) (maintenanceInterval w) (agingRequests w) (agelessRequests w)
    (freeResources w) (lentResources w) (creatingResourceCount w)
    (destroyingResourceCount w) (lastIdleCheckAt w) (lastExpireCheckAt w)
    (isDraining w) (isMaintaining w) v (_maintenanceIntervalID w)
    (log w) (timers w) (creating w) (destroying w) (fresh w) (ticks w).

Definition set__maintenanceIntervalID (v : option nat) (w : World) : World :=
  mkWorld (cfg w) (maintenanceInterval w) (agingRequests w) (agelessRequests w)
    (freeResources w) (lentResources w) (creatingResourceCount w)
    (destroyingResourceCount w) (lastIdleCheckAt w) (lastExpireCheckAt w)
    (isDraining w) (isMaintaining w) (isMaintenanceScheduled w) v
    (log w) (timers w) (creating w) (destroying w) (fresh w) (ticks w).

Definition set_log (v : list Effect) (w : World) : World :=
  mkWorld (cfg w) (maintenanceInterval w) (agingRequests w) (agelessRequests w)
    (freeResources w) (lentResources w) (creatingResourceCount w)
    (destroyingResourceCount w) (lastIdleCheckAt w) (lastExpireCheckAt w)
    (isDraining w) (isMaintaining w) (isMaintenanceScheduled w)
    (_maintenanceIntervalID w) v (timers w) (creating w) (destroying w)
    (fresh w) (ticks w).

Definition set_timers (v : list Timer) (w : World) : World :=
  mkWorld (cfg w) (maintenanceInterval w) (agingRequests w) (agelessRequests w)
    (freeResources w) (lentResources w) (creatingResourceCount w)
    (destroyingResourceCount w) (lastIdleCheckAt w) (lastExpireCheckAt w)
    (isDraining w) (isMaintaining w) (isMaintenanceScheduled w)
    (_maintenanceIntervalID w) (log w) v (creating w) (destroying w)
    (fresh w) (ticks w).

Definition set_creating (v : list nat) (w : World) : World :=
  mkWorld (cfg w) (maintenanceInterval w) (agingRequests w) (agelessRequests w)
    (freeResources w) (lentResources w) (creatingResourceCount w)
    (destroyingResourceCount w) (lastIdleCheckAt w) (lastExpireCheckAt w)
    (isDraining w) (isMaintaining w) (isMaintenanceScheduled w)
    (_maintenanceIntervalID w) (log w) (timers w) v (destroying w)
    (fresh w) (ticks w).

Definition set_destroying (v : list nat) (w : World) : World :=
  mkWorld (cfg w) (maintenanceInterval w) (agingRequests w) (agelessRequests w)
    (freeResources w) (lentResources w) (creatingResourceCount w)
    (destroyingResourceCount w) (lastIdleCheckAt w) (lastExpireCheckAt w)
    (isDraining w) (isMaintaining w) (isMaintenanceScheduled w)
    (_maintenanceIntervalID w) (log w) (timers w) (creating w) v
    (fresh w) (ticks w).

Definition set_fresh (v : nat) (w : World) : World :=
  mkWorld (cfg w) (maintenanceInterval w) (agingRequests w) (agelessRequests w)
    (freeResources w) (lentResources w) (creatingResourceCount w)
    (destroyingResourceCount w) (lastIdleCheckAt w) (lastExpireCheckAt w)
    (isDraining w) (isMaintaining w) (isMaintenanceScheduled w)
    (_maintenanceIntervalID w) (log w) (timers w) (creating w) (destroying w)
    v (ticks w).

Definition set_ticks (v : nat) (w : World) : World :=
  mkWorld (cfg w) (maintenanceInterval w) (agingRequests w) (agelessRequests w)
    (freeResources w) (lentResources w) (creatingResourceCount w)
    (destroyingResourceCount w) (lastIdleCheckAt w) (lastExpireCheckAt w)
    (isDraining w) (isMaintaining w) (isMaintenanceScheduled w)
    (_maintenanceIntervalID w) (log w) (timers w) (creating w) (destroying w)
    (fresh w) v.

(** An outgoing call is appended to the history. *)
Definition emit (e : Effect) (w : World) : World := set_log (e :: log w) w.

(** One more question has been put to the environment. *)
Definition bump (w : World) : World := set_ticks (S (ticks w)) w.

(** A new object identity is taken. *)
Definition alloc (w : World) : World := set_fresh (S (fresh w)) w.

(** [array.pop()]: the last element and the array without it. *)
Definition pop {A : Type} (l : list A) : option (A * list A) :=
  match rev l with
  | x :: r => Some (x, rev r)
  | [] => None
  end.

(** The environment.  [clock n] is what [timeNow()] returns when it is the
    [n]-th question; [validateResource] and [compareResources] are the
    functions of the same name; [createResource n] tells whether the
    factory calls its callback before returning, and with what;
    [destroyResource n r] whether the factory's [destroy] does;
    [backoffDelay] is [this.backoff()]. *)
Record Env : Type := mkEnv {
  clock : nat -> Z;
  validateResource : nat -> Resource -> bool;
  compareResources : Value -> Value -> bool;
  createResource : nat -> option CreateResult;
  destroyResource : nat -> Resource -> bool;
  backoffDelay : nat -> Z
}.

(** ** The methods of [Pool.prototype] *)

Section Methods.

Variable env : Env.

(** [invoke k o w]: the client's closure [k] runs with outcome [o]. *)
Variable invoke : nat -> Outcome -> World -> option World.

Definition timeNow (w : World) : Z * World := (clock env (ticks w), bump w).

(** [_createRequest(options, done)] *)
Definition _createRequest (options : option AcquireOptions) (done : option nat)
    (w : World) : Request * World :=
  let (now, w1) := timeNow w in
  let t := match options with Some o => timeout o | None => JUndefined end in
  (mkRequest (fresh w1) done now
     (js_add (JNum now) (js_or t (acquireTimeout (cfg w1)))),
   alloc w1).

(** The index at which [_insertRequestByAcquireTimeout] splices: the
    [while] loop walks down from [i]. *)
Fixpoint insertIndex (request : Request) (aging : list Request) (i : nat) : nat :=
  match i with
  | O => O
  | S j =>
      match aging !! j with
      | Some r =>
          if js_lt (acquireTimeoutAt request) (acquireTimeoutAt r)
          then insertIndex request aging j
          else i
      | None => i
      end
  end.

(** [_insertRequestByAcquireTimeout(request)] *)
Definition _insertRequestByAcquireTimeout (request : Request) (w : World) : World :=
  if js_isNaN (acquireTimeoutAt request) then
    set_agelessRequests (agelessRequests w ++ [request]) w
  else
    let i := insertIndex request (agingRequests w) (length (agingRequests w)) in
    set_agingRequests
      (take i (agingRequests w) ++ request :: drop i (agingRequests w)) w.

(** [_scheduleMaintainance()] *)
Definition _scheduleMaintainance (w : World) : World :=
  if isMaintenanceScheduled w then w
  else
    let w1 := set_isMaintenanceScheduled true w in
    set_timers (timers w1 ++ [T_scheduledMaintain])
      (emit (call_setTimeout (maintenanceTimeout (cfg w1))) w1).

(** The callback given to the factory's [destroy], guarded by [called]. *)
Definition destroyCallback (did : nat) (w : World) : World :=
  if decide (did ∈ destroying w) then
    let w1 := set_destroying (filter (λ x, x ≠ did) (destroying w)) w in
    set_destroyingResourceCount (destroyingResourceCount w1 - 1) w1
  else w.

(** [_destroyResource(resource)] *)
Definition _destroyResource (resource : Resource) (w : World) : World :=
  let w1 := set_destroyingResourceCount (destroyingResourceCount w + 1) w in
  let w2 := emit (emit_destroy resource) w1 in
  let did := fresh w2 in
  let w3 := set_destroying (did :: destroying w2) (alloc w2) in
  let w4 := emit (call_destroyResource resource did) w3 in
  let sync := destroyResource env (ticks w4) resource in
  let w5 := bump w4 in
  if sync then destroyCallback did w5 else w5.

(** [_storeResource(resource)] *)
Definition _storeResource (resource : Resource) (w : World) : World :=
  if negb (isDraining w) then
    let ok := validateResource env (ticks w) resource in
    let w1 := bump w in
    if ok then
      let (now, w2) := timeNow w1 in
      let stored :=
        mkResource (res_id resource) (value resource) (res_createdAt resource)
          (expiresAt resource) (JNum now) None in
      _scheduleMaintainance
        (set_freeResources (freeResources w2 ++ [stored]) w2)
    else _destroyResource resource w1
  else _destroyResource resource w.

(** The loop of [_nextFreeResource]: [free] is [this.freeResources],
    which [_destroyResource] does not touch. *)
Fixpoint nextFree (free : list Resource) (w : World) : option Resource * World :=
  match free with
  | [] => (None, set_freeResources [] w)
  | resource :: rest =>
      let w1 := set_freeResources rest w in
      let ok := validateResource env (ticks w1) resource in
      let w2 := bump w1 in
      if ok then (Some resource, w2)
      else nextFree rest (_destroyResource resource w2)
  end.

(** [_nextFreeResource()] *)
Definition _nextFreeResource (w : World) : option Resource * World :=
  nextFree (freeResources w) w.

(** [_serveRequest(request, errCode, resource)] *)
Definition _serveRequest (request : Request) (errCode : option ErrCode)
    (resource : option Resource) (w : World) : option World :=
  match errCode with
  | Some code =>
      let w1 := emit (emit_serveError code request) w in
      match done request with
      | Some k => invoke k (Failure code) (emit (call_done request (Failure code)) w1)
      | None => Some w1
      end
  | None =>
      match resource with
      | Some r =>
          let lent :=
            mkResource (res_id r) (value r) (res_createdAt r) (expiresAt r)
              (idleAt r) (Some request) in
          let w1 := set_lentResources (lentResources w ++ [lent]) w in
          let w2 := emit (emit_serveSuccess request (value r)) w1 in
          match done request with
          | Some k =>
              invoke k (Success (value r))
                (emit (call_done request (Success (value r))) w2)
          | None => Some w2
          end
      | None => None
      end
  end.

(** [_enqueueRequest(request)] *)
Definition _enqueueRequest (request : Request) (w : World) : option World :=
  let w1 := emit (emit_enqueueRequest request) w in
  if isDraining w1 then
    _serveRequest request (Some POOL_ACQUIRE_DURING_DRAINING) None w1
  else if js_ge
            (JNum (Z.of_nat (length (agelessRequests w1))
                   + Z.of_nat (length (agingRequests w1))))
            (maxRequests (cfg w1)) then
    _serveRequest request (Some POOL_MAX_REQUESTS_LIMIT) None w1
  else
    Some (_scheduleMaintainance (_insertRequestByAcquireTimeout request w1)).

(** [acquire(options, done)] *)
Definition acquire (options : option AcquireOptions) (done : option nat)
    (w : World) : option World :=
  let (request, w1) := _createRequest options done w in
  _enqueueRequest request w1.

(** [acquireSync(options)]; the first component is the returned value. *)
Definition acquireSync (options : option AcquireOptions) (w : World)
    : option (option Value * World) :=
  let (resource, w1) := _nextFreeResource w in
  match resource with
  | Some r =>
      let (request, w2) := _createRequest options None w1 in
      if isDraining w2 then
        w3 ← _serveRequest request (Some POOL_ACQUIRE_DURING_DRAINING) None w2;
        Some (None, w3)
      else
        w3 ← _serveRequest request None (Some r) w2;
        Some (Some (value r), w3)
  | None => Some (None, w1)
  end.

(** [_getResourceIndex(resources, resourceValue)], searching down from
    [i - 1]; [None] stands for [-1]. *)
Fixpoint getResourceIndexFrom (resources : list Resource) (resourceValue : Value)
    (i : nat) : option nat :=
  match i with
  | O => None
  | S j =>
      match resources !! j with
      | Some r =>
          if compareResources env (value r) resourceValue then Some j
          else getResourceIndexFrom resources resourceValue j
      | None => None
      end
  end.

Definition _getResourceIndex (resources : list Resource) (resourceValue : Value)
    : option nat :=
  getResourceIndexFrom resources resourceValue (length resources).

(** [release(resourceValue)] *)
Definition release (resourceValue : Value) (w : World) : World :=
  match _getResourceIndex (lentResources w) resourceValue with
  | Some i =>
      match lentResources w !! i with
      | Some resource =>
          let w1 := set_lentResources (delete i (lentResources w)) w in
          _storeResource resource (emit (emit_release resource) w1)
      | None => w
      end
  | None => w
  end.

(** [destroy(resourceValue)] *)
Definition destroy (resourceValue : Value) (w : World) : World :=
  match _getResourceIndex (lentResources w) resourceValue with
  | Some i =>
      match lentResources w !! i with
      | Some resource =>
          _destroyResource resource
            (set_lentResources (delete i (lentResources w)) w)
      | None => w
      end
  | None =>
      match _getResourceIndex (freeResources w) resourceValue with
      | Some i =>
          match freeResources w !! i with
          | Some resource =>
              _destroyResource resource
                (set_freeResources (delete i (freeResources w)) w)
          | None => w
          end
      | None => w
      end
  end.

(** The [while] loop of [_serveAgingRequests]; [now] was read once
    before the loop. *)
Fixpoint serveAging (fuel : nat) (now : Z) (w : World) : option World :=
  match fuel with
  | O => None
  | S n =>
      match agingRequests w with
      | [] => Some w
      | request :: _ =>
          if js_gt (JNum now) (acquireTimeoutAt request) then
            let w1 := set_agingRequests (tail (agingRequests w)) w in
            w2 ← _serveRequest request (Some POOL_ACQUIRE_TIMEOUT_ERROR) None w1;
            serveAging n now w2
          else
            let (resource, w1) := _nextFreeResource w in
            match resource with
            | None => Some w1
            | Some r =>
                let w2 := set_agingRequests (tail (agingRequests w1)) w1 in
                w3 ← _serveRequest request None (Some r) w2;
                serveAging n now w3
            end
      end
  end.

(** [_serveAgingRequests()] *)
Definition _serveAgingRequests (fuel : nat) (w : World) : option World :=
  let (now, w1) := timeNow w in
  serveAging fuel now w1.

(** [_serveAgelessRequests()] *)
Fixpoint _serveAgelessRequests (fuel : nat) (w : World) : option World :=
  match fuel with
  | O => None
  | S n =>
      match agelessRequests w with
      | [] => Some w
      | _ :: _ =>
          let (resource, w1) := _nextFreeResource w in
          match resource with
          | None => Some w1
          | Some r =>
              match agelessRequests w1 with
              | request :: rest =>
                  let w2 := set_agelessRequests rest w1 in
                  w3 ← _serveRequest request None (Some r) w2;
                  _serveAgelessRequests n w3
              | [] => None
              end
          end
      end
  end.

(** The callback given to the factory's [create], guarded by [called]. *)
Definition createCallback (cid : nat) (result : CreateResult) (w : World) : World :=
  if decide (cid ∈ creating w) then
    let w1 := set_creating (filter (λ x, x ≠ cid) (creating w)) w in
    match result with
    | CreateError =>
        let w2 := emit emit_createError w1 in
        if backoff (cfg w2) then
          let delay := backoffDelay env (ticks w2) in
          let w3 := bump w2 in
          set_timers (timers w3 ++ [T_backoff]) (emit (call_setTimeout delay) w3)
        else
          set_creatingResourceCount (creatingResourceCount w2 - 1) w2
    | CreateOk v =>
        let w2 := set_creatingResourceCount (creatingResourceCount w1 - 1) w1 in
        let (now, w3) := timeNow w2 in
        let w4 := emit (emit_createSuccess v) w3 in
        _storeResource
          (mkResource (fresh w4) v now
             (js_add (JNum now) (expireTimeout (cfg w4))) JUndefined None)
          (alloc w4)
    end
  else w.

(** [_createResource()] *)
Definition _createResource (w : World) : World :=
  let w1 := set_creatingResourceCount (creatingResourceCount w + 1) w in
  let cid := fresh w1 in
  let w2 := set_creating (cid :: creating w1) (alloc w1) in
  let w3 := emit (call_createResource cid) w2 in
  let sync := createResource env (ticks w3) in
  let w4 := bump w3 in
  match sync with
  | Some result => createCallback cid result w4
  | None => w4
  end.

(** [_countResources()] *)
Definition _countResources (w : World) : Z :=
  Z.of_nat (length (freeResources w)) + Z.of_nat (length (lentResources w))
  + creatingResourceCount w + destroyingResourceCount w.

(** The number that [_createResources] has in [extra] when it reaches
    its [while] loop. *)
Definition extraResources (w : World) : Z :=
  let count := _countResources w in
  let extra :=
    Z.of_nat (length (agelessRequests w)) + Z.of_nat (length (agingRequests w)) in
  let extra :=
    if (count <? min (cfg w)) && (extra <? min (cfg w)) then min (cfg w)
    else extra in
  let extra :=
    if count + extra >? max (cfg w) then max (cfg w) - count else extra in
  let extra := extra - creatingResourceCount w in
  match maxCreating (cfg w) with
  | JNum m =>
      if m >? 0 then
        let available := m - creatingResourceCount w in
        if extra >? available then available else extra
      else extra
  | _ => extra
  end.

(** [while (extra-- > 0) { this._createResource(); }] *)
Fixpoint createLoop (extra : nat) (w : World) : World :=
  match extra with
  | O => w
  | S n => createLoop n (_createResource w)
  end.

(** [_createResources()] *)
Definition _createResources (w : World) : World :=
  createLoop (Z.to_nat (extraResources w)) w.

(** The first loop of [_destroyDeadResources], from index [i - 1] down:
    the resources that stay and the [dead] ones. *)
Fixpoint sweep (now : Z) (key : Resource -> jsval) (tmo : jsval)
    (i : nat) (free dead : list Resource) : list Resource * list Resource :=
  match i with
  | O => (free, dead)
  | S j =>
      match free !! j with
      | Some resource =>
          if js_gt (JNum now) (js_add (key resource) tmo)
          then sweep now key tmo j (delete j free) (dead ++ [resource])
          else sweep now key tmo j free dead
      | None => sweep now key tmo j free dead
      end
  end.

(** [_destroyDeadResources(key, timeout)] *)
Definition _destroyDeadResources (key : Resource -> jsval) (tmo : jsval)
    (w : World) : World :=
  let (now, w1) := timeNow w in
  let (free, dead) :=
    sweep now key tmo (length (freeResources w1)) (freeResources w1) [] in
  fold_left (fun w r => _destroyResource r w) (rev dead)
    (set_freeResources free w1).

(** [_destroyIdleResources()] *)
Definition _destroyIdleResources (w : World) : World :=
  if js_gt (idleTimeout (cfg w)) (JNum 0) then
    let (now, w1) := timeNow w in
    if now >? lastIdleCheckAt w1 + idleCheckInterval (cfg w1) then
      let w2 := _destroyDeadResources idleAt (idleTimeout (cfg w1)) w1 in
      let (now', w3) := timeNow w2 in
      set_lastIdleCheckAt now' w3
    else w1
  else w.

(** [_destroyExpiredResources()] *)
Definition _destroyExpiredResources (w : World) : World :=
  if js_gt (expireTimeout (cfg w)) (JNum 0) then
    let (now, w1) := timeNow w in
    if now >? lastExpireCheckAt w1 + expireCheckInterval (cfg w1) then
      let w2 := _destroyDeadResources expiresAt (JNum 0) w1 in
      let (now', w3) := timeNow w2 in
      set_lastExpireCheckAt now' w3
    else w1
  else w.

(** [setMaintenanceInterval(interval)] *)
Definition setMaintenanceInterval (interval : Z) (w : World) : World :=
  let w1 :=
    match _maintenanceIntervalID w with
    | Some id => emit (call_clearInterval id) w
    | None => w
    end in
  let w2 := set_maintenanceInterval interval w1 in
  let id := fresh w2 in
  set__maintenanceIntervalID (Some id)
    (emit (call_setInterval id interval) (alloc w2)).

(** [_maintain()] *)
Definition _maintain (fuel : nat) (w : World) : option World :=
  if isDraining w || isMaintaining w then Some w
  else
    let w1 := set_isMaintaining true w in
    let w2 := _destroyExpiredResources w1 in
    let w3 := _destroyIdleResources w2 in
    w4 ← _serveAgingRequests fuel w3;
    w5 ← _serveAgelessRequests fuel w4;
    let w6 := _createResources w5 in
    Some (set_isMaintaining false w6).

(** [_scheduledMaintain()] *)
Definition _scheduledMaintain (fuel : nat) (w : World) : option World :=
  w1 ← _maintain fuel w;
  Some (set_isMaintenanceScheduled false w1).

(** [_waitDrain(done)] *)
Definition _waitDrain (done : option nat) (w : World) : World :=
  if _countResources w =? 0 then
    let w1 := emit emit_drain w in
    match done with
    | Some k => set_timers (timers w1 ++ [T_done k]) (emit call_tick w1)
    | None => w1
    end
  else
    set_timers (timers w ++ [T_waitDrain done]) (emit call_tick w).

(** The three [while] loops of [drain]. *)
Fixpoint drainAging (fuel : nat) (w : World) : option World :=
  match fuel with
  | O => None
  | S n =>
      match pop (agingRequests w) with
      | Some (request, rest) =>
          w1 ← _serveRequest request (Some POOL_ACQUIRE_ABORTED_BY_DRAIN) None
                 (set_agingRequests rest w);
          drainAging n w1
      | None => Some w
      end
  end.

Fixpoint drainAgeless (fuel : nat) (w : World) : option World :=
  match fuel with
  | O => None
  | S n =>
      match pop (agelessRequests w) with
      | Some (request, rest) =>
          w1 ← _serveRequest request (Some POOL_ACQUIRE_ABORTED_BY_DRAIN) None
                 (set_agelessRequests rest w);
          drainAgeless n w1
      | None => Some w
      end
  end.

(** [stack] is [this.freeResources] read from its end. *)
Fixpoint destroyAll (stack : list Resource) (w : World) : World :=
  match stack with
  | [] => w
  | resource :: rest =>
      destroyAll rest (_destroyResource resource (set_freeResources (rev rest) w))
  end.

Definition drainFree (w : World) : World :=
  destroyAll (rev (freeResources w)) w.

(** [drain(done)] *)
Definition drain (done : option nat) (fuel : nat) (w : World) : option World :=
  w' ← (if negb (isDraining w) then
          let w1 := set_isDraining true w in
          let w2 :=
            match _maintenanceIntervalID w1 with
            | Some id =>
                set__maintenanceIntervalID None (emit (call_clearInterval id) w1)
            | None => w1
            end in
          w3 ← drainAging fuel w2;
          w4 ← drainAgeless fuel w3;
          Some (drainFree w4)
        else Some w);
  Some (_waitDrain done w').

(** [new Pool(options)] *)
Definition Pool_new (options : Options) (fuel : nat) : option World :=
  let idleCheck := js_default (o_idleCheckInterval options) 1000 in
  let expireCheck := js_default (o_expireCheckInterval options) 1000 in
  let interval :=
    js_default (o_maintenanceInterval options) (Z.min idleCheck expireCheck) in
  let w :=
    mkWorld
      (mkConfig (js_default (o_min options) 0) (js_default (o_max options) 1024)
         (o_maxCreating options) (o_maxRequests options)
         (o_acquireTimeout options) (o_idleTimeout options) idleCheck
         (o_expireTimeout options) expireCheck
         (js_default (o_maintenanceTimeout options) 50) (o_backoff options))
      interval [] [] [] [] 0 0 0 0 false false false None [] [] [] [] O O in
  _maintain fuel (setMaintenanceInterval (maintenanceInterval w) w).

End Methods.

(** ** Clients and the event loop *)

(** The public methods, as a client calls them. *)
Inductive Call : Type :=
| c_acquire (options : option AcquireOptions) (done : option nat)
| c_acquireSync (options : option AcquireOptions)
| c_release (resourceValue : Value)
| c_destroy (resourceValue : Value)
| c_drain (done : option nat)
| c_setMaintenanceInterval (interval : Z).

(** The body of a client callback: a finite sequence of calls to the pool,
    each chosen after looking at what the previous ones did. *)
Inductive Script : Type :=
| s_return
| s_call (c : Call) (k : World -> Script).

(** One turn of the event loop. *)
Inductive Op : Type :=
| op_call (c : Call)
| op_interval
| op_timer (i : nat)
| op_createCallback (cid : nat) (result : CreateResult)
| op_destroyCallback (did : nat).

Section EventLoop.

Variable env : Env.

(** [handler k o w]: what the client's closure [k] does when it is
    called with [o] in state [w]. *)
Variable handler : nat -> Outcome -> World -> Script.

Section Exec.

Variable invoke : nat -> Outcome -> World -> option World.

Definition exec (fuel : nat) (c : Call) (w : World) : option World :=
  match c with
  | c_acquire options done =>
      acquire env invoke options done w
  | c_acquireSync options =>
      snd <$> acquireSync env invoke options w
  | c_release v =>
      Some (release env v w)
  | c_destroy v =>
      Some (destroy env v w)
  | c_drain done =>
      drain env invoke done fuel w
  | c_setMaintenanceInterval interval =>
      Some (setMaintenanceInterval interval w)
  end.

Fixpoint run (fuel : nat) (s : Script) (w : World) : option World :=
  match s with
  | s_return => Some w
  | s_call c k =>
      match exec fuel c w with
      | Some w' => run fuel (k w') w'
      | None => None
      end
  end.

End Exec.

(** A callback is the script of its handler; the calls it makes may run
    callbacks in turn, [fuel] deep. *)
Fixpoint callback (fuel : nat) (k : nat) (o : Outcome) (w : World) : option World :=
  match fuel with
  | O => None
  | S n => run (callback n) n (handler k o w) w
  end.

(** A pending one-shot callback runs. *)
Definition fire (fuel : nat) (t : Timer) (w : World) : option World :=
  match t with
  | T_scheduledMaintain =>
      _scheduledMaintain env (callback fuel) fuel w
  | T_backoff =>
      Some (set_creatingResourceCount (creatingResourceCount w - 1) w)
  | T_waitDrain done => Some (_waitDrain done w)
  | T_done k => callback fuel k Drained w
  end.

Definition step (fuel : nat) (op : Op) (w : World) : option World :=
  match op with
  | op_call c => exec (callback fuel) fuel c w
  | op_interval =>
      match _maintenanceIntervalID w with
      | Some _ =>
          _maintain env (callback fuel) fuel w
      | None => None
      end
  | op_timer i =>
      match timers w !! i with
      | Some t => fire fuel t (set_timers (delete i (timers w)) w)
      | None => None
      end
  | op_createCallback cid result =>
      Some (createCallback env cid result w)
  | op_destroyCallback did => Some (destroyCallback did w)
  end.

(** The states of a pool between two turns of the event loop. *)
Inductive reachable : World -> Prop :=
| reachable_new options fuel w :
    Pool_new env (callback fuel) options fuel = Some w ->
    reachable w
| reachable_step fuel op w w' :
    reachable w -> step fuel op w = Some w' -> reachable w'.

End EventLoop.

(** ** Sample environments, clients and pools

    Concrete instances at which the theorems below are evaluated. *)

(** A clock that advances by one millisecond per reading from 1000; every
    resource is valid; handles are compared with [===]; the factory calls
    back at once with handle [100 + n]; [destroy] calls back at once. *)
Definition sample_env : Env :=
  mkEnv (fun n => 1000 + Z.of_nat n) (fun _ _ => true) Nat.eqb
    (fun n => Some (CreateOk (100 + n)%nat)) (fun _ _ => true) (fun _ => 10).

(** The same with a factory that calls back later. *)
Definition async_env : Env :=
  mkEnv (fun n => 1000 + Z.of_nat n) (fun _ _ => true) Nat.eqb
    (fun _ => None) (fun _ _ => false) (fun _ => 10).

(** A client whose callbacks return at once. *)
Definition quiet_handler (k : nat) (o : Outcome) (w : World) : Script := s_return.

(** A client that answers a failed [acquire] by trying [acquireSync]. *)
Definition retry_handler (k : nat) (o : Outcome) (w : World) : Script :=
  match o with
  | Failure _ => s_call (c_acquireSync None) (fun _ => s_return)
  | _ => s_return
  end.

Definition no_options : Options :=
  mkOptions JUndefined JUndefined JUndefined JUndefined JUndefined JUndefined
    JUndefined JUndefined JUndefined JUndefined JUndefined false.

(** [{min: 1}] *)
Definition min1_options : Options :=
  mkOptions (JNum 1) JUndefined JUndefined JUndefined JUndefined JUndefined
    JUndefined JUndefined JUndefined JUndefined JUndefined false.

(** [{min: 1, expireTimeout: 500}] *)
Definition expiring_options : Options :=
  mkOptions (JNum 1) JUndefined JUndefined JUndefined JUndefined JUndefined
    JUndefined (JNum 500) JUndefined JUndefined JUndefined false.

(** The state of a fresh pool, whatever the constructor returns. *)
Definition new_pool (env : Env) (handler : nat -> Outcome -> World -> Script)
    (options : Options) : World :=
  match Pool_new env (callback env handler 8) options 8 with
  | Some w => w
  | None =>
      mkWorld (mkConfig 0 0 JUndefined JUndefined JUndefined JUndefined 0
                 JUndefined 0 0 false)
        0 [] [] [] [] 0 0 0 0 false false false None [] [] [] [] O O
  end.

(** [steps ops w]: the turns [ops] of the event loop, one after the other. *)
Fixpoint steps (env : Env) (handler : nat -> Outcome -> World -> Script)
    (ops : list Op) (w : World) : option World :=
  match ops with
  | [] => Some w
  | op :: rest =>
      match step env handler 8 op w with
      | Some w' => steps env handler rest w'
      | None => None
      end
  end.

(** A pool made with [{min: 1}] whose first creation is still pending, and
    the same with [{min: 1, expireTimeout: 500}]. *)
Definition pending_pool : World := new_pool async_env quiet_handler min1_options.

Definition pending_expiring_pool : World :=
  new_pool async_env quiet_handler expiring_options.

(** ** Predicates on states *)

(** The deadline of a request of the aging queue. *)
Definition deadline (r : Request) : Z :=
  match acquireTimeoutAt r with
  | JNum z => z
  | _ => 0
  end.

(** [a] is due before [b], or at the same time and was enqueued earlier
    (identities are handed out in the order of creation, and a request is
    enqueued as soon as it is created). *)
Definition before (a b : Request) : Prop :=
  deadline a < deadline b \/ (deadline a = deadline b /\ (req_id a < req_id b)%nat).

(** The aging queue holds requests with a numeric deadline, made in the
    past, in the order [before]. *)
Definition aging_sorted (w : World) : Prop :=
  Forall (fun r => js_isNaN (acquireTimeoutAt r) = false /\ (req_id r < fresh w)%nat)
    (agingRequests w)
  /\ StronglySorted before (agingRequests w).

(** [_scheduleMaintainance()] has been called on [w]: the flag is set, and
    a timer was added unless the flag was set already. *)
Definition maintenance_scheduled (w w' : World) : Prop :=
  isMaintenanceScheduled w' = true
  /\ (isMaintenanceScheduled w = false ->
      timers w' = timers w ++ [T_scheduledMaintain]).

(** ** Reading the history *)

Definition is_createCall (e : Effect) : bool :=
  match e with
  | call_createResource _ => true
  | _ => false
  end.

(** How many times the factory's [create] has been called. *)
Definition createCalls (w : World) : nat :=
  length (List.filter is_createCall (log w)).

(** The top-up policy in the words of the specification: [extra] starts at
    the number of waiting requests, is raised to [min] when both the
    total and [extra] are below [min], is cut to [max - total] when
    [total + extra] exceeds [max], loses the creations under way, and is
    capped by [max_creating - creating] when [max_creating > 0]. *)
Definition topUp (total waiting min max creating : Z) (max_creating : jsval) : Z :=
  let extra := waiting in
  let extra := if (total <? min) && (extra <? min) then min else extra in
  let extra := if total + extra >? max then max - total else extra in
  let extra := extra - creating in
  match max_creating with
  | JNum m => if m >? 0 then Z.min extra (m - creating) else extra
  | _ => extra
  end.

(** The events that count in the account of the completions: the
    admission of a request and the call of its completion. *)
Definition is_request_event (e : Effect) : bool :=
  match e with
  | emit_enqueueRequest _ | call_done _ _ => true
  | _ => false
  end.

(** The history [l'] continues [l] with events that do not count. *)
Definition log_ext (l l' : list Effect) : Prop :=
  exists new, l' = new ++ l /\ Forall (fun e => is_request_event e = false) new.

(** [w'] comes from [w] by code that touches neither the request queues,
    nor the draining flag, nor the account of the completions; and that, in a draining pool, puts nothing in the free
    list. *)
Record frame (w w' : World) : Prop := mkFrame {
  fr_cfg : cfg w' = cfg w;
  fr_aging : agingRequests w' = agingRequests w;
  fr_ageless : agelessRequests w' = agelessRequests w;
  fr_draining : isDraining w' = isDraining w;
  fr_fresh : (fresh w <= fresh w')%nat;
  fr_log : log_ext (log w) (log w');
  fr_free : isDraining w = true ->
            forall r, r ∈ freeResources w' -> r ∈ freeResources w
}.

(** [count p l]: how many elements of [l] satisfy [p]. *)
Definition count {A : Type} (p : A -> bool) (l : list A) : nat :=
  length (List.filter p l).

(** The request with identity [id], if it carries a completion callback. *)
Definition has_cb (id : nat) (r : Request) : bool :=
  (req_id r =? id)%nat && match done r with Some _ => true | None => false end.

Definition is_acquire (id : nat) (e : Effect) : bool :=
  match e with
  | emit_enqueueRequest r => has_cb id r
  | _ => false
  end.

Definition is_completion (id : nat) (e : Effect) : bool :=
  match e with
  | call_done r _ => (req_id r =? id)%nat
  | _ => false
  end.

(** How many times [acquire] has been called with a callback for the
    request [id] (0 or 1), how many times that callback has been called,
    and how many times the request sits in the queues. *)
Definition acquired (id : nat) (w : World) : nat := count (is_acquire id) (log w).

Definition completions (id : nat) (w : World) : nat :=
  count (is_completion id) (log w).

Definition queued (id : nat) (w : World) : nat :=
  count (has_cb id) (agingRequests w ++ agelessRequests w).

(** The account of the completions: every request made by [acquire] with a
    callback is either completed once, or queued once, or one of the
    requests [inflight] that a method has taken from a queue and is about
    to complete. *)
Definition settled (inflight : list Request) (w : World) : Prop :=
  (forall id, acquired id w
              = (completions id w + queued id w + count (has_cb id) inflight)%nat)
  /\ (forall id, (acquired id w <= 1)%nat)
  /\ (forall id, (fresh w <= id)%nat -> acquired id w = 0%nat).

(** A draining pool has no queued request and no free resource. *)
Definition drained (w : World) : Prop :=
  isDraining w = true ->
  agingRequests w = [] /\ agelessRequests w = [] /\ freeResources w = [].

(** What a method called on a draining pool may do: the pool stays
    draining, and what was empty stays empty. *)
Definition draining_kept (w w' : World) : Prop :=
  isDraining w = true ->
  isDraining w' = true
  /\ (agingRequests w = [] -> agingRequests w' = [])
  /\ (agelessRequests w = [] -> agelessRequests w' = [])
  /\ (freeResources w = [] -> freeResources w' = []).

(** The contract of a piece of code that runs from [w] to [w'] and, on the
    way, takes the requests [taken] out of the hands of its caller and
    leaves [left] in them: the account of the completions stays exact, the
    aging queue stays sorted, a draining pool stays draining and empty,
    and a pool that starts to drain ends up drained. *)
Definition acct (taken left : list Request) (w w' : World) : Prop :=
  forall F, settled (taken ++ F) w -> settled (left ++ F) w'.

Definition keeps_sorted (w w' : World) : Prop :=
  aging_sorted w -> aging_sorted w'.

Definition drained_after (w w' : World) : Prop :=
  isDraining w = false -> drained w'.

Definition ok (taken left : list Request) (w w' : World) : Prop :=
  acct taken left w w' /\ keeps_sorted w w' /\ draining_kept w w'
  /\ drained_after w w'.

(** The same for the behaviour of the client's callbacks. *)
Definition hook_ok (invoke : nat -> Outcome -> World -> option World) : Prop :=
  forall k o w w', invoke k o w = Some w' -> ok [] [] w w'.

(** What holds between two turns of the event loop. *)
Definition invariant (w : World) : Prop :=
  settled [] w /\ aging_sorted w /\ drained w.

(** The state of a fresh pool after the turns [ops]. *)
Definition pool_after (env : Env) (handler : nat -> Outcome -> World -> Script)
    (options : Options) (ops : list Op) : World :=
  match steps env handler ops (new_pool env handler options) with
  | Some w => w
  | None => new_pool env handler options
  end.

(** Three requests with deadlines 1501, 1102 and 1102, made in that order,
    wait for a factory that has not answered. *)
Definition queue_pool : World :=
  pool_after async_env quiet_handler no_options
    [op_call (c_acquire (Some (mkAcquireOptions (JNum 500))) (Some 1%nat));
     op_call (c_acquire (Some (mkAcquireOptions (JNum 100))) (Some 2%nat));
     op_call (c_acquire (Some (mkAcquireOptions (JNum 99))) (Some 3%nat))].

(** A pool made with [{min: 1}] holds one free resource, and a request
    without deadline has just been made; its callback tries
    [acquireSync] when the request fails. *)
Definition waiting_pool : World :=
  pool_after sample_env retry_handler min1_options
    [op_call (c_acquire None (Some 7%nat))].

(** The same request, made by a client whose callbacks do nothing, after
    the scheduled maintenance has served it. *)
Definition served_pool : World :=
  pool_after sample_env quiet_handler min1_options
    [op_call (c_acquire None (Some 7%nat)); op_timer 0].

(** The same request, cancelled by [drain] before the maintenance ran. *)
Definition drained_pool : World :=
  pool_after sample_env quiet_handler min1_options
    [op_call (c_acquire None (Some 7%nat)); op_call (c_drain None)].

(** The state in which [drain], called on [waiting_pool], calls the
    completion of the queued request: the pool is draining, the request
    has left its queue, and the free list has not been emptied yet. *)
Definition draining_mid : World :=
  let r := mkRequest 3 (Some 7%nat) 1005 JNaN in
  emit (call_done r (Failure POOL_ACQUIRE_ABORTED_BY_DRAIN))
    (emit (emit_serveError POOL_ACQUIRE_ABORTED_BY_DRAIN r)
       (set_agelessRequests []
          (set__maintenanceIntervalID None
             (emit (call_clearInterval 0) (set_isDraining true waiting_pool))))).

(** Callbacks that return at once without calling the pool. *)
Definition quiet_invoke (k : nat) (o : Outcome) (w : World) : option World :=
  Some w.

(** A maintenance pass of a pool made with [{min: 1}]: when it runs, a
    request whose deadline is past, a request due later, a request
    without deadline and another request due later are waiting, in the
    order they were made, and one resource is free. *)
Definition maintained_pool : World :=
  pool_after sample_env quiet_handler min1_options
    [op_call (c_acquire (Some (mkAcquireOptions (JNum (-1)))) (Some 1%nat));
     op_call (c_acquire (Some (mkAcquireOptions (JNum 500))) (Some 2%nat));
     op_call (c_acquire None (Some 3%nat));
     op_call (c_acquire (Some (mkAcquireOptions (JNum 600))) (Some 4%nat));
     op_timer 0].

Definition is_call_done (e : Effect) : bool :=
  match e with
  | call_done _ _ => true
  | _ => false
  end.

(** What the loops of [drain] leave alone when the callbacks do nothing. *)
Record drain_frame (w w' : World) : Prop := mkDrainFrame {
  df_draining : isDraining w' = isDraining w;
  df_interval : _maintenanceIntervalID w' = _maintenanceIntervalID w;
  df_lent : lentResources w' = lentResources w;
  df_timers : timers w' = timers w;
  df_creating : creatingResourceCount w' = creatingResourceCount w;
  df_log : forall e, In e (log w) -> In e (log w')
}.

(** The request [r] has been cancelled by [drain]. *)
Definition aborted (r : Request) (w : World) : Prop :=
  In (emit_serveError POOL_ACQUIRE_ABORTED_BY_DRAIN r) (log w)
  /\ (forall k, done r = Some k ->
      In (call_done r (Failure POOL_ACQUIRE_ABORTED_BY_DRAIN)) (log w)).

(** The resource [x] has been handed to the factory's [destroy]. *)
Definition destroyed (x : Resource) (w : World) : Prop :=
  In (emit_destroy x) (log w)
  /\ exists did, In (call_destroyResource x did) (log w).

(** ** Resources and their identity *)

(** What a resource record is made with: its identity, the handle, the
    time of creation and the time of expiry. *)
Definition core (r : Resource) : nat * Value * Z * jsval :=
  (res_id r, value r, res_createdAt r, expiresAt r).

Definition core_id (c : nat * Value * Z * jsval) : nat := fst (fst (fst c)).

(** The records that the pool holds, in the free list or lent. *)
Definition pool_resources (w : World) : list Resource :=
  freeResources w ++ lentResources w.

(** The same with the records [inflight] that a method has taken from a
    list and not put back or destroyed yet. *)
Definition cores (w : World) (inflight : list Resource) : list (nat * Value * Z * jsval) :=
  map core (pool_resources w ++ inflight).

(** Identities are older than [fr], and two records with the same
    identity were made with the same handle, creation time and expiry. *)
Definition coherent (fr : nat) (cs : list (nat * Value * Z * jsval)) : Prop :=
  (forall c, In c cs -> (core_id c < fr)%nat)
  /\ (forall c1 c2, In c1 cs -> In c2 cs -> core_id c1 = core_id c2 -> c1 = c2).

(** The contract of a piece of code about the resources: it starts with
    the records [taken] in flight and ends with [left] in flight; every
    record it ends with is made as a record it started with, or has a new
    identity; and it keeps the identities coherent. *)
Definition rkeep (taken left : list Resource) (w w' : World) : Prop :=
  (fresh w <= fresh w')%nat
  /\ (forall c, In c (cores w' left) ->
      In c (cores w taken) \/ (fresh w <= core_id c)%nat)
  /\ (coherent (fresh w) (cores w taken) -> coherent (fresh w') (cores w' left)).

Definition rhook_ok (invoke : nat -> Outcome -> World -> option World) : Prop :=
  forall k o w w', invoke k o w = Some w' -> rkeep [] [] w w'.

(** [w'] comes from [w] by code that only removes records from the two
    lists. *)
Definition shrink (w w' : World) : Prop :=
  (fresh w <= fresh w')%nat
  /\ (forall r, r ∈ freeResources w' -> r ∈ freeResources w)
  /\ (forall r, r ∈ lentResources w' -> r ∈ lentResources w).

(** [reaches env handler w w']: some turns of the event loop lead from [w]
    to [w']. *)
Inductive reaches (env : Env) (handler : nat -> Outcome -> World -> Script)
    : World -> World -> Prop :=
| reaches_refl w : reaches env handler w w
| reaches_step fuel op w1 w2 w3 :
    reaches env handler w1 w2 ->
    step env handler fuel op w2 = Some w3 ->
    reaches env handler w1 w3.

(** A pool made with [{min: 1, expireTimeout: 500}] and a factory that
    answers at once; and the same pool after its resource has been
    acquired, lent by the maintenance and released. *)
Definition expiring_pool : World :=
  pool_after sample_env quiet_handler expiring_options [].

Definition recycled_pool : World :=
  pool_after sample_env quiet_handler expiring_options
    [op_call (c_acquire None (Some 7%nat)); op_timer 0;
     op_call (c_release 102%nat)].

(** The records that the pool has reported with a [destroy] event, in the
    order of the events. *)
Fixpoint destroy_events (l : list Effect) : list Resource :=
  match l with
  | [] => []
  | emit_destroy r :: l' => destroy_events l' ++ [r]
  | _ :: l' => destroy_events l'
  end.

(** The test of [_destroyDeadResources]: [now > resource[key] + timeout]. *)
Definition is_dead (now : Z) (key : Resource -> jsval) (tmo : jsval)
    (r : Resource) : bool :=
  js_gt (JNum now) (js_add (key r) tmo).

(** ** The bookkeeping of a pool *)

Definition is_backoff (t : Timer) : bool :=
  match t with
  | T_backoff => true
  | _ => false
  end.

Definition is_scheduled (t : Timer) : bool :=
  match t with
  | T_scheduledMaintain => true
  | _ => false
  end.

(** The intervals that the history has set and not cleared. *)
Fixpoint running (l : list Effect) : list nat :=
  match l with
  | [] => []
  | call_setInterval id _ :: l' => id :: running l'
  | call_clearInterval id :: l' => filter (λ x, x ≠ id) (running l')
  | _ :: l' => running l'
  end.

(** A record of the free list has no request and a numeric [idleAt]; a
    lent record has the request it serves. *)
Definition free_shape (r : Resource) : Prop :=
  request r = None /\ js_isNaN (idleAt r) = false.

Definition lent_shape (r : Resource) : Prop := request r <> None.

(** The identities of the records of the pool, of the records
    [inflight], and of the records that have been destroyed. *)
Definition ids (w : World) (inflight : list Resource) : list nat :=
  map res_id (pool_resources w ++ inflight ++ destroy_events (log w)).

(** The bookkeeping is in order: the two counters of pending factory
    calls count the callbacks that have not been called (and, for
    creations, the back-off delays that have not elapsed); at most one
    scheduled maintenance is pending, and only when the flag says so; no
    two records of the pool, [inflight] and destroyed ones included,
    share an identity; the
    records have the shape of their list; the interval that runs is the
    one the pool remembers. *)
Record tidy (inflight : list Resource) (w : World) : Prop := mkTidy {
  td_creating : NoDup (creating w);
  td_destroying : NoDup (destroying w);
  td_creating_old : Forall (fun c => (c < fresh w)%nat) (creating w);
  td_destroying_old : Forall (fun d => (d < fresh w)%nat) (destroying w);
  td_destroyingCount :
    destroyingResourceCount w = Z.of_nat (length (destroying w));
  td_creatingCount :
    creatingResourceCount w
    = Z.of_nat (length (creating w)) + Z.of_nat (count is_backoff (timers w));
  td_scheduled :
    (count is_scheduled (timers w)
     <= if isMaintenanceScheduled w then 1 else 0)%nat;
  td_ids : NoDup (ids w inflight);
  td_ids_old : Forall (fun i => (i < fresh w)%nat) (ids w inflight);
  td_free : Forall free_shape (freeResources w);
  td_lent : Forall lent_shape (lentResources w);
  td_interval :
    running (log w)
    = match _maintenanceIntervalID w with Some id => [id] | None => [] end
}.

(** The most that the pool may count: [max], or nothing when [max] is
    negative. *)
Definition bound (w : World) : Z := Z.max 0 (max (cfg w)).

(** A maintenance that the flag announces is pending. *)
Definition pending (w : World) : Prop :=
  isMaintenanceScheduled w = true -> (1 <= count is_scheduled (timers w))%nat.

(** The contract of a piece of code about the bookkeeping; [taken] and
    [left] are the records in flight before and after, and [n] is the
    number of resources that the code may add to the count. *)
Record keeps (n : Z) (taken left : list Resource) (w w' : World) : Prop := mkKeeps {
  kp_cfg : cfg w' = cfg w;
  kp_maintaining : isMaintaining w' = isMaintaining w;
  kp_scheduled :
    isMaintenanceScheduled w = true ->
    isMaintenanceScheduled w' = true
    /\ count is_scheduled (timers w') = count is_scheduled (timers w);
  kp_pending : pending w -> pending w';
  kp_tidy :
    tidy taken w ->
    tidy left w'
    /\ _countResources w' + Z.of_nat (length left)
       <= _countResources w + Z.of_nat (length taken) + n
}.

Definition khook_ok (invoke : nat -> Outcome -> World -> option World) : Prop :=
  forall k o w w', invoke k o w = Some w' -> keeps 0 [] [] w w'.

(** The contract of the maintenance, which may create resources up to
    the bound. *)
Record within (w w' : World) : Prop := mkWithin {
  wi_cfg : cfg w' = cfg w;
  wi_maintaining : isMaintaining w' = isMaintaining w;
  wi_scheduled :
    isMaintenanceScheduled w = true ->
    isMaintenanceScheduled w' = true
    /\ count is_scheduled (timers w') = count is_scheduled (timers w);
  wi_pending : pending w -> pending w';
  wi_tidy :
    tidy [] w -> _countResources w <= bound w ->
    tidy [] w' /\ _countResources w' <= bound w'
}.

(** What holds of the bookkeeping between two turns of the event loop. *)
Definition orderly (w : World) : Prop :=
  tidy [] w
  /\ _countResources w <= bound w
  /\ isMaintaining w = false
  /\ pending w.

(** What the creation of resources leaves alone. *)
Record create_frame (w w' : World) : Prop := mkCreateFrame {
  cf_lent : lentResources w' = lentResources w;
  cf_interval : _maintenanceIntervalID w' = _maintenanceIntervalID w;
  cf_maintenanceInterval : maintenanceInterval w' = maintenanceInterval w;
  cf_log : forall e, In e (log w) -> In e (log w')
}.

(** What the reapers leave alone when there is nothing to reap. *)
Record reap_frame (w w' : World) : Prop := mkReapFrame {
  rf_cfg : cfg w' = cfg w;
  rf_maintenanceInterval : maintenanceInterval w' = maintenanceInterval w;
  rf_aging : agingRequests w' = agingRequests w;
  rf_ageless : agelessRequests w' = agelessRequests w;
  rf_free : freeResources w' = freeResources w;
  rf_lent : lentResources w' = lentResources w;
  rf_creating : creatingResourceCount w' = creatingResourceCount w;
  rf_destroying : destroyingResourceCount w' = destroyingResourceCount w;
  rf_draining : isDraining w' = isDraining w;
  rf_maintaining : isMaintaining w' = isMaintaining w;
  rf_interval : _maintenanceIntervalID w' = _maintenanceIntervalID w;
  rf_log : log w' = log w
}.

(** The number of creations that the constructor starts. *)
Definition initial_creations (c : Config) : Z :=
  match maxCreating c with
  | JNum m => if m >? 0 then Z.min (Z.min (min c) (max c)) m
              else Z.min (min c) (max c)
  | _ => Z.min (min c) (max c)
  end.

(** ** The size of the queues *)

(** The number of requests that wait. *)
Definition waiting (w : World) : Z :=
  Z.of_nat (length (agelessRequests w)) + Z.of_nat (length (agingRequests w)).

(** The queues respect [maxRequests] when it is a number, and the ageless
    queue holds requests without a numeric deadline. *)
Definition qbounded (w : World) : Prop :=
  match maxRequests (cfg w) with
  | JNum m => waiting w <= Z.max 0 m
  | _ => True
  end
  /\ Forall (fun r => js_isNaN (acquireTimeoutAt r) = true) (agelessRequests w).

(** The contract of a piece of code about the size of the queues. *)
Definition qkeeps (w w' : World) : Prop :=
  cfg w' = cfg w /\ (qbounded w -> qbounded w').

Definition qhook_ok (invoke : nat -> Outcome -> World -> option World) : Prop :=
  forall k o w w', invoke k o w = Some w' -> qkeeps w w'.

(** [{maxRequests: 1}] *)
Definition capped_options : Options :=
  mkOptions JUndefined JUndefined JUndefined (JNum 1) JUndefined JUndefined
    JUndefined JUndefined JUndefined JUndefined JUndefined false.

(** A pool made with [{maxRequests: 1}] and a factory that has not
    answered, after two calls of [acquire]. *)
Definition capped_pool : World :=
  pool_after async_env quiet_handler capped_options
    [op_call (c_acquire None (Some 1%nat)); op_call (c_acquire None (Some 2%nat))].

(** A pool made with [{min: 1}] in which four requests wait for the
    maintenance: one whose deadline is past, one due later, one without
    deadline and another one due later; one resource is free. *)
Definition crowded_pool : World :=
  pool_after sample_env quiet_handler min1_options
    [op_call (c_acquire (Some (mkAcquireOptions (JNum (-1)))) (Some 1%nat));
     op_call (c_acquire (Some (mkAcquireOptions (JNum 500))) (Some 2%nat));
     op_call (c_acquire None (Some 3%nat));
     op_call (c_acquire (Some (mkAcquireOptions (JNum 600))) (Some 4%nat))].

(** [crowded_pool] after the loop of [_serveAgingRequests], run at time
    1020 with callbacks that do nothing, and then after the loop of
    [_serveAgelessRequests]. *)
Definition tended_aging_pool : World :=
  match serveAging sample_env quiet_invoke 8 1020 crowded_pool with
  | Some w => w
  | None => crowded_pool
  end.

Definition tended_pool : World :=
  match _serveAgelessRequests sample_env quiet_invoke 8 tended_aging_pool with
  | Some w => w
  | None => tended_aging_pool
  end.

(** The pool of [served_pool] after the client has destroyed the
    resource it was lent. *)
Definition destroyed_pool : World :=
  pool_after sample_env quiet_handler min1_options
    [op_call (c_acquire None (Some 7%nat)); op_timer 0;
     op_call (c_destroy 101%nat)].

(** ** Timeouts *)

(** Every completion that the history calls with a timeout error belongs
    to a request whose deadline was before a time that the pool had read
    from the clock. *)
Definition timely (env : Env) (w : World) : Prop :=
  forall r,
    In (call_done r (Failure POOL_ACQUIRE_TIMEOUT_ERROR)) (log w) ->
    exists t, (t < ticks w)%nat
              /\ js_gt (JNum (clock env t)) (acquireTimeoutAt r) = true.

(** The contract of a piece of code about the timeouts: time goes on, and
    the completions stay timely. *)
Definition tkeeps (env : Env) (w w' : World) : Prop :=
  (ticks w <= ticks w')%nat /\ (timely env w -> timely env w').

Definition thook_ok (env : Env)
    (invoke : nat -> Outcome -> World -> option World) : Prop :=
  forall k o w w', invoke k o w = Some w' -> tkeeps env w w'.

(** ** Errors *)

(** What must hold of the pool for a completion to have been called with
    the error [code]. *)
Definition error_cause (code : ErrCode) (w : World) : Prop :=
  match code with
  | POOL_ACQUIRE_DURING_DRAINING | POOL_ACQUIRE_ABORTED_BY_DRAIN =>
      isDraining w = true
  | POOL_MAX_REQUESTS_LIMIT => js_isNaN (maxRequests (cfg w)) = false
  | POOL_ACQUIRE_TIMEOUT_ERROR => True
  end.

(** The errors that the history has given to completions have their
    cause. *)
Definition honest (w : World) : Prop :=
  forall r code, In (call_done r (Failure code)) (log w) -> error_cause code w.

(** The contract of a piece of code about the errors. *)
Definition ekeeps (w w' : World) : Prop :=
  cfg w' = cfg w
  /\ (isDraining w = true -> isDraining w' = true)
  /\ (honest w -> honest w').

Definition ehook_ok (invoke : nat -> Outcome -> World -> option World) : Prop :=
  forall k o w w', invoke k o w = Some w' -> ekeeps w w'.

(** ** The end of a drain *)

Definition is_drain (e : Effect) : bool :=
  match e with
  | emit_drain => true
  | _ => false
  end.

Definition is_waitDrain (t : Timer) : bool :=
  match t with
  | T_waitDrain _ => true
  | _ => false
  end.

(** The pool has emitted [drain]. *)
Definition drain_emitted (w : World) : bool := existsb is_drain (log w).

(** A [_waitDrain] is pending. *)
Definition drain_awaited (w : World) : bool := existsb is_waitDrain (timers w).

(** A pool that has let go of everything: it is draining, it holds no
    free and no lent record, and no record is in flight. *)
Definition gone (inflight : list Resource) (w : World) : Prop :=
  isDraining w = true
  /\ freeResources w = []
  /\ lentResources w = []
  /\ inflight = [].

(** Only a draining pool waits for the end of a drain, and a pool that
    has emitted [drain] has let go of everything. *)
Definition closed (inflight : list Resource) (w : World) : Prop :=
  (drain_awaited w = true -> isDraining w = true)
  /\ (drain_emitted w = true -> gone inflight w).

(** The contract of a piece of code about the end of a drain. *)
Record dkeeps (taken left : list Resource) (w w' : World) : Prop := mkDkeeps {
  dk_draining : isDraining w = true -> isDraining w' = true;
  dk_gone : gone taken w -> gone left w';
  dk_closed : tidy taken w -> closed taken w -> tidy left w' /\ closed left w'
}.

Definition dhook_ok (invoke : nat -> Outcome -> World -> option World) : Prop :=
  forall k o w w', invoke k o w = Some w' -> dkeeps [] [] w w'.

(** What code that neither emits [drain] nor waits for it leaves alone. *)
Record calm (w w' : World) : Prop := mkCalm {
  cl_emitted : drain_emitted w' = drain_emitted w;
  cl_awaited : drain_awaited w' = drain_awaited w;
  cl_lent : lentResources w = [] -> lentResources w' = []
}.




(** A client that answers a resource by destroying it and draining the
    pool. *)
Definition closing_handler (k : nat) (o : Outcome) (w : World) : Script :=
  match o with
  | Success v =>
      s_call (c_destroy v) (fun _ => s_call (c_drain None) (fun _ => s_return))
  | _ => s_return
  end.

(** A pool made with [{min: 1}], one request of that client, and the
    maintenance that serves it. *)
Definition closing_pool : World :=
  pool_after sample_env closing_handler min1_options
    [op_call (c_acquire None (Some 7%nat)); op_timer 0].

(** * Properties *)

Arguments js_add : simpl never.
Arguments js_sub : simpl never.
Arguments js_or : simpl never.
Arguments js_lt : simpl never.
Arguments js_gt : simpl never.
Arguments js_ge : simpl never.
Arguments count {A} p l : simpl never.
Arguments _serveRequest : simpl never.

(** ** Requests and their deadlines *)

Section Deadlines.

Variable env : Env.
Variable invoke : nat -> Outcome -> World -> option World.

Lemma truthy_zero : truthy (JNum 0) = false.
Proof. reflexivity. Qed.

Lemma js_or_falsy a b : truthy a = false -> js_or a b = b.
Proof. unfold js_or. now intros ->. Qed.

(** A request made with [timeout: 0] is the request made without
    options, and the one made with options that have no [timeout]. *)
Lemma createRequest_timeout_zero done w :
  _createRequest env (Some (mkAcquireOptions (JNum 0))) done w
  = _createRequest env None done w
  /\ _createRequest env (Some (mkAcquireOptions JUndefined)) done w
     = _createRequest env None done w.
Proof. split; reflexivity. Qed.

Lemma createRequest_deadline options done w :
  acquireTimeoutAt (fst (_createRequest env options done w))
  = js_add (JNum (clock env (ticks w)))
      (js_or (match options with Some o => timeout o | None => JUndefined end)
         (acquireTimeout (cfg w))).
Proof. reflexivity. Qed.

End Deadlines.

(** C10.  For an [acquire] whose options give [timeout = 0], the request
    and the whole call are those of an [acquire] without a per-request
    timeout: the deadline is the clock reading plus the pool's default
    [acquireTimeout]; and when that default is unset too, the deadline is
    not a number, the request goes to the end of the ageless queue and
    the aging queue is left alone. *)
Theorem C10_timeout_zero_is_unset :
  forall (env : Env) (invoke : nat -> Outcome -> World -> option World)
         (done : option nat) (w : World),
    let zero := Some (mkAcquireOptions (JNum 0)) in
    _createRequest env zero done w = _createRequest env None done w
    /\ acquire env invoke zero done w = acquire env invoke None done w
    /\ acquireTimeoutAt (fst (_createRequest env zero done w))
       = js_add (JNum (clock env (ticks w))) (acquireTimeout (cfg w))
    /\ (acquireTimeout (cfg w) = JUndefined ->
        let request := fst (_createRequest env zero done w) in
        let w1 := snd (_createRequest env zero done w) in
        acquireTimeoutAt request = JNaN
        /\ js_isNaN (acquireTimeoutAt request) = true
        /\ agelessRequests (_insertRequestByAcquireTimeout request w1)
           = agelessRequests w1 ++ [request]
        /\ agingRequests (_insertRequestByAcquireTimeout request w1)
           = agingRequests w1).
Proof.
  intros env invoke done w zero.
  split; [reflexivity|]. split; [reflexivity|]. split; [reflexivity|].
  intros Hunset request w1.
  assert (Hd : acquireTimeoutAt request = JNaN).
  { subst request. rewrite createRequest_deadline. simpl. now rewrite Hunset. }
  split; [exact Hd|].
  unfold _insertRequestByAcquireTimeout. rewrite Hd. simpl. auto.
Qed.

(** ** Creation of a resource *)

(** What the callback of [_createResource] stores on success. *)
Lemma createCallback_stores env cid v w :
  cid ∈ creating w ->
  isDraining w = false ->
  let now := clock env (ticks w) in
  let created :=
    mkResource (fresh w) v now (js_add (JNum now) (expireTimeout (cfg w)))
      JUndefined None in
  validateResource env (S (ticks w)) created = true ->
  freeResources (createCallback env cid (CreateOk v) w)
  = freeResources w
    ++ [mkResource (fresh w) v now (js_add (JNum now) (expireTimeout (cfg w)))
          (JNum (clock env (S (S (ticks w))))) None].
Proof.
  intros Hin Hd now created Hv.
  unfold createCallback. rewrite decide_True by exact Hin.
  cbn -[filter]. unfold _storeResource. cbn -[filter].
  rewrite Hd. cbn -[filter].
  unfold created, now in Hv. rewrite Hv.
  unfold _scheduleMaintainance. cbn -[filter].
  destruct (isMaintenanceScheduled w); reflexivity.
Qed.

(** C8 (as amended).  When the factory's callback reports success and the
    new record is stored, its [expiresAt] is [createdAt + expireTimeout]
    if [expireTimeout] is a number, and is [NaN] (a property that is
    present but not a number) if [expireTimeout] is not configured. *)
Theorem C8_expiresAt_of_new_resource :
  forall (env : Env) (cid : nat) (v : Value) (w : World),
    cid ∈ creating w ->
    isDraining w = false ->
    validateResource env (S (ticks w))
      (mkResource (fresh w) v (clock env (ticks w))
         (js_add (JNum (clock env (ticks w))) (expireTimeout (cfg w)))
         JUndefined None) = true ->
    exists stored,
      freeResources (createCallback env cid (CreateOk v) w)
      = freeResources w ++ [stored]
      /\ value stored = v
      /\ res_createdAt stored = clock env (ticks w)
      /\ (forall t, expireTimeout (cfg w) = JNum t ->
          expiresAt stored = JNum (res_createdAt stored + t))
      /\ (expireTimeout (cfg w) = JUndefined -> expiresAt stored = JNaN).
Proof.
  intros env cid v w Hin Hd Hv.
  eexists. split.
  - apply createCallback_stores; assumption.
  - cbn. repeat split.
    + intros t ->. reflexivity.
    + intros ->. reflexivity.
Qed.

(** The theorem at a pool made with [{min: 1, expireTimeout: 500}], when
    the factory answers its first call with handle 7. *)
Lemma C8_expiresAt_witness :
  exists stored,
    freeResources (createCallback async_env 1 (CreateOk 7%nat) pending_expiring_pool)
    = freeResources pending_expiring_pool ++ [stored]
    /\ value stored = 7%nat
    /\ res_createdAt stored = clock async_env (ticks pending_expiring_pool)
    /\ (forall t, expireTimeout (cfg pending_expiring_pool) = JNum t ->
        expiresAt stored = JNum (res_createdAt stored + t))
    /\ (expireTimeout (cfg pending_expiring_pool) = JUndefined ->
        expiresAt stored = JNaN).
Proof.
  apply (C8_expiresAt_of_new_resource async_env 1%nat 7%nat pending_expiring_pool).
  - vm_compute. constructor.
  - reflexivity.
  - reflexivity.
Defined.

(** C8 as stated fails: in a pool made without [expireTimeout], the stored
    record has an [expiresAt] property, whose value is [NaN]; the property
    is not absent. *)
Lemma C8_expiresAt_counterexample :
  expireTimeout (cfg pending_pool) = JUndefined
  /\ exists stored,
       freeResources (createCallback async_env 1 (CreateOk 7%nat) pending_pool)
       = freeResources pending_pool ++ [stored]
       /\ expiresAt stored = JNaN
       /\ expiresAt stored <> JUndefined.
Proof.
  split; [reflexivity|].
  eexists. split; [vm_compute; reflexivity|].
  split; [reflexivity|discriminate].
Qed.

(** ** Admission of a request *)

Lemma deadline_num r :
  js_isNaN (acquireTimeoutAt r) = false -> acquireTimeoutAt r = JNum (deadline r).
Proof. unfold deadline. destruct (acquireTimeoutAt r); simpl; congruence. Qed.

Lemma js_lt_deadline a b :
  js_isNaN (acquireTimeoutAt a) = false ->
  js_isNaN (acquireTimeoutAt b) = false ->
  js_lt (acquireTimeoutAt a) (acquireTimeoutAt b) = (deadline a <? deadline b).
Proof.
  intros Ha Hb. rewrite (deadline_num a Ha), (deadline_num b Hb). reflexivity.
Qed.

(** Where the [while] loop of [_insertRequestByAcquireTimeout] stops:
    everything after the index is due strictly later than [request], and
    the element just before it, if any, is not. *)
Lemma insertIndex_spec request aging j :
  (j <= length aging)%nat ->
  Forall (fun r => js_lt (acquireTimeoutAt request) (acquireTimeoutAt r) = true)
    (drop j aging) ->
  let i := insertIndex request aging j in
  (i <= j)%nat
  /\ Forall (fun r => js_lt (acquireTimeoutAt request) (acquireTimeoutAt r) = true)
       (drop i aging)
  /\ (forall r, (0 < i)%nat -> aging !! (i - 1)%nat = Some r ->
      js_lt (acquireTimeoutAt request) (acquireTimeoutAt r) = false).
Proof.
  induction j as [|j IH]; intros Hj Hall; simpl.
  - split; [lia|]. split; [exact Hall|]. intros r H; lia.
  - destruct (aging !! j) as [r|] eqn:Hr.
    + destruct (js_lt (acquireTimeoutAt request) (acquireTimeoutAt r)) eqn:Hlt.
      * assert (Hd : drop j aging = r :: drop (S j) aging)
          by (now apply drop_S).
        destruct IH as (Hi & Hf & Hp); [lia| rewrite Hd; now constructor |].
        split; [lia|]. split; assumption.
      * split; [lia|]. split; [exact Hall|].
        intros r' _ Hr'. replace (S j - 1)%nat with j in Hr' by lia.
        congruence.
    + apply lookup_ge_None in Hr. lia.
Qed.


Lemma before_of_le a b :
  deadline a <= deadline b -> (req_id a < req_id b)%nat -> before a b.
Proof. unfold before. intros H1 H2. lia. Qed.

Lemma before_deadline_le a b : before a b -> deadline a <= deadline b.
Proof. unfold before. lia. Qed.

Lemma elem_of_take_l {A} (x : A) n l : x ∈ take n l -> x ∈ l.
Proof. intros H. rewrite <- (take_drop n l). apply elem_of_app. now left. Qed.

Lemma elem_of_drop_l {A} (x : A) n l : x ∈ drop n l -> x ∈ l.
Proof. intros H. rewrite <- (take_drop n l). apply elem_of_app. now right. Qed.

(** Splicing at [insertIndex] keeps the queue in the order [before], when
    the new request is younger than every queued one. *)
Lemma insert_keeps_sorted request aging :
  Forall (fun r => js_isNaN (acquireTimeoutAt r) = false
                   /\ (req_id r < req_id request)%nat) aging ->
  StronglySorted before aging ->
  js_isNaN (acquireTimeoutAt request) = false ->
  let i := insertIndex request aging (length aging) in
  StronglySorted before (take i aging ++ request :: drop i aging).
Proof.
  intros Hall Hs Hn i.
  destruct (insertIndex_spec request aging (length aging)) as (Hi & Hlater & Hprev).
  { lia. }
  { rewrite drop_all. constructor. }
  fold i in Hi, Hlater, Hprev.
  rewrite <- (take_drop i aging) in Hs.
  apply StronglySorted_app in Hs as (Hcross & Hs1 & Hs2).
  rewrite Forall_forall in Hall.
  assert (Hle : forall x, x ∈ take i aging -> deadline x <= deadline request).
  { destruct i as [|i']; [intros x Hx; rewrite take_0 in Hx; inversion Hx|].
    destruct (lookup_lt_is_Some_2 aging i') as [p Hp]; [lia|].
    specialize (Hprev p ltac:(lia)).
    replace (S i' - 1)%nat with i' in Hprev by lia. specialize (Hprev Hp).
    assert (Hpn : js_isNaN (acquireTimeoutAt p) = false).
    { apply Hall. eapply list_elem_of_lookup_2; eauto. }
    rewrite js_lt_deadline in Hprev by assumption.
    apply Z.ltb_ge in Hprev.
    rewrite (take_S_r _ _ _ Hp) in Hs1 |- *.
    apply StronglySorted_app in Hs1 as (Hc1 & _ & _).
    intros x Hx. apply elem_of_app in Hx as [Hx|Hx].
    - specialize (Hc1 x p Hx ltac:(constructor)).
      apply before_deadline_le in Hc1. lia.
    - apply list_elem_of_singleton in Hx. subst x. lia. }
  apply StronglySorted_app_2.
  - intros x1 x2 H1 H2. apply elem_of_cons in H2 as [->|H2].
    + apply before_of_le; [now apply Hle|].
      apply Hall. eapply elem_of_take_l; eauto.
    + now apply Hcross.
  - exact Hs1.
  - constructor; [exact Hs2|].
    rewrite Forall_forall in Hlater |- *. intros x Hx.
    specialize (Hlater x Hx).
    rewrite js_lt_deadline in Hlater.
    + apply Z.ltb_lt in Hlater. left. exact Hlater.
    + exact Hn.
    + apply Hall. eapply elem_of_drop_l; eauto.
Qed.

Lemma js_ge_full n m :
  js_ge (JNum n) m = match m with JNum c => c <=? n | _ => false end.
Proof. destruct m; reflexivity. Qed.


(** ** Creation of resources on demand *)

Ltac case_ifs :=
  repeat match goal with
         | |- context [if ?b then _ else _] => destruct b eqn:?
         | |- context [match ?x with Some _ => _ | None => _ end] => destruct x eqn:?
         end.

Lemma createCalls_scheduleMaintainance w :
  createCalls (_scheduleMaintainance w) = createCalls w.
Proof. unfold _scheduleMaintainance. case_ifs; reflexivity. Qed.

Lemma createCalls_destroyResource env r w :
  createCalls (_destroyResource env r w) = createCalls w.
Proof. unfold _destroyResource, destroyCallback. cbn -[filter]. case_ifs; reflexivity. Qed.

Lemma createCalls_storeResource env r w :
  createCalls (_storeResource env r w) = createCalls w.
Proof.
  unfold _storeResource. case_ifs.
  - cbn. now rewrite createCalls_scheduleMaintainance.
  - now rewrite createCalls_destroyResource.
  - now rewrite createCalls_destroyResource.
Qed.

Lemma createCalls_createCallback env cid result w :
  createCalls (createCallback env cid result w) = createCalls w.
Proof.
  unfold createCallback. destruct (decide (cid ∈ creating w)); [|reflexivity].
  destruct result; cbn -[filter].
  - case_ifs; reflexivity.
  - now rewrite createCalls_storeResource.
Qed.

(** One call of [_createResource] is one call of the factory. *)
Lemma createCalls_createResource env w :
  createCalls (_createResource env w) = S (createCalls w).
Proof.
  unfold _createResource. cbn -[filter].
  destruct (createResource env (ticks w)); [rewrite createCalls_createCallback|];
    reflexivity.
Qed.

Lemma createCalls_createLoop env n w :
  createCalls (createLoop env n w) = (createCalls w + n)%nat.
Proof.
  revert w. induction n as [|n IH]; intros w; simpl; [lia|].
  rewrite IH, createCalls_createResource. lia.
Qed.

(** The number computed by [_createResources] is the top-up of the
    specification. *)
Lemma extraResources_topUp w :
  extraResources w
  = topUp (_countResources w)
      (Z.of_nat (length (agingRequests w)) + Z.of_nat (length (agelessRequests w)))
      (min (cfg w)) (max (cfg w)) (creatingResourceCount w) (maxCreating (cfg w)).
Proof.
  unfold extraResources, topUp.
  rewrite (Z.add_comm (Z.of_nat (length (agingRequests w)))).
  cbv zeta.
  destruct (maxCreating (cfg w)) as [| |m]; try reflexivity.
  destruct (m >? 0); [|reflexivity].
  match goal with |- (if ?a >? ?b then _ else _) = _ =>
    destruct (Z.gtb_spec a b); lia end.
Qed.

(** C5.  In the top-up step, the factory's [create] is called as many
    times as the top-up computed from the total
    [|free| + |lent| + creating + destroying], the number of waiting
    requests, [min], [max], the creations under way and [maxCreating],
    when that number is positive, and not at all otherwise. *)
Theorem C5_top_up_creates :
  forall (env : Env) (w : World),
    let total :=
      Z.of_nat (length (freeResources w)) + Z.of_nat (length (lentResources w))
      + creatingResourceCount w + destroyingResourceCount w in
    let waiting :=
      Z.of_nat (length (agingRequests w)) + Z.of_nat (length (agelessRequests w)) in
    let extra :=
      topUp total waiting (min (cfg w)) (max (cfg w)) (creatingResourceCount w)
        (maxCreating (cfg w)) in
    createCalls (_createResources env w)
    = (createCalls w + (if extra >? 0 then Z.to_nat extra else 0))%nat.
Proof.
  intros env w total waiting extra.
  unfold _createResources. rewrite createCalls_createLoop, extraResources_topUp.
  change (_countResources w) with total. fold waiting. fold extra.
  destruct (Z.gtb_spec extra 0); [reflexivity|].
  rewrite Z2Nat.nonpos by lia. reflexivity.
Qed.

(** ** Methods that leave the requests alone *)

Lemma log_ext_refl l : log_ext l l.
Proof. exists []. split; [reflexivity|constructor]. Qed.

Lemma log_ext_cons e l l' :
  is_request_event e = false -> log_ext l l' -> log_ext l (e :: l').
Proof.
  intros He (new & -> & Hn). exists (e :: new). split; [reflexivity|].
  constructor; assumption.
Qed.

Lemma log_ext_trans l1 l2 l3 : log_ext l1 l2 -> log_ext l2 l3 -> log_ext l1 l3.
Proof.
  intros (n1 & -> & H1) (n2 & -> & H2). exists (n2 ++ n1).
  split; [now rewrite app_assoc|]. apply Forall_app. split; assumption.
Qed.

Lemma frame_refl w : frame w w.
Proof. split; auto using log_ext_refl. Qed.

Lemma frame_trans w1 w2 w3 : frame w1 w2 -> frame w2 w3 -> frame w1 w3.
Proof.
  intros [c1 a1 b1 d1 f1 l1 r1] [c2 a2 b2 d2 f2 l2 r2]. split.
  - congruence.
  - congruence.
  - congruence.
  - congruence.
  - lia.
  - eapply log_ext_trans; eauto.
  - intros Hd r Hr. apply r1; [exact Hd|]. apply r2; [congruence|exact Hr].
Qed.

(** Closes [frame w w'] when [w'] is [w] with some fields other than the
    queues, the free list and the draining flag rewritten. *)
Ltac frame_fields :=
  split; cbn;
  [ reflexivity | reflexivity | reflexivity | reflexivity | lia
  | repeat (apply log_ext_cons; [reflexivity|]); apply log_ext_refl
  | first [ intros _ ? H; exact H | intros; congruence ] ].

Lemma frame_scheduleMaintainance w : frame w (_scheduleMaintainance w).
Proof.
  unfold _scheduleMaintainance. destruct (isMaintenanceScheduled w);
    [apply frame_refl|frame_fields].
Qed.

Lemma frame_destroyCallback did w : frame w (destroyCallback did w).
Proof.
  unfold destroyCallback. destruct (decide (did ∈ destroying w));
    [frame_fields|apply frame_refl].
Qed.

Lemma frame_destroyResource env r w : frame w (_destroyResource env r w).
Proof.
  unfold _destroyResource. cbv zeta.
  match goal with |- frame _ (if _ then destroyCallback ?d ?x else _) =>
    assert (H : frame w x) by frame_fields;
    destruct (destroyResource env _ _);
    [eapply frame_trans; [exact H|apply frame_destroyCallback]|exact H]
  end.
Qed.

Lemma frame_storeResource env r w : frame w (_storeResource env r w).
Proof.
  unfold _storeResource. destruct (isDraining w) eqn:Hd; cbn [negb].
  - apply frame_destroyResource.
  - destruct (validateResource env (ticks w) r).
    + cbv zeta. unfold timeNow.
      eapply frame_trans; [|apply frame_scheduleMaintainance].
      frame_fields.
    + eapply frame_trans; [|apply frame_destroyResource]. frame_fields.
Qed.

Lemma frame_set_free l w :
  (isDraining w = true -> forall r, r ∈ l -> r ∈ freeResources w) ->
  frame w (set_freeResources l w).
Proof.
  intros H. split; cbn;
    [reflexivity|reflexivity|reflexivity|reflexivity|lia|apply log_ext_refl|exact H].
Qed.

Lemma frame_nextFree env free w :
  (forall r, r ∈ free -> r ∈ freeResources w) ->
  frame w (snd (nextFree env free w)).
Proof.
  revert w. induction free as [|r rest IH]; intros w Hsub; simpl.
  - apply frame_set_free. intros _ r Hr. inversion Hr.
  - assert (H1 : frame w (bump (set_freeResources rest w))).
    { eapply frame_trans; [apply frame_set_free|frame_fields].
      intros _ x Hx. apply Hsub. now right. }
    destruct (validateResource env (ticks w) r); simpl; [exact H1|].
    eapply frame_trans; [exact H1|].
    eapply frame_trans; [apply frame_destroyResource|].
    apply IH. intros x Hx.
    unfold _destroyResource, destroyCallback. cbn -[filter].
    case_ifs; exact Hx.
Qed.

Lemma frame_nextFreeResource env w : frame w (snd (_nextFreeResource env w)).
Proof. apply frame_nextFree. auto. Qed.

Lemma frame_createCallback env cid result w :
  frame w (createCallback env cid result w).
Proof.
  unfold createCallback. destruct (decide (cid ∈ creating w)); [|apply frame_refl].
  destruct result; cbv zeta.
  - destruct (backoff _); frame_fields.
  - unfold timeNow.
    eapply frame_trans; [|apply frame_storeResource]. frame_fields.
Qed.

Lemma frame_createResource env w : frame w (_createResource env w).
Proof.
  unfold _createResource. cbv zeta.
  match goal with |- frame _ (match _ with Some _ => createCallback _ _ _ ?x | None => _ end) =>
    assert (H : frame w x) by frame_fields end.
  destruct (createResource env _); [|exact H].
  eapply frame_trans; [exact H|apply frame_createCallback].
Qed.

Lemma frame_createLoop env n w : frame w (createLoop env n w).
Proof.
  revert w. induction n as [|n IH]; intros w; simpl; [apply frame_refl|].
  eapply frame_trans; [apply frame_createResource|apply IH].
Qed.

Lemma frame_createResources env w : frame w (_createResources env w).
Proof. apply frame_createLoop. Qed.

Lemma elem_of_delete_l {A} (x : A) (i : nat) (l : list A) :
  x ∈ delete i l -> x ∈ l.
Proof.
  intros H. eapply elem_of_sublist; [exact H|apply sublist_delete].
Qed.

Lemma sweep_subset now key tmo i free dead r :
  r ∈ fst (sweep now key tmo i free dead) -> r ∈ free.
Proof.
  revert free dead. induction i as [|j IH]; intros free dead; simpl; [auto|].
  destruct (free !! j) as [x|]; [|apply IH].
  destruct (js_gt _ _); [|apply IH].
  intros H. apply IH in H. eapply elem_of_delete_l; eauto.
Qed.

Lemma frame_destroyList env l w :
  frame w (fold_left (fun w r => _destroyResource env r w) l w).
Proof.
  revert w. induction l as [|r l IH]; intros w; simpl; [apply frame_refl|].
  eapply frame_trans; [apply frame_destroyResource|apply IH].
Qed.

Lemma frame_destroyDeadResources env key tmo w :
  frame w (_destroyDeadResources env key tmo w).
Proof.
  unfold _destroyDeadResources, timeNow.
  destruct (sweep _ _ _ _ _ _) as [free dead] eqn:Hs.
  apply (frame_trans w (bump w)); [frame_fields|].
  apply (frame_trans _ (set_freeResources free (bump w)));
    [|apply frame_destroyList].
  apply frame_set_free. intros _ r Hr.
  apply (sweep_subset (clock env (ticks w)) key tmo
           (length (freeResources (bump w))) (freeResources (bump w)) []).
  rewrite Hs. exact Hr.
Qed.

Lemma frame_destroyIdleResources env w : frame w (_destroyIdleResources env w).
Proof.
  unfold _destroyIdleResources, timeNow. case_ifs; try apply frame_refl.
  - apply (frame_trans w (bump w)); [frame_fields|].
    eapply frame_trans; [apply frame_destroyDeadResources|frame_fields].
  - frame_fields.
Qed.

Lemma frame_destroyExpiredResources env w :
  frame w (_destroyExpiredResources env w).
Proof.
  unfold _destroyExpiredResources, timeNow. case_ifs; try apply frame_refl.
  - apply (frame_trans w (bump w)); [frame_fields|].
    eapply frame_trans; [apply frame_destroyDeadResources|frame_fields].
  - frame_fields.
Qed.

Lemma frame_setMaintenanceInterval interval w :
  frame w (setMaintenanceInterval interval w).
Proof.
  unfold setMaintenanceInterval. destruct (_maintenanceIntervalID w); frame_fields.
Qed.

Lemma frame_waitDrain done w : frame w (_waitDrain done w).
Proof. unfold _waitDrain. case_ifs; frame_fields. Qed.

Lemma frame_release env v w : frame w (release env v w).
Proof.
  unfold release. case_ifs; try apply frame_refl.
  eapply frame_trans; [|apply frame_storeResource]. frame_fields.
Qed.

Lemma frame_destroy env v w : frame w (destroy env v w).
Proof.
  unfold destroy. case_ifs; try apply frame_refl.
  - eapply frame_trans; [|apply frame_destroyResource]. frame_fields.
  - eapply frame_trans; [|apply frame_destroyResource].
    apply frame_set_free. intros _ x Hx. eapply elem_of_delete_l; eauto.
Qed.

Lemma elem_of_rev_1 {A} (x : A) (l : list A) : x ∈ rev l -> x ∈ l.
Proof. rewrite !list_elem_of_In. apply in_rev. Qed.

Lemma elem_of_rev_2 {A} (x : A) (l : list A) : x ∈ l -> x ∈ rev l.
Proof. rewrite !list_elem_of_In. apply in_rev. Qed.

Lemma frame_destroyAll env stack w :
  (forall r, r ∈ stack -> r ∈ freeResources w) ->
  frame w (destroyAll env stack w).
Proof.
  revert w. induction stack as [|r rest IH]; intros w Hsub; simpl;
    [apply frame_refl|].
  apply (frame_trans _ (set_freeResources (rev rest) w)).
  { apply frame_set_free. intros _ x Hx. apply Hsub. right.
    now apply elem_of_rev_1. }
  eapply frame_trans; [apply frame_destroyResource|].
  apply IH. intros x Hx.
  unfold _destroyResource, destroyCallback. cbn -[filter].
  case_ifs; cbn; now apply elem_of_rev_2.
Qed.

Lemma frame_drainFree env w : frame w (drainFree env w).
Proof.
  apply frame_destroyAll. intros r Hr. now apply elem_of_rev_1.
Qed.

(** ** The contract of the methods *)

Lemma count_app {A} (p : A -> bool) l1 l2 :
  count p (l1 ++ l2) = (count p l1 + count p l2)%nat.
Proof. unfold count. now rewrite List.filter_app, length_app. Qed.

Lemma count_cons {A} (p : A -> bool) x l :
  count p (x :: l) = ((if p x then 1 else 0) + count p l)%nat.
Proof. unfold count. simpl. destruct (p x); reflexivity. Qed.

Lemma count_nil {A} (p : A -> bool) : count p [] = 0%nat.
Proof. reflexivity. Qed.

Lemma count_log_ext p l l' :
  (forall e, is_request_event e = false -> p e = false) ->
  log_ext l l' -> count p l' = count p l.
Proof.
  intros Hp (new & -> & Hn). rewrite count_app.
  assert (count p new = 0%nat); [|lia].
  induction Hn as [|e new He _ IH]; [reflexivity|].
  rewrite count_cons, (Hp e He), IH. reflexivity.
Qed.

Lemma acquired_ext id w w' :
  log_ext (log w) (log w') -> acquired id w' = acquired id w.
Proof.
  intros H. unfold acquired. apply count_log_ext; [|apply H].
  intros [] He; try discriminate; reflexivity.
Qed.

Lemma completions_ext id w w' :
  log_ext (log w) (log w') -> completions id w' = completions id w.
Proof.
  intros H. unfold completions. apply count_log_ext; [|apply H].
  intros [] He; try discriminate; reflexivity.
Qed.

Lemma acquired_frame id w w' : frame w w' -> acquired id w' = acquired id w.
Proof. intros H. apply acquired_ext, H. Qed.

Lemma completions_frame id w w' : frame w w' -> completions id w' = completions id w.
Proof. intros H. apply completions_ext, H. Qed.

Lemma queued_frame id w w' : frame w w' -> queued id w' = queued id w.
Proof. intros H. unfold queued. now rewrite (fr_aging _ _ H), (fr_ageless _ _ H). Qed.

Lemma settled_frame F w w' : frame w w' -> settled F w -> settled F w'.
Proof.
  intros H (H1 & H2 & H3). repeat split; intros id.
  - rewrite (acquired_frame id _ _ H), (completions_frame id _ _ H),
      (queued_frame id _ _ H). apply H1.
  - rewrite (acquired_frame id _ _ H). apply H2.
  - intros Hid. rewrite (acquired_frame id _ _ H). apply H3.
    pose proof (fr_fresh _ _ H). lia.
Qed.

Lemma aging_sorted_frame w w' : frame w w' -> aging_sorted w -> aging_sorted w'.
Proof.
  intros H [Ha Hs]. unfold aging_sorted. rewrite (fr_aging _ _ H).
  split; [|exact Hs].
  eapply Forall_impl; [exact Ha|]. intros r [? ?]. split; [auto|].
  pose proof (fr_fresh _ _ H). lia.
Qed.

Lemma draining_kept_frame w w' : frame w w' -> draining_kept w w'.
Proof.
  intros H Hd. rewrite (fr_draining _ _ H), (fr_aging _ _ H), (fr_ageless _ _ H).
  repeat split; auto.
  intros Hf. destruct (freeResources w') as [|r l] eqn:E; [reflexivity|].
  pose proof (fr_free _ _ H Hd r) as Hr. rewrite E, Hf in Hr.
  exfalso. specialize (Hr ltac:(left)). inversion Hr.
Qed.

Lemma drained_after_frame w w' : frame w w' -> drained_after w w'.
Proof.
  intros H Hd Hd'. rewrite (fr_draining _ _ H) in Hd'. congruence.
Qed.

Lemma ok_frame G w w' : frame w w' -> ok G G w w'.
Proof.
  intros H. split; [|split; [|split]].
  - intros F. now apply settled_frame.
  - intros Hs. now apply aging_sorted_frame with w.
  - now apply draining_kept_frame.
  - now apply drained_after_frame.
Qed.

Lemma ok_refl G w : ok G G w w.
Proof. apply ok_frame, frame_refl. Qed.

Lemma draining_kept_trans w1 w2 w3 :
  draining_kept w1 w2 -> draining_kept w2 w3 -> draining_kept w1 w3.
Proof.
  intros H1 H2 Hd. destruct (H1 Hd) as (Hd2 & Ha & Hb & Hc).
  destruct (H2 Hd2) as (Hd3 & Ha' & Hb' & Hc'). repeat split; auto.
Qed.

Lemma ok_trans G1 G2 G3 w1 w2 w3 :
  ok G1 G2 w1 w2 -> ok G2 G3 w2 w3 -> ok G1 G3 w1 w3.
Proof.
  intros (A1 & S1 & K1 & D1) (A2 & S2 & K2 & D2). split; [|split; [|split]].
  - intros F H. apply A2, A1, H.
  - intros H. apply S2, S1, H.
  - eapply draining_kept_trans; eauto.
  - intros Hd. destruct (isDraining w2) eqn:Hd2.
    + specialize (D1 Hd Hd2). destruct D1 as (Ha & Hb & Hc).
      destruct (K2 Hd2) as (Hd3 & Ha' & Hb' & Hc'). intros _. auto.
    + apply D2, Hd2.
Qed.

(** Code that leaves the queues, the free list and the draining flag as
    they are keeps the order of the aging queue and the emptiness of a
    draining pool. *)
Lemma state_parts_same w w' :
  agingRequests w' = agingRequests w ->
  agelessRequests w' = agelessRequests w ->
  freeResources w' = freeResources w ->
  isDraining w' = isDraining w ->
  (fresh w <= fresh w')%nat ->
  keeps_sorted w w' /\ draining_kept w w' /\ drained_after w w'.
Proof.
  intros Ha Hb Hf Hd Hfr. split; [|split].
  - intros [H1 H2]. unfold aging_sorted. rewrite Ha. split; [|exact H2].
    eapply Forall_impl; [exact H1|]. intros r [? ?]. split; [auto|lia].
  - intros H. rewrite Ha, Hb, Hf, Hd. auto.
  - intros H H'. congruence.
Qed.

Lemma count_has_cb_some id request k F :
  done request = Some k ->
  count (has_cb id) (request :: F)
  = ((if (req_id request =? id)%nat then 1 else 0) + count (has_cb id) F)%nat.
Proof.
  intros Hk. rewrite count_cons. unfold has_cb at 1. now rewrite Hk, andb_true_r.
Qed.

Lemma count_has_cb_none id request F :
  done request = None ->
  count (has_cb id) (request :: F) = count (has_cb id) F.
Proof.
  intros Hk. rewrite count_cons. unfold has_cb at 1. now rewrite Hk, andb_false_r.
Qed.

Ltac destruct_serve w H :=
  match goal with
  | |- context [_serveRequest ?i ?a ?b ?c ?d] =>
      destruct (_serveRequest i a b c d) as [w|] eqn:H; [|discriminate]
  end.

Section Contract.

Variable env : Env.
Variable invoke : nat -> Outcome -> World -> option World.
Hypothesis invoke_ok : hook_ok invoke.

(** The call of the completion of a request in flight settles it. *)
Lemma ok_call_done request k o w :
  done request = Some k ->
  ok [request] [] w (emit (call_done request o) w).
Proof.
  intros Hk. split; [|apply state_parts_same; cbn; auto].
  intros F (H1 & H2 & H3). repeat split; intros id.
  - specialize (H1 id). change ([request] ++ F) with (request :: F) in H1.
    rewrite (count_has_cb_some _ _ k) in H1 by exact Hk.
    change ([] ++ F) with F.
    unfold acquired, completions, queued in *.
    change (log (emit (call_done request o) w)) with (call_done request o :: log w).
    rewrite !count_cons. cbn [is_acquire is_completion].
    change (agingRequests (emit (call_done request o) w)) with (agingRequests w).
    change (agelessRequests (emit (call_done request o) w)) with (agelessRequests w).
    lia.
  - apply H2.
  - apply H3.
Qed.

(** A request without a callback does not count. *)
Lemma acct_no_callback request G w :
  done request = None -> acct (request :: G) G w w.
Proof.
  intros Hk F (H1 & H2 & H3). repeat split; auto.
  intros id. specialize (H1 id).
  change ((request :: G) ++ F) with (request :: G ++ F) in H1.
  now rewrite count_has_cb_none in H1 by exact Hk.
Qed.

Lemma ok_no_callback request w :
  done request = None -> ok [request] [] w w.
Proof.
  intros Hk. split; [now apply acct_no_callback|].
  apply state_parts_same; auto.
Qed.

(** [_serveRequest] settles the request it is given. *)
Lemma serveRequest_ok request errCode resource w w' :
  _serveRequest invoke request errCode resource w = Some w' ->
  ok [request] [] w w'.
Proof.
  unfold _serveRequest. intros H.
  destruct errCode as [code|]; [|destruct resource as [r|]; [|discriminate]].
  - destruct (done request) as [k|] eqn:Hk.
    + eapply ok_trans; [apply ok_frame with (G := [request])|].
      { instantiate (1 := emit (emit_serveError code request) w). frame_fields. }
      eapply ok_trans; [apply (ok_call_done request k); exact Hk|].
      eapply invoke_ok; exact H.
    + injection H as <-.
      eapply ok_trans; [apply ok_no_callback; exact Hk|].
      apply ok_frame. frame_fields.
  - destruct (done request) as [k|] eqn:Hk.
    + eapply ok_trans; [apply ok_frame with (G := [request])|].
      2:{ eapply ok_trans; [apply (ok_call_done request k); exact Hk|].
          eapply invoke_ok; exact H. }
      frame_fields.
    + injection H as <-.
      eapply ok_trans; [apply ok_no_callback; exact Hk|].
      apply ok_frame. frame_fields.
Qed.

Lemma ok_no_callback_taken request w :
  done request = None -> ok [] [request] w w.
Proof.
  intros Hk. split; [|apply state_parts_same; auto].
  intros F (H1 & H2 & H3). repeat split; auto.
  intros id. specialize (H1 id). change ([request] ++ F) with (request :: F).
  now rewrite count_has_cb_none by exact Hk.
Qed.

Lemma StronglySorted_remove {A} (R : A -> A -> Prop) l1 x l2 :
  StronglySorted R (l1 ++ x :: l2) -> StronglySorted R (l1 ++ l2).
Proof.
  intros H. apply StronglySorted_app in H as (Hc & H1 & H2).
  apply StronglySorted_cons in H2 as [_ H2].
  apply StronglySorted_app_2; auto.
  intros a b Ha Hb. apply Hc; [exact Ha|now right].
Qed.

(** Taking a request out of the aging queue puts it in flight. *)
Lemma ok_take_aging l1 request l2 w :
  agingRequests w = l1 ++ request :: l2 ->
  ok [] [request] w (set_agingRequests (l1 ++ l2) w).
Proof.
  intros Hq. split; [|split; [|split]].
  - intros F (H1 & H2 & H3). repeat split; auto. intros id. specialize (H1 id).
    change ([] ++ F) with F in H1. change ([request] ++ F) with (request :: F).
    unfold acquired, completions, queued in *. cbn.
    rewrite Hq in H1.
    rewrite ?count_app, ?count_cons in H1. rewrite ?count_app, ?count_cons in H1.
    rewrite ?count_app, ?count_cons. rewrite ?count_app, ?count_cons. lia.
  - intros [Ha Hs]. rewrite Hq in Ha, Hs. split; cbn.
    + apply Forall_app in Ha as [Ha1 Ha2]. apply Forall_cons in Ha2 as [_ Ha2].
      apply Forall_app. split; assumption.
    + eapply StronglySorted_remove; eauto.
  - intros Hd. cbn. rewrite Hq. repeat split; auto.
    intros H. destruct l1; discriminate.
  - intros Hd Hd'. cbn in Hd'. congruence.
Qed.

(** The same for the ageless queue. *)
Lemma ok_take_ageless l1 request l2 w :
  agelessRequests w = l1 ++ request :: l2 ->
  ok [] [request] w (set_agelessRequests (l1 ++ l2) w).
Proof.
  intros Hq. split; [|split; [|split]].
  - intros F (H1 & H2 & H3). repeat split; auto. intros id. specialize (H1 id).
    change ([] ++ F) with F in H1. change ([request] ++ F) with (request :: F).
    unfold acquired, completions, queued in *. cbn.
    rewrite Hq in H1.
    rewrite ?count_app, ?count_cons in H1. rewrite ?count_app, ?count_cons in H1.
    rewrite ?count_app, ?count_cons. rewrite ?count_app, ?count_cons. lia.
  - intros [Ha Hs]. split; cbn; assumption.
  - intros Hd. cbn. rewrite Hq. repeat split; auto.
    intros H. destruct l1; discriminate.
  - intros Hd Hd'. cbn in Hd'. congruence.
Qed.

Lemma pop_Some {A} (l : list A) x rest :
  pop l = Some (x, rest) -> l = rest ++ [x].
Proof.
  unfold pop. destruct (rev l) as [|y r] eqn:E; [discriminate|].
  intros [= <- <-]. rewrite <- (rev_involutive l), E. reflexivity.
Qed.

Lemma pop_None {A} (l : list A) : pop l = None -> l = [].
Proof.
  unfold pop. destruct (rev l) as [|y r] eqn:E; [|discriminate].
  intros _. rewrite <- (rev_involutive l), E. reflexivity.
Qed.

(** The loop of [_serveAgingRequests]. *)
Lemma serveAging_ok fuel now w w' :
  serveAging env invoke fuel now w = Some w' -> ok [] [] w w'.
Proof.
  revert w. induction fuel as [|n IH]; intros w; simpl; [discriminate|].
  destruct (agingRequests w) as [|request rest] eqn:Hq.
  - intros [= <-]. apply ok_refl.
  - destruct (js_gt (JNum now) (acquireTimeoutAt request)).
    + destruct_serve w2 Hs.
      simpl. intros H.
      eapply ok_trans; [apply (ok_take_aging [] request rest); exact Hq|].
      eapply ok_trans; [eapply serveRequest_ok; exact Hs|].
      apply IH, H.
    + pose proof (frame_nextFreeResource env w) as Hf.
      destruct (_nextFreeResource env w) as [[r|] w1]; simpl in Hf.
      * rewrite (fr_aging _ _ Hf), Hq. simpl.
        destruct_serve w3 Hs.
        simpl. intros H.
        eapply ok_trans; [apply ok_frame; exact Hf|].
        eapply ok_trans; [apply (ok_take_aging [] request rest);
                          rewrite (fr_aging _ _ Hf); exact Hq|].
        eapply ok_trans; [eapply serveRequest_ok; exact Hs|].
        apply IH, H.
      * intros [= <-]. apply ok_frame, Hf.
Qed.

Lemma serveAgingRequests_ok fuel w w' :
  _serveAgingRequests env invoke fuel w = Some w' -> ok [] [] w w'.
Proof.
  unfold _serveAgingRequests, timeNow. intros H.
  eapply ok_trans; [|eapply serveAging_ok; exact H].
  apply ok_frame. frame_fields.
Qed.

Lemma serveAgelessRequests_ok fuel w w' :
  _serveAgelessRequests env invoke fuel w = Some w' -> ok [] [] w w'.
Proof.
  revert w. induction fuel as [|n IH]; intros w; simpl; [discriminate|].
  destruct (agelessRequests w) as [|request0 rest0] eqn:Hq.
  - intros [= <-]. apply ok_refl.
  - pose proof (frame_nextFreeResource env w) as Hf.
    destruct (_nextFreeResource env w) as [[r|] w1]; simpl in Hf.
    + rewrite (fr_ageless _ _ Hf), Hq.
      destruct_serve w3 Hs.
      simpl. intros H.
      eapply ok_trans; [apply ok_frame; exact Hf|].
      eapply ok_trans; [apply (ok_take_ageless [] request0 rest0);
                        rewrite (fr_ageless _ _ Hf); exact Hq|].
      eapply ok_trans; [eapply serveRequest_ok; exact Hs|].
      apply IH, H.
    + intros [= <-]. apply ok_frame, Hf.
Qed.

(** The admission of a new request: it is the youngest object. *)
Lemma ok_admit request w :
  req_id request = fresh w ->
  ok [] [request] w (emit (emit_enqueueRequest request) (alloc (bump w))).
Proof.
  intros Hid. split; [|apply state_parts_same; cbn; auto; lia].
  intros F (H1 & H2 & H3).
  assert (Hacq : forall id,
             acquired id (emit (emit_enqueueRequest request) (alloc (bump w)))
             = ((if has_cb id request then 1 else 0) + acquired id w)%nat).
  { intros id. unfold acquired. cbn. now rewrite count_cons. }
  assert (Hcb : forall id, has_cb id request = true -> id = fresh w).
  { intros id H. unfold has_cb in H. apply andb_true_iff in H as [H _].
    apply Nat.eqb_eq in H. congruence. }
  repeat split; intros id.
  - rewrite Hacq. specialize (H1 id). change ([] ++ F) with F in H1.
    change ([request] ++ F) with (request :: F). rewrite count_cons.
    unfold completions, queued in *. cbn. rewrite count_cons. cbn. lia.
  - rewrite Hacq. destruct (has_cb id request) eqn:E.
    + rewrite (H3 id); [lia|]. apply Hcb in E. lia.
    + apply H2.
  - cbn. intros Hge. rewrite Hacq. destruct (has_cb id request) eqn:E.
    + apply Hcb in E. lia.
    + apply H3. lia.
Qed.

Lemma acct_insert request w :
  acct [request] [] w (_insertRequestByAcquireTimeout request w).
Proof.
  intros F (H1 & H2 & H3).
  assert (Hq : forall id,
             queued id (_insertRequestByAcquireTimeout request w)
             = (queued id w + (if has_cb id request then 1 else 0))%nat).
  { intros id. unfold queued, _insertRequestByAcquireTimeout.
    destruct (js_isNaN _); cbn.
    - rewrite !count_app, count_cons, count_nil. lia.
    - set (i := insertIndex _ _ _).
      rewrite <- (take_drop i (agingRequests w)) at 3.
      rewrite !count_app, count_cons. lia. }
  assert (Hl : log (_insertRequestByAcquireTimeout request w) = log w
               /\ fresh (_insertRequestByAcquireTimeout request w) = fresh w).
  { unfold _insertRequestByAcquireTimeout. destruct (js_isNaN _); auto. }
  destruct Hl as [Hl Hf].
  repeat split; intros id.
  - specialize (H1 id). change ([request] ++ F) with (request :: F) in H1.
    rewrite count_cons in H1. change ([] ++ F) with F.
    rewrite Hq. unfold acquired, completions in *. rewrite Hl. lia.
  - unfold acquired. rewrite Hl. apply H2.
  - rewrite Hf. unfold acquired. rewrite Hl. apply H3.
Qed.

(** The queue stays sorted when the youngest request is inserted. *)
Lemma insertRequest_sorted request w w1 :
  aging_sorted w ->
  req_id request = fresh w ->
  agingRequests w1 = agingRequests w ->
  fresh w1 = S (fresh w) ->
  aging_sorted (_insertRequestByAcquireTimeout request w1).
Proof.
  intros [Hall Hs] Hid Ha Hf. unfold aging_sorted, _insertRequestByAcquireTimeout.
  destruct (js_isNaN (acquireTimeoutAt request)) eqn:Hn; cbn; rewrite ?Ha, ?Hf.
  - split; [|exact Hs]. eapply Forall_impl; [exact Hall|].
    intros r [? ?]. split; [auto|lia].
  - rewrite Forall_forall in Hall. split.
    + rewrite Forall_forall. intros x Hx. apply elem_of_app in Hx as [Hx|Hx].
      * apply elem_of_take_l in Hx. destruct (Hall x Hx). split; [auto|lia].
      * apply elem_of_cons in Hx as [->|Hx].
        -- split; [exact Hn|lia].
        -- apply elem_of_drop_l in Hx. destruct (Hall x Hx). split; [auto|lia].
    + apply insert_keeps_sorted; [|exact Hs|exact Hn].
      rewrite Forall_forall. intros x Hx. destruct (Hall x Hx). split; [auto|lia].
Qed.

Lemma ok_admit_insert request w :
  req_id request = fresh w ->
  isDraining w = false ->
  ok [] [] w
    (_insertRequestByAcquireTimeout request
       (emit (emit_enqueueRequest request) (alloc (bump w)))).
Proof.
  intros Hid Hd.
  assert (Hdr : isDraining (_insertRequestByAcquireTimeout request
                 (emit (emit_enqueueRequest request) (alloc (bump w)))) = false).
  { unfold _insertRequestByAcquireTimeout. destruct (js_isNaN _); exact Hd. }
  split; [|split; [|split]].
  - intros F H. apply acct_insert. apply (ok_admit request w Hid). exact H.
  - intros H. eapply insertRequest_sorted; eauto.
  - intros H. congruence.
  - intros _ H. congruence.
Qed.

(** [acquire] *)
Lemma acquire_ok options done w w' :
  acquire env invoke options done w = Some w' -> ok [] [] w w'.
Proof.
  unfold acquire, _createRequest, timeNow, _enqueueRequest.
  set (request := mkRequest _ _ _ _).
  assert (Hid : req_id request = fresh w) by reflexivity.
  cbn [isDraining emit set_log alloc set_fresh bump set_ticks cfg
         agelessRequests agingRequests].
  destruct (isDraining w) eqn:Hd.
  - intros H. eapply ok_trans; [apply (ok_admit request w Hid)|].
    eapply serveRequest_ok; exact H.
  - destruct (js_ge _ _).
    + intros H. eapply ok_trans; [apply (ok_admit request w Hid)|].
      eapply serveRequest_ok; exact H.
    + intros [= <-].
      eapply ok_trans; [apply (ok_admit_insert request w Hid Hd)|].
      apply ok_frame, frame_scheduleMaintainance.
Qed.

(** [acquireSync] *)
Lemma acquireSync_ok options w v w' :
  acquireSync env invoke options w = Some (v, w') -> ok [] [] w w'.
Proof.
  unfold acquireSync.
  pose proof (frame_nextFreeResource env w) as Hf.
  destruct (_nextFreeResource env w) as [[r|] w1]; simpl in Hf.
  - unfold _createRequest, timeNow. set (request := mkRequest _ _ _ _).
    cbv zeta. cbn [isDraining alloc set_fresh bump set_ticks].
    assert (Hw2 : frame w (alloc (bump w1))).
    { eapply frame_trans; [exact Hf|frame_fields]. }
    assert (Hserve : forall e res w3,
               _serveRequest invoke request e res (alloc (bump w1)) = Some w3 ->
               ok [] [] w w3).
    { intros e res w3 H.
      eapply ok_trans; [apply ok_frame; exact Hw2|].
      eapply ok_trans; [apply (ok_no_callback_taken request); reflexivity|].
      eapply serveRequest_ok; exact H. }
    destruct (isDraining w1).
    + destruct_serve w3 Hs. simpl. intros [= _ <-]. eapply Hserve; eauto.
    + destruct_serve w3 Hs. simpl. intros [= _ <-]. eapply Hserve; eauto.
  - intros [= _ <-]. apply ok_frame, Hf.
Qed.

(** [_maintain] and [_scheduledMaintain] *)
Lemma maintain_ok fuel w w' :
  _maintain env invoke fuel w = Some w' -> ok [] [] w w'.
Proof.
  unfold _maintain. destruct (isDraining w || isMaintaining w).
  - intros [= <-]. apply ok_refl.
  - destruct (_serveAgingRequests _ _ _ _) as [w4|] eqn:H4; [|discriminate].
    simpl. destruct (_serveAgelessRequests _ _ _ _) as [w5|] eqn:H5; [|discriminate].
    simpl. intros [= <-].
    eapply ok_trans; [apply ok_frame|].
    { eapply frame_trans; [|eapply frame_trans;
        [apply frame_destroyExpiredResources|apply frame_destroyIdleResources]].
      instantiate (1 := set_isMaintaining true w). frame_fields. }
    eapply ok_trans; [eapply serveAgingRequests_ok; exact H4|].
    eapply ok_trans; [eapply serveAgelessRequests_ok; exact H5|].
    apply ok_frame.
    eapply frame_trans; [apply frame_createResources|frame_fields].
Qed.

Lemma scheduledMaintain_ok fuel w w' :
  _scheduledMaintain env invoke fuel w = Some w' -> ok [] [] w w'.
Proof.
  unfold _scheduledMaintain.
  destruct (_maintain _ _ _ _) as [w1|] eqn:H1; [|discriminate].
  simpl. intros [= <-].
  eapply ok_trans; [eapply maintain_ok; exact H1|].
  apply ok_frame. frame_fields.
Qed.

(** The loops of [drain] *)
Lemma drainAging_ok fuel w w' :
  drainAging invoke fuel w = Some w' -> ok [] [] w w' /\ agingRequests w' = [].
Proof.
  revert w. induction fuel as [|n IH]; intros w; simpl; [discriminate|].
  destruct (pop (agingRequests w)) as [[request rest]|] eqn:Hp.
  - destruct_serve w1 Hs. simpl. intros H. destruct (IH _ H) as [Hok He].
    split; [|exact He].
    apply pop_Some in Hp.
    eapply ok_trans; [apply (ok_take_aging rest request []); exact Hp|].
    rewrite app_nil_r.
    eapply ok_trans; [eapply serveRequest_ok; exact Hs|exact Hok].
  - intros [= <-]. split; [apply ok_refl|now apply pop_None].
Qed.

Lemma drainAgeless_ok fuel w w' :
  drainAgeless invoke fuel w = Some w' -> ok [] [] w w' /\ agelessRequests w' = [].
Proof.
  revert w. induction fuel as [|n IH]; intros w; simpl; [discriminate|].
  destruct (pop (agelessRequests w)) as [[request rest]|] eqn:Hp.
  - destruct_serve w1 Hs. simpl. intros H. destruct (IH _ H) as [Hok He].
    split; [|exact He].
    apply pop_Some in Hp.
    eapply ok_trans; [apply (ok_take_ageless rest request []); exact Hp|].
    rewrite app_nil_r.
    eapply ok_trans; [eapply serveRequest_ok; exact Hs|exact Hok].
  - intros [= <-]. split; [apply ok_refl|now apply pop_None].
Qed.

Lemma free_destroyResource r w :
  freeResources (_destroyResource env r w) = freeResources w.
Proof.
  unfold _destroyResource, destroyCallback. cbn -[filter]. case_ifs; reflexivity.
Qed.

Lemma free_destroyAll stack w :
  freeResources w = rev stack -> freeResources (destroyAll env stack w) = [].
Proof.
  revert w. induction stack as [|r rest IH]; intros w H; simpl; [exact H|].
  apply IH. now rewrite free_destroyResource.
Qed.

Lemma free_drainFree w : freeResources (drainFree env w) = [].
Proof. apply free_destroyAll. now rewrite rev_involutive. Qed.

(** Code that changes neither the queues, nor the history, nor the
    identities keeps the account and the order. *)
Lemma acct_sorted_same G w w' :
  log w' = log w ->
  agingRequests w' = agingRequests w ->
  agelessRequests w' = agelessRequests w ->
  fresh w' = fresh w ->
  acct G G w w' /\ keeps_sorted w w'.
Proof.
  intros Hl Ha Hb Hf. split.
  - intros F (H1 & H2 & H3).
    unfold settled, acquired, completions, queued. rewrite Hl, Ha, Hb, Hf.
    repeat split; auto.
  - unfold keeps_sorted, aging_sorted. now rewrite Ha, Hf.
Qed.

(** [drain] *)
Lemma drain_ok done fuel w w' :
  drain env invoke done fuel w = Some w' -> ok [] [] w w'.
Proof.
  unfold drain. destruct (isDraining w) eqn:Hd; cbn [negb]; simpl.
  - intros [= <-]. apply ok_frame, frame_waitDrain.
  - match goal with |- context [drainAging invoke fuel ?x] => set (w2 := x) end.
    assert (H2 : log_ext (log w) (log w2) /\ agingRequests w2 = agingRequests w
                 /\ agelessRequests w2 = agelessRequests w /\ fresh w2 = fresh w
                 /\ isDraining w2 = true).
    { subst w2. destruct (_maintenanceIntervalID _); cbn; repeat split;
        try (apply log_ext_cons; [reflexivity|]); apply log_ext_refl. }
    destruct H2 as (Hl2 & Ha2 & Hb2 & Hf2 & Hd2).
    destruct (drainAging invoke fuel w2) as [w3|] eqn:H3; [|discriminate]. simpl.
    destruct (drainAgeless invoke fuel w3) as [w4|] eqn:H4; [|discriminate]. simpl.
    intros [= <-].
    destruct (drainAging_ok _ _ _ H3) as [(A3 & S3 & K3 & _) E3].
    destruct (drainAgeless_ok _ _ _ H4) as [(A4 & S4 & K4 & _) E4].
    pose proof (frame_trans _ _ _ (frame_drainFree env w4)
                  (frame_waitDrain done (drainFree env w4))) as Hfr.
    destruct (ok_frame [] _ _ Hfr) as (A5 & S5 & K5 & _).
    split; [|split; [|split]].
    + intros F (H1 & H1' & H1''). apply A5, A4, A3.
      unfold settled, queued. rewrite Ha2, Hb2, Hf2.
      repeat split; intros id;
        rewrite ?(acquired_ext id w w2 Hl2), ?(completions_ext id w w2 Hl2).
      * apply H1.
      * apply H1'.
      * apply H1''.
    + intros H. apply S5, S4, S3. unfold aging_sorted. now rewrite Ha2, Hf2.
    + intros H. congruence.
    + intros _ _.
      destruct (K3 Hd2) as (Hd3 & _ & _ & _).
      destruct (K4 Hd3) as (Hd4 & Ha4 & _ & _).
      destruct (K5 Hd4) as (_ & Ha5 & Hb5 & _).
      repeat split; [auto|auto|].
      destruct (draining_kept_frame _ _ (frame_waitDrain done (drainFree env w4)))
        as (_ & _ & _ & Hc).
      { now rewrite (fr_draining _ _ (frame_drainFree env w4)). }
      apply Hc, free_drainFree.
Qed.

(** A call from the client *)
Lemma exec_ok fuel c w w' :
  exec env invoke fuel c w = Some w' -> ok [] [] w w'.
Proof.
  destruct c; simpl.
  - apply acquire_ok.
  - destruct (acquireSync env invoke options w) as [[v w1]|] eqn:H; [|discriminate].
    simpl. intros [= <-]. eapply acquireSync_ok; eauto.
  - intros [= <-]. apply ok_frame, frame_release.
  - intros [= <-]. apply ok_frame, frame_destroy.
  - apply drain_ok.
  - intros [= <-]. apply ok_frame, frame_setMaintenanceInterval.
Qed.

Lemma run_ok fuel s w w' :
  run env invoke fuel s w = Some w' -> ok [] [] w w'.
Proof.
  revert w. induction s as [|c k IH]; intros w; simpl.
  - intros [= <-]. apply ok_refl.
  - destruct (exec env invoke fuel c w) as [w1|] eqn:H1; [|discriminate].
    intros H. eapply ok_trans; [eapply exec_ok; exact H1|]. eapply IH; exact H.
Qed.

End Contract.

(** ** Invariants of the reachable states *)

Section Reachable.

Variable env : Env.
Variable handler : nat -> Outcome -> World -> Script.

(** The callbacks of a client that only calls the pool meet the contract,
    whatever they do. *)
Lemma callback_ok fuel : hook_ok (callback env handler fuel).
Proof.
  induction fuel as [|n IH]; intros k o w w'; simpl; [discriminate|].
  apply run_ok. exact IH.
Qed.

Lemma fire_ok fuel t w w' : fire env handler fuel t w = Some w' -> ok [] [] w w'.
Proof.
  destruct t; simpl.
  - apply scheduledMaintain_ok, callback_ok.
  - intros [= <-]. apply ok_frame. frame_fields.
  - intros [= <-]. apply ok_frame, frame_waitDrain.
  - apply callback_ok.
Qed.

(** Every turn of the event loop meets the contract. *)
Lemma step_ok fuel op w w' : step env handler fuel op w = Some w' -> ok [] [] w w'.
Proof.
  destruct op; simpl.
  - apply exec_ok, callback_ok.
  - destruct (_maintenanceIntervalID w); [|discriminate].
    apply maintain_ok, callback_ok.
  - destruct (timers w !! i) as [t|]; [|discriminate]. intros H.
    eapply ok_trans; [|eapply fire_ok; exact H].
    apply ok_frame. frame_fields.
  - intros [= <-]. apply ok_frame, frame_createCallback.
  - intros [= <-]. apply ok_frame, frame_destroyCallback.
Qed.

Lemma ok_invariant w w' : ok [] [] w w' -> invariant w -> invariant w'.
Proof.
  intros (A & S & K & D) (H1 & H2 & H3). split; [|split].
  - apply (A []), H1.
  - apply S, H2.
  - destruct (isDraining w) eqn:Hd.
    + destruct (H3 Hd) as (Ha & Hb & Hc). destruct (K Hd) as (Hd' & Ha' & Hb' & Hc').
      intros _. auto.
    + apply D, Hd.
Qed.

Lemma new_invariant options fuel w :
  Pool_new env (callback env handler fuel) options fuel = Some w -> invariant w.
Proof.
  unfold Pool_new. intros H. apply maintain_ok in H; [|apply callback_ok].
  eapply ok_invariant; [exact H|].
  eapply ok_invariant; [apply ok_frame, frame_setMaintenanceInterval|].
  split; [|split].
  - repeat split; intros; unfold acquired, completions, queued, count; cbn; lia.
  - split; constructor.
  - intros Hd. discriminate Hd.
Qed.

Lemma reachable_invariant w : reachable env handler w -> invariant w.
Proof.
  induction 1 as [options fuel w H|fuel op w w' _ IH H].
  - eapply new_invariant; eauto.
  - eapply ok_invariant; [eapply step_ok; exact H|exact IH].
Qed.

End Reachable.

(** ** The sample pools are reachable *)

Lemma steps_reachable env handler ops w w' :
  reachable env handler w -> steps env handler ops w = Some w' ->
  reachable env handler w'.
Proof.
  revert w. induction ops as [|op ops IH]; intros w Hr; simpl.
  - now intros [= <-].
  - destruct (step env handler 8 op w) as [w1|] eqn:H1; [|discriminate].
    apply IH. eapply reachable_step; eauto.
Qed.

Lemma new_pool_reachable env handler options :
  Pool_new env (callback env handler 8) options 8 <> None ->
  reachable env handler (new_pool env handler options).
Proof.
  unfold new_pool. intros H.
  destruct (Pool_new env (callback env handler 8) options 8) as [w|] eqn:E;
    [|congruence].
  eapply reachable_new; exact E.
Qed.

Lemma pool_after_reachable env handler options ops :
  Pool_new env (callback env handler 8) options 8 <> None ->
  reachable env handler (pool_after env handler options ops).
Proof.
  intros H. unfold pool_after.
  destruct (steps env handler ops (new_pool env handler options)) as [w|] eqn:E.
  - eapply steps_reachable; [|exact E]. now apply new_pool_reachable.
  - now apply new_pool_reachable.
Qed.

Lemma queue_pool_reachable : reachable async_env quiet_handler queue_pool.
Proof. apply pool_after_reachable. vm_compute. discriminate. Qed.

Lemma waiting_pool_reachable : reachable sample_env retry_handler waiting_pool.
Proof. apply pool_after_reachable. vm_compute. discriminate. Qed.

Lemma served_pool_reachable : reachable sample_env quiet_handler served_pool.
Proof. apply pool_after_reachable. vm_compute. discriminate. Qed.

Lemma drained_pool_reachable : reachable sample_env quiet_handler drained_pool.
Proof. apply pool_after_reachable. vm_compute. discriminate. Qed.

(** ** Completion of the requests *)

Lemma count_pos {A} (p : A -> bool) x l :
  In x l -> p x = true -> (1 <= count p l)%nat.
Proof.
  intros Hin Hp. apply in_split in Hin as (l1 & l2 & ->).
  rewrite count_app, count_cons, Hp. lia.
Qed.

(** C1.  In every state that a pool reaches, a request made by [acquire]
    with a completion callback has had that callback called once if it
    is no longer in a queue, and never if it is still queued: calls
    and queue entries add up to one.  So the callback is never called
    twice, and once the pool is draining (which empties the queues) it
    has been called exactly once for every such request. *)
Theorem C1_completion_exactly_once :
  forall (env : Env) (handler : nat -> Outcome -> World -> Script) (w : World),
    reachable env handler w ->
    forall (r : Request) (k : nat),
      done r = Some k ->
      In (emit_enqueueRequest r) (log w) ->
      (completions (req_id r) w + queued (req_id r) w = 1)%nat
      /\ (completions (req_id r) w <= 1)%nat
      /\ (queued (req_id r) w = 0%nat -> completions (req_id r) w = 1%nat)
      /\ (isDraining w = true -> completions (req_id r) w = 1%nat).
Proof.
  intros env handler w Hr r k Hk Hin.
  destruct (reachable_invariant env handler w Hr) as ((H1 & H2 & _) & _ & Hd).
  specialize (H1 (req_id r)). specialize (H2 (req_id r)).
  change ([] ++ []) with (@nil Request) in H1. rewrite count_nil in H1.
  assert (Hpos : (1 <= acquired (req_id r) w)%nat).
  { unfold acquired. eapply count_pos; [exact Hin|].
    cbn. unfold has_cb. now rewrite Nat.eqb_refl, Hk. }
  repeat split; try lia.
  intros Hdr. destruct (Hd Hdr) as (Ha & Hb & _).
  assert (queued (req_id r) w = 0%nat); [|lia].
  unfold queued. now rewrite Ha, Hb.
Qed.

(** The theorem at the request of [served_pool], served by the
    maintenance, and at the same request cancelled by [drain]. *)
Lemma C1_completion_witness :
  let r := mkRequest 3 (Some 7%nat) 1005 JNaN in
  ((completions (req_id r) served_pool + queued (req_id r) served_pool = 1)%nat
   /\ (completions (req_id r) served_pool <= 1)%nat
   /\ (queued (req_id r) served_pool = 0%nat ->
       completions (req_id r) served_pool = 1%nat)
   /\ (isDraining served_pool = true ->
       completions (req_id r) served_pool = 1%nat))
  /\ In (call_done r (Success 101%nat)) (log served_pool)
  /\ In (call_done r (Failure POOL_ACQUIRE_ABORTED_BY_DRAIN)) (log drained_pool).
Proof.
  split; [|split].
  - apply (C1_completion_exactly_once sample_env quiet_handler served_pool
             served_pool_reachable (mkRequest 3 (Some 7%nat) 1005 JNaN) 7%nat).
    + reflexivity.
    + vm_compute. repeat (first [left; reflexivity | right]).
  - vm_compute. repeat (first [left; reflexivity | right]).
  - vm_compute. repeat (first [left; reflexivity | right]).
Defined.

(** ** Order of the aging queue *)

Lemma StronglySorted_lookup {A} (R : A -> A -> Prop) (l : list A) i j a b :
  StronglySorted R l -> (i < j)%nat -> l !! i = Some a -> l !! j = Some b -> R a b.
Proof.
  intros Hs. revert i j. induction Hs as [|x l Hs IH Hall]; intros i j Hij Ha Hb.
  - discriminate.
  - destruct j as [|j]; [lia|]. simpl in Hb. destruct i as [|i]; simpl in Ha.
    + injection Ha as <-. rewrite Forall_forall in Hall. apply Hall.
      eapply list_elem_of_lookup_2; eauto.
    + apply (IH i j); [lia|exact Ha|exact Hb].
Qed.

(** C4.  In every state that a pool reaches, the requests of the aging
    queue have a numeric deadline and stand in the order [before]: for
    two positions [i < j] the deadline at [i] is not later than the one
    at [j], and when the deadlines are equal the request at [i] was
    enqueued first.  Every turn of the event loop keeps the queue so. *)
Theorem C4_aging_queue_sorted :
  forall (env : Env) (handler : nat -> Outcome -> World -> Script) (w : World),
    reachable env handler w ->
    StronglySorted before (agingRequests w)
    /\ Forall (fun r => acquireTimeoutAt r = JNum (deadline r)) (agingRequests w)
    /\ (forall i j ri rj,
          (i < j)%nat ->
          agingRequests w !! i = Some ri -> agingRequests w !! j = Some rj ->
          deadline ri <= deadline rj
          /\ (deadline ri = deadline rj -> (req_id ri < req_id rj)%nat))
    /\ (forall fuel op w',
          step env handler fuel op w = Some w' -> aging_sorted w').
Proof.
  intros env handler w Hr.
  destruct (reachable_invariant env handler w Hr) as (_ & [Hall Hs] & _).
  split; [exact Hs|]. split; [|split].
  - eapply Forall_impl; [exact Hall|]. intros r [Hn _]. now apply deadline_num.
  - intros i j ri rj Hij Hi Hj.
    pose proof (StronglySorted_lookup before _ i j ri rj Hs Hij Hi Hj) as Hb.
    destruct Hb as [Hb|[Hb1 Hb2]]; split; try lia; intros; lia.
  - intros fuel op w' Hstep.
    apply (step_ok env handler fuel op w w' Hstep). split; assumption.
Qed.

(** The theorem at [queue_pool]: the request made first is last, and the
    two requests due at the same time stand in the order they were
    made. *)
Lemma C4_aging_queue_witness :
  (StronglySorted before (agingRequests queue_pool)
   /\ Forall (fun r => acquireTimeoutAt r = JNum (deadline r))
        (agingRequests queue_pool)
   /\ (forall i j ri rj,
         (i < j)%nat ->
         agingRequests queue_pool !! i = Some ri ->
         agingRequests queue_pool !! j = Some rj ->
         deadline ri <= deadline rj
         /\ (deadline ri = deadline rj -> (req_id ri < req_id rj)%nat))
   /\ (forall fuel op w',
         step async_env quiet_handler fuel op queue_pool = Some w' ->
         aging_sorted w'))
  /\ map (fun r => (req_id r, acquireTimeoutAt r)) (agingRequests queue_pool)
     = [(2%nat, JNum 1102); (3%nat, JNum 1102); (1%nat, JNum 1501)].
Proof.
  split.
  - apply (C4_aging_queue_sorted async_env quiet_handler queue_pool
             queue_pool_reachable).
  - reflexivity.
Defined.

(** ** A draining pool *)

Lemma set_freeResources_same w : set_freeResources (freeResources w) w = w.
Proof. destruct w. reflexivity. Qed.

(** X27.  In every state that a pool reaches between two turns of the
    event loop and in which it is draining, the free list is empty (and
    so are the queues); there, a resource that is released or created is
    destroyed instead of stored, the maintenance does nothing, and
    [acquireSync] returns nothing and leaves the pool as it is, without
    making a request. *)
Theorem X27_draining_pool_is_empty_between_turns :
  forall (env : Env) (handler : nat -> Outcome -> World -> Script) (w : World),
    reachable env handler w ->
    isDraining w = true ->
    freeResources w = []
    /\ agingRequests w = [] /\ agelessRequests w = []
    /\ (forall r, _storeResource env r w = _destroyResource env r w)
    /\ (forall invoke fuel, _maintain env invoke fuel w = Some w)
    /\ (forall invoke options, acquireSync env invoke options w = Some (None, w)).
Proof.
  intros env handler w Hr Hd.
  destruct (reachable_invariant env handler w Hr) as (_ & _ & H).
  destruct (H Hd) as (Ha & Hb & Hf).
  repeat split; try assumption.
  - intros r. unfold _storeResource. now rewrite Hd.
  - intros invoke fuel. unfold _maintain. now rewrite Hd.
  - intros invoke options. unfold acquireSync, _nextFreeResource.
    rewrite Hf. simpl. rewrite <- Hf. now rewrite set_freeResources_same.
Qed.

(** The theorem at [drained_pool]. *)
Lemma X27_draining_pool_is_empty_witness :
  freeResources drained_pool = []
  /\ agingRequests drained_pool = [] /\ agelessRequests drained_pool = []
  /\ (forall r, _storeResource sample_env r drained_pool
                = _destroyResource sample_env r drained_pool)
  /\ (forall invoke fuel, _maintain sample_env invoke fuel drained_pool
                          = Some drained_pool)
  /\ (forall invoke options,
        acquireSync sample_env invoke options drained_pool
        = Some (None, drained_pool)).
Proof.
  apply (X27_draining_pool_is_empty_between_turns sample_env quiet_handler drained_pool
           drained_pool_reachable).
  reflexivity.
Defined.

(** C9 fails on the code: the branch of [acquireSync] that fails a
    request with [POOL_ACQUIRE_DURING_DRAINING] is reached when a
    completion callback calls [acquireSync] while [drain] is cancelling
    the requests, and the record that [acquireSync] took is then in no
    list and has not been destroyed.  [waiting_pool] is reachable; [drain] calls the completion
    of its request in the state [draining_mid], which is draining and
    has a free resource; [acquireSync] there takes the resource and fails
    a request of its own with the drain error; and the history of the
    pool after [drain] holds that failure, of a request that [acquire]
    never enqueued. *)
Lemma C9_branch_reached_counterexample :
  let synthetic := mkRequest 4 None 1007 JNaN in
  reachable sample_env retry_handler waiting_pool
  /\ isDraining draining_mid = true
  /\ freeResources draining_mid <> []
  /\ (exists inner,
        acquireSync sample_env (callback sample_env retry_handler 7) None draining_mid
        = Some (None, inner)
        /\ log inner
           = emit_serveError POOL_ACQUIRE_DURING_DRAINING synthetic
             :: log draining_mid
        /\ freeResources inner = [] /\ lentResources inner = []
        /\ destroyingResourceCount inner = 0)
  /\ (exists after,
        step sample_env retry_handler 8 (op_call (c_drain None)) waiting_pool
        = Some after
        /\ In (emit_serveError POOL_ACQUIRE_DURING_DRAINING synthetic) (log after)
        /\ ~ In (emit_enqueueRequest synthetic) (log after)).
Proof.
  split; [exact waiting_pool_reachable|].
  split; [reflexivity|]. split; [vm_compute; discriminate|]. split.
  - eexists. split; [vm_compute; reflexivity|]. repeat split.
  - eexists. split; [vm_compute; reflexivity|]. split.
    + vm_compute. repeat (first [left; reflexivity | right]).
    + vm_compute. intuition discriminate.
Qed.

(** ** The serving discipline *)

Lemma log_ext_In e l l' : log_ext l l' -> In e l -> In e l'.
Proof. intros (new & -> & _) H. apply in_or_app. now right. Qed.

Lemma frame_log_In e w w' : frame w w' -> In e (log w) -> In e (log w').
Proof. intros H. apply log_ext_In, H. Qed.

Lemma destroyResource_logged env r w :
  In (emit_destroy r) (log (_destroyResource env r w)).
Proof.
  unfold _destroyResource, destroyCallback. cbn -[filter].
  case_ifs; cbn; auto.
Qed.

(** What the loop of [_nextFreeResource] returns: the first resource of
    the free list that [validate] accepts, after destroying those it
    refused; or nothing, after destroying them all. *)
Lemma nextFree_spec env free w :
  match nextFree env free w with
  | (Some r, w1) =>
      exists bad rest,
        free = bad ++ r :: rest
        /\ freeResources w1 = rest
        /\ (exists t, validateResource env t r = true)
        /\ Forall (fun b => In (emit_destroy b) (log w1)
                            /\ exists t, validateResource env t b = false) bad
  | (None, w1) =>
      freeResources w1 = []
      /\ Forall (fun b => In (emit_destroy b) (log w1)
                          /\ exists t, validateResource env t b = false) free
  end.
Proof.
  revert w. induction free as [|x rest IH]; intros w; simpl.
  - split; [reflexivity|constructor].
  - destruct (validateResource env (ticks w) x) eqn:Hv.
    + exists [], rest. repeat split; eauto.
    + set (w2 := _destroyResource env x (bump (set_freeResources rest w))).
      specialize (IH w2).
      pose proof (frame_nextFree env rest w2) as Hf.
      assert (Hx : In (emit_destroy x) (log (snd (nextFree env rest w2)))).
      { eapply frame_log_In; [apply Hf|apply destroyResource_logged].
        intros y Hy. subst w2. now rewrite free_destroyResource. }
      destruct (nextFree env rest w2) as [[r|] w1]; simpl in Hx.
      * destruct IH as (bad & rest' & -> & Hr & Hvr & Hbad).
        exists (x :: bad), rest'. repeat split; eauto.
      * destruct IH as (Hr & Hbad). split; [exact Hr|]. constructor; eauto.
Qed.

Lemma serveRequest_quiet request errCode resource w :
  (errCode = None -> resource <> None) ->
  exists w', _serveRequest quiet_invoke request errCode resource w = Some w'
             /\ agingRequests w' = agingRequests w
             /\ agelessRequests w' = agelessRequests w.
Proof.
  intros H. unfold _serveRequest, quiet_invoke.
  destruct errCode; [|destruct resource; [|now destruct H]];
    destruct (done request); eexists; split; reflexivity || (cbn; auto).
Qed.

(** With callbacks that return, the loops end as soon as the budget
    exceeds the number of queued requests. *)
Lemma serveAging_quiet_total env fuel now w :
  (length (agingRequests w) < fuel)%nat ->
  exists w', serveAging env quiet_invoke fuel now w = Some w'.
Proof.
  revert w. induction fuel as [|n IH]; intros w Hlen; [lia|]. simpl.
  destruct (agingRequests w) as [|request rest] eqn:Hq; [eauto|].
  simpl in Hlen. simpl. destruct (js_gt _ _).
  - destruct (serveRequest_quiet request (Some POOL_ACQUIRE_TIMEOUT_ERROR) None
                (set_agingRequests rest w)) as (w2 & -> & Ha & _); [discriminate|].
    simpl. apply IH. rewrite Ha. cbn. lia.
  - pose proof (frame_nextFreeResource env w) as Hf.
    destruct (_nextFreeResource env w) as [[r|] w1]; simpl in Hf; [|eauto].
    rewrite (fr_aging _ _ Hf), Hq. simpl.
    destruct (serveRequest_quiet request None (Some r)
                (set_agingRequests rest w1)) as (w3 & -> & Ha & _); [discriminate|].
    simpl. apply IH. rewrite Ha. cbn. lia.
Qed.

Lemma serveAgeless_quiet_total env fuel w :
  (length (agelessRequests w) < fuel)%nat ->
  exists w', _serveAgelessRequests env quiet_invoke fuel w = Some w'.
Proof.
  revert w. induction fuel as [|n IH]; intros w Hlen; [lia|]. simpl.
  destruct (agelessRequests w) as [|request rest] eqn:Hq; [eauto|].
  simpl in Hlen.
  pose proof (frame_nextFreeResource env w) as Hf.
  destruct (_nextFreeResource env w) as [[r|] w1]; simpl in Hf; [|eauto].
  rewrite (fr_ageless _ _ Hf), Hq.
  destruct (serveRequest_quiet request None (Some r)
              (set_agelessRequests rest w1)) as (w3 & -> & _ & Hb); [discriminate|].
  simpl. apply IH. rewrite Hb. cbn. lia.
Qed.

(** C3.  A maintenance pass serves the aging queue, then the ageless
    queue, then tops up.  On the aging queue, with the time read once
    before the loop: an empty queue ends the loop; a head whose deadline
    is past is dequeued, completed with [POOL_ACQUIRE_TIMEOUT_ERROR], and
    the loop goes on; otherwise a valid free resource is looked for, the
    loop stops with the head still queued if there is none, and else the
    head is dequeued and served with it, and the loop goes on.  On the
    ageless queue the head is served in the same way with one free
    resource after the other until the queue or the free list is empty.
    Looking for a free resource takes the first one that [validate]
    accepts and destroys those before it.  With callbacks that return,
    both loops end. *)
Theorem C3_serving_discipline :
  forall (env : Env) (invoke : nat -> Outcome -> World -> option World)
         (fuel : nat) (now : Z) (w : World),
    (isDraining w = false -> isMaintaining w = false ->
     _maintain env invoke fuel w
     = (w4 ← _serveAgingRequests env invoke fuel
               (_destroyIdleResources env
                  (_destroyExpiredResources env (set_isMaintaining true w)));
        w5 ← _serveAgelessRequests env invoke fuel w4;
        Some (set_isMaintaining false (_createResources env w5))))
    /\ _serveAgingRequests env invoke fuel w
       = serveAging env invoke fuel (clock env (ticks w)) (bump w)
    /\ (agingRequests w = [] -> serveAging env invoke (S fuel) now w = Some w)
    /\ (forall request rest,
          agingRequests w = request :: rest ->
          (js_gt (JNum now) (acquireTimeoutAt request) = true ->
           serveAging env invoke (S fuel) now w
           = (w' ← _serveRequest invoke request (Some POOL_ACQUIRE_TIMEOUT_ERROR)
                     None (set_agingRequests rest w);
              serveAging env invoke fuel now w'))
          /\ (js_gt (JNum now) (acquireTimeoutAt request) = false ->
              match _nextFreeResource env w with
              | (None, w1) =>
                  serveAging env invoke (S fuel) now w = Some w1
                  /\ agingRequests w1 = request :: rest
                  /\ freeResources w1 = []
              | (Some r, w1) =>
                  serveAging env invoke (S fuel) now w
                  = (w' ← _serveRequest invoke request None (Some r)
                            (set_agingRequests rest w1);
                     serveAging env invoke fuel now w')
                  /\ agingRequests w1 = request :: rest
              end))
    /\ (agelessRequests w = [] ->
        _serveAgelessRequests env invoke (S fuel) w = Some w)
    /\ (forall request rest,
          agelessRequests w = request :: rest ->
          match _nextFreeResource env w with
          | (None, w1) =>
              _serveAgelessRequests env invoke (S fuel) w = Some w1
              /\ agelessRequests w1 = request :: rest
              /\ freeResources w1 = []
          | (Some r, w1) =>
              _serveAgelessRequests env invoke (S fuel) w
              = (w' ← _serveRequest invoke request None (Some r)
                        (set_agelessRequests rest w1);
                 _serveAgelessRequests env invoke fuel w')
              /\ agelessRequests w1 = request :: rest
          end)
    /\ match _nextFreeResource env w with
       | (Some r, w1) =>
           exists bad rest,
             freeResources w = bad ++ r :: rest
             /\ freeResources w1 = rest
             /\ (exists t, validateResource env t r = true)
             /\ Forall (fun b => In (emit_destroy b) (log w1)
                                 /\ exists t, validateResource env t b = false) bad
       | (None, w1) =>
           freeResources w1 = []
           /\ Forall (fun b => In (emit_destroy b) (log w1)
                               /\ exists t, validateResource env t b = false)
                (freeResources w)
       end
    /\ (forall request code w0,
          _serveRequest invoke request (Some code) None w0
          = match done request with
            | Some k =>
                invoke k (Failure code)
                  (emit (call_done request (Failure code))
                     (emit (emit_serveError code request) w0))
            | None => Some (emit (emit_serveError code request) w0)
            end)
    /\ (forall request r w0,
          _serveRequest invoke request None (Some r) w0
          = let w1 :=
              emit (emit_serveSuccess request (value r))
                (set_lentResources
                   (lentResources w0
                    ++ [mkResource (res_id r) (value r) (res_createdAt r)
                          (expiresAt r) (idleAt r) (Some request)]) w0) in
            match done request with
            | Some k =>
                invoke k (Success (value r))
                  (emit (call_done request (Success (value r))) w1)
            | None => Some w1
            end)
    /\ ((length (agingRequests w) < fuel)%nat ->
        exists w', serveAging env quiet_invoke fuel now w = Some w')
    /\ ((length (agelessRequests w) < fuel)%nat ->
        exists w', _serveAgelessRequests env quiet_invoke fuel w = Some w').
Proof.
  intros env invoke fuel now w.
  pose proof (frame_nextFreeResource env w) as Hf.
  pose proof (nextFree_spec env (freeResources w) w) as Hspec.
  fold (_nextFreeResource env w) in Hspec.
  split. { intros Hd Hm. unfold _maintain. rewrite Hd, Hm. reflexivity. }
  split. { reflexivity. }
  split. { intros Hq. simpl. now rewrite Hq. }
  split.
  { intros request rest Hq. split; intros Hgt; simpl; rewrite Hq, Hgt.
    - reflexivity.
    - destruct (_nextFreeResource env w) as [[r|] w1]; simpl in Hf.
      + rewrite (fr_aging _ _ Hf), Hq. split; reflexivity.
      + rewrite (fr_aging _ _ Hf). destruct Hspec as [Hfree _]. auto. }
  split. { intros Hq. simpl. now rewrite Hq. }
  split.
  { intros request rest Hq. simpl. rewrite Hq.
    destruct (_nextFreeResource env w) as [[r|] w1]; simpl in Hf.
    - rewrite (fr_ageless _ _ Hf), Hq. split; reflexivity.
    - rewrite (fr_ageless _ _ Hf). destruct Hspec as [Hfree _]. auto. }
  split. { exact Hspec. }
  split. { intros request code w0. reflexivity. }
  split. { intros request r w0. reflexivity. }
  split.
  - apply serveAging_quiet_total.
  - apply serveAgeless_quiet_total.
Qed.

(** In [maintained_pool] the pass has timed the first request out, has
    served the second with the free resource, and has left the other two
    queued. *)
Example maintained_pool_served :
  List.filter is_call_done (log maintained_pool)
  = [call_done (mkRequest 4 (Some 2%nat) 1006 (JNum 1506)) (Success 101%nat);
     call_done (mkRequest 3 (Some 1%nat) 1005 (JNum 1004))
       (Failure POOL_ACQUIRE_TIMEOUT_ERROR)]
  /\ map req_id (agingRequests maintained_pool) = [6%nat]
  /\ map req_id (agelessRequests maintained_pool) = [5%nat]
  /\ map value (lentResources maintained_pool) = [101%nat].
Proof. repeat split. Qed.

(** ** Drain *)

Lemma drain_frame_refl w : drain_frame w w.
Proof. split; auto. Qed.

Lemma drain_frame_trans w1 w2 w3 :
  drain_frame w1 w2 -> drain_frame w2 w3 -> drain_frame w1 w3.
Proof.
  intros [a1 b1 c1 d1 e1 f1] [a2 b2 c2 d2 e2 f2].
  split; try congruence. auto.
Qed.

Lemma aborted_mono r w w' : drain_frame w w' -> aborted r w -> aborted r w'.
Proof.
  intros H [H1 H2]. split; [now apply (df_log _ _ H)|].
  intros k Hk. apply (df_log _ _ H). eauto.
Qed.

Lemma destroyed_mono x w w' :
  (forall e, In e (log w) -> In e (log w')) -> destroyed x w -> destroyed x w'.
Proof. intros H [H1 [did H2]]. split; [auto|]. exists did. auto. Qed.

(** [_serveRequest] with the abort code, when the callbacks do nothing. *)
Lemma abort_quiet r w :
  exists w',
    _serveRequest quiet_invoke r (Some POOL_ACQUIRE_ABORTED_BY_DRAIN) None w = Some w'
    /\ drain_frame w w' /\ aborted r w'
    /\ agingRequests w' = agingRequests w
    /\ agelessRequests w' = agelessRequests w
    /\ freeResources w' = freeResources w.
Proof.
  unfold _serveRequest, quiet_invoke, aborted.
  destruct (done r) as [k|] eqn:Hk; eexists; (split; [reflexivity|]).
  - split; [split; cbn; auto|]. split; [|cbn; auto].
    split; [cbn; auto|]. intros k' _. cbn. auto.
  - split; [split; cbn; auto|]. split; [|cbn; auto].
    split; [cbn; auto|]. intros k'. discriminate.
Qed.

Lemma drainAging_quiet fuel w :
  (length (agingRequests w) < fuel)%nat ->
  exists w',
    drainAging quiet_invoke fuel w = Some w'
    /\ drain_frame w w'
    /\ agingRequests w' = []
    /\ agelessRequests w' = agelessRequests w
    /\ freeResources w' = freeResources w
    /\ Forall (fun r => aborted r w') (agingRequests w).
Proof.
  revert w. induction fuel as [|n IH]; intros w Hlen; [lia|]. simpl.
  destruct (pop (agingRequests w)) as [[r rest]|] eqn:Hp.
  - apply pop_Some in Hp.
    destruct (abort_quiet r (set_agingRequests rest w))
      as (w1 & -> & Hf1 & Hab & Ha1 & Hb1 & Hc1). simpl.
    destruct (IH w1) as (w' & -> & Hf & Ha & Hb & Hc & Hall).
    { rewrite Ha1. cbn. rewrite Hp, length_app in Hlen. simpl in Hlen. lia. }
    exists w'. split; [reflexivity|].
    assert (Hf0 : drain_frame w w').
    { eapply drain_frame_trans; [|exact Hf].
      eapply drain_frame_trans; [|exact Hf1]. split; cbn; auto. }
    split; [exact Hf0|]. split; [exact Ha|].
    split; [now rewrite Hb, Hb1|]. split; [now rewrite Hc, Hc1|].
    rewrite Hp. apply Forall_app. split.
    + rewrite Ha1 in Hall. cbn in Hall. exact Hall.
    + constructor; [|constructor]. exact (aborted_mono _ _ _ Hf Hab).
  - apply pop_None in Hp. exists w. rewrite Hp.
    repeat split; auto.
Qed.

Lemma drainAgeless_quiet fuel w :
  (length (agelessRequests w) < fuel)%nat ->
  exists w',
    drainAgeless quiet_invoke fuel w = Some w'
    /\ drain_frame w w'
    /\ agelessRequests w' = []
    /\ agingRequests w' = agingRequests w
    /\ freeResources w' = freeResources w
    /\ Forall (fun r => aborted r w') (agelessRequests w).
Proof.
  revert w. induction fuel as [|n IH]; intros w Hlen; [lia|]. simpl.
  destruct (pop (agelessRequests w)) as [[r rest]|] eqn:Hp.
  - apply pop_Some in Hp.
    destruct (abort_quiet r (set_agelessRequests rest w))
      as (w1 & -> & Hf1 & Hab & Ha1 & Hb1 & Hc1). simpl.
    destruct (IH w1) as (w' & -> & Hf & Ha & Hb & Hc & Hall).
    { rewrite Hb1. cbn. rewrite Hp, length_app in Hlen. simpl in Hlen. lia. }
    exists w'. split; [reflexivity|].
    assert (Hf0 : drain_frame w w').
    { eapply drain_frame_trans; [|exact Hf].
      eapply drain_frame_trans; [|exact Hf1]. split; cbn; auto. }
    split; [exact Hf0|]. split; [exact Ha|].
    split; [now rewrite Hb, Ha1|]. split; [now rewrite Hc, Hc1|].
    rewrite Hp. apply Forall_app. split.
    + rewrite Hb1 in Hall. cbn in Hall. exact Hall.
    + constructor; [|constructor]. exact (aborted_mono _ _ _ Hf Hab).
  - apply pop_None in Hp. exists w. rewrite Hp.
    repeat split; auto.
Qed.

Lemma destroyResource_drain_frame env x w :
  drain_frame w (_destroyResource env x w)
  /\ destroyed x (_destroyResource env x w)
  /\ agingRequests (_destroyResource env x w) = agingRequests w
  /\ agelessRequests (_destroyResource env x w) = agelessRequests w.
Proof.
  unfold _destroyResource, destroyCallback, destroyed. cbn -[filter].
  case_ifs; (split; [split; cbn; auto|]);
    (split; [split; [cbn; auto|eexists; cbn; eauto]|cbn; auto]).
Qed.

Lemma destroyAll_spec env stack w :
  drain_frame w (destroyAll env stack w)
  /\ agingRequests (destroyAll env stack w) = agingRequests w
  /\ agelessRequests (destroyAll env stack w) = agelessRequests w
  /\ Forall (fun x => destroyed x (destroyAll env stack w)) stack.
Proof.
  revert w. induction stack as [|x rest IH]; intros w; simpl.
  - repeat split; auto.
  - set (w1 := _destroyResource env x (set_freeResources (rev rest) w)).
    destruct (destroyResource_drain_frame env x (set_freeResources (rev rest) w))
      as (Hf1 & Hd1 & Ha1 & Hb1). fold w1 in Hf1, Hd1, Ha1, Hb1.
    destruct (IH w1) as (Hf & Ha & Hb & Hall).
    split.
    { eapply drain_frame_trans; [|exact Hf].
      eapply drain_frame_trans; [|exact Hf1]. split; cbn; auto. }
    split; [now rewrite Ha, Ha1|]. split; [now rewrite Hb, Hb1|].
    constructor; [|exact Hall].
    eapply destroyed_mono; [apply (df_log _ _ Hf)|exact Hd1].
Qed.

Lemma drainFree_spec env w :
  drain_frame w (drainFree env w)
  /\ agingRequests (drainFree env w) = agingRequests w
  /\ agelessRequests (drainFree env w) = agelessRequests w
  /\ freeResources (drainFree env w) = []
  /\ Forall (fun x => destroyed x (drainFree env w)) (freeResources w).
Proof.
  destruct (destroyAll_spec env (rev (freeResources w)) w) as (Hf & Ha & Hb & Hall).
  repeat split; try assumption; try apply Hf.
  - apply free_drainFree.
  - rewrite Forall_forall in Hall |- *. intros x Hx. apply Hall.
    now apply elem_of_rev_2.
Qed.

(** After [drain] the pool is draining, whatever the callbacks did. *)
Lemma drain_draining env invoke done fuel w w' :
  hook_ok invoke -> drain env invoke done fuel w = Some w' -> isDraining w' = true.
Proof.
  intros Hok. unfold drain. destruct (isDraining w) eqn:Hd; cbn [negb]; simpl.
  - intros [= <-]. now rewrite (fr_draining _ _ (frame_waitDrain done w)).
  - match goal with |- context [drainAging invoke fuel ?x] => set (w2 := x) end.
    assert (Hd2 : isDraining w2 = true).
    { subst w2. destruct (_maintenanceIntervalID _); reflexivity. }
    destruct (drainAging invoke fuel w2) as [w3|] eqn:H3; [|discriminate]. simpl.
    destruct (drainAgeless invoke fuel w3) as [w4|] eqn:H4; [|discriminate]. simpl.
    intros [= <-].
    destruct (drainAging_ok invoke Hok _ _ _ H3) as [(_ & _ & K3 & _) _].
    destruct (drainAgeless_ok invoke Hok _ _ _ H4) as [(_ & _ & K4 & _) _].
    destruct (K3 Hd2) as (Hd3 & _). destruct (K4 Hd3) as (Hd4 & _).
    rewrite (fr_draining _ _ (frame_waitDrain done _)).
    now rewrite (fr_draining _ _ (frame_drainFree env w4)).
Qed.

(** X26.  With completion callbacks that return without calling the
    pool, the first call of [drain] sets the
    draining flag, clears the maintenance interval, completes every
    request of both queues with [POOL_ACQUIRE_ABORTED_BY_DRAIN], hands
    every free resource to the factory's [destroy], and leaves the lent
    resources and the pending creations alone; any later call does none
    of this.  Every call then runs [_waitDrain]: with a total of 0 it
    emits [drain] and schedules the completion, otherwise it schedules
    another check, and the check is [_waitDrain] again.  [_waitDrain]
    changes neither the flag nor the queues nor the free list, and after
    any call of [drain] on a reachable pool, whatever the client's
    callbacks do, the pool is draining, with empty queues and no free
    resource. *)
Theorem X26_drain_with_quiet_callbacks :
  forall (env : Env) (done : option nat) (fuel : nat) (w : World),
    (isDraining w = false ->
     (length (agingRequests w) < fuel)%nat ->
     (length (agelessRequests w) < fuel)%nat ->
     exists w1,
       drain env quiet_invoke done fuel w = Some (_waitDrain done w1)
       /\ isDraining w1 = true
       /\ _maintenanceIntervalID w1 = None
       /\ (forall id, _maintenanceIntervalID w = Some id ->
           In (call_clearInterval id) (log w1))
       /\ agingRequests w1 = [] /\ agelessRequests w1 = []
       /\ freeResources w1 = []
       /\ lentResources w1 = lentResources w
       /\ creatingResourceCount w1 = creatingResourceCount w
       /\ Forall (fun r => aborted r w1) (agingRequests w ++ agelessRequests w)
       /\ Forall (fun x => destroyed x w1) (freeResources w))
    /\ (isDraining w = true ->
        forall invoke, drain env invoke done fuel w = Some (_waitDrain done w))
    /\ (_countResources w = 0 ->
        _waitDrain done w
        = match done with
          | Some k =>
              set_timers (timers w ++ [T_done k])
                (emit call_tick (emit emit_drain w))
          | None => emit emit_drain w
          end)
    /\ (_countResources w <> 0 ->
        _waitDrain done w
        = set_timers (timers w ++ [T_waitDrain done]) (emit call_tick w))
    /\ (forall handler n,
          fire env handler n (T_waitDrain done) w = Some (_waitDrain done w))
    /\ (forall handler n k,
          fire env handler n (T_done k) w = callback env handler n k Drained w)
    /\ (isDraining (_waitDrain done w) = isDraining w
        /\ agingRequests (_waitDrain done w) = agingRequests w
        /\ agelessRequests (_waitDrain done w) = agelessRequests w
        /\ freeResources (_waitDrain done w) = freeResources w
        /\ lentResources (_waitDrain done w) = lentResources w)
    /\ (forall handler n w',
          reachable env handler w ->
          step env handler n (op_call (c_drain done)) w = Some w' ->
          isDraining w' = true
          /\ agingRequests w' = [] /\ agelessRequests w' = []
          /\ freeResources w' = []).
Proof.
  intros env done fuel w.
  split.
  { intros Hd Hl1 Hl2. unfold drain. rewrite Hd. cbn [negb]. simpl.
    match goal with |- context [drainAging quiet_invoke fuel ?x] => set (w2 := x) end.
    assert (H2 : isDraining w2 = true
                 /\ lentResources w2 = lentResources w
                 /\ creatingResourceCount w2 = creatingResourceCount w
                 /\ _maintenanceIntervalID w2 = None
                 /\ (forall id, _maintenanceIntervalID w = Some id ->
                     In (call_clearInterval id) (log w2))
                 /\ agingRequests w2 = agingRequests w
                 /\ agelessRequests w2 = agelessRequests w
                 /\ freeResources w2 = freeResources w).
    { subst w2. cbn. destruct (_maintenanceIntervalID w) as [id|] eqn:Hi.
      - repeat split. intros id' [= <-]. cbn. auto.
      - repeat split; [exact Hi|]. intros id'. discriminate. }
    destruct H2 as (Hd2 & Hl2' & Hcr2 & Hi2 & Hc2 & Ha2 & Hb2 & Hfr2).
    destruct (drainAging_quiet fuel w2) as (w3 & -> & Hf3 & Ha3 & Hb3 & Hfr3 & Hall3).
    { rewrite Ha2. exact Hl1. }
    simpl.
    destruct (drainAgeless_quiet fuel w3) as (w4 & -> & Hf4 & Hb4 & Ha4 & Hfr4 & Hall4).
    { rewrite Hb3, Hb2. exact Hl2. }
    simpl.
    destruct (drainFree_spec env w4) as (Hf5 & Ha5 & Hb5 & Hfr5 & Hall5).
    pose proof (drain_frame_trans _ _ _ Hf3 (drain_frame_trans _ _ _ Hf4 Hf5)) as Hf25.
    exists (drainFree env w4). split; [reflexivity|].
    split; [now rewrite (df_draining _ _ Hf25)|].
    split; [now rewrite (df_interval _ _ Hf25)|].
    split; [intros id Hid; apply (df_log _ _ Hf25); auto|].
    split; [now rewrite Ha5, Ha4|]. split; [now rewrite Hb5|].
    split; [exact Hfr5|].
    split; [now rewrite (df_lent _ _ Hf25)|].
    split; [now rewrite (df_creating _ _ Hf25)|].
    split.
    - apply Forall_app. split.
      + rewrite Ha2 in Hall3. eapply Forall_impl; [exact Hall3|].
        intros r Hr. eapply aborted_mono; [|exact Hr].
        eapply drain_frame_trans; eauto.
      + rewrite Hb3, Hb2 in Hall4. eapply Forall_impl; [exact Hall4|].
        intros r Hr. eapply aborted_mono; [|exact Hr]. exact Hf5.
    - rewrite Hfr4, Hfr3, Hfr2 in Hall5. exact Hall5. }
  split.
  { intros Hd invoke. unfold drain. rewrite Hd. reflexivity. }
  split.
  { intros Hc. unfold _waitDrain. rewrite Hc. reflexivity. }
  split.
  { intros Hc. unfold _waitDrain. apply Z.eqb_neq in Hc. rewrite Hc. reflexivity. }
  split. { reflexivity. }
  split. { reflexivity. }
  split.
  { unfold _waitDrain. case_ifs; repeat split. }
  intros handler n w' Hr Hstep.
  assert (Hd' : isDraining w' = true).
  { simpl in Hstep. eapply drain_draining; [apply callback_ok|exact Hstep]. }
  split; [exact Hd'|].
  assert (Hr' : reachable env handler w') by (eapply reachable_step; eauto).
  destruct (reachable_invariant env handler w' Hr') as (_ & _ & H).
  destruct (H Hd') as (Ha & Hb & Hf). auto.
Qed.

(** Two calls of [drain]: both completions are scheduled, and the pool
    stays drained. *)
Example drain_twice :
  let w := pool_after sample_env quiet_handler min1_options
             [op_call (c_drain (Some 1%nat)); op_call (c_drain (Some 2%nat))] in
  timers w = [T_scheduledMaintain; T_done 1; T_done 2]
  /\ isDraining w = true /\ freeResources w = []
  /\ _countResources w = 0.
Proof. repeat split. Qed.

(** C6 fails on the code when a completion callback calls the pool.
    [waiting_pool] is reachable, is not draining and holds one free
    record.  [drain] there cancels the queued request, whose callback
    calls [acquireSync]; that call shifts the record out of the free
    list, fails a request of its own and drops the record.  After
    [drain] the pool is draining and has emitted [drain] with a count of
    0, and nothing was handed to the factory's [destroy].  In
    [closing_pool] a callback run by a maintenance pass destroys its
    resource and drains the pool: [drain] is emitted, and the same pass
    then calls the factory's [create]. *)
Lemma C6_free_resource_not_destroyed :
  let r := mkResource 2 101%nat 1002 JNaN (JNum 1004) None in
  reachable sample_env retry_handler waiting_pool
  /\ isDraining waiting_pool = false
  /\ freeResources waiting_pool = [r]
  /\ (exists after,
        step sample_env retry_handler 8 (op_call (c_drain None)) waiting_pool
        = Some after
        /\ isDraining after = true
        /\ In emit_drain (log after)
        /\ freeResources after = [] /\ lentResources after = []
        /\ _countResources after = 0
        /\ destroy_events (log after) = []
        /\ (forall x did, ~ In (call_destroyResource x did) (log after)))
  /\ reachable sample_env closing_handler closing_pool
  /\ isDraining closing_pool = true
  /\ (exists l1 l2 cid,
        log closing_pool = l1 ++ emit_drain :: l2
        /\ In (call_createResource cid) l1).
Proof.
  split; [exact waiting_pool_reachable|].
  split; [reflexivity|]. split; [reflexivity|]. split.
  - eexists. split; [vm_compute; reflexivity|].
    split; [reflexivity|]. split; [left; reflexivity|].
    split; [reflexivity|]. split; [reflexivity|]. split; [reflexivity|].
    split; [reflexivity|].
    intros x did H. vm_compute in H. intuition discriminate.
  - split; [apply pool_after_reachable; vm_compute; discriminate|].
    split; [reflexivity|].
    exists [call_destroyResource (mkResource 6 109%nat 1010 JNaN JUndefined None) 7;
            emit_destroy (mkResource 6 109%nat 1010 JNaN JUndefined None);
            emit_createSuccess 109%nat; call_createResource 5].
    eexists. exists 5%nat. split; [vm_compute; reflexivity|].
    right. right. right. left. reflexivity.
Qed.

(** ** Resources keep what they were made with *)

Lemma rkeep_refl X w : rkeep X X w w.
Proof. split; [lia|]. split; auto. Qed.

Lemma rkeep_trans T M L w1 w2 w3 :
  rkeep T M w1 w2 -> rkeep M L w2 w3 -> rkeep T L w1 w3.
Proof.
  intros (F1 & S1 & C1) (F2 & S2 & C2). split; [lia|]. split; [|auto].
  intros c Hc. destruct (S2 c Hc) as [H|H]; [|right; lia].
  destruct (S1 c H) as [H'|H']; [now left|right; lia].
Qed.

Lemma coherent_subset fr fr' cs cs' :
  (fr <= fr')%nat -> (forall c, In c cs' -> In c cs) ->
  coherent fr cs -> coherent fr' cs'.
Proof.
  intros Hfr Hsub [H1 H2]. split.
  - intros c Hc. specialize (H1 c (Hsub c Hc)). lia.
  - intros c1 c2 Hc1 Hc2. apply H2; auto.
Qed.

(** Code that makes no record: every record it ends with is made as one
    it started with. *)
Lemma rkeep_subset T L w w' :
  (fresh w <= fresh w')%nat ->
  (forall c, In c (cores w' L) -> In c (cores w T)) ->
  rkeep T L w w'.
Proof.
  intros Hfr Hsub. split; [exact Hfr|]. split; [auto|].
  apply coherent_subset; assumption.
Qed.

Lemma in_cores c w X :
  In c (cores w X)
  <-> In c (map core (freeResources w)) \/ In c (map core (lentResources w))
      \/ In c (map core X).
Proof.
  unfold cores, pool_resources. rewrite !map_app, !in_app_iff. tauto.
Qed.

(** Code that touches neither list. *)
Lemma rkeep_same X w w' :
  (fresh w <= fresh w')%nat ->
  freeResources w' = freeResources w ->
  lentResources w' = lentResources w ->
  rkeep X X w w'.
Proof.
  intros Hfr Hf Hl. apply rkeep_subset; [exact Hfr|].
  intros c. rewrite !in_cores, Hf, Hl. auto.
Qed.

(** Records in flight may be dropped. *)
Lemma rkeep_drop T L w :
  (forall r, In r L -> In r T) -> rkeep T L w w.
Proof.
  intros Hsub. apply rkeep_subset; [lia|].
  intros c. rewrite !in_cores, !in_map_iff.
  intros [H|[H|(r & Hr & Hin)]]; auto. right. right. eauto.
Qed.

Lemma shrink_refl w : shrink w w.
Proof. split; [lia|]. split; auto. Qed.

Lemma shrink_trans w1 w2 w3 : shrink w1 w2 -> shrink w2 w3 -> shrink w1 w3.
Proof. intros (F1 & A1 & B1) (F2 & A2 & B2). split; [lia|]. split; auto. Qed.

Lemma rkeep_shrink X w w' : shrink w w' -> rkeep X X w w'.
Proof.
  intros (Hfr & Hf & Hl). apply rkeep_subset; [exact Hfr|].
  intros c. rewrite !in_cores, !in_map_iff.
  intros [(r & Hr & Hin)|[(r & Hr & Hin)|H]]; auto.
  - left. exists r. split; [auto|]. apply list_elem_of_In, Hf, list_elem_of_In, Hin.
  - right. left. exists r. split; [auto|].
    apply list_elem_of_In, Hl, list_elem_of_In, Hin.
Qed.

(** Closes [shrink w w'] when [w'] is [w] with fields other than the two
    lists rewritten. *)
Ltac shrink_fields :=
  match goal with
  | |- shrink ?a _ =>
      let x := fresh "x" in
      generalize a; intros x; split; cbn; [lia|split; intros ? ?; assumption]
  end.

Lemma shrink_scheduleMaintainance w : shrink w (_scheduleMaintainance w).
Proof.
  unfold _scheduleMaintainance. destruct (isMaintenanceScheduled w);
    [apply shrink_refl|shrink_fields].
Qed.

Lemma shrink_destroyCallback did w : shrink w (destroyCallback did w).
Proof.
  unfold destroyCallback. destruct (decide (did ∈ destroying w));
    [shrink_fields|apply shrink_refl].
Qed.

Lemma shrink_destroyResource env r w : shrink w (_destroyResource env r w).
Proof.
  unfold _destroyResource. cbv zeta.
  match goal with |- shrink _ (if _ then destroyCallback ?d ?x else _) =>
    assert (H : shrink w x) by shrink_fields;
    destruct (destroyResource env _ _);
    [eapply shrink_trans; [exact H|apply shrink_destroyCallback]|exact H]
  end.
Qed.

Lemma shrink_set_free l w :
  (forall r, r ∈ l -> r ∈ freeResources w) -> shrink w (set_freeResources l w).
Proof. intros H. split; cbn; [lia|]. split; auto. Qed.

Lemma shrink_set_lent l w :
  (forall r, r ∈ l -> r ∈ lentResources w) -> shrink w (set_lentResources l w).
Proof. intros H. split; cbn; [lia|]. split; auto. Qed.

Lemma shrink_nextFree env free w :
  (forall r, r ∈ free -> r ∈ freeResources w) ->
  shrink w (snd (nextFree env free w)).
Proof.
  revert w. induction free as [|r rest IH]; intros w Hsub; simpl.
  - apply shrink_set_free. intros r Hr. inversion Hr.
  - assert (H1 : shrink w (bump (set_freeResources rest w))).
    { apply (shrink_trans _ (set_freeResources rest w)); [|shrink_fields].
      apply shrink_set_free. intros x Hx. apply Hsub. now right. }
    destruct (validateResource env (ticks w) r); simpl; [exact H1|].
    eapply shrink_trans; [exact H1|].
    eapply shrink_trans; [apply shrink_destroyResource|].
    apply IH. intros x Hx. now rewrite free_destroyResource.
Qed.

Lemma shrink_destroyList env l w :
  shrink w (fold_left (fun w r => _destroyResource env r w) l w).
Proof.
  revert w. induction l as [|r l IH]; intros w; simpl; [apply shrink_refl|].
  eapply shrink_trans; [apply shrink_destroyResource|apply IH].
Qed.

Lemma shrink_destroyDeadResources env key tmo w :
  shrink w (_destroyDeadResources env key tmo w).
Proof.
  unfold _destroyDeadResources, timeNow.
  destruct (sweep _ _ _ _ _ _) as [free dead] eqn:Hs.
  apply (shrink_trans w (bump w)); [shrink_fields|].
  apply (shrink_trans _ (set_freeResources free (bump w)));
    [|apply shrink_destroyList].
  apply shrink_set_free. intros r Hr.
  apply (sweep_subset (clock env (ticks w)) key tmo
           (length (freeResources (bump w))) (freeResources (bump w)) []).
  rewrite Hs. exact Hr.
Qed.

Lemma shrink_destroyIdleResources env w : shrink w (_destroyIdleResources env w).
Proof.
  unfold _destroyIdleResources, timeNow. case_ifs; try apply shrink_refl.
  - apply (shrink_trans w (bump w)); [shrink_fields|].
    match goal with |- shrink _ (set_lastIdleCheckAt _ (bump ?x)) =>
      apply (shrink_trans _ x); [apply shrink_destroyDeadResources|shrink_fields]
    end.
  - shrink_fields.
Qed.

Lemma shrink_destroyExpiredResources env w :
  shrink w (_destroyExpiredResources env w).
Proof.
  unfold _destroyExpiredResources, timeNow. case_ifs; try apply shrink_refl.
  - apply (shrink_trans w (bump w)); [shrink_fields|].
    match goal with |- shrink _ (set_lastExpireCheckAt _ (bump ?x)) =>
      apply (shrink_trans _ x); [apply shrink_destroyDeadResources|shrink_fields]
    end.
  - shrink_fields.
Qed.

Lemma shrink_setMaintenanceInterval interval w :
  shrink w (setMaintenanceInterval interval w).
Proof.
  unfold setMaintenanceInterval. destruct (_maintenanceIntervalID w); shrink_fields.
Qed.

Lemma shrink_waitDrain done w : shrink w (_waitDrain done w).
Proof. unfold _waitDrain. case_ifs; shrink_fields. Qed.

Lemma shrink_destroy env v w : shrink w (destroy env v w).
Proof.
  unfold destroy. case_ifs; try apply shrink_refl.
  - eapply shrink_trans; [|apply shrink_destroyResource].
    apply shrink_set_lent. intros x Hx. eapply elem_of_delete_l; eauto.
  - eapply shrink_trans; [|apply shrink_destroyResource].
    apply shrink_set_free. intros x Hx. eapply elem_of_delete_l; eauto.
Qed.

Lemma shrink_destroyAll env stack w :
  (forall r, r ∈ stack -> r ∈ freeResources w) ->
  shrink w (destroyAll env stack w).
Proof.
  revert w. induction stack as [|r rest IH]; intros w Hsub; simpl;
    [apply shrink_refl|].
  apply (shrink_trans _ (set_freeResources (rev rest) w)).
  { apply shrink_set_free. intros x Hx. apply Hsub. right.
    now apply elem_of_rev_1. }
  eapply shrink_trans; [apply shrink_destroyResource|].
  apply IH. intros x Hx. rewrite free_destroyResource. cbn.
  now apply elem_of_rev_2.
Qed.

Lemma shrink_drainFree env w : shrink w (drainFree env w).
Proof.
  apply shrink_destroyAll. intros r Hr. now apply elem_of_rev_1.
Qed.

(** A record made with a new identity. *)
Lemma rkeep_new r0 w w' :
  res_id r0 = fresh w ->
  fresh w' = S (fresh w) ->
  freeResources w' = freeResources w ->
  lentResources w' = lentResources w ->
  rkeep [] [r0] w w'.
Proof.
  intros Hid Hfr Hf Hl.
  assert (Hc : forall c, In c (cores w' [r0]) <-> In c (cores w []) \/ c = core r0).
  { intros c. rewrite !in_cores, Hf, Hl. simpl. intuition. }
  assert (Hid0 : core_id (core r0) = fresh w) by exact Hid.
  split; [lia|]. split.
  - intros c H. apply Hc in H as [H| ->]; [now left|right; lia].
  - intros [H1 H2]. split.
    + intros c H. apply Hc in H as [H| ->]; [specialize (H1 c H)|]; lia.
    + intros c1 c2 Hc1 Hc2 Heq.
      apply Hc in Hc1 as [Hc1| ->]; apply Hc in Hc2 as [Hc2| ->]; auto.
      * specialize (H1 c1 Hc1). lia.
      * specialize (H1 c2 Hc2). lia.
Qed.

Lemma rkeep_storeResource env r w : rkeep [r] [] w (_storeResource env r w).
Proof.
  assert (Hdrop : rkeep [r] [] w (_destroyResource env r w)).
  { eapply rkeep_trans; [apply rkeep_shrink, shrink_destroyResource|].
    apply rkeep_drop. intros x []. }
  assert (Hdrop' : rkeep [r] [] w (_destroyResource env r (bump w))).
  { eapply rkeep_trans; [apply (rkeep_shrink [r] w (bump w)); shrink_fields|].
    eapply rkeep_trans; [apply rkeep_shrink, shrink_destroyResource|].
    apply rkeep_drop. intros x []. }
  unfold _storeResource. destruct (isDraining w); cbn [negb]; [exact Hdrop|].
  destruct (validateResource env (ticks w) r); [|exact Hdrop'].
  unfold timeNow. cbv zeta.
  eapply rkeep_trans; [|apply rkeep_shrink, shrink_scheduleMaintainance].
  apply rkeep_subset; [cbn; lia|].
  intros c. rewrite !in_cores. cbn. rewrite map_app, in_app_iff. simpl.
  unfold core at 2. cbn. fold (core r). tauto.
Qed.

Lemma nextFree_lent env free w :
  lentResources (snd (nextFree env free w)) = lentResources w.
Proof.
  revert w. induction free as [|r rest IH]; intros w; simpl; [reflexivity|].
  destruct (validateResource env (ticks w) r); simpl; [reflexivity|].
  rewrite IH. unfold _destroyResource, destroyCallback. cbn -[filter].
  case_ifs; reflexivity.
Qed.

(** The record that [_nextFreeResource] returns is in flight. *)
Lemma rkeep_nextFreeResource env w :
  match _nextFreeResource env w with
  | (Some r, w1) => rkeep [] [r] w w1
  | (None, w1) => rkeep [] [] w w1
  end.
Proof.
  pose proof (shrink_nextFree env (freeResources w) w ltac:(auto)) as Hs.
  pose proof (nextFree_spec env (freeResources w) w) as Hspec.
  unfold _nextFreeResource.
  destruct (nextFree env (freeResources w) w) as [[r|] w1]; simpl in Hs.
  - destruct Hspec as (bad & rest & Hfree & _).
    apply (rkeep_trans [] [r] [r] w w w1); [|apply rkeep_shrink; exact Hs].
    apply rkeep_subset; [lia|].
    intros c. rewrite !in_cores. simpl. intros [H|[H|[<-|[]]]]; auto.
    left. apply in_map. rewrite Hfree. apply in_or_app. right. now left.
  - apply rkeep_shrink, Hs.
Qed.

Lemma rkeep_createCallback env cid result w :
  rkeep [] [] w (createCallback env cid result w).
Proof.
  unfold createCallback. destruct (decide (cid ∈ creating w)); [|apply rkeep_refl].
  destruct result; cbv zeta.
  - destruct (backoff _); apply rkeep_shrink; shrink_fields.
  - unfold timeNow.
    eapply rkeep_trans; [|apply rkeep_storeResource].
    apply rkeep_new; reflexivity.
Qed.

Lemma rkeep_createResource env w : rkeep [] [] w (_createResource env w).
Proof.
  unfold _createResource. cbv zeta.
  match goal with |- rkeep _ _ _ (match _ with Some _ => createCallback _ _ _ ?x | None => _ end) =>
    assert (H : rkeep [] [] w x) by (apply rkeep_shrink; shrink_fields) end.
  destruct (createResource env _); [|exact H].
  eapply rkeep_trans; [exact H|apply rkeep_createCallback].
Qed.

Lemma rkeep_createResources env w : rkeep [] [] w (_createResources env w).
Proof.
  unfold _createResources. generalize (Z.to_nat (extraResources w)). intros n.
  revert w. induction n as [|n IH]; intros w; simpl; [apply rkeep_refl|].
  eapply rkeep_trans; [apply rkeep_createResource|apply IH].
Qed.

Lemma rkeep_release env v w : rkeep [] [] w (release env v w).
Proof.
  unfold release.
  destruct (_getResourceIndex env (lentResources w) v) as [i|]; [|apply rkeep_refl].
  destruct (lentResources w !! i) as [resource|] eqn:Hi; [|apply rkeep_refl].
  eapply rkeep_trans; [|apply rkeep_storeResource].
  apply rkeep_subset; [cbn; lia|].
  intros c. rewrite !in_cores. cbn. rewrite !in_map_iff.
  intros [H|[(x & Hx & Hin)|[<-|[]]]]; auto.
  - right. left. exists x. split; [auto|].
    apply list_elem_of_In. eapply elem_of_delete_l. apply list_elem_of_In. exact Hin.
  - right. left. exists resource. split; [auto|].
    apply list_elem_of_In. eapply list_elem_of_lookup_2; eauto.
Qed.

Section ResourceContract.

Variable env : Env.
Variable invoke : nat -> Outcome -> World -> option World.
Hypothesis invoke_rok : rhook_ok invoke.

(** [_serveRequest] with an error touches no record; with a resource, it
    lends the record it is given. *)
Lemma rkeep_serve_error request code w w' :
  _serveRequest invoke request (Some code) None w = Some w' -> rkeep [] [] w w'.
Proof.
  unfold _serveRequest. destruct (done request) as [k|].
  - intros H. eapply rkeep_trans; [|eapply invoke_rok; exact H].
    apply rkeep_shrink. shrink_fields.
  - intros [= <-]. apply rkeep_shrink. shrink_fields.
Qed.

Lemma rkeep_serve_resource request r w w' :
  _serveRequest invoke request None (Some r) w = Some w' -> rkeep [r] [] w w'.
Proof.
  unfold _serveRequest.
  set (w2 := emit _ (set_lentResources _ w)).
  assert (H2 : rkeep [r] [] w w2).
  { apply rkeep_subset; [cbn; lia|].
    intros c. rewrite !in_cores. cbn. rewrite map_app, in_app_iff. simpl.
    unfold core at 3. cbn. fold (core r). tauto. }
  destruct (done request) as [k|].
  - intros H. eapply rkeep_trans; [|eapply invoke_rok; exact H].
    eapply rkeep_trans; [exact H2|]. apply rkeep_shrink. shrink_fields.
  - intros [= <-]. exact H2.
Qed.

Lemma rkeep_serveAging fuel now w w' :
  serveAging env invoke fuel now w = Some w' -> rkeep [] [] w w'.
Proof.
  revert w. induction fuel as [|n IH]; intros w; simpl; [discriminate|].
  destruct (agingRequests w) as [|request rest] eqn:Hq.
  - intros [= <-]. apply rkeep_refl.
  - simpl. destruct (js_gt (JNum now) (acquireTimeoutAt request)).
    + destruct_serve w2 Hs. simpl. intros H.
      eapply rkeep_trans; [|apply IH, H].
      eapply rkeep_trans; [|eapply rkeep_serve_error; exact Hs].
      apply rkeep_shrink. shrink_fields.
    + pose proof (rkeep_nextFreeResource env w) as Hn.
      destruct (_nextFreeResource env w) as [[r|] w1].
      * destruct_serve w3 Hs. simpl. intros H.
        eapply rkeep_trans; [exact Hn|].
        eapply rkeep_trans; [|apply IH, H].
        eapply rkeep_trans; [|eapply rkeep_serve_resource; exact Hs].
        apply rkeep_shrink. shrink_fields.
      * intros [= <-]. exact Hn.
Qed.

Lemma rkeep_serveAgeless fuel w w' :
  _serveAgelessRequests env invoke fuel w = Some w' -> rkeep [] [] w w'.
Proof.
  revert w. induction fuel as [|n IH]; intros w; simpl; [discriminate|].
  destruct (agelessRequests w) as [|request0 rest0] eqn:Hq.
  - intros [= <-]. apply rkeep_refl.
  - pose proof (rkeep_nextFreeResource env w) as Hn.
    destruct (_nextFreeResource env w) as [[r|] w1].
    + destruct (agelessRequests w1) as [|request rest]; [discriminate|].
      destruct_serve w3 Hs. simpl. intros H.
      eapply rkeep_trans; [exact Hn|].
      eapply rkeep_trans; [|apply IH, H].
      eapply rkeep_trans; [|eapply rkeep_serve_resource; exact Hs].
      apply rkeep_shrink. shrink_fields.
    + intros [= <-]. exact Hn.
Qed.

Lemma rkeep_acquire options done w w' :
  acquire env invoke options done w = Some w' -> rkeep [] [] w w'.
Proof.
  unfold acquire, _createRequest, timeNow, _enqueueRequest.
  set (request := mkRequest _ _ _ _).
  set (w1 := emit _ (alloc (bump w))).
  assert (H1 : rkeep [] [] w w1)
    by (unfold w1, request; apply rkeep_shrink; shrink_fields).
  destruct (isDraining w1).
  - intros H. eapply rkeep_trans; [exact H1|eapply rkeep_serve_error; exact H].
  - destruct (js_ge _ _).
    + intros H. eapply rkeep_trans; [exact H1|eapply rkeep_serve_error; exact H].
    + intros [= <-]. eapply rkeep_trans; [exact H1|].
      eapply rkeep_trans; [|apply rkeep_shrink, shrink_scheduleMaintainance].
      apply rkeep_shrink. unfold _insertRequestByAcquireTimeout.
      destruct (js_isNaN _); shrink_fields.
Qed.

Lemma rkeep_acquireSync options w v w' :
  acquireSync env invoke options w = Some (v, w') -> rkeep [] [] w w'.
Proof.
  unfold acquireSync.
  pose proof (rkeep_nextFreeResource env w) as Hn.
  destruct (_nextFreeResource env w) as [[r|] w1].
  - unfold _createRequest, timeNow. set (request := mkRequest _ _ _ _).
    cbv zeta. cbn [isDraining alloc set_fresh bump set_ticks].
    assert (H2 : rkeep [] [r] w (alloc (bump w1))).
    { eapply rkeep_trans; [exact Hn|]. apply rkeep_shrink. shrink_fields. }
    destruct (isDraining w1).
    + destruct_serve w3 Hs. simpl. intros [= _ <-].
      eapply rkeep_trans; [exact H2|].
      eapply rkeep_trans; [apply (rkeep_drop [r] []); intros x []|].
      eapply rkeep_serve_error; exact Hs.
    + destruct_serve w3 Hs. simpl. intros [= _ <-].
      eapply rkeep_trans; [exact H2|]. eapply rkeep_serve_resource; exact Hs.
  - intros [= _ <-]. exact Hn.
Qed.

Lemma rkeep_maintain fuel w w' :
  _maintain env invoke fuel w = Some w' -> rkeep [] [] w w'.
Proof.
  unfold _maintain, _serveAgingRequests, timeNow.
  destruct (isDraining w || isMaintaining w).
  - intros [= <-]. apply rkeep_refl.
  - match goal with |- context [serveAging env invoke fuel ?n ?x] =>
      destruct (serveAging env invoke fuel n x) as [w4|] eqn:H4; [|discriminate];
      assert (H3 : rkeep [] [] w x)
    end.
    { apply rkeep_shrink.
      apply (shrink_trans _ (set_isMaintaining true w)); [shrink_fields|].
      apply (shrink_trans _ (_destroyExpiredResources env (set_isMaintaining true w)));
        [apply shrink_destroyExpiredResources|].
      apply (shrink_trans _ (_destroyIdleResources env
                               (_destroyExpiredResources env (set_isMaintaining true w))));
        [apply shrink_destroyIdleResources|].
      shrink_fields. }
    simpl. destruct (_serveAgelessRequests _ _ _ _) as [w5|] eqn:H5; [|discriminate].
    simpl. intros [= <-].
    eapply rkeep_trans; [exact H3|].
    eapply rkeep_trans; [eapply rkeep_serveAging; exact H4|].
    eapply rkeep_trans; [eapply rkeep_serveAgeless; exact H5|].
    eapply rkeep_trans; [apply (rkeep_createResources env)|].
    apply rkeep_shrink. shrink_fields.
Qed.

Lemma rkeep_scheduledMaintain fuel w w' :
  _scheduledMaintain env invoke fuel w = Some w' -> rkeep [] [] w w'.
Proof.
  unfold _scheduledMaintain.
  destruct (_maintain _ _ _ _) as [w1|] eqn:H1; [|discriminate].
  simpl. intros [= <-].
  eapply rkeep_trans; [eapply rkeep_maintain; exact H1|].
  apply rkeep_shrink. shrink_fields.
Qed.

Lemma rkeep_drainAging fuel w w' :
  drainAging invoke fuel w = Some w' -> rkeep [] [] w w'.
Proof.
  revert w. induction fuel as [|n IH]; intros w; simpl; [discriminate|].
  destruct (pop (agingRequests w)) as [[request rest]|].
  - destruct_serve w1 Hs. simpl. intros H.
    eapply rkeep_trans; [|apply IH, H].
    eapply rkeep_trans; [|eapply rkeep_serve_error; exact Hs].
    apply rkeep_shrink. shrink_fields.
  - intros [= <-]. apply rkeep_refl.
Qed.

Lemma rkeep_drainAgeless fuel w w' :
  drainAgeless invoke fuel w = Some w' -> rkeep [] [] w w'.
Proof.
  revert w. induction fuel as [|n IH]; intros w; simpl; [discriminate|].
  destruct (pop (agelessRequests w)) as [[request rest]|].
  - destruct_serve w1 Hs. simpl. intros H.
    eapply rkeep_trans; [|apply IH, H].
    eapply rkeep_trans; [|eapply rkeep_serve_error; exact Hs].
    apply rkeep_shrink. shrink_fields.
  - intros [= <-]. apply rkeep_refl.
Qed.

Lemma rkeep_drain done fuel w w' :
  drain env invoke done fuel w = Some w' -> rkeep [] [] w w'.
Proof.
  unfold drain. destruct (isDraining w); cbn [negb]; simpl.
  - intros [= <-]. apply rkeep_shrink, shrink_waitDrain.
  - match goal with |- context [drainAging invoke fuel ?x] =>
      destruct (drainAging invoke fuel x) as [w3|] eqn:H3; [|discriminate];
      assert (H2 : rkeep [] [] w x)
    end.
    { apply rkeep_shrink. destruct (_maintenanceIntervalID _); shrink_fields. }
    simpl. destruct (drainAgeless invoke fuel w3) as [w4|] eqn:H4; [|discriminate].
    simpl. intros [= <-].
    eapply rkeep_trans; [exact H2|].
    eapply rkeep_trans; [eapply rkeep_drainAging; exact H3|].
    eapply rkeep_trans; [eapply rkeep_drainAgeless; exact H4|].
    apply rkeep_shrink.
    eapply shrink_trans; [apply shrink_drainFree|apply shrink_waitDrain].
Qed.

Lemma rkeep_exec fuel c w w' :
  exec env invoke fuel c w = Some w' -> rkeep [] [] w w'.
Proof.
  destruct c; simpl.
  - apply rkeep_acquire.
  - destruct (acquireSync env invoke options w) as [[v w1]|] eqn:H; [|discriminate].
    simpl. intros [= <-]. eapply rkeep_acquireSync; eauto.
  - intros [= <-]. apply rkeep_release.
  - intros [= <-]. apply rkeep_shrink, shrink_destroy.
  - apply rkeep_drain.
  - intros [= <-]. apply rkeep_shrink, shrink_setMaintenanceInterval.
Qed.

Lemma rkeep_run fuel s w w' :
  run env invoke fuel s w = Some w' -> rkeep [] [] w w'.
Proof.
  revert w. induction s as [|c k IH]; intros w; simpl.
  - intros [= <-]. apply rkeep_refl.
  - destruct (exec env invoke fuel c w) as [w1|] eqn:H1; [|discriminate].
    intros H. eapply rkeep_trans; [eapply rkeep_exec; exact H1|]. eapply IH; exact H.
Qed.

End ResourceContract.

Section ReachableResources.

Variable env : Env.
Variable handler : nat -> Outcome -> World -> Script.

Lemma callback_rok fuel : rhook_ok (callback env handler fuel).
Proof.
  induction fuel as [|n IH]; intros k o w w'; simpl; [discriminate|].
  apply rkeep_run. exact IH.
Qed.

Lemma rkeep_fire fuel t w w' :
  fire env handler fuel t w = Some w' -> rkeep [] [] w w'.
Proof.
  destruct t; simpl.
  - apply rkeep_scheduledMaintain, callback_rok.
  - intros [= <-]. apply rkeep_shrink. shrink_fields.
  - intros [= <-]. apply rkeep_shrink, shrink_waitDrain.
  - apply callback_rok.
Qed.

(** Every turn of the event loop keeps what the records were made with. *)
Lemma rkeep_step fuel op w w' :
  step env handler fuel op w = Some w' -> rkeep [] [] w w'.
Proof.
  destruct op; simpl.
  - apply rkeep_exec, callback_rok.
  - destruct (_maintenanceIntervalID w); [|discriminate].
    apply rkeep_maintain, callback_rok.
  - destruct (timers w !! i) as [t|]; [|discriminate]. intros H.
    eapply rkeep_trans; [|eapply rkeep_fire; exact H].
    apply rkeep_shrink. shrink_fields.
  - intros [= <-]. apply rkeep_createCallback.
  - intros [= <-]. apply rkeep_shrink, shrink_destroyCallback.
Qed.

Lemma rkeep_reaches w w' : reaches env handler w w' -> rkeep [] [] w w'.
Proof.
  induction 1 as [w|fuel op w1 w2 w3 _ IH H]; [apply rkeep_refl|].
  eapply rkeep_trans; [exact IH|eapply rkeep_step; exact H].
Qed.

Lemma reachable_coherent w :
  reachable env handler w -> coherent (fresh w) (cores w []).
Proof.
  induction 1 as [options fuel w H|fuel op w w' _ IH H].
  - unfold Pool_new in H. apply rkeep_maintain in H; [|apply callback_rok].
    apply H.
    match type of H with rkeep _ _ (setMaintenanceInterval ?i ?w0) _ =>
      apply (rkeep_shrink [] w0 (setMaintenanceInterval i w0)
               (shrink_setMaintenanceInterval i w0))
    end.
    split; cbn; [intros c []|intros c1 c2 []].
  - apply (rkeep_step _ _ _ _ H), IH.
Qed.

(** Between two states of a run, a record with a given identity keeps
    its handle, its time of creation and its time of expiry. *)
Lemma reaches_same_core w w' r r' :
  reachable env handler w ->
  reaches env handler w w' ->
  In r (pool_resources w) -> In r' (pool_resources w') ->
  res_id r = res_id r' ->
  core r' = core r.
Proof.
  intros Hr Hs Hin Hin' Hid.
  destruct (reachable_coherent w Hr) as [H1 H2].
  destruct (rkeep_reaches w w' Hs) as (_ & Hsub & _).
  assert (Hc : In (core r) (cores w [])).
  { unfold cores. rewrite app_nil_r. now apply in_map. }
  assert (Hc' : In (core r') (cores w' [])).
  { unfold cores. rewrite app_nil_r. now apply in_map. }
  destruct (Hsub _ Hc') as [Hold|Hnew].
  - apply H2; auto.
  - specialize (H1 _ Hc). unfold core_id, core in *. simpl in *. lia.
Qed.

End ReachableResources.

(** C7.  In every run of a pool, a resource record keeps the handle, the
    creation time and the expiry time it was made with for as long as the
    pool holds it (two records with the same identity, one in a state
    and one in a later state, agree on the three; and in one state an
    identity stands for one such triple).  Storing a record appends it
    to the free list with [idleAt] set to the time of storage and no
    [request], and nothing else changed; [release] stores the very
    record it found in the lent list. *)
Theorem C7_resource_keeps_expiry :
  forall (env : Env) (handler : nat -> Outcome -> World -> Script) (w : World),
    reachable env handler w ->
    (forall r1 r2,
        In r1 (pool_resources w) -> In r2 (pool_resources w) ->
        res_id r1 = res_id r2 ->
        value r1 = value r2 /\ res_createdAt r1 = res_createdAt r2
        /\ expiresAt r1 = expiresAt r2)
    /\ (forall w' r r',
          reaches env handler w w' ->
          In r (pool_resources w) -> In r' (pool_resources w') ->
          res_id r = res_id r' ->
          value r' = value r /\ res_createdAt r' = res_createdAt r
          /\ expiresAt r' = expiresAt r)
    /\ (forall r,
          isDraining w = false -> validateResource env (ticks w) r = true ->
          freeResources (_storeResource env r w)
          = freeResources w
            ++ [mkResource (res_id r) (value r) (res_createdAt r) (expiresAt r)
                  (JNum (clock env (S (ticks w)))) None]
          /\ lentResources (_storeResource env r w) = lentResources w)
    /\ (forall v i r,
          _getResourceIndex env (lentResources w) v = Some i ->
          lentResources w !! i = Some r ->
          release env v w
          = _storeResource env r
              (emit (emit_release r)
                 (set_lentResources (delete i (lentResources w)) w))).
Proof.
  intros env handler w Hr. split; [|split; [|split]].
  - intros r1 r2 H1 H2 Hid.
    pose proof (reaches_same_core env handler w w r2 r1 Hr
                  (reaches_refl env handler w) H2 H1 (eq_sym Hid)) as Hc.
    unfold core in Hc. injection Hc as _ Hv Hc He. auto.
  - intros w' r r' Hs H1 H2 Hid.
    pose proof (reaches_same_core env handler w w' r r' Hr Hs H1 H2 Hid) as Hc.
    unfold core in Hc. injection Hc as _ Hv Hc He. auto.
  - intros r Hd Hv. unfold _storeResource. rewrite Hd. cbn [negb]. rewrite Hv.
    unfold timeNow, _scheduleMaintainance. cbn.
    destruct (isMaintenanceScheduled w); split; reflexivity.
  - intros v i r Hi Hl. unfold release. now rewrite Hi, Hl.
Qed.

Lemma steps_reaches env handler ops w0 w w' :
  reaches env handler w0 w -> steps env handler ops w = Some w' ->
  reaches env handler w0 w'.
Proof.
  revert w. induction ops as [|op ops IH]; intros w Hr; simpl.
  - now intros [= <-].
  - destruct (step env handler 8 op w) as [w1|] eqn:H1; [|discriminate].
    apply IH. eapply reaches_step; eauto.
Qed.

Lemma expiring_pool_reachable : reachable sample_env quiet_handler expiring_pool.
Proof. apply pool_after_reachable. vm_compute. discriminate. Qed.

Lemma recycled_pool_reached :
  reaches sample_env quiet_handler expiring_pool recycled_pool.
Proof.
  apply (steps_reaches sample_env quiet_handler
           [op_call (c_acquire None (Some 7%nat)); op_timer 0;
            op_call (c_release 102%nat)] expiring_pool expiring_pool).
  - apply reaches_refl.
  - vm_compute. reflexivity.
Qed.

(** The theorem at [expiring_pool], whose one resource was made at 1003 to
    expire at 1503: lent to a request and released at 1013, it is in
    [recycled_pool] with its handle and both times, idle since 1013. *)
Lemma C7_resource_witness :
  freeResources expiring_pool
  = [mkResource 2 102%nat 1003 (JNum 1503) (JNum 1005) None]
  /\ freeResources recycled_pool
     = [mkResource 2 102%nat 1003 (JNum 1503) (JNum 1013) None]
  /\ (forall r r',
        In r (pool_resources expiring_pool) ->
        In r' (pool_resources recycled_pool) ->
        res_id r = res_id r' ->
        value r' = value r /\ res_createdAt r' = res_createdAt r
        /\ expiresAt r' = expiresAt r).
Proof.
  split; [|split].
  - vm_compute. reflexivity.
  - vm_compute. reflexivity.
  - intros r r'.
    apply (proj1 (proj2 (C7_resource_keeps_expiry sample_env quiet_handler
                           expiring_pool expiring_pool_reachable))
             recycled_pool r r' recycled_pool_reached).
Defined.

(** * Further properties of the methods *)

(** ** Looking a handle up *)

Lemma getResourceIndexFrom_spec env resources v i :
  (i <= length resources)%nat ->
  match getResourceIndexFrom env resources v i with
  | Some j =>
      (j < i)%nat
      /\ (exists r, resources !! j = Some r
                    /\ compareResources env (value r) v = true)
      /\ (forall k r, (j < k < i)%nat -> resources !! k = Some r ->
                      compareResources env (value r) v = false)
  | None =>
      forall k r, (k < i)%nat -> resources !! k = Some r ->
                  compareResources env (value r) v = false
  end.
Proof.
  induction i as [|j IH]; intros Hi; simpl.
  - intros k r Hk. lia.
  - destruct (lookup_lt_is_Some_2 resources j) as [r Hr]; [lia|].
    rewrite Hr. destruct (compareResources env (value r) v) eqn:Hc.
    + split; [lia|]. split; [eauto|]. intros k r' Hk. lia.
    + specialize (IH ltac:(lia)).
      destruct (getResourceIndexFrom env resources v j) as [j'|].
      * destruct IH as (Hlt & Hex & Hrest). split; [lia|]. split; [exact Hex|].
        intros k r' Hk Hr'. destruct (decide (k = j)) as [->|Hne].
        -- congruence.
        -- apply (Hrest k); [lia|exact Hr'].
      * intros k r' Hk Hr'. destruct (decide (k = j)) as [->|Hne].
        -- congruence.
        -- apply (IH k); [lia|exact Hr'].
Qed.

(** X1.  [_getResourceIndex] answers with the index of the last record of
    the list whose handle [compare] accepts, and with none ([-1]) exactly
    when [compare] accepts the handle of no record. *)
Theorem X1_getResourceIndex_last_match :
  forall (env : Env) (resources : list Resource) (v : Value),
    match _getResourceIndex env resources v with
    | Some j =>
        (exists r, resources !! j = Some r
                   /\ compareResources env (value r) v = true)
        /\ (forall k r, (j < k)%nat -> resources !! k = Some r ->
                        compareResources env (value r) v = false)
    | None =>
        Forall (fun r => compareResources env (value r) v = false) resources
    end.
Proof.
  intros env resources v. unfold _getResourceIndex.
  pose proof (getResourceIndexFrom_spec env resources v (length resources)
                (Nat.le_refl _)) as H.
  destruct (getResourceIndexFrom env resources v (length resources)) as [j|].
  - destruct H as (_ & Hex & Hrest). split; [exact Hex|].
    intros k r Hk Hr. apply (Hrest k); [|exact Hr].
    split; [exact Hk|]. apply lookup_lt_is_Some. eauto.
  - apply Forall_forall. intros r Hin.
    apply list_elem_of_lookup_1 in Hin. destruct Hin as [k Hk].
    apply (H k); [|exact Hk]. apply lookup_lt_is_Some. eauto.
Qed.

(** ** Returning and destroying a resource *)

(** What one call of [_destroyResource] changes. *)
Lemma destroyResource_fields env r w :
  freeResources (_destroyResource env r w) = freeResources w
  /\ lentResources (_destroyResource env r w) = lentResources w
  /\ creatingResourceCount (_destroyResource env r w) = creatingResourceCount w
  /\ destroyingResourceCount (_destroyResource env r w)
     = destroyingResourceCount w
       + (if destroyResource env (ticks w) r then 0 else 1)
  /\ log (_destroyResource env r w)
     = call_destroyResource r (fresh w) :: emit_destroy r :: log w.
Proof.
  unfold _destroyResource, destroyCallback. cbn -[filter].
  destruct (destroyResource env (ticks w) r).
  - rewrite decide_True by (apply elem_of_cons; now left).
    cbn -[filter]. repeat split; lia.
  - cbn. repeat split; lia.
Qed.

Lemma countResources_destroyResource env r w :
  _countResources (_destroyResource env r w)
  = _countResources w + (if destroyResource env (ticks w) r then 0 else 1).
Proof.
  destruct (destroyResource_fields env r w) as (Hf & Hl & Hc & Hd & _).
  unfold _countResources. rewrite Hf, Hl, Hc, Hd. lia.
Qed.

Lemma getResourceIndex_None env resources v :
  Forall (fun r => compareResources env (value r) v = false) resources ->
  _getResourceIndex env resources v = None.
Proof.
  intros Hall. unfold _getResourceIndex.
  pose proof (getResourceIndexFrom_spec env resources v (length resources)
                (Nat.le_refl _)) as H.
  destruct (getResourceIndexFrom env resources v (length resources)) as [j|];
    [|reflexivity].
  destruct H as (_ & (r & Hr & Hc) & _).
  rewrite Forall_forall in Hall.
  rewrite (Hall r) in Hc; [discriminate|]. eapply list_elem_of_lookup_2; eauto.
Qed.

Lemma getResourceIndex_Some env resources v i :
  _getResourceIndex env resources v = Some i ->
  exists r, resources !! i = Some r /\ compareResources env (value r) v = true.
Proof.
  intros H. unfold _getResourceIndex in H.
  pose proof (getResourceIndexFrom_spec env resources v (length resources)
                (Nat.le_refl _)) as Hs.
  rewrite H in Hs. apply Hs.
Qed.

Lemma countResources_store env r w :
  _countResources w
  <= _countResources (_storeResource env r w)
  <= _countResources w + 1.
Proof.
  unfold _storeResource. destruct (isDraining w); cbn [negb].
  - rewrite countResources_destroyResource. case_ifs; lia.
  - destruct (validateResource env (ticks w) r).
    + unfold timeNow, _scheduleMaintainance. cbn.
      destruct (isMaintenanceScheduled w); unfold _countResources; cbn;
        rewrite length_app; cbn; lia.
    + rewrite countResources_destroyResource. unfold _countResources. cbn.
      case_ifs; lia.
Qed.

Lemma release_not_lent env v w :
  Forall (fun r => compareResources env (value r) v = false) (lentResources w) ->
  release env v w = w.
Proof.
  intros H. unfold release. now rewrite (getResourceIndex_None env _ v H).
Qed.

Lemma countResources_delete_lent i r w :
  lentResources w !! i = Some r ->
  _countResources (set_lentResources (delete i (lentResources w)) w)
  = _countResources w - 1.
Proof.
  intros Hr. unfold _countResources. cbn. rewrite length_delete by eauto.
  apply lookup_lt_Some in Hr. lia.
Qed.

Lemma countResources_delete_free i r w :
  freeResources w !! i = Some r ->
  _countResources (set_freeResources (delete i (freeResources w)) w)
  = _countResources w - 1.
Proof.
  intros Hr. unfold _countResources. cbn. rewrite length_delete by eauto.
  apply lookup_lt_Some in Hr. lia.
Qed.

(** X2.  [release] does nothing when [compare] accepts the handle of no
    lent record.  Otherwise it takes the last lent record that matches
    out of the lent list and reports it with a [release] event.  When
    the pool is not draining and [validate] accepts the record, the
    record goes to the end of the free list without its request and with
    [idleAt] set to the time read then, nothing is destroyed, the count
    of resources is unchanged, and [_scheduleMaintainance] has been
    called; when the pool is draining or [validate] refuses the record,
    the record is destroyed and the free list stays as it is.  In every
    case the request queues are untouched and the number of resources
    that the pool counts does not grow, and falls by one at most. *)
Theorem X2_release_effect :
  forall (env : Env) (v : Value) (w : World),
    (Forall (fun r => compareResources env (value r) v = false) (lentResources w) ->
     release env v w = w)
    /\ (forall i,
          _getResourceIndex env (lentResources w) v = Some i ->
          exists r,
            lentResources w !! i = Some r
            /\ compareResources env (value r) v = true
            /\ lentResources (release env v w) = delete i (lentResources w)
            /\ In (emit_release r) (log (release env v w))
            /\ (isDraining w = false -> validateResource env (ticks w) r = true ->
                freeResources (release env v w)
                = freeResources w
                  ++ [mkResource (res_id r) (value r) (res_createdAt r) (expiresAt r)
                        (JNum (clock env (S (ticks w)))) None]
                /\ destroy_events (log (release env v w)) = destroy_events (log w)
                /\ _countResources (release env v w) = _countResources w
                /\ maintenance_scheduled w (release env v w))
            /\ (isDraining w = true \/ validateResource env (ticks w) r = false ->
                freeResources (release env v w) = freeResources w
                /\ In (emit_destroy r) (log (release env v w))))
    /\ _countResources w - 1 <= _countResources (release env v w) <= _countResources w
    /\ agingRequests (release env v w) = agingRequests w
    /\ agelessRequests (release env v w) = agelessRequests w.
Proof.
  intros env v w. split; [apply release_not_lent|]. split; [|split].
  - intros i Hi. destruct (getResourceIndex_Some env _ v i Hi) as (r & Hr & Hc).
    exists r. split; [exact Hr|]. split; [exact Hc|].
    unfold release. rewrite Hi, Hr.
    set (w1 := emit (emit_release r)
                 (set_lentResources (delete i (lentResources w)) w)).
    assert (Hin : In (emit_release r) (log w1)) by (cbn; auto).
    split; [|split; [|split]].
    + unfold _storeResource. change (isDraining w1) with (isDraining w).
      change (ticks w1) with (ticks w).
      destruct (isDraining w); cbn [negb].
      * now rewrite (proj1 (proj2 (destroyResource_fields env r w1))).
      * destruct (validateResource env (ticks w) r).
        -- unfold timeNow, _scheduleMaintainance. cbn.
           destruct (isMaintenanceScheduled w); reflexivity.
        -- now rewrite (proj1 (proj2 (destroyResource_fields env r (bump w1)))).
    + apply (frame_log_In _ w1); [apply frame_storeResource|exact Hin].
    + intros Hd Hv. unfold _storeResource. change (isDraining w1) with (isDraining w).
      change (ticks w1) with (ticks w). rewrite Hd, Hv. cbn [negb].
      unfold timeNow, _scheduleMaintainance, maintenance_scheduled, _countResources.
      pose proof (lookup_lt_Some _ _ _ Hr) as Hlt.
      destruct (isMaintenanceScheduled w) eqn:Hflag; cbn; rewrite ?Hflag;
        rewrite ?length_app, ?length_delete by eauto; cbn;
        (split; [reflexivity|]); (split; [reflexivity|]);
        (split; [rewrite length_app, length_delete by eauto; cbn; lia|]);
        split; first [reflexivity|discriminate|auto].

    + intros Hbad. unfold _storeResource. change (isDraining w1) with (isDraining w).
      change (ticks w1) with (ticks w).
      destruct (isDraining w) eqn:Hd; cbn [negb].
      * split; [now rewrite (proj1 (destroyResource_fields env r w1))|].
        apply destroyResource_logged.
      * destruct Hbad as [Hbad|Hbad]; [discriminate|]. rewrite Hbad.
        split; [now rewrite (proj1 (destroyResource_fields env r (bump w1)))|].
        apply destroyResource_logged.
  - unfold release.
    destruct (_getResourceIndex env (lentResources w) v) as [i|]; [|lia].
    destruct (lentResources w !! i) as [r|] eqn:Hr; [|lia].
    pose proof (countResources_delete_lent i r w Hr) as Hc.
    match goal with |- context [_storeResource env r ?x] =>
      pose proof (countResources_store env r x) as Hs;
      change (_countResources x)
        with (_countResources (set_lentResources (delete i (lentResources w)) w))
        in Hs
    end.
    lia.
  - pose proof (frame_release env v w) as Hf.
    split; [apply (fr_aging _ _ Hf)|apply (fr_ageless _ _ Hf)].
Qed.

Lemma count_one_delete {A} (p : A -> bool) (l : list A) i x :
  l !! i = Some x -> p x = true -> (count p l <= 1)%nat ->
  Forall (fun y => p y = false) (delete i l).
Proof.
  revert i. induction l as [|y l IH]; intros i Hi Hp Hc; [discriminate|].
  rewrite count_cons in Hc. destruct i as [|i]; simpl in *.
  - injection Hi as ->. rewrite Hp in Hc.
    apply Forall_forall. intros z Hz.
    destruct (p z) eqn:Hpz; [|reflexivity].
    apply list_elem_of_In in Hz.
    pose proof (count_pos p z l Hz Hpz). lia.
  - constructor.
    + destruct (p y); [|reflexivity].
      apply list_elem_of_lookup_2, list_elem_of_In in Hi.
      pose proof (count_pos p x l Hi Hp). lia.
    + apply (IH i Hi Hp). destruct (p y); lia.
Qed.

(** X3.  When [compare] accepts the handle of one lent record at most,
    releasing the handle a second time changes nothing: the second call
    finds no lent record and returns. *)
Theorem X3_release_twice :
  forall (env : Env) (v : Value) (w : World),
    (count (fun r => compareResources env (value r) v) (lentResources w) <= 1)%nat ->
    release env v (release env v w) = release env v w.
Proof.
  intros env v w Hc. apply release_not_lent.
  destruct (_getResourceIndex env (lentResources w) v) as [i|] eqn:Hi.
  - destruct (getResourceIndex_Some env _ v i Hi) as (r & Hr & Hm).
    replace (lentResources (release env v w)) with (delete i (lentResources w)).
    + exact (count_one_delete _ _ i r Hr Hm Hc).
    + unfold release. rewrite Hi, Hr.
      match goal with |- _ = lentResources (_storeResource env r ?x) =>
        change (delete i (lentResources w)) with (lentResources x)
      end.
      unfold _storeResource. case_ifs;
        try (now rewrite (proj1 (proj2 (destroyResource_fields env r _)))).
      unfold timeNow, _scheduleMaintainance. cbn. case_ifs; reflexivity.
  - unfold release. rewrite Hi.
    pose proof (getResourceIndexFrom_spec env (lentResources w) v
                  (length (lentResources w)) (Nat.le_refl _)) as Hs.
    unfold _getResourceIndex in Hi. rewrite Hi in Hs.
    apply Forall_forall. intros r Hin.
    apply list_elem_of_lookup_1 in Hin as [k Hk].
    apply (Hs k); [|exact Hk]. apply lookup_lt_is_Some. eauto.
Qed.

(** The theorem at [served_pool], where the handle 101 is lent to one
    request. *)
Lemma X3_release_twice_witness :
  (count (fun r => compareResources sample_env (value r) 101%nat)
     (lentResources served_pool) = 1)%nat
  /\ release sample_env 101%nat (release sample_env 101%nat served_pool)
     = release sample_env 101%nat served_pool
  /\ lentResources (release sample_env 101%nat served_pool) = [].
Proof.
  split; [vm_compute; reflexivity|]. split.
  - apply (X3_release_twice sample_env 101%nat served_pool).
    vm_compute. lia.
  - vm_compute. reflexivity.
Defined.

(** X4.  [destroy] looks for the handle among the lent records first and
    among the free records only when no lent record matches; the record
    found (the last that matches) leaves its list and goes to the
    factory's [destroy], with a [destroy] event, and the other list is
    untouched.  When neither list has a match nothing happens.  The
    number of resources that the pool counts does not grow and falls by
    one at most, and the request queues are untouched. *)
Theorem X4_destroy_effect :
  forall (env : Env) (v : Value) (w : World),
    (Forall (fun r => compareResources env (value r) v = false) (lentResources w) ->
     Forall (fun r => compareResources env (value r) v = false) (freeResources w) ->
     destroy env v w = w)
    /\ (forall i,
          _getResourceIndex env (lentResources w) v = Some i ->
          exists r,
            lentResources w !! i = Some r
            /\ compareResources env (value r) v = true
            /\ lentResources (destroy env v w) = delete i (lentResources w)
            /\ freeResources (destroy env v w) = freeResources w
            /\ log (destroy env v w)
               = call_destroyResource r (fresh w) :: emit_destroy r :: log w)
    /\ (forall i,
          _getResourceIndex env (lentResources w) v = None ->
          _getResourceIndex env (freeResources w) v = Some i ->
          exists r,
            freeResources w !! i = Some r
            /\ compareResources env (value r) v = true
            /\ freeResources (destroy env v w) = delete i (freeResources w)
            /\ lentResources (destroy env v w) = lentResources w
            /\ log (destroy env v w)
               = call_destroyResource r (fresh w) :: emit_destroy r :: log w)
    /\ _countResources w - 1 <= _countResources (destroy env v w) <= _countResources w
    /\ agingRequests (destroy env v w) = agingRequests w
    /\ agelessRequests (destroy env v w) = agelessRequests w.
Proof.
  intros env v w. split; [|split; [|split; [|split]]].
  - intros Hl Hf. unfold destroy.
    now rewrite (getResourceIndex_None env _ v Hl), (getResourceIndex_None env _ v Hf).
  - intros i Hi. destruct (getResourceIndex_Some env _ v i Hi) as (r & Hr & Hc).
    exists r. split; [exact Hr|]. split; [exact Hc|].
    unfold destroy. rewrite Hi, Hr.
    destruct (destroyResource_fields env r
                (set_lentResources (delete i (lentResources w)) w))
      as (Hf & Hl & _ & _ & Hlog).
    rewrite Hf, Hl, Hlog. auto.
  - intros i Hn Hi. destruct (getResourceIndex_Some env _ v i Hi) as (r & Hr & Hc).
    exists r. split; [exact Hr|]. split; [exact Hc|].
    unfold destroy. rewrite Hn, Hi, Hr.
    destruct (destroyResource_fields env r
                (set_freeResources (delete i (freeResources w)) w))
      as (Hf & Hl & _ & _ & Hlog).
    rewrite Hf, Hl, Hlog. auto.
  - unfold destroy.
    destruct (_getResourceIndex env (lentResources w) v) as [i|].
    + destruct (lentResources w !! i) as [r|] eqn:Hr; [|lia].
      rewrite countResources_destroyResource,
        (countResources_delete_lent i r w Hr).
      case_ifs; lia.
    + destruct (_getResourceIndex env (freeResources w) v) as [i|]; [|lia].
      destruct (freeResources w !! i) as [r|] eqn:Hr; [|lia].
      rewrite countResources_destroyResource,
        (countResources_delete_free i r w Hr).
      case_ifs; lia.
  - pose proof (frame_destroy env v w) as Hf.
    split; [apply (fr_aging _ _ Hf)|apply (fr_ageless _ _ Hf)].
Qed.

(** ** The callbacks given to the factory *)

Lemma creating_destroyResource env r w :
  creating (_destroyResource env r w) = creating w.
Proof.
  unfold _destroyResource, destroyCallback. cbn -[filter]. case_ifs; reflexivity.
Qed.

Lemma creating_storeResource env r w :
  creating (_storeResource env r w) = creating w.
Proof.
  unfold _storeResource. case_ifs; rewrite ?creating_destroyResource; try reflexivity.
  unfold timeNow, _scheduleMaintainance. cbn. case_ifs; reflexivity.
Qed.

Lemma filter_ne_fresh (x : nat) (l : list nat) :
  x ∉ l -> filter (λ y, y ≠ x) l = l.
Proof.
  induction l as [|y l IH]; intros Hx; [reflexivity|].
  apply not_elem_of_cons in Hx as [Hne Hx].
  rewrite filter_cons_True by congruence. now rewrite IH.
Qed.

Lemma creating_createCallback env cid result w :
  creating (createCallback env cid result w) = filter (λ x, x ≠ cid) (creating w).
Proof.
  unfold createCallback. destruct (decide (cid ∈ creating w)) as [Hin|Hin].
  - destruct result.
    + cbn -[filter]. case_ifs; reflexivity.
    + cbv zeta. unfold timeNow. rewrite creating_storeResource. reflexivity.
  - symmetry. now apply filter_ne_fresh.
Qed.

Lemma not_elem_of_filter_ne (x : nat) (l : list nat) : x ∉ filter (λ y, y ≠ x) l.
Proof. rewrite list_elem_of_filter. intros [H _]. now apply H. Qed.

(** X5.  The callbacks that the pool hands to the factory's [create] and
    [destroy] act when they are first called and never again: a second
    call of the same callback, with whatever result, leaves the pool as
    the first call left it, so that a factory calling back twice cannot
    make the pool count a resource twice.  The first call of a [destroy]
    callback takes one off [destroyingResourceCount]; the first call of
    a [create] callback with an error takes one off the count at once
    when no back-off is configured, and leaves the count to the back-off
    timer otherwise. *)
Theorem X5_factory_callbacks_act_once :
  forall (env : Env) (cid did : nat) (r1 r2 : CreateResult) (w : World),
    destroyCallback did (destroyCallback did w) = destroyCallback did w
    /\ createCallback env cid r2 (createCallback env cid r1 w)
       = createCallback env cid r1 w
    /\ (did ∈ destroying w ->
        destroyingResourceCount (destroyCallback did w)
        = destroyingResourceCount w - 1)
    /\ (cid ∈ creating w ->
        _countResources (createCallback env cid CreateError w)
        = _countResources w - (if backoff (cfg w) then 0 else 1)).
Proof.
  intros env cid did r1 r2 w. split; [|split; [|split]].
  - unfold destroyCallback.
    destruct (decide (did ∈ destroying w)) as [Hin|Hin]; cbv zeta.
    + rewrite decide_False; [reflexivity|].
      cbn -[filter]. apply not_elem_of_filter_ne.
    + now rewrite decide_False.
  - unfold createCallback at 1. rewrite decide_False; [reflexivity|].
    rewrite creating_createCallback. apply not_elem_of_filter_ne.
  - intros Hin. unfold destroyCallback. now rewrite decide_True.
  - intros Hin. unfold createCallback. rewrite decide_True by exact Hin.
    cbn -[filter]. destruct (backoff (cfg w)); unfold _countResources; cbn; lia.
Qed.

(** ** Reaping idle and expired resources *)

Lemma sweep_spec now key tmo i free dead :
  (i <= length free)%nat ->
  sweep now key tmo i free dead
  = (List.filter (fun r => negb (is_dead now key tmo r)) (take i free)
       ++ drop i free,
     dead ++ rev (List.filter (is_dead now key tmo) (take i free))).
Proof.
  revert free dead. induction i as [|j IH]; intros free dead Hi.
  - simpl. now rewrite app_nil_r.
  - destruct (lookup_lt_is_Some_2 free j) as [r Hr]; [lia|].
    simpl. rewrite Hr. rewrite (take_S_r _ _ _ Hr), !List.filter_app. simpl.
    fold (is_dead now key tmo r).
    destruct (is_dead now key tmo r); simpl.
    + rewrite IH by (rewrite length_delete by eauto; lia).
      rewrite delete_take_drop, take_app_le, take_take, Nat.min_id
        by (rewrite length_take; lia).
      rewrite drop_app_length' by (rewrite length_take; lia).
      rewrite !app_nil_r, rev_app_distr. simpl. now rewrite <- app_assoc.
    + rewrite IH by lia. rewrite app_nil_r, <- app_assoc. simpl.
      now rewrite (drop_S _ _ _ Hr).
Qed.

Lemma destroy_fold_spec env l w :
  let w' := fold_left (fun w r => _destroyResource env r w) l w in
  freeResources w' = freeResources w
  /\ lentResources w' = lentResources w
  /\ destroy_events (log w') = destroy_events (log w) ++ l
  /\ _countResources w' <= _countResources w + Z.of_nat (length l).
Proof.
  revert w. induction l as [|r l IH]; intros w; simpl.
  - rewrite app_nil_r. repeat split; lia.
  - destruct (IH (_destroyResource env r w)) as (Hf & Hl & He & Hc).
    destruct (destroyResource_fields env r w) as (Hf1 & Hl1 & _ & _ & Hlog).
    pose proof (countResources_destroyResource env r w) as Hc1.
    rewrite Hf, Hl, He, Hf1, Hl1, Hlog. simpl. rewrite <- app_assoc.
    repeat split; try reflexivity. destruct (destroyResource env (ticks w) r); lia.
Qed.

Lemma filter_partition_length {A} (p : A -> bool) (l : list A) :
  (length (List.filter (fun x => negb (p x)) l) + length (List.filter p l)
   = length l)%nat.
Proof.
  induction l as [|x l IH]; simpl; [reflexivity|].
  destruct (p x); simpl; lia.
Qed.

Lemma destroyDeadResources_spec env key tmo w :
  let now := clock env (ticks w) in
  let w' := _destroyDeadResources env key tmo w in
  freeResources w'
  = List.filter (fun r => negb (is_dead now key tmo r)) (freeResources w)
  /\ destroy_events (log w')
     = destroy_events (log w)
       ++ List.filter (is_dead now key tmo) (freeResources w)
  /\ lentResources w' = lentResources w
  /\ _countResources w' <= _countResources w.
Proof.
  intros now w'. subst w'. unfold _destroyDeadResources, timeNow.
  change (freeResources (bump w)) with (freeResources w).
  rewrite sweep_spec by lia. rewrite firstn_all, drop_all, app_nil_r.
  cbn [app]. rewrite rev_involutive.
  match goal with |- context [fold_left _ ?l ?x] =>
    destruct (destroy_fold_spec env l x) as (Hf & Hl & He & Hc)
  end.
  cbv zeta in Hf, Hl, He, Hc. rewrite Hf, Hl, He.
  split; [reflexivity|]. split; [reflexivity|]. split; [reflexivity|].
  pose proof (filter_partition_length (is_dead now key tmo) (freeResources w)) as Hp.
  subst now. unfold _countResources in Hc |- *. rewrite Hf, Hl in Hc |- *.
  cbn [freeResources lentResources creatingResourceCount destroyingResourceCount
       set_freeResources bump set_ticks] in Hc |- *.
  lia.
Qed.

(** X6.  [_destroyDeadResources(key, timeout)] reads the clock once and
    keeps, in their order, exactly the free records for which
    [now > record[key] + timeout] is false (so a record whose timestamp
    is not a number is never reaped); the others are reported with a
    [destroy] event each, in their order in the free list, and go to the
    factory's [destroy].  The lent records are untouched and the number
    of resources that the pool counts does not grow. *)
Theorem X6_destroyDeadResources_filters :
  forall (env : Env) (key : Resource -> jsval) (tmo : jsval) (w : World),
    let now := clock env (ticks w) in
    let w' := _destroyDeadResources env key tmo w in
    freeResources w'
    = List.filter (fun r => negb (is_dead now key tmo r)) (freeResources w)
    /\ destroy_events (log w')
       = destroy_events (log w)
         ++ List.filter (is_dead now key tmo) (freeResources w)
    /\ lentResources w' = lentResources w
    /\ _countResources w' <= _countResources w
    /\ (forall r, js_isNaN (js_add (key r) tmo) = true ->
                  is_dead now key tmo r = false).
Proof.
  intros env key tmo w now w'.
  destruct (destroyDeadResources_spec env key tmo w) as (Hf & He & Hl & Hc).
  repeat (split; [assumption|]).
  intros r Hn. unfold is_dead, js_gt, js_lt.
  destruct (js_add (key r) tmo); [reflexivity|reflexivity|discriminate].
Qed.

(** X7.  The two reapers.  [_destroyIdleResources] does nothing at all
    unless [idleTimeout] is a number above 0, and nothing but read the
    clock until more than [idleCheckInterval] has passed since the last
    check; when it runs it reads the clock again, keeps the free records
    with [now <= idleAt + idleTimeout], and notes the time of the check.
    [_destroyExpiredResources] is the same with [expireTimeout],
    [expireCheckInterval] and the test [now <= expiresAt]: every free
    record it leaves with a numeric [expiresAt] has not expired at the
    time of the sweep.  Neither touches the lent records. *)
Theorem X7_idle_and_expiry_reaping :
  forall (env : Env) (w : World),
    (js_gt (idleTimeout (cfg w)) (JNum 0) = false ->
     _destroyIdleResources env w = w)
    /\ (js_gt (idleTimeout (cfg w)) (JNum 0) = true ->
        clock env (ticks w) <= lastIdleCheckAt w + idleCheckInterval (cfg w) ->
        _destroyIdleResources env w = bump w)
    /\ (js_gt (idleTimeout (cfg w)) (JNum 0) = true ->
        lastIdleCheckAt w + idleCheckInterval (cfg w) < clock env (ticks w) ->
        freeResources (_destroyIdleResources env w)
        = List.filter
            (fun r => negb (is_dead (clock env (S (ticks w))) idleAt
                              (idleTimeout (cfg w)) r))
            (freeResources w)
        /\ lastIdleCheckAt (_destroyIdleResources env w)
           = clock env (Nat.pred (ticks (_destroyIdleResources env w)))
        /\ lentResources (_destroyIdleResources env w) = lentResources w)
    /\ (js_gt (expireTimeout (cfg w)) (JNum 0) = false ->
        _destroyExpiredResources env w = w)
    /\ (js_gt (expireTimeout (cfg w)) (JNum 0) = true ->
        clock env (ticks w) <= lastExpireCheckAt w + expireCheckInterval (cfg w) ->
        _destroyExpiredResources env w = bump w)
    /\ (js_gt (expireTimeout (cfg w)) (JNum 0) = true ->
        lastExpireCheckAt w + expireCheckInterval (cfg w) < clock env (ticks w) ->
        freeResources (_destroyExpiredResources env w)
        = List.filter
            (fun r => negb (is_dead (clock env (S (ticks w))) expiresAt (JNum 0) r))
            (freeResources w)
        /\ lastExpireCheckAt (_destroyExpiredResources env w)
           = clock env (Nat.pred (ticks (_destroyExpiredResources env w)))
        /\ lentResources (_destroyExpiredResources env w) = lentResources w
        /\ (forall r e,
              In r (freeResources (_destroyExpiredResources env w)) ->
              expiresAt r = JNum e -> clock env (S (ticks w)) <= e)).
Proof.
  intros env w. repeat split.
  - intros H. unfold _destroyIdleResources. now rewrite H.
  - intros H Hle. unfold _destroyIdleResources, timeNow. rewrite H.
    change (lastIdleCheckAt (bump w)) with (lastIdleCheckAt w).
    change (cfg (bump w)) with (cfg w).
    destruct (Z.gtb_spec (clock env (ticks w))
                (lastIdleCheckAt w + idleCheckInterval (cfg w))); [lia|reflexivity].
  - revert H H0. intros H Hlt. unfold _destroyIdleResources, timeNow. rewrite H.
    change (lastIdleCheckAt (bump w)) with (lastIdleCheckAt w).
    change (cfg (bump w)) with (cfg w).
    destruct (Z.gtb_spec (clock env (ticks w))
                (lastIdleCheckAt w + idleCheckInterval (cfg w))); [|lia].
    cbn. apply (destroyDeadResources_spec env idleAt (idleTimeout (cfg w)) (bump w)).
  - revert H H0. intros H Hlt. unfold _destroyIdleResources, timeNow. rewrite H.
    change (lastIdleCheckAt (bump w)) with (lastIdleCheckAt w).
    change (cfg (bump w)) with (cfg w).
    destruct (Z.gtb_spec (clock env (ticks w))
                (lastIdleCheckAt w + idleCheckInterval (cfg w))); [|lia].
    reflexivity.
  - revert H H0. intros H Hlt. unfold _destroyIdleResources, timeNow. rewrite H.
    change (lastIdleCheckAt (bump w)) with (lastIdleCheckAt w).
    change (cfg (bump w)) with (cfg w).
    destruct (Z.gtb_spec (clock env (ticks w))
                (lastIdleCheckAt w + idleCheckInterval (cfg w))); [|lia].
    cbn. apply (destroyDeadResources_spec env idleAt (idleTimeout (cfg w)) (bump w)).
  - intros H. unfold _destroyExpiredResources. now rewrite H.
  - intros H Hle. unfold _destroyExpiredResources, timeNow. rewrite H.
    change (lastExpireCheckAt (bump w)) with (lastExpireCheckAt w).
    change (cfg (bump w)) with (cfg w).
    destruct (Z.gtb_spec (clock env (ticks w))
                (lastExpireCheckAt w + expireCheckInterval (cfg w)));
      [lia|reflexivity].
  - revert H H0. intros H Hlt. unfold _destroyExpiredResources, timeNow. rewrite H.
    change (lastExpireCheckAt (bump w)) with (lastExpireCheckAt w).
    change (cfg (bump w)) with (cfg w).
    destruct (Z.gtb_spec (clock env (ticks w))
                (lastExpireCheckAt w + expireCheckInterval (cfg w))); [|lia].
    cbn. apply (destroyDeadResources_spec env expiresAt (JNum 0) (bump w)).
  - revert H H0. intros H Hlt. unfold _destroyExpiredResources, timeNow. rewrite H.
    change (lastExpireCheckAt (bump w)) with (lastExpireCheckAt w).
    change (cfg (bump w)) with (cfg w).
    destruct (Z.gtb_spec (clock env (ticks w))
                (lastExpireCheckAt w + expireCheckInterval (cfg w))); [|lia].
    reflexivity.
  - revert H H0. intros H Hlt. unfold _destroyExpiredResources, timeNow. rewrite H.
    change (lastExpireCheckAt (bump w)) with (lastExpireCheckAt w).
    change (cfg (bump w)) with (cfg w).
    destruct (Z.gtb_spec (clock env (ticks w))
                (lastExpireCheckAt w + expireCheckInterval (cfg w))); [|lia].
    cbn. apply (destroyDeadResources_spec env expiresAt (JNum 0) (bump w)).
  - revert H H0. intros H Hlt r e Hin He. revert Hin.
    unfold _destroyExpiredResources, timeNow. rewrite H.
    change (lastExpireCheckAt (bump w)) with (lastExpireCheckAt w).
    change (cfg (bump w)) with (cfg w).
    destruct (Z.gtb_spec (clock env (ticks w))
                (lastExpireCheckAt w + expireCheckInterval (cfg w))); [|lia].
    intros Hin.
    change (In r (freeResources
                    (_destroyDeadResources env expiresAt (JNum 0) (bump w)))) in Hin.
    rewrite (proj1 (destroyDeadResources_spec env expiresAt (JNum 0) (bump w)))
      in Hin.
    apply filter_In in Hin as [_ Hd]. revert Hd.
    unfold is_dead, js_gt, js_lt, js_add. rewrite He. cbn.
    destruct (Z.ltb_spec (e + 0) (clock env (S (ticks w)))); [discriminate|lia].
Qed.

(** ** Acquiring without waiting *)

Lemma nextFree_drain_frame env free w :
  drain_frame w (snd (nextFree env free w)).
Proof.
  revert w. induction free as [|r rest IH]; intros w; simpl.
  - split; cbn; auto.
  - assert (H1 : drain_frame w (bump (set_freeResources rest w)))
      by (split; cbn; auto).
    destruct (validateResource env (ticks w) r); simpl; [exact H1|].
    eapply drain_frame_trans; [exact H1|].
    eapply drain_frame_trans; [apply destroyResource_drain_frame|apply IH].
Qed.

(** X8.  [acquireSync] always returns, whatever the client's callbacks
    are: it calls none of them, leaves both request queues and the
    pending timers as they are (no request is enqueued and no maintenance
    is scheduled), and changes the free list only as [_nextFreeResource]
    does.  When [_nextFreeResource] finds a record and the pool is not
    draining, the handle of that record is returned and the record is
    appended to the lent list with a request that has no callback; when
    it finds none, nothing is returned and nothing else happens; when it
    finds one and the pool is draining, nothing is returned, the lent
    list is unchanged and the record taken out of the free list is not
    put back. *)
Theorem X8_acquireSync_effect :
  forall (env : Env) (invoke : nat -> Outcome -> World -> option World)
         (options : option AcquireOptions) (w : World),
    exists res w',
      acquireSync env invoke options w = Some (res, w')
      /\ agingRequests w' = agingRequests w
      /\ agelessRequests w' = agelessRequests w
      /\ timers w' = timers w
      /\ (forall r o, In (call_done r o) (log w') -> In (call_done r o) (log w))
      /\ match _nextFreeResource env w with
         | (Some r, w1) =>
             freeResources w' = freeResources w1
             /\ (isDraining w = false ->
                 res = Some (value r)
                 /\ exists request,
                      done request = None
                      /\ lentResources w'
                         = lentResources w
                           ++ [mkResource (res_id r) (value r) (res_createdAt r)
                                 (expiresAt r) (idleAt r) (Some request)])
             /\ (isDraining w = true ->
                 res = None /\ lentResources w' = lentResources w)
         | (None, w1) => res = None /\ w' = w1
         end.
Proof.
  intros env invoke options w. unfold acquireSync.
  pose proof (frame_nextFreeResource env w) as Hf.
  pose proof (nextFree_drain_frame env (freeResources w) w) as Hd.
  fold (_nextFreeResource env w) in Hd.
  destruct (_nextFreeResource env w) as [[r|] w1]; simpl in Hf, Hd.
  - unfold _createRequest, timeNow. set (request := mkRequest _ _ _ _).
    cbv zeta. cbn [isDraining alloc set_fresh bump set_ticks].
    rewrite (fr_draining _ _ Hf).
    assert (Hlog : forall new r0 o,
               Forall (fun e => is_request_event e = false) new ->
               In (call_done r0 o) (new ++ log w1) -> In (call_done r0 o) (log w)).
    { intros new r0 o Hnew Hin. apply in_app_or in Hin as [Hin|Hin].
      - rewrite Forall_forall in Hnew. apply list_elem_of_In, Hnew in Hin.
        discriminate.
      - destruct (fr_log _ _ Hf) as (new' & Hl & Hnew'). rewrite Hl in Hin.
        apply in_app_or in Hin as [Hin|Hin]; [|exact Hin].
        rewrite Forall_forall in Hnew'. apply list_elem_of_In, Hnew' in Hin.
        discriminate. }
    destruct (isDraining w) eqn:Hdr; unfold _serveRequest; cbn.
    + eexists _, _. split; [reflexivity|]. cbn.
      split; [apply (fr_aging _ _ Hf)|]. split; [apply (fr_ageless _ _ Hf)|].
      split; [apply (df_timers _ _ Hd)|]. split.
      * intros r0 o. apply (Hlog [_]). constructor; [reflexivity|constructor].
      * split; [reflexivity|]. split; [discriminate|].
        intros _. split; [reflexivity|apply (df_lent _ _ Hd)].
    + eexists _, _. split; [reflexivity|]. cbn.
      split; [apply (fr_aging _ _ Hf)|]. split; [apply (fr_ageless _ _ Hf)|].
      split; [apply (df_timers _ _ Hd)|]. split.
      * intros r0 o. apply (Hlog [_]). constructor; [reflexivity|constructor].
      * split; [reflexivity|]. split; [|discriminate].
        intros _. split; [reflexivity|]. exists request. split; [reflexivity|].
        now rewrite (df_lent _ _ Hd).
  - eexists _, _. split; [reflexivity|].
    split; [apply (fr_aging _ _ Hf)|]. split; [apply (fr_ageless _ _ Hf)|].
    split; [apply (df_timers _ _ Hd)|]. split; [|split; reflexivity].
    intros r0 o Hin. destruct (fr_log _ _ Hf) as (new' & Hl & Hnew').
    rewrite Hl in Hin. apply in_app_or in Hin as [Hin|Hin]; [|exact Hin].
    rewrite Forall_forall in Hnew'. apply list_elem_of_In, Hnew' in Hin.
    discriminate.
Qed.

(** ** The bookkeeping *)

Lemma keeps_refl X w : keeps 0 X X w w.
Proof. split; auto. intros H. split; [exact H|lia]. Qed.

Lemma keeps_trans n m T M L w1 w2 w3 :
  keeps n T M w1 w2 -> keeps m M L w2 w3 -> keeps (n + m) T L w1 w3.
Proof.
  intros [c1 m1 s1 p1 t1] [c2 m2 s2 p2 t2]. split.
  - congruence.
  - congruence.
  - intros H. destruct (s1 H) as [H1 E1]. destruct (s2 H1) as [H2 E2].
    split; [exact H2|congruence].
  - auto.
  - intros H. destruct (t1 H) as [H1 B1]. destruct (t2 H1) as [H2 B2].
    split; [exact H2|lia].
Qed.

Lemma keeps_trans0 T M L w1 w2 w3 :
  keeps 0 T M w1 w2 -> keeps 0 M L w2 w3 -> keeps 0 T L w1 w3.
Proof. apply (keeps_trans 0 0). Qed.

Lemma NoDup_submseteq_inv {A} (k l : list A) : k ⊆+ l -> NoDup l -> NoDup k.
Proof.
  intros Hs Hl. apply submseteq_Permutation in Hs as [k' Hp].
  rewrite Hp in Hl. now apply NoDup_app in Hl as [H _].
Qed.

Lemma Forall_submseteq_inv {A} (P : A -> Prop) (k l : list A) :
  k ⊆+ l -> Forall P l -> Forall P k.
Proof.
  intros Hs Hl. rewrite Forall_forall in *. intros x Hx.
  apply Hl. eapply elem_of_submseteq; eauto.
Qed.

Lemma Forall_lt_mono (l : list nat) (a b : nat) :
  (a <= b)%nat -> Forall (fun x => (x < a)%nat) l -> Forall (fun x => (x < b)%nat) l.
Proof.
  intros Hab H. eapply Forall_impl; [exact H|]. intros x Hx. simpl in *. lia.
Qed.

(** Code that moves records between the lists and the hands of a method,
    and leaves the rest of the bookkeeping alone. *)
Lemma tidy_resources T L w w' :
  creating w' = creating w -> destroying w' = destroying w ->
  creatingResourceCount w' = creatingResourceCount w ->
  destroyingResourceCount w' = destroyingResourceCount w ->
  timers w' = timers w ->
  isMaintenanceScheduled w' = isMaintenanceScheduled w ->
  _maintenanceIntervalID w' = _maintenanceIntervalID w ->
  running (log w') = running (log w) ->
  (fresh w <= fresh w')%nat ->
  ids w' L ⊆+ ids w T ->
  Forall free_shape (freeResources w') ->
  Forall lent_shape (lentResources w') ->
  tidy T w -> tidy L w'.
Proof.
  intros Hc Hd Hcc Hdc Ht Hs Hi Hr Hf Hsub Hfree Hlent [].
  split; rewrite ?Hc, ?Hd, ?Hcc, ?Hdc, ?Ht, ?Hs, ?Hi, ?Hr; auto.
  - eapply Forall_lt_mono; eauto.
  - eapply Forall_lt_mono; eauto.
  - eapply NoDup_submseteq_inv; eassumption.
  - eapply Forall_lt_mono; [exact Hf|].
    eapply Forall_submseteq_inv; eassumption.
Qed.

Lemma keeps_resources T L w w' :
  cfg w' = cfg w -> isMaintaining w' = isMaintaining w ->
  creating w' = creating w -> destroying w' = destroying w ->
  creatingResourceCount w' = creatingResourceCount w ->
  destroyingResourceCount w' = destroyingResourceCount w ->
  timers w' = timers w ->
  isMaintenanceScheduled w' = isMaintenanceScheduled w ->
  _maintenanceIntervalID w' = _maintenanceIntervalID w ->
  running (log w') = running (log w) ->
  destroy_events (log w') = destroy_events (log w) ->
  (fresh w <= fresh w')%nat ->
  ids w' L ⊆+ ids w T ->
  (Forall free_shape (freeResources w) -> Forall free_shape (freeResources w')) ->
  (Forall lent_shape (lentResources w) -> Forall lent_shape (lentResources w')) ->
  keeps 0 T L w w'.
Proof.
  intros Hcfg Hm Hc Hd Hcc Hdc Ht Hs Hi Hr He Hf Hsub Hfree Hlent. split.
  - exact Hcfg.
  - exact Hm.
  - intros H. rewrite Hs, Ht. auto.
  - unfold pending. now rewrite Hs, Ht.
  - intros H. split.
    + eapply tidy_resources; eauto using td_free, td_lent.
    + apply submseteq_length in Hsub. unfold ids, pool_resources in Hsub.
      rewrite He, !length_map, !length_app in Hsub.
      unfold _countResources. rewrite Hcc, Hdc. lia.
Qed.

(** Code that touches nothing of the bookkeeping. *)
Lemma keeps_same X w w' :
  cfg w' = cfg w -> isMaintaining w' = isMaintaining w ->
  creating w' = creating w -> destroying w' = destroying w ->
  creatingResourceCount w' = creatingResourceCount w ->
  destroyingResourceCount w' = destroyingResourceCount w ->
  timers w' = timers w ->
  isMaintenanceScheduled w' = isMaintenanceScheduled w ->
  _maintenanceIntervalID w' = _maintenanceIntervalID w ->
  running (log w') = running (log w) ->
  destroy_events (log w') = destroy_events (log w) ->
  (fresh w <= fresh w')%nat ->
  freeResources w' = freeResources w ->
  lentResources w' = lentResources w ->
  keeps 0 X X w w'.
Proof.
  intros Hcfg Hm Hc Hd Hcc Hdc Ht Hs Hi Hr He Hf Hfree Hlent.
  apply keeps_resources; auto.
  - unfold ids, pool_resources. now rewrite Hfree, Hlent, He.
  - now rewrite Hfree.
  - now rewrite Hlent.
Qed.

Ltac keeps_fields :=
  apply keeps_same; cbn; first [reflexivity | lia].

Ltac ids_submseteq :=
  unfold ids, pool_resources; cbn; rewrite ?map_app; cbn; rewrite ?map_app;
  solve_submseteq.

Lemma keeps_scheduleMaintainance X w : keeps 0 X X w (_scheduleMaintainance w).
Proof.
  unfold _scheduleMaintainance.
  destruct (isMaintenanceScheduled w) eqn:Hs; [apply keeps_refl|].
  split; cbn.
  - reflexivity.
  - reflexivity.
  - congruence.
  - intros _ _. cbn. rewrite count_app, count_cons. cbn. lia.
  - intros []. split; [|unfold _countResources; cbn; lia].
    split; cbn; auto.
    + now rewrite count_app, count_cons, count_nil, Nat.add_0_r.
    + rewrite Hs in *. rewrite count_app, count_cons, count_nil. cbn. lia.
Qed.

Lemma length_filter_ne (x : nat) (l : list nat) :
  NoDup l -> x ∈ l -> S (length (filter (λ y, y ≠ x) l)) = length l.
Proof.
  induction 1 as [|y l Hy Hl IH]; intros Hx; [inversion Hx|].
  apply elem_of_cons in Hx as [->|Hx].
  - rewrite filter_cons_False by auto. rewrite filter_ne_fresh by exact Hy.
    reflexivity.
  - rewrite filter_cons_True by (intros ->; contradiction). simpl.
    now rewrite IH.
Qed.

Lemma keeps_destroyCallback did X w : keeps 0 X X w (destroyCallback did w).
Proof.
  unfold destroyCallback.
  destruct (decide (did ∈ destroying w)) as [Hin|Hin]; [|apply keeps_refl].
  split; cbn -[filter]; auto.
  intros []. pose proof (length_filter_ne did _ td_destroying0 Hin) as Hlen.
  split; [|unfold _countResources; cbn -[filter]; lia].
  split; cbn -[filter]; auto.
  - now apply NoDup_filter.
  - rewrite Forall_forall in *. intros x Hx.
    apply list_elem_of_filter in Hx as [_ Hx]. auto.
  - lia.
Qed.

Lemma keeps_destroyResource env r X w :
  keeps 0 (r :: X) X w (_destroyResource env r w).
Proof.
  unfold _destroyResource. cbv zeta.
  match goal with |- keeps _ _ _ _ (if _ then destroyCallback ?d ?x else _) =>
    assert (H : keeps 0 (r :: X) X w x)
  end.
  { split; cbn; auto.
    intros []. split; [|unfold _countResources; cbn; lia].
    split; cbn; auto.
    - apply NoDup_cons. split; [|assumption].
      intros Hin. rewrite Forall_forall in td_destroying_old0.
      apply td_destroying_old0 in Hin. lia.
    - eapply Forall_lt_mono; [|eassumption]. lia.
    - constructor; [lia|]. eapply Forall_lt_mono; [|eassumption]. lia.
    - rewrite td_destroyingCount0. lia.
    - eapply NoDup_submseteq_inv; [|eassumption].
      ids_submseteq.
    - eapply Forall_lt_mono; [|eapply Forall_submseteq_inv; [|eassumption]];
        [lia|].
      ids_submseteq. }
  destruct (destroyResource env _ _); [|exact H].
  eapply keeps_trans0; [exact H|apply keeps_destroyCallback].
Qed.

Lemma keeps_storeResource env r w : keeps 0 [r] [] w (_storeResource env r w).
Proof.
  unfold _storeResource. destruct (isDraining w); cbn [negb].
  - apply keeps_destroyResource.
  - destruct (validateResource env (ticks w) r).
    + unfold timeNow. cbv zeta.
      eapply keeps_trans0; [|apply keeps_scheduleMaintainance].
      apply keeps_resources; cbn; try reflexivity; try lia.
      * ids_submseteq.
      * intros H. apply Forall_app. split; [exact H|].
        constructor; [|constructor]. split; reflexivity.
      * auto.
    + eapply keeps_trans0; [|apply keeps_destroyResource]. keeps_fields.
Qed.

Lemma keeps_nextFree env free X w :
  match nextFree env free w with
  | (Some r, w1) => keeps 0 X (r :: X) (set_freeResources free w) w1
  | (None, w1) => keeps 0 X X (set_freeResources free w) w1
  end.
Proof.
  revert w. induction free as [|r rest IH]; intros w; simpl.
  - apply keeps_refl.
  - assert (H1 : keeps 0 X (r :: X) (set_freeResources (r :: rest) w)
                   (bump (set_freeResources rest w))).
    { apply keeps_resources; cbn; try reflexivity; try lia.
      - ids_submseteq.
      - intros H. now inversion H.
      - auto. }
    destruct (validateResource env (ticks w) r); [exact H1|].
    specialize (IH (_destroyResource env r (bump (set_freeResources rest w)))).
    replace (set_freeResources rest
               (_destroyResource env r (bump (set_freeResources rest w))))
      with (_destroyResource env r (bump (set_freeResources rest w))) in IH.
    2:{ rewrite <- (set_freeResources_same (_destroyResource env r _)) at 1.
        now rewrite (proj1 (destroyResource_fields env r _)). }
    destruct (nextFree env rest _) as [[r'|] w1];
      (eapply keeps_trans0; [exact H1|]);
      (eapply keeps_trans0; [apply keeps_destroyResource|exact IH]).
Qed.

Lemma keeps_nextFreeResource env X w :
  match _nextFreeResource env w with
  | (Some r, w1) => keeps 0 X (r :: X) w w1
  | (None, w1) => keeps 0 X X w w1
  end.
Proof.
  pose proof (keeps_nextFree env (freeResources w) X w) as H.
  now rewrite set_freeResources_same in H.
Qed.

Lemma count_snoc {A} (p : A -> bool) (l : list A) (x : A) :
  count p (l ++ [x]) = (count p l + if p x then 1 else 0)%nat.
Proof. rewrite count_app, count_cons, count_nil. lia. Qed.

Lemma Forall_filter_ne (P : nat -> Prop) (x : nat) (l : list nat) :
  Forall P l -> Forall P (filter (λ y, y ≠ x) l).
Proof.
  rewrite !Forall_forall. intros H y Hy.
  apply list_elem_of_filter in Hy as [_ Hy]. auto.
Qed.

Lemma map_res_id_middle (l D : list Resource) (n : Resource) :
  map res_id (l ++ n :: D) ≡ₚ res_id n :: map res_id (l ++ D).
Proof. rewrite !map_app. cbn. now rewrite Permutation_middle. Qed.

Lemma keeps_createCallback env cid result w :
  keeps 0 [] [] w (createCallback env cid result w).
Proof.
  unfold createCallback.
  destruct (decide (cid ∈ creating w)) as [Hin|Hin]; [|apply keeps_refl].
  destruct result; cbv zeta.
  - destruct (backoff (cfg _)) eqn:Hb.
    + split; cbn -[filter]; auto.
      * intros H. now rewrite count_snoc, Nat.add_0_r.
      * unfold pending. cbn -[filter]. now rewrite count_snoc, Nat.add_0_r.
      * intros []. pose proof (length_filter_ne cid _ td_creating0 Hin) as Hlen.
        split; [|unfold _countResources; cbn -[filter]; lia].
        split; cbn -[filter]; auto.
        -- now apply NoDup_filter.
        -- now apply Forall_filter_ne.
        -- rewrite count_snoc. cbn. lia.
        -- now rewrite count_snoc, Nat.add_0_r.
    + split; cbn -[filter]; auto.
      intros []. pose proof (length_filter_ne cid _ td_creating0 Hin) as Hlen.
      split; [|unfold _countResources; cbn -[filter]; lia].
      split; cbn -[filter]; auto.
      * now apply NoDup_filter.
      * now apply Forall_filter_ne.
      * lia.
  - unfold timeNow. cbv zeta.
    match goal with |- keeps _ _ _ _ (_storeResource env ?r ?x) =>
      apply (keeps_trans0 [] [r] [] w x); [|apply keeps_storeResource]
    end.
    split; cbn -[filter]; auto.
    intros []. pose proof (length_filter_ne cid _ td_creating0 Hin) as Hlen.
    split; [|unfold _countResources; cbn -[filter]; lia].
    unfold ids, pool_resources in *. cbn [app] in *.
    split; cbn -[filter]; auto.
    + now apply NoDup_filter.
    + apply Forall_filter_ne. eapply Forall_lt_mono; [|eassumption]. lia.
    + eapply Forall_lt_mono; [|eassumption]. lia.
    + lia.
    + rewrite map_res_id_middle. apply NoDup_cons. split; [|assumption].
      intros Hx. rewrite Forall_forall in td_ids_old0.
      apply td_ids_old0 in Hx. cbn in Hx. lia.
    + rewrite map_res_id_middle. constructor; [cbn; lia|].
      eapply Forall_lt_mono; [|eassumption]. lia.
Qed.

Lemma keeps_createResource env w : keeps 1 [] [] w (_createResource env w).
Proof.
  unfold _createResource. cbv zeta.
  match goal with
  | |- keeps _ _ _ _ (match _ with Some _ => createCallback _ _ _ ?x | None => _ end) =>
      assert (H : keeps 1 [] [] w x)
  end.
  { split; cbn; auto.
    intros []. split; [|unfold _countResources; cbn; lia].
    split; cbn; auto.
    - apply NoDup_cons. split; [|assumption].
      intros Hin. rewrite Forall_forall in td_creating_old0.
      apply td_creating_old0 in Hin. lia.
    - constructor; [lia|]. eapply Forall_lt_mono; [|eassumption]. lia.
    - eapply Forall_lt_mono; [|eassumption]. lia.
    - lia.
    - eapply Forall_lt_mono; [|eassumption]. lia. }
  destruct (createResource env _); [|exact H].
  apply (keeps_trans 1 0 [] [] [] _ _ _ H), keeps_createCallback.
Qed.

Lemma keeps_createLoop env n w :
  keeps (Z.of_nat n) [] [] w (createLoop env n w).
Proof.
  revert w. induction n as [|n IH]; intros w; [apply keeps_refl|].
  replace (Z.of_nat (S n)) with (1 + Z.of_nat n) by lia. simpl.
  eapply keeps_trans; [apply keeps_createResource|apply IH].
Qed.

(** The number of creations that [_createResources] starts fits under
    [max]. *)
Lemma extraResources_bound w :
  0 <= creatingResourceCount w -> 0 < extraResources w ->
  _countResources w + extraResources w <= max (cfg w).
Proof.
  unfold extraResources. cbv zeta. intros Hc.
  set (count := _countResources w).
  set (waiting := Z.of_nat (length (agelessRequests w))
                  + Z.of_nat (length (agingRequests w))).
  set (e1 := if (count <? min (cfg w)) && (waiting <? min (cfg w))
             then min (cfg w) else waiting).
  assert (H2 : count + (if count + e1 >? max (cfg w) then max (cfg w) - count else e1)
               <= max (cfg w)).
  { destruct (Z.gtb_spec (count + e1) (max (cfg w))); lia. }
  set (e2 := if count + e1 >? max (cfg w) then max (cfg w) - count else e1) in *.
  destruct (maxCreating (cfg w)) as [| |m]; try lia.
  destruct (m >? 0); [|lia].
  destruct (Z.gtb_spec (e2 - creatingResourceCount w) (m - creatingResourceCount w));
    lia.
Qed.

Lemma keeps_within w w' : keeps 0 [] [] w w' -> within w w'.
Proof.
  intros [c m s p t]. split; auto.
  intros H Hb. destruct (t H) as [H' Hc]. split; [exact H'|].
  unfold bound in *. rewrite c. simpl in Hc. lia.
Qed.

Lemma within_trans w1 w2 w3 : within w1 w2 -> within w2 w3 -> within w1 w3.
Proof.
  intros [c1 m1 s1 p1 t1] [c2 m2 s2 p2 t2]. split.
  - congruence.
  - congruence.
  - intros H. destruct (s1 H) as [H1 E1]. destruct (s2 H1) as [H2 E2].
    split; [exact H2|congruence].
  - auto.
  - intros H Hb. destruct (t1 H Hb) as [H1 B1]. auto.
Qed.

Lemma within_createResources env w : within w (_createResources env w).
Proof.
  unfold _createResources.
  destruct (keeps_createLoop env (Z.to_nat (extraResources w)) w) as [c m s p t].
  split; auto.
  intros H Hb. destruct (t H) as [H' Hc]. split; [exact H'|].
  unfold bound in *. rewrite c. simpl in Hc.
  destruct (Z.lt_ge_cases 0 (extraResources w)) as [Hpos|Hneg].
  - pose proof (extraResources_bound w) as He.
    rewrite (td_creatingCount _ _ H) in He. specialize (He ltac:(lia) Hpos).
    rewrite Z2Nat.id in Hc by lia. lia.
  - rewrite Z2Nat.nonpos by lia. simpl. lia.
Qed.

Lemma ids_take_lent i r X w :
  lentResources w !! i = Some r ->
  ids (set_lentResources (delete i (lentResources w)) w) (r :: X) ⊆+ ids w X.
Proof.
  intros Hr. unfold ids, pool_resources. cbn. apply fmap_submseteq.
  apply Permutation_submseteq.
  set (d := delete i (lentResources w)).
  rewrite (delete_Permutation (lentResources w) i r Hr). fold d.
  solve_Permutation.
Qed.

Lemma ids_take_free i r X w :
  freeResources w !! i = Some r ->
  ids (set_freeResources (delete i (freeResources w)) w) (r :: X) ⊆+ ids w X.
Proof.
  intros Hr. unfold ids, pool_resources. cbn. apply fmap_submseteq.
  apply Permutation_submseteq.
  set (d := delete i (freeResources w)).
  rewrite (delete_Permutation (freeResources w) i r Hr). fold d.
  solve_Permutation.
Qed.

Lemma keeps_release env v w : keeps 0 [] [] w (release env v w).
Proof.
  unfold release.
  destruct (_getResourceIndex env (lentResources w) v) as [i|]; [|apply keeps_refl].
  destruct (lentResources w !! i) as [r|] eqn:Hr; [|apply keeps_refl].
  eapply keeps_trans0; [|apply keeps_storeResource].
  apply keeps_resources; cbn; try reflexivity; try lia.
  - apply (ids_take_lent i r [] w Hr).
  - auto.
  - apply Forall_delete.
Qed.

Lemma keeps_destroy env v w : keeps 0 [] [] w (destroy env v w).
Proof.
  unfold destroy.
  destruct (_getResourceIndex env (lentResources w) v) as [i|].
  - destruct (lentResources w !! i) as [r|] eqn:Hr; [|apply keeps_refl].
    eapply keeps_trans0; [|apply keeps_destroyResource].
    apply keeps_resources; cbn; try reflexivity; try lia.
    + apply (ids_take_lent i r [] w Hr).
    + auto.
    + apply Forall_delete.
  - destruct (_getResourceIndex env (freeResources w) v) as [i|];
      [|apply keeps_refl].
    destruct (freeResources w !! i) as [r|] eqn:Hr; [|apply keeps_refl].
    eapply keeps_trans0; [|apply keeps_destroyResource].
    apply keeps_resources; cbn; try reflexivity; try lia.
    + apply (ids_take_free i r [] w Hr).
    + apply Forall_delete.
    + auto.
Qed.

Lemma keeps_destroyList env l X w :
  keeps 0 (l ++ X) X w (fold_left (fun w r => _destroyResource env r w) l w).
Proof.
  revert w. induction l as [|r l IH]; intros w; simpl; [apply keeps_refl|].
  eapply keeps_trans0; [apply keeps_destroyResource|apply IH].
Qed.

Lemma filter_partition_Permutation {A} (p : A -> bool) (l : list A) :
  List.filter (fun x => negb (p x)) l ++ List.filter p l ≡ₚ l.
Proof.
  induction l as [|x l IH]; simpl; [reflexivity|].
  destruct (p x); simpl.
  - rewrite <- Permutation_middle. now rewrite IH.
  - now rewrite IH.
Qed.

Lemma Forall_list_filter {A} (P : A -> Prop) (p : A -> bool) (l : list A) :
  Forall P l -> Forall P (List.filter p l).
Proof.
  rewrite !Forall_forall. intros H x Hx.
  apply list_elem_of_In, filter_In in Hx as [Hx _]. apply H.
  now apply list_elem_of_In.
Qed.

Lemma keeps_destroyDeadResources env key tmo w :
  keeps 0 [] [] w (_destroyDeadResources env key tmo w).
Proof.
  unfold _destroyDeadResources, timeNow.
  change (freeResources (bump w)) with (freeResources w).
  rewrite sweep_spec by lia. rewrite firstn_all, drop_all, app_nil_r.
  cbn [app]. rewrite rev_involutive.
  set (now := clock env (ticks w)).
  eapply keeps_trans0.
  2:{ pose proof (keeps_destroyList env
                    (List.filter (is_dead now key tmo) (freeResources w)) []) as H.
      rewrite app_nil_r in H. apply H. }
  apply keeps_resources; cbn; try reflexivity; try lia.
  - unfold ids, pool_resources. cbn. apply fmap_submseteq.
    apply Permutation_submseteq.
    rewrite <- (filter_partition_Permutation (is_dead now key tmo)
                  (freeResources w)) at 3.
    solve_Permutation.
  - apply Forall_list_filter.
  - auto.
Qed.

Lemma keeps_destroyIdleResources env w :
  keeps 0 [] [] w (_destroyIdleResources env w).
Proof.
  unfold _destroyIdleResources, timeNow. case_ifs; try apply keeps_refl.
  - apply (keeps_trans0 [] [] [] w (bump w)); [keeps_fields|].
    match goal with |- keeps _ _ _ _ (set_lastIdleCheckAt _ (bump ?x)) =>
      apply (keeps_trans0 [] [] [] _ x);
        [apply keeps_destroyDeadResources|keeps_fields]
    end.
  - keeps_fields.
Qed.

Lemma keeps_destroyExpiredResources env w :
  keeps 0 [] [] w (_destroyExpiredResources env w).
Proof.
  unfold _destroyExpiredResources, timeNow. case_ifs; try apply keeps_refl.
  - apply (keeps_trans0 [] [] [] w (bump w)); [keeps_fields|].
    match goal with |- keeps _ _ _ _ (set_lastExpireCheckAt _ (bump ?x)) =>
      apply (keeps_trans0 [] [] [] _ x);
        [apply keeps_destroyDeadResources|keeps_fields]
    end.
  - keeps_fields.
Qed.

Lemma keeps_setMaintenanceInterval interval X w :
  keeps 0 X X w (setMaintenanceInterval interval w).
Proof.
  unfold setMaintenanceInterval.
  destruct (_maintenanceIntervalID w) as [old|] eqn:Hid.
  - split; cbn -[filter]; auto.
    intros []. split; [|unfold _countResources; cbn; lia].
    split; cbn -[filter]; auto.
    + eapply Forall_lt_mono; [|eassumption]. lia.
    + eapply Forall_lt_mono; [|eassumption]. lia.
    + eapply Forall_lt_mono; [|eassumption]. lia.
    + rewrite td_interval0, Hid. now rewrite filter_cons_False by auto.
  - split; cbn; auto.
    intros []. split; [|unfold _countResources; cbn; lia].
    split; cbn; auto.
    + eapply Forall_lt_mono; [|eassumption]. lia.
    + eapply Forall_lt_mono; [|eassumption]. lia.
    + eapply Forall_lt_mono; [|eassumption]. lia.
    + now rewrite td_interval0, Hid.
Qed.

Lemma keeps_waitDrain done X w : keeps 0 X X w (_waitDrain done w).
Proof.
  unfold _waitDrain.
  destruct (_countResources w =? 0); [destruct done as [k|]|].
  - split; cbn; auto.
    + intros H. now rewrite count_snoc, Nat.add_0_r.
    + unfold pending. cbn. now rewrite count_snoc, Nat.add_0_r.
    + intros []. split; [|unfold _countResources; cbn; lia].
      split; cbn; auto; now rewrite count_snoc, Nat.add_0_r.
  - keeps_fields.
  - split; cbn; auto.
    + intros H. now rewrite count_snoc, Nat.add_0_r.
    + unfold pending. cbn. now rewrite count_snoc, Nat.add_0_r.
    + intros []. split; [|unfold _countResources; cbn; lia].
      split; cbn; auto; now rewrite count_snoc, Nat.add_0_r.
Qed.

Lemma keeps_destroyAll env stack w :
  freeResources w = rev stack -> keeps 0 [] [] w (destroyAll env stack w).
Proof.
  revert w. induction stack as [|r rest IH]; intros w Hw; simpl;
    [apply keeps_refl|].
  simpl in Hw.
  apply (keeps_trans0 [] [r] [] w (set_freeResources (rev rest) w)).
  - apply keeps_resources; cbn; try reflexivity; try lia.
    + unfold ids, pool_resources. cbn. rewrite Hw. apply fmap_submseteq.
      solve_submseteq.
    + rewrite Hw. intros H. now apply Forall_app in H as [H _].
    + auto.
  - eapply keeps_trans0; [apply keeps_destroyResource|]. apply IH.
    now rewrite (proj1 (destroyResource_fields env r _)).
Qed.

Lemma keeps_drainFree env w : keeps 0 [] [] w (drainFree env w).
Proof. apply keeps_destroyAll. now rewrite rev_involutive. Qed.

Section Bookkeeping.

Variable env : Env.
Variable invoke : nat -> Outcome -> World -> option World.
Hypothesis invoke_kok : khook_ok invoke.

Lemma keeps_serve_error request code w w' :
  _serveRequest invoke request (Some code) None w = Some w' -> keeps 0 [] [] w w'.
Proof.
  unfold _serveRequest. destruct (done request) as [k|].
  - intros H. apply invoke_kok in H.
    eapply keeps_trans0; [|exact H]. keeps_fields.
  - intros [= <-]. keeps_fields.
Qed.

Lemma keeps_serve_resource request r w w' :
  _serveRequest invoke request None (Some r) w = Some w' -> keeps 0 [r] [] w w'.
Proof.
  unfold _serveRequest.
  set (w2 := emit _ (set_lentResources _ w)).
  assert (H2 : keeps 0 [r] [] w w2).
  { apply keeps_resources; cbn; try reflexivity; try lia.
    - ids_submseteq.
    - auto.
    - intros H. apply Forall_app. split; [exact H|].
      constructor; [|constructor]. unfold lent_shape. cbn. discriminate. }
  destruct (done request) as [k|].
  - intros H. apply invoke_kok in H.
    eapply keeps_trans0; [exact H2|]. eapply keeps_trans0; [|exact H]. keeps_fields.
  - intros [= <-]. exact H2.
Qed.

Lemma keeps_serveAging fuel now w w' :
  serveAging env invoke fuel now w = Some w' -> keeps 0 [] [] w w'.
Proof.
  revert w. induction fuel as [|n IH]; intros w; simpl; [discriminate|].
  destruct (agingRequests w) as [|request rest] eqn:Hq.
  - intros [= <-]. apply keeps_refl.
  - destruct (js_gt _ _).
    + destruct_serve w2 Hs. simpl. intros H.
      apply (keeps_trans0 [] [] [] w (set_agingRequests rest w)); [keeps_fields|].
      eapply keeps_trans0; [eapply keeps_serve_error; exact Hs|]. now apply IH.
    + pose proof (keeps_nextFreeResource env [] w) as Hn.
      destruct (_nextFreeResource env w) as [[r|] w1].
      * destruct_serve w3 Hs. simpl. intros H.
        eapply keeps_trans0; [exact Hn|].
        match type of Hs with _serveRequest _ _ _ _ ?x = _ =>
          apply (keeps_trans0 [r] [r] [] w1 x); [keeps_fields|] end.
        eapply keeps_trans0; [eapply keeps_serve_resource; exact Hs|].
        now apply IH.
      * intros [= <-]. exact Hn.
Qed.

Lemma keeps_serveAgeless fuel w w' :
  _serveAgelessRequests env invoke fuel w = Some w' -> keeps 0 [] [] w w'.
Proof.
  revert w. induction fuel as [|n IH]; intros w; simpl; [discriminate|].
  destruct (agelessRequests w) as [|request0 rest0] eqn:Hq.
  - intros [= <-]. apply keeps_refl.
  - pose proof (keeps_nextFreeResource env [] w) as Hn.
    destruct (_nextFreeResource env w) as [[r|] w1].
    + destruct (agelessRequests w1) as [|request rest]; [discriminate|].
      destruct_serve w3 Hs. simpl. intros H.
      eapply keeps_trans0; [exact Hn|].
      apply (keeps_trans0 [r] [r] [] w1 (set_agelessRequests rest w1));
        [keeps_fields|].
      eapply keeps_trans0; [eapply keeps_serve_resource; exact Hs|].
      now apply IH.
    + intros [= <-]. exact Hn.
Qed.

Lemma keeps_drop r X w : keeps 0 (r :: X) X w w.
Proof.
  apply keeps_resources; auto.
  unfold ids. apply fmap_submseteq. solve_submseteq.
Qed.

Lemma keeps_acquire options done w w' :
  acquire env invoke options done w = Some w' -> keeps 0 [] [] w w'.
Proof.
  unfold acquire, _createRequest, timeNow, _enqueueRequest.
  set (request := mkRequest _ _ _ _).
  set (w1 := emit _ (alloc (bump w))).
  assert (H1 : keeps 0 [] [] w w1) by (unfold w1, request; keeps_fields).
  destruct (isDraining w1).
  - intros H. eapply keeps_trans0; [exact H1|eapply keeps_serve_error; exact H].
  - destruct (js_ge _ _).
    + intros H. eapply keeps_trans0; [exact H1|eapply keeps_serve_error; exact H].
    + intros [= <-]. eapply keeps_trans0; [exact H1|].
      eapply keeps_trans0; [|apply keeps_scheduleMaintainance].
      unfold _insertRequestByAcquireTimeout.
      destruct (js_isNaN _); keeps_fields.
Qed.

Lemma keeps_acquireSync options w v w' :
  acquireSync env invoke options w = Some (v, w') -> keeps 0 [] [] w w'.
Proof.
  unfold acquireSync.
  pose proof (keeps_nextFreeResource env [] w) as Hn.
  destruct (_nextFreeResource env w) as [[r|] w1].
  - unfold _createRequest, timeNow. set (request := mkRequest _ _ _ _).
    cbv zeta. cbn [isDraining alloc set_fresh bump set_ticks].
    assert (H2 : keeps 0 [] [r] w (alloc (bump w1))).
    { eapply keeps_trans0; [exact Hn|]. keeps_fields. }
    destruct (isDraining w1).
    + destruct_serve w3 Hs. simpl. intros [= _ <-].
      eapply keeps_trans0; [exact H2|].
      eapply keeps_trans0; [apply keeps_drop|].
      eapply keeps_serve_error; exact Hs.
    + destruct_serve w3 Hs. simpl. intros [= _ <-].
      eapply keeps_trans0; [exact H2|]. eapply keeps_serve_resource; exact Hs.
  - intros [= _ <-]. exact Hn.
Qed.

Lemma tidy_set_isMaintaining b X w : tidy X w <-> tidy X (set_isMaintaining b w).
Proof. split; intros []; split; cbn in *; auto. Qed.

Lemma within_maintaining b b' w w' :
  within (set_isMaintaining b w) w' -> isMaintaining w = b' ->
  within w (set_isMaintaining b' w').
Proof.
  intros [c m s p t] Hb. split; cbn in *; auto.
  intros H Hc. apply (tidy_set_isMaintaining b) in H.
  destruct (t H Hc) as [H' Hc']. split; [|exact Hc'].
  now apply tidy_set_isMaintaining.
Qed.

Lemma within_maintain fuel w w' :
  _maintain env invoke fuel w = Some w' -> within w w'.
Proof.
  unfold _maintain, _serveAgingRequests, timeNow.
  destruct (isDraining w || isMaintaining w) eqn:Hb.
  - intros [= <-]. apply keeps_within, keeps_refl.
  - apply orb_false_iff in Hb as [_ Hm].
    match goal with |- context [serveAging env invoke fuel ?n ?x] =>
      destruct (serveAging env invoke fuel n x) as [w4|] eqn:H4; [|discriminate];
      assert (H3 : keeps 0 [] [] (set_isMaintaining true w) x)
    end.
    { eapply keeps_trans0; [apply keeps_destroyExpiredResources|].
      eapply keeps_trans0; [apply keeps_destroyIdleResources|]. keeps_fields. }
    simpl. destruct (_serveAgelessRequests _ _ _ _) as [w5|] eqn:H5; [|discriminate].
    simpl. intros [= <-].
    apply (within_maintaining true); [|exact Hm].
    eapply within_trans; [|apply within_createResources].
    apply keeps_within.
    eapply keeps_trans0; [exact H3|].
    eapply keeps_trans0; [eapply keeps_serveAging; exact H4|].
    eapply keeps_serveAgeless; exact H5.
Qed.

Lemma keeps_drainAging fuel w w' :
  drainAging invoke fuel w = Some w' -> keeps 0 [] [] w w'.
Proof.
  revert w. induction fuel as [|n IH]; intros w; simpl; [discriminate|].
  destruct (pop (agingRequests w)) as [[request rest]|].
  - destruct_serve w1 Hs. simpl. intros H.
    eapply keeps_trans0; [|apply IH, H].
    eapply keeps_trans0; [|eapply keeps_serve_error; exact Hs].
    keeps_fields.
  - intros [= <-]. apply keeps_refl.
Qed.

Lemma keeps_drainAgeless fuel w w' :
  drainAgeless invoke fuel w = Some w' -> keeps 0 [] [] w w'.
Proof.
  revert w. induction fuel as [|n IH]; intros w; simpl; [discriminate|].
  destruct (pop (agelessRequests w)) as [[request rest]|].
  - destruct_serve w1 Hs. simpl. intros H.
    eapply keeps_trans0; [|apply IH, H].
    eapply keeps_trans0; [|eapply keeps_serve_error; exact Hs].
    keeps_fields.
  - intros [= <-]. apply keeps_refl.
Qed.

Lemma keeps_clearInterval w :
  keeps 0 [] [] w
    (match _maintenanceIntervalID w with
     | Some id => set__maintenanceIntervalID None (emit (call_clearInterval id) w)
     | None => w
     end).
Proof.
  destruct (_maintenanceIntervalID w) as [id|] eqn:Hid; [|apply keeps_refl].
  split; cbn -[filter]; auto.
  intros []. split; [|unfold _countResources; cbn; lia].
  split; cbn -[filter]; auto.
  rewrite td_interval0, Hid. now rewrite filter_cons_False by auto.
Qed.

Lemma keeps_drain done fuel w w' :
  drain env invoke done fuel w = Some w' -> keeps 0 [] [] w w'.
Proof.
  unfold drain. destruct (isDraining w); cbn [negb]; simpl.
  - intros [= <-]. apply keeps_waitDrain.
  - match goal with |- context [drainAging invoke fuel ?x] =>
      destruct (drainAging invoke fuel x) as [w3|] eqn:H3; [|discriminate];
      assert (H2 : keeps 0 [] [] w x)
    end.
    { apply (keeps_trans0 [] [] [] w (set_isDraining true w)); [keeps_fields|].
      apply (keeps_clearInterval (set_isDraining true w)). }
    simpl. destruct (drainAgeless invoke fuel w3) as [w4|] eqn:H4; [|discriminate].
    simpl. intros [= <-].
    eapply keeps_trans0; [exact H2|].
    eapply keeps_trans0; [eapply keeps_drainAging; exact H3|].
    eapply keeps_trans0; [eapply keeps_drainAgeless; exact H4|].
    eapply keeps_trans0; [apply keeps_drainFree|apply keeps_waitDrain].
Qed.

Lemma keeps_exec fuel c w w' :
  exec env invoke fuel c w = Some w' -> keeps 0 [] [] w w'.
Proof.
  destruct c; simpl.
  - apply keeps_acquire.
  - destruct (acquireSync env invoke options w) as [[v w1]|] eqn:H; [|discriminate].
    simpl. intros [= <-]. eapply keeps_acquireSync; eauto.
  - intros [= <-]. apply keeps_release.
  - intros [= <-]. apply keeps_destroy.
  - apply keeps_drain.
  - intros [= <-]. apply keeps_setMaintenanceInterval.
Qed.

Lemma keeps_run fuel s w w' :
  run env invoke fuel s w = Some w' -> keeps 0 [] [] w w'.
Proof.
  revert w. induction s as [|c k IH]; intros w; simpl.
  - intros [= <-]. apply keeps_refl.
  - destruct (exec env invoke fuel c w) as [w1|] eqn:H1; [|discriminate].
    intros H. eapply keeps_trans0; [eapply keeps_exec; exact H1|]. eapply IH; exact H.
Qed.

End Bookkeeping.

Lemma count_delete {A} (p : A -> bool) (l : list A) i t :
  l !! i = Some t ->
  (count p (delete i l) + (if p t then 1 else 0) = count p l)%nat.
Proof.
  revert i. induction l as [|x l IH]; intros i Hi; [discriminate|].
  destruct i as [|i]; simpl in Hi.
  - injection Hi as ->. simpl. rewrite count_cons. lia.
  - simpl. rewrite !count_cons. specialize (IH i Hi). lia.
Qed.

Lemma keeps_orderly w w' : keeps 0 [] [] w w' -> orderly w -> orderly w'.
Proof.
  intros [c m s p t] (Ht & Hb & Hm & Hp). destruct (t Ht) as [Ht' Hc].
  split; [exact Ht'|]. split; [|split; [congruence|auto]].
  unfold bound in *. rewrite c. simpl in Hc. lia.
Qed.

Lemma within_orderly w w' : within w w' -> orderly w -> orderly w'.
Proof.
  intros [c m s p t] (Ht & Hb & Hm & Hp). destruct (t Ht Hb) as [Ht' Hc].
  split; [exact Ht'|]. split; [exact Hc|]. split; [congruence|auto].
Qed.

Section OrderlyPool.

Variable env : Env.
Variable handler : nat -> Outcome -> World -> Script.

Lemma callback_kok fuel : khook_ok (callback env handler fuel).
Proof.
  induction fuel as [|n IH]; intros k o w w'; simpl; [discriminate|].
  apply keeps_run. exact IH.
Qed.

(** A timer that is neither a scheduled maintenance nor a back-off delay
    leaves the queue of timers. *)
Lemma orderly_delete_timer i t w :
  timers w !! i = Some t -> is_scheduled t = false -> is_backoff t = false ->
  orderly w -> orderly (set_timers (delete i (timers w)) w).
Proof.
  intros Hi Hs Hb ([] & Hc & Hm & Hp).
  pose proof (count_delete is_scheduled _ i t Hi) as Cs.
  pose proof (count_delete is_backoff _ i t Hi) as Cb.
  rewrite Hs in Cs. rewrite Hb in Cb.
  split; [|split; [exact Hc|split; [exact Hm|]]].
  - split; cbn; auto.
    + rewrite td_creatingCount0. lia.
    + lia.
  - unfold pending in *. cbn. intros H. specialize (Hp H). lia.
Qed.

Lemma fire_orderly fuel i t w w' :
  timers w !! i = Some t -> orderly w ->
  fire env handler fuel t (set_timers (delete i (timers w)) w) = Some w' ->
  orderly w'.
Proof.
  intros Hi Ho. destruct t; simpl.
  - unfold _scheduledMaintain.
    destruct (_maintain _ _ _ _) as [w1|] eqn:H1; [|discriminate].
    simpl. intros [= <-].
    apply (within_maintain env _ (callback_kok fuel)) in H1.
    destruct Ho as ([] & Hc & Hm & Hp).
    pose proof (count_delete is_scheduled _ i _ Hi) as Cs.
    pose proof (count_delete is_backoff _ i _ Hi) as Cb.
    cbn in Cs, Cb.
    assert (Hflag : isMaintenanceScheduled w = true).
    { destruct (isMaintenanceScheduled w); [reflexivity|lia]. }
    rewrite Hflag in td_scheduled0.
    destruct H1 as [c m s p t].
    destruct (s Hflag) as [Hflag1 Hn1]. cbn in Hn1.
    assert (Ht0 : tidy [] (set_timers (delete i (timers w)) w)).
    { split; cbn; auto; [rewrite td_creatingCount0|]; lia. }
    destruct (t Ht0 Hc) as [[] Hc1].
    split; [|split; [exact Hc1|split; [cbn in *; congruence|]]].
    + split; cbn; auto. lia.
    + unfold pending. cbn. discriminate.
  - intros [= <-]. destruct Ho as ([] & Hc & Hm & Hp).
    pose proof (count_delete is_scheduled _ i _ Hi) as Cs.
    pose proof (count_delete is_backoff _ i _ Hi) as Cb.
    cbn in Cs, Cb.
    split; [|split; [|split; [exact Hm|]]].
    + split; cbn; auto.
      * rewrite td_creatingCount0. lia.
      * lia.
    + unfold _countResources, bound in *. cbn. lia.
    + unfold pending in *. cbn. intros H. specialize (Hp H). lia.
  - intros [= <-]. eapply keeps_orderly; [apply keeps_waitDrain|].
    eapply orderly_delete_timer; eauto.
  - intros H. apply callback_kok in H. eapply keeps_orderly; [exact H|].
    eapply orderly_delete_timer; eauto.
Qed.

Lemma step_orderly fuel op w w' :
  orderly w -> step env handler fuel op w = Some w' -> orderly w'.
Proof.
  intros Ho. destruct op; simpl.
  - intros H. eapply keeps_orderly; [|exact Ho].
    eapply keeps_exec; [apply callback_kok|exact H].
  - destruct (_maintenanceIntervalID w); [|discriminate].
    intros H. eapply within_orderly; [|exact Ho].
    eapply within_maintain; [apply callback_kok|exact H].
  - destruct (timers w !! i) as [t|] eqn:Hi; [|discriminate].
    intros H. eapply fire_orderly; eauto.
  - intros [= <-]. eapply keeps_orderly; [apply keeps_createCallback|exact Ho].
  - intros [= <-]. eapply keeps_orderly; [apply keeps_destroyCallback|exact Ho].
Qed.

Lemma new_orderly options fuel w :
  Pool_new env (callback env handler fuel) options fuel = Some w -> orderly w.
Proof.
  unfold Pool_new. cbv zeta. intros H.
  apply (within_maintain env _ (callback_kok fuel)) in H.
  eapply within_orderly; [exact H|].
  eapply keeps_orderly; [apply keeps_setMaintenanceInterval|].
  split; [|split; [|split]].
  - split; cbn; auto using NoDup_nil_2.
  - unfold _countResources, bound. cbn. lia.
  - reflexivity.
  - unfold pending. cbn. discriminate.
Qed.

(** The bookkeeping is in order in every state that a pool reaches. *)
Lemma reachable_orderly w : reachable env handler w -> orderly w.
Proof.
  induction 1 as [options fuel w H|fuel op w w' _ IH H].
  - eapply new_orderly; exact H.
  - eapply step_orderly; eauto.
Qed.

End OrderlyPool.



(** X9.  In every state that a pool reaches, [destroyingResourceCount]
    is the number of callbacks given to the factory's [destroy] that have
    not been called yet, and [creatingResourceCount] is the number of
    callbacks given to [create] that have not been called yet plus the
    number of back-off delays that have not elapsed; so neither counter,
    nor the total that [_countResources] returns, is ever negative. *)
Theorem X9_counters_count_pending_callbacks :
  forall (env : Env) (handler : nat -> Outcome -> World -> Script) (w : World),
    reachable env handler w ->
    destroyingResourceCount w = Z.of_nat (length (destroying w))
    /\ creatingResourceCount w
       = Z.of_nat (length (creating w)) + Z.of_nat (count is_backoff (timers w))
    /\ NoDup (creating w) /\ NoDup (destroying w)
    /\ 0 <= creatingResourceCount w
    /\ 0 <= destroyingResourceCount w
    /\ 0 <= _countResources w.
Proof.
  intros env handler w Hr.
  destruct (reachable_orderly env handler w Hr) as ([] & _).
  repeat split; auto; unfold _countResources; lia.
Qed.

(** The theorem at [pending_pool], where one creation is under way. *)
Lemma X9_counters_witness :
  creatingResourceCount pending_pool = 1
  /\ creating pending_pool = [1%nat]
  /\ (destroyingResourceCount pending_pool
      = Z.of_nat (length (destroying pending_pool))
      /\ creatingResourceCount pending_pool
         = Z.of_nat (length (creating pending_pool))
           + Z.of_nat (count is_backoff (timers pending_pool))
      /\ NoDup (creating pending_pool) /\ NoDup (destroying pending_pool)
      /\ 0 <= creatingResourceCount pending_pool
      /\ 0 <= destroyingResourceCount pending_pool
      /\ 0 <= _countResources pending_pool).
Proof.
  split; [vm_compute; reflexivity|]. split; [vm_compute; reflexivity|].
  apply (X9_counters_count_pending_callbacks async_env quiet_handler pending_pool).
  apply new_pool_reachable. vm_compute. discriminate.
Defined.

(** X10.  In every state that a pool reaches, the number of resources
    that the pool counts (free, lent, being created and being destroyed)
    is at most [max], and is 0 when [max] is negative; so the free and
    the lent records together are never more than [max]. *)
Theorem X10_pool_never_exceeds_max :
  forall (env : Env) (handler : nat -> Outcome -> World -> Script) (w : World),
    reachable env handler w ->
    _countResources w <= Z.max 0 (max (cfg w))
    /\ Z.of_nat (length (freeResources w)) + Z.of_nat (length (lentResources w))
       <= Z.max 0 (max (cfg w)).
Proof.
  intros env handler w Hr.
  destruct (reachable_orderly env handler w Hr) as ([] & Hb & _).
  unfold bound, _countResources in *. split; lia.
Qed.

(** The theorem at [served_pool], made with [max] left at 1024. *)
Lemma X10_pool_never_exceeds_max_witness :
  _countResources served_pool = 1
  /\ max (cfg served_pool) = 1024
  /\ (_countResources served_pool <= Z.max 0 (max (cfg served_pool))
      /\ Z.of_nat (length (freeResources served_pool))
         + Z.of_nat (length (lentResources served_pool))
         <= Z.max 0 (max (cfg served_pool))).
Proof.
  split; [vm_compute; reflexivity|]. split; [vm_compute; reflexivity|].
  apply (X10_pool_never_exceeds_max sample_env quiet_handler served_pool).
  apply served_pool_reachable.
Defined.

(** X11.  In every state that a pool reaches, no two records of the free
    list and the lent list taken together are the same object: a record
    is never in both lists and never twice in one, so a resource is not
    lent to two requests at once. *)
Theorem X11_records_are_distinct :
  forall (env : Env) (handler : nat -> Outcome -> World -> Script) (w : World),
    reachable env handler w ->
    NoDup (map res_id (freeResources w ++ lentResources w))
    /\ Forall (fun r => (res_id r < fresh w)%nat)
         (freeResources w ++ lentResources w).
Proof.
  intros env handler w Hr.
  destruct (reachable_orderly env handler w Hr) as ([] & _).
  unfold ids, pool_resources in *. cbn [app] in *.
  assert (Hsub : map res_id (freeResources w ++ lentResources w)
                 ⊆+ map res_id ((freeResources w ++ lentResources w)
                                 ++ destroy_events (log w))).
  { apply fmap_submseteq. solve_submseteq. }
  split; [eapply NoDup_submseteq_inv; eassumption|].
  pose proof (Forall_submseteq_inv _ _ _ Hsub td_ids_old0) as H.
  now apply Forall_fmap in H.
Qed.

(** The theorem at [recycled_pool], whose one record has been lent and
    released. *)
Lemma X11_records_are_distinct_witness :
  map res_id (freeResources recycled_pool ++ lentResources recycled_pool)
  = [2%nat]
  /\ (NoDup (map res_id (freeResources recycled_pool
                         ++ lentResources recycled_pool))
      /\ Forall (fun r => (res_id r < fresh recycled_pool)%nat)
           (freeResources recycled_pool ++ lentResources recycled_pool)).
Proof.
  split; [vm_compute; reflexivity|].
  apply (X11_records_are_distinct sample_env quiet_handler recycled_pool).
  apply pool_after_reachable. vm_compute. discriminate.
Defined.

(** X12.  In every state that a pool reaches, every record of the free
    list has no request attached and a numeric [idleAt] (so the idle
    reaper can always judge it), and every record of the lent list
    carries the request it was handed to. *)
Theorem X12_records_have_the_shape_of_their_list :
  forall (env : Env) (handler : nat -> Outcome -> World -> Script) (w : World),
    reachable env handler w ->
    Forall (fun r => request r = None /\ js_isNaN (idleAt r) = false)
      (freeResources w)
    /\ Forall (fun r => request r <> None) (lentResources w).
Proof.
  intros env handler w Hr.
  destruct (reachable_orderly env handler w Hr) as ([] & _).
  split; assumption.
Qed.

(** The theorem at [served_pool], whose one record is lent. *)
Lemma X12_records_shape_witness :
  length (lentResources served_pool) = 1%nat
  /\ (Forall (fun r => request r = None /\ js_isNaN (idleAt r) = false)
        (freeResources served_pool)
      /\ Forall (fun r => request r <> None) (lentResources served_pool)).
Proof.
  split; [vm_compute; reflexivity|].
  apply (X12_records_have_the_shape_of_their_list sample_env quiet_handler
           served_pool).
  apply served_pool_reachable.
Defined.

(** X13.  Between two turns of the event loop, the flag
    [isMaintenanceScheduled] is set exactly when one timer for
    [_scheduledMaintain] is pending, and there is never more than one
    such timer; and [isMaintaining] is not set, so that the guard of
    [_maintain] only ever stops a pass on a draining pool. *)
Theorem X13_one_scheduled_maintenance :
  forall (env : Env) (handler : nat -> Outcome -> World -> Script) (w : World),
    reachable env handler w ->
    count is_scheduled (timers w)
    = (if isMaintenanceScheduled w then 1 else 0)%nat
    /\ isMaintaining w = false.
Proof.
  intros env handler w Hr.
  destruct (reachable_orderly env handler w Hr) as ([] & _ & Hm & Hp).
  split; [|exact Hm]. unfold pending in Hp.
  destruct (isMaintenanceScheduled w); [specialize (Hp eq_refl)|]; lia.
Qed.

(** The theorem at [waiting_pool], where a request has just been queued. *)
Lemma X13_one_scheduled_maintenance_witness :
  isMaintenanceScheduled waiting_pool = true
  /\ (count is_scheduled (timers waiting_pool)
      = (if isMaintenanceScheduled waiting_pool then 1 else 0)%nat
      /\ isMaintaining waiting_pool = false).
Proof.
  split; [vm_compute; reflexivity|].
  apply (X13_one_scheduled_maintenance sample_env retry_handler waiting_pool).
  apply waiting_pool_reachable.
Defined.

(** X14.  In every state that a pool reaches, the intervals that the pool
    has set with [setInterval] and not cleared are exactly the one it
    remembers in [_maintenanceIntervalID], or none when that is [null]:
    [setMaintenanceInterval] and [drain] never leave an interval running
    behind. *)
Theorem X14_one_maintenance_interval :
  forall (env : Env) (handler : nat -> Outcome -> World -> Script) (w : World),
    reachable env handler w ->
    running (log w)
    = match _maintenanceIntervalID w with Some id => [id] | None => [] end.
Proof.
  intros env handler w Hr.
  destruct (reachable_orderly env handler w Hr) as ([] & _).
  assumption.
Qed.

(** The theorem at [drained_pool], whose interval [drain] has cleared. *)
Lemma X14_one_maintenance_interval_witness :
  _maintenanceIntervalID drained_pool = None
  /\ running (log drained_pool)
     = match _maintenanceIntervalID drained_pool with
       | Some id => [id]
       | None => []
       end.
Proof.
  split; [vm_compute; reflexivity|].
  apply (X14_one_maintenance_interval sample_env quiet_handler drained_pool).
  apply drained_pool_reachable.
Defined.

(** ** The constructor *)

Lemma create_frame_refl w : create_frame w w.
Proof. split; auto. Qed.

Lemma create_frame_trans w1 w2 w3 :
  create_frame w1 w2 -> create_frame w2 w3 -> create_frame w1 w3.
Proof. intros [a1 b1 c1 d1] [a2 b2 c2 d2]. split; try congruence. auto. Qed.

Lemma create_frame_destroyResource env r w :
  create_frame w (_destroyResource env r w).
Proof.
  unfold _destroyResource, destroyCallback. cbn -[filter].
  case_ifs; split; cbn; auto.
Qed.

Lemma create_frame_storeResource env r w :
  create_frame w (_storeResource env r w).
Proof.
  unfold _storeResource. case_ifs.
  - unfold timeNow, _scheduleMaintainance. cbn. case_ifs; split; cbn; auto.
  - eapply create_frame_trans; [|apply create_frame_destroyResource].
    split; cbn; auto.
  - apply create_frame_destroyResource.
Qed.

Lemma create_frame_createCallback env cid result w :
  create_frame w (createCallback env cid result w).
Proof.
  unfold createCallback.
  destruct (decide (cid ∈ creating w)); [|apply create_frame_refl].
  destruct result; cbv zeta.
  - case_ifs; split; cbn -[filter]; auto.
  - unfold timeNow. cbv zeta.
    eapply create_frame_trans; [|apply create_frame_storeResource].
    split; cbn -[filter]; auto.
Qed.

Lemma create_frame_createResource env w : create_frame w (_createResource env w).
Proof.
  unfold _createResource. cbv zeta.
  match goal with
  | |- create_frame _ (match _ with Some _ => createCallback _ _ _ ?x | None => _ end) =>
      assert (H : create_frame w x) by (split; cbn; auto)
  end.
  destruct (createResource env _); [|exact H].
  eapply create_frame_trans; [exact H|apply create_frame_createCallback].
Qed.

Lemma create_frame_createLoop env n w : create_frame w (createLoop env n w).
Proof.
  revert w. induction n as [|n IH]; intros w; simpl; [apply create_frame_refl|].
  eapply create_frame_trans; [apply create_frame_createResource|apply IH].
Qed.

Lemma reap_frame_refl w : reap_frame w w.
Proof. split; auto. Qed.

Lemma reap_frame_trans w1 w2 w3 :
  reap_frame w1 w2 -> reap_frame w2 w3 -> reap_frame w1 w3.
Proof. intros [] []. split; congruence. Qed.

Lemma reap_frame_destroyDeadResources env key tmo w :
  freeResources w = [] -> reap_frame w (_destroyDeadResources env key tmo w).
Proof.
  intros Hf. unfold _destroyDeadResources, timeNow.
  change (freeResources (bump w)) with (freeResources w). rewrite Hf. cbn.
  split; cbn; auto.
Qed.

Lemma reap_frame_destroyIdleResources env w :
  freeResources w = [] -> reap_frame w (_destroyIdleResources env w).
Proof.
  intros Hf. unfold _destroyIdleResources, timeNow.
  case_ifs; try apply reap_frame_refl.
  - apply (reap_frame_trans w (bump w)); [split; cbn; auto|].
    match goal with |- reap_frame _ (set_lastIdleCheckAt _ (bump ?x)) =>
      apply (reap_frame_trans _ x);
        [apply reap_frame_destroyDeadResources; exact Hf|split; cbn; auto]
    end.
  - split; cbn; auto.
Qed.

Lemma reap_frame_destroyExpiredResources env w :
  freeResources w = [] -> reap_frame w (_destroyExpiredResources env w).
Proof.
  intros Hf. unfold _destroyExpiredResources, timeNow.
  case_ifs; try apply reap_frame_refl.
  - apply (reap_frame_trans w (bump w)); [split; cbn; auto|].
    match goal with |- reap_frame _ (set_lastExpireCheckAt _ (bump ?x)) =>
      apply (reap_frame_trans _ x);
        [apply reap_frame_destroyDeadResources; exact Hf|split; cbn; auto]
    end.
  - split; cbn; auto.
Qed.

Lemma initial_topUp c :
  Z.to_nat (topUp 0 0 (min c) (max c) 0 (maxCreating c))
  = Z.to_nat (initial_creations c).
Proof.
  unfold topUp, initial_creations. cbv zeta.
  assert (H : forall m, 0 < m ->
            Z.to_nat (Z.min
              ((if 0 + (if (0 <? min c) && (0 <? min c) then min c else 0) >? max c
                then max c - 0
                else if (0 <? min c) && (0 <? min c) then min c else 0) - 0)
              (m - 0))
            = Z.to_nat (Z.min (Z.min (min c) (max c)) m)).
  { intros m Hm. destruct (Z.ltb_spec 0 (min c)); simpl;
      match goal with |- context [?a >? ?b] => destruct (Z.gtb_spec a b) end; lia. }
  assert (H0 : Z.to_nat
            ((if 0 + (if (0 <? min c) && (0 <? min c) then min c else 0) >? max c
              then max c - 0
              else if (0 <? min c) && (0 <? min c) then min c else 0) - 0)
            = Z.to_nat (Z.min (min c) (max c))).
  { destruct (Z.ltb_spec 0 (min c)); simpl;
      match goal with |- context [?a >? ?b] => destruct (Z.gtb_spec a b) end; lia. }
  destruct (maxCreating c) as [| |m]; try exact H0.
  destruct (Z.gtb_spec m 0); [apply H; lia|exact H0].
Qed.

(** X15.  [new Pool(options)] always returns.  An option that is absent,
    [NaN] or 0 is replaced by its default ([min] 0, [max] 1024, the two
    check intervals 1000, [maintenanceTimeout] 50, and for
    [maintenanceInterval] the smaller of the two check intervals), so
    that [{max: 0}] makes a pool of at most 1024 resources.  The new pool
    has empty queues and no lent record, is not draining, has set one
    interval for the periodic maintenance, and has called the factory's
    [create] as many times as the smaller of [min] and [max], at most
    [maxCreating] times when that is a number above 0 (and not at all
    when the number is not positive). *)
Theorem X15_constructor :
  forall (env : Env) (invoke : nat -> Outcome -> World -> option World)
         (options : Options) (fuel : nat),
    (exists w,
        Pool_new env invoke options (S fuel) = Some w
        /\ cfg w
           = mkConfig (js_default (o_min options) 0)
               (js_default (o_max options) 1024)
               (o_maxCreating options) (o_maxRequests options)
               (o_acquireTimeout options) (o_idleTimeout options)
               (js_default (o_idleCheckInterval options) 1000)
               (o_expireTimeout options)
               (js_default (o_expireCheckInterval options) 1000)
               (js_default (o_maintenanceTimeout options) 50)
               (o_backoff options)
        /\ maintenanceInterval w
           = js_default (o_maintenanceInterval options)
               (Z.min (idleCheckInterval (cfg w)) (expireCheckInterval (cfg w)))
        /\ agingRequests w = [] /\ agelessRequests w = []
        /\ lentResources w = []
        /\ isDraining w = false /\ isMaintaining w = false
        /\ _maintenanceIntervalID w = Some 0%nat
        /\ In (call_setInterval 0 (maintenanceInterval w)) (log w)
        /\ createCalls w = Z.to_nat (initial_creations (cfg w)))
    /\ (forall d, js_default JUndefined d = d /\ js_default JNaN d = d
                  /\ js_default (JNum 0) d = d)
    /\ (forall z d, z <> 0 -> js_default (JNum z) d = z).
Proof.
  intros env invoke options fuel. split; [|split].
  - unfold Pool_new. cbv zeta.
    match goal with |- context [_maintain env invoke (S fuel) ?x] => set (w0 := x) end.
    unfold _maintain. change (isDraining w0 || isMaintaining w0) with false.
    cbv iota.
    set (w1 := set_isMaintaining true w0).
    pose proof (reap_frame_destroyExpiredResources env w1 eq_refl) as R1.
    set (w2 := _destroyExpiredResources env w1) in *.
    pose proof (reap_frame_destroyIdleResources env w2 (rf_free _ _ R1)) as R2.
    set (w3 := _destroyIdleResources env w2) in *.
    pose proof (reap_frame_trans _ _ _ R1 R2) as R.
    unfold _serveAgingRequests, timeNow. simpl serveAging.
    change (agingRequests (bump w3)) with (agingRequests w3).
    rewrite (rf_aging _ _ R). simpl.
    change (agelessRequests (bump w3)) with (agelessRequests w3).
    rewrite (rf_ageless _ _ R). simpl.
    set (w5 := bump w3).
    pose proof (frame_createResources env w5) as F.
    pose proof (create_frame_createLoop env (Z.to_nat (extraResources w5)) w5) as C.
    fold (_createResources env w5) in C.
    eexists. split; [reflexivity|]. cbn [cfg maintenanceInterval agingRequests
      agelessRequests lentResources isDraining isMaintaining
      _maintenanceIntervalID log set_isMaintaining].
    assert (Hcfg : cfg (_createResources env w5) = cfg w0).
    { rewrite (fr_cfg _ _ F). apply (rf_cfg _ _ R). }
    split; [rewrite Hcfg; reflexivity|].
    split; [rewrite Hcfg, (cf_maintenanceInterval _ _ C);
            change (maintenanceInterval w5) with (maintenanceInterval w3);
            rewrite (rf_maintenanceInterval _ _ R); reflexivity|].
    split; [rewrite (fr_aging _ _ F); apply (rf_aging _ _ R)|].
    split; [rewrite (fr_ageless _ _ F); apply (rf_ageless _ _ R)|].
    split; [rewrite (cf_lent _ _ C); apply (rf_lent _ _ R)|].
    split; [rewrite (fr_draining _ _ F); apply (rf_draining _ _ R)|].
    split; [reflexivity|].
    split; [rewrite (cf_interval _ _ C); apply (rf_interval _ _ R)|].
    split.
    + apply (cf_log _ _ C). rewrite (cf_maintenanceInterval _ _ C).
      change (log w5) with (log w3). change (maintenanceInterval w5)
        with (maintenanceInterval w3).
      rewrite (rf_log _ _ R), (rf_maintenanceInterval _ _ R). cbn. auto.
    + change (createCalls (set_isMaintaining false (_createResources env w5)))
        with (createCalls (_createResources env w5)).
      rewrite Hcfg.
      unfold _createResources. rewrite createCalls_createLoop.
      rewrite extraResources_topUp. unfold _countResources.
      change (freeResources w5) with (freeResources w3).
      change (lentResources w5) with (lentResources w3).
      change (creatingResourceCount w5) with (creatingResourceCount w3).
      change (destroyingResourceCount w5) with (destroyingResourceCount w3).
      change (agingRequests w5) with (agingRequests w3).
      change (agelessRequests w5) with (agelessRequests w3).
      change (cfg w5) with (cfg w3). change (createCalls w5) with (createCalls w3).
      unfold createCalls at 1.
      rewrite (rf_free _ _ R), (rf_lent _ _ R), (rf_creating _ _ R),
        (rf_destroying _ _ R), (rf_aging _ _ R), (rf_ageless _ _ R),
        (rf_cfg _ _ R), (rf_log _ _ R).
      exact (initial_topUp (cfg w0)).
  - intros d. repeat split; reflexivity.
  - intros z d Hz. unfold js_default, js_or. cbn.
    destruct (Z.eqb_spec z 0); [contradiction|reflexivity].
Qed.

(** ** The size of the queues *)

Lemma qkeeps_refl w : qkeeps w w.
Proof. split; auto. Qed.

Lemma qkeeps_trans w1 w2 w3 : qkeeps w1 w2 -> qkeeps w2 w3 -> qkeeps w1 w3.
Proof. intros [c1 q1] [c2 q2]. split; [congruence|auto]. Qed.

(** Code that takes requests out of the queues, or leaves them alone. *)
Lemma qkeeps_queues w w' :
  cfg w' = cfg w ->
  (length (agingRequests w') <= length (agingRequests w))%nat ->
  agelessRequests w' `sublist_of` agelessRequests w ->
  qkeeps w w'.
Proof.
  intros Hc Ha Hb. split; [exact Hc|]. intros [Hm Hn]. split.
  - rewrite Hc. destruct (maxRequests (cfg w)); auto.
    apply sublist_length in Hb. unfold waiting in *. lia.
  - rewrite Forall_forall in *. intros r Hr. apply Hn.
    eapply elem_of_sublist; eauto.
Qed.

Lemma qkeeps_frame w w' : frame w w' -> qkeeps w w'.
Proof.
  intros [c a b _ _ _ _]. apply qkeeps_queues; [exact c|rewrite a; lia|now rewrite b].
Qed.

Section QueueSize.

Variable env : Env.
Variable invoke : nat -> Outcome -> World -> option World.
Hypothesis invoke_qok : qhook_ok invoke.

Lemma qkeeps_serve request errCode resource w w' :
  _serveRequest invoke request errCode resource w = Some w' -> qkeeps w w'.
Proof.
  unfold _serveRequest. destruct errCode as [code|]; [|destruct resource as [r|]].
  - destruct (done request) as [k|].
    + intros H. apply invoke_qok in H. eapply qkeeps_trans; [|exact H].
      apply qkeeps_queues; cbn; auto.
    + intros [= <-]. apply qkeeps_queues; cbn; auto.
  - destruct (done request) as [k|].
    + intros H. apply invoke_qok in H. eapply qkeeps_trans; [|exact H].
      apply qkeeps_queues; cbn; auto.
    + intros [= <-]. apply qkeeps_queues; cbn; auto.
  - discriminate.
Qed.

Lemma qkeeps_serveAging fuel now w w' :
  serveAging env invoke fuel now w = Some w' -> qkeeps w w'.
Proof.
  revert w. induction fuel as [|n IH]; intros w; simpl; [discriminate|].
  destruct (agingRequests w) as [|request rest] eqn:Hq.
  - intros [= <-]. apply qkeeps_refl.
  - destruct (js_gt _ _).
    + destruct_serve w2 Hs. simpl. intros H.
      apply (qkeeps_trans w (set_agingRequests rest w)).
      { apply qkeeps_queues; cbn; auto. rewrite Hq. simpl. lia. }
      eapply qkeeps_trans; [eapply qkeeps_serve; exact Hs|]. now apply IH.
    + pose proof (frame_nextFreeResource env w) as Hf.
      destruct (_nextFreeResource env w) as [[r|] w1]; simpl in Hf.
      * destruct_serve w3 Hs. simpl. intros H.
        eapply qkeeps_trans; [apply qkeeps_frame; exact Hf|].
        match type of Hs with _serveRequest _ _ _ _ ?x = _ =>
          apply (qkeeps_trans w1 x) end.
        { apply qkeeps_queues; cbn; auto. destruct (agingRequests w1); simpl; lia. }
        eapply qkeeps_trans; [eapply qkeeps_serve; exact Hs|]. now apply IH.
      * intros [= <-]. apply qkeeps_frame, Hf.
Qed.

Lemma qkeeps_serveAgeless fuel w w' :
  _serveAgelessRequests env invoke fuel w = Some w' -> qkeeps w w'.
Proof.
  revert w. induction fuel as [|n IH]; intros w; simpl; [discriminate|].
  destruct (agelessRequests w) as [|request0 rest0] eqn:Hq.
  - intros [= <-]. apply qkeeps_refl.
  - pose proof (frame_nextFreeResource env w) as Hf.
    destruct (_nextFreeResource env w) as [[r|] w1]; simpl in Hf.
    + destruct (agelessRequests w1) as [|request rest] eqn:Hq1; [discriminate|].
      destruct_serve w3 Hs. simpl. intros H.
      eapply qkeeps_trans; [apply qkeeps_frame; exact Hf|].
      apply (qkeeps_trans w1 (set_agelessRequests rest w1)).
      { apply qkeeps_queues; cbn; auto. rewrite Hq1. now apply sublist_cons. }
      eapply qkeeps_trans; [eapply qkeeps_serve; exact Hs|]. now apply IH.
    + intros [= <-]. apply qkeeps_frame, Hf.
Qed.

Lemma length_insert_request (request : Request) i (l : list Request) :
  length (take i l ++ request :: drop i l) = S (length l).
Proof.
  rewrite length_app. simpl. rewrite length_take, length_drop. lia.
Qed.

Lemma qkeeps_insert request w :
  js_ge (JNum (Z.of_nat (length (agelessRequests w))
               + Z.of_nat (length (agingRequests w))))
    (maxRequests (cfg w)) = false ->
  qkeeps w (_insertRequestByAcquireTimeout request w).
Proof.
  intros Hfull. rewrite js_ge_full in Hfull.
  unfold _insertRequestByAcquireTimeout.
  destruct (js_isNaN (acquireTimeoutAt request)) eqn:Hn.
  - split; [reflexivity|]. intros [Hb Ha]. split.
    + cbn -[Z.max]. destruct (maxRequests (cfg w)) as [| |m]; auto.
      apply Z.leb_gt in Hfull. unfold waiting in *. cbn -[Z.max].
      rewrite length_app. simpl. lia.
    + cbn. apply Forall_app. split; [exact Ha|].
      constructor; [exact Hn|constructor].
  - split; [reflexivity|]. intros [Hb Ha]. split.
    + cbn -[Z.max]. destruct (maxRequests (cfg w)) as [| |m]; auto.
      apply Z.leb_gt in Hfull. unfold waiting in *. cbn -[Z.max].
      rewrite length_insert_request. lia.
    + exact Ha.
Qed.

Lemma qkeeps_acquire options done w w' :
  acquire env invoke options done w = Some w' -> qkeeps w w'.
Proof.
  unfold acquire, _createRequest, timeNow, _enqueueRequest.
  set (request := mkRequest _ _ _ _).
  set (w1 := emit _ (alloc (bump w))).
  assert (H1 : qkeeps w w1) by (apply qkeeps_queues; cbn; auto).
  destruct (isDraining w1).
  - intros H. eapply qkeeps_trans; [exact H1|eapply qkeeps_serve; exact H].
  - destruct (js_ge _ _) eqn:Hfull.
    + intros H. eapply qkeeps_trans; [exact H1|eapply qkeeps_serve; exact H].
    + intros [= <-]. eapply qkeeps_trans; [exact H1|].
      eapply qkeeps_trans; [|apply qkeeps_frame, frame_scheduleMaintainance].
      apply qkeeps_insert. exact Hfull.
Qed.

Lemma qkeeps_acquireSync options w v w' :
  acquireSync env invoke options w = Some (v, w') -> qkeeps w w'.
Proof.
  unfold acquireSync.
  pose proof (frame_nextFreeResource env w) as Hf.
  destruct (_nextFreeResource env w) as [[r|] w1]; simpl in Hf.
  - unfold _createRequest, timeNow. set (request := mkRequest _ _ _ _).
    cbv zeta. cbn [isDraining alloc set_fresh bump set_ticks].
    assert (H2 : qkeeps w (alloc (bump w1))).
    { eapply qkeeps_trans; [apply qkeeps_frame; exact Hf|].
      apply qkeeps_queues; cbn; auto. }
    destruct (isDraining w1).
    + destruct_serve w3 Hs. simpl. intros [= _ <-].
      eapply qkeeps_trans; [exact H2|eapply qkeeps_serve; exact Hs].
    + destruct_serve w3 Hs. simpl. intros [= _ <-].
      eapply qkeeps_trans; [exact H2|eapply qkeeps_serve; exact Hs].
  - intros [= _ <-]. apply qkeeps_frame, Hf.
Qed.

Lemma qkeeps_maintain fuel w w' :
  _maintain env invoke fuel w = Some w' -> qkeeps w w'.
Proof.
  unfold _maintain, _serveAgingRequests, timeNow.
  destruct (isDraining w || isMaintaining w).
  - intros [= <-]. apply qkeeps_refl.
  - match goal with |- context [serveAging env invoke fuel ?n ?x] =>
      destruct (serveAging env invoke fuel n x) as [w4|] eqn:H4; [|discriminate];
      assert (H3 : qkeeps w x)
    end.
    { apply (qkeeps_trans _ (set_isMaintaining true w));
        [apply qkeeps_queues; cbn; auto|].
      eapply qkeeps_trans; [apply qkeeps_frame, frame_destroyExpiredResources|].
      eapply qkeeps_trans; [apply qkeeps_frame, frame_destroyIdleResources|].
      apply qkeeps_queues; cbn; auto. }
    simpl. destruct (_serveAgelessRequests _ _ _ _) as [w5|] eqn:H5; [|discriminate].
    simpl. intros [= <-].
    eapply qkeeps_trans; [exact H3|].
    eapply qkeeps_trans; [eapply qkeeps_serveAging; exact H4|].
    eapply qkeeps_trans; [eapply qkeeps_serveAgeless; exact H5|].
    eapply qkeeps_trans; [apply qkeeps_frame, frame_createResources|].
    apply qkeeps_queues; cbn; auto.
Qed.

Lemma qkeeps_scheduledMaintain fuel w w' :
  _scheduledMaintain env invoke fuel w = Some w' -> qkeeps w w'.
Proof.
  unfold _scheduledMaintain.
  destruct (_maintain _ _ _ _) as [w1|] eqn:H1; [|discriminate].
  simpl. intros [= <-].
  eapply qkeeps_trans; [eapply qkeeps_maintain; exact H1|].
  apply qkeeps_queues; cbn; auto.
Qed.

Lemma qkeeps_drainAging fuel w w' :
  drainAging invoke fuel w = Some w' -> qkeeps w w'.
Proof.
  revert w. induction fuel as [|n IH]; intros w; simpl; [discriminate|].
  destruct (pop (agingRequests w)) as [[request rest]|] eqn:Hp.
  - destruct_serve w1 Hs. simpl. intros H.
    eapply qkeeps_trans; [|apply IH, H].
    eapply qkeeps_trans; [|eapply qkeeps_serve; exact Hs].
    apply qkeeps_queues; cbn; auto.
    rewrite (pop_Some _ _ _ Hp), length_app. lia.
  - intros [= <-]. apply qkeeps_refl.
Qed.

Lemma qkeeps_drainAgeless fuel w w' :
  drainAgeless invoke fuel w = Some w' -> qkeeps w w'.
Proof.
  revert w. induction fuel as [|n IH]; intros w; simpl; [discriminate|].
  destruct (pop (agelessRequests w)) as [[request rest]|] eqn:Hp.
  - destruct_serve w1 Hs. simpl. intros H.
    eapply qkeeps_trans; [|apply IH, H].
    eapply qkeeps_trans; [|eapply qkeeps_serve; exact Hs].
    apply qkeeps_queues; cbn; auto.
    rewrite (pop_Some _ _ _ Hp). now apply sublist_inserts_r.
  - intros [= <-]. apply qkeeps_refl.
Qed.

Lemma qkeeps_drain done fuel w w' :
  drain env invoke done fuel w = Some w' -> qkeeps w w'.
Proof.
  unfold drain. destruct (isDraining w); cbn [negb]; simpl.
  - intros [= <-]. apply qkeeps_frame, frame_waitDrain.
  - match goal with |- context [drainAging invoke fuel ?x] =>
      destruct (drainAging invoke fuel x) as [w3|] eqn:H3; [|discriminate];
      assert (H2 : qkeeps w x)
    end.
    { destruct (_maintenanceIntervalID _); apply qkeeps_queues; cbn; auto. }
    simpl. destruct (drainAgeless invoke fuel w3) as [w4|] eqn:H4; [|discriminate].
    simpl. intros [= <-].
    eapply qkeeps_trans; [exact H2|].
    eapply qkeeps_trans; [eapply qkeeps_drainAging; exact H3|].
    eapply qkeeps_trans; [eapply qkeeps_drainAgeless; exact H4|].
    eapply qkeeps_trans; [apply qkeeps_frame, frame_drainFree|].
    apply qkeeps_frame, frame_waitDrain.
Qed.

Lemma qkeeps_exec fuel c w w' :
  exec env invoke fuel c w = Some w' -> qkeeps w w'.
Proof.
  destruct c; simpl.
  - apply qkeeps_acquire.
  - destruct (acquireSync env invoke options w) as [[v w1]|] eqn:H; [|discriminate].
    simpl. intros [= <-]. eapply qkeeps_acquireSync; eauto.
  - intros [= <-]. apply qkeeps_frame, frame_release.
  - intros [= <-]. apply qkeeps_frame, frame_destroy.
  - apply qkeeps_drain.
  - intros [= <-]. apply qkeeps_frame, frame_setMaintenanceInterval.
Qed.

Lemma qkeeps_run fuel s w w' :
  run env invoke fuel s w = Some w' -> qkeeps w w'.
Proof.
  revert w. induction s as [|c k IH]; intros w; simpl.
  - intros [= <-]. apply qkeeps_refl.
  - destruct (exec env invoke fuel c w) as [w1|] eqn:H1; [|discriminate].
    intros H. eapply qkeeps_trans; [eapply qkeeps_exec; exact H1|]. eapply IH; exact H.
Qed.

End QueueSize.

Section ReachableQueues.

Variable env : Env.
Variable handler : nat -> Outcome -> World -> Script.

Lemma callback_qok fuel : qhook_ok (callback env handler fuel).
Proof.
  induction fuel as [|n IH]; intros k o w w'; simpl; [discriminate|].
  apply qkeeps_run. exact IH.
Qed.

Lemma qkeeps_step fuel op w w' :
  step env handler fuel op w = Some w' -> qkeeps w w'.
Proof.
  destruct op; simpl.
  - apply qkeeps_exec, callback_qok.
  - destruct (_maintenanceIntervalID w); [|discriminate].
    apply qkeeps_maintain, callback_qok.
  - destruct (timers w !! i) as [t|]; [|discriminate]. intros H.
    apply (qkeeps_trans w (set_timers (delete i (timers w)) w));
      [apply qkeeps_queues; cbn; auto|].
    destruct t; simpl in H.
    + eapply qkeeps_scheduledMaintain; [apply callback_qok|exact H].
    + injection H as <-. apply qkeeps_queues; cbn; auto.
    + injection H as <-. apply qkeeps_frame, frame_waitDrain.
    + eapply callback_qok; exact H.
  - intros [= <-]. apply qkeeps_frame, frame_createCallback.
  - intros [= <-]. apply qkeeps_frame, frame_destroyCallback.
Qed.

Lemma reachable_qbounded w : reachable env handler w -> qbounded w.
Proof.
  induction 1 as [options fuel w H|fuel op w w' _ IH H].
  - unfold Pool_new in H.
    apply (qkeeps_maintain env _ (callback_qok fuel)) in H.
    apply H. match goal with |- qbounded (setMaintenanceInterval ?i ?w0) =>
      apply (proj2 (qkeeps_frame w0 _ (frame_setMaintenanceInterval i w0))) end.
    split; cbn -[Z.max]; [|constructor].
    destruct (o_maxRequests options); auto. unfold waiting. cbn. lia.
  - apply (qkeeps_step _ _ _ _ H), IH.
Qed.

End ReachableQueues.

(** X16.  In every state that a pool reaches, when [maxRequests] is a
    number the two queues together hold at most that many requests (none
    when the number is negative), however the client's callbacks call
    the pool again; and the ageless queue holds only requests whose
    deadline is not a number. *)
Theorem X16_queues_never_exceed_maxRequests :
  forall (env : Env) (handler : nat -> Outcome -> World -> Script) (w : World),
    reachable env handler w ->
    (forall m, maxRequests (cfg w) = JNum m ->
               Z.of_nat (length (agelessRequests w))
               + Z.of_nat (length (agingRequests w)) <= Z.max 0 m)
    /\ Forall (fun r => js_isNaN (acquireTimeoutAt r) = true) (agelessRequests w).
Proof.
  intros env handler w Hr.
  destruct (reachable_qbounded env handler w Hr) as [Hb Ha].
  split; [|exact Ha]. intros m Hm. rewrite Hm in Hb. exact Hb.
Qed.

(** The theorem at [capped_pool]: of two requests made with
    [maxRequests] at 1, one waits and the other was refused. *)
Lemma X16_queues_witness :
  length (agelessRequests capped_pool) = 1%nat
  /\ In (call_done (mkRequest 2 (Some 2%nat) 1002 JNaN)
           (Failure POOL_MAX_REQUESTS_LIMIT)) (log capped_pool)
  /\ ((forall m, maxRequests (cfg capped_pool) = JNum m ->
                 Z.of_nat (length (agelessRequests capped_pool))
                 + Z.of_nat (length (agingRequests capped_pool)) <= Z.max 0 m)
      /\ Forall (fun r => js_isNaN (acquireTimeoutAt r) = true)
           (agelessRequests capped_pool)).
Proof.
  split; [vm_compute; reflexivity|]. split.
  - vm_compute. repeat (first [left; reflexivity | right]).
  - apply (X16_queues_never_exceed_maxRequests async_env quiet_handler capped_pool).
    apply pool_after_reachable. vm_compute. discriminate.
Defined.

(** X17.  A call of a public method on a pool never adds to the number
    of resources that the pool counts, whatever the callbacks it runs do:
    resources are added by the maintenance only. *)
Theorem X17_calls_never_add_resources :
  forall (env : Env) (handler : nat -> Outcome -> World -> Script)
         (fuel : nat) (c : Call) (w w' : World),
    reachable env handler w ->
    step env handler fuel (op_call c) w = Some w' ->
    _countResources w' <= _countResources w.
Proof.
  intros env handler fuel c w w' Hr Hs. simpl in Hs.
  apply (keeps_exec env _ (callback_kok env handler fuel)) in Hs.
  destruct (reachable_orderly env handler w Hr) as (Ht & _).
  destruct (kp_tidy _ _ _ _ _ Hs Ht) as [_ Hc]. simpl in Hc. lia.
Qed.

(** The theorem at [served_pool], where the lent resource is destroyed. *)
Lemma X17_calls_never_add_resources_witness :
  _countResources served_pool = 1
  /\ _countResources (destroy sample_env 101%nat served_pool) = 0
  /\ _countResources (destroy sample_env 101%nat served_pool)
     <= _countResources served_pool.
Proof.
  split; [vm_compute; reflexivity|]. split; [vm_compute; reflexivity|].
  apply (X17_calls_never_add_resources sample_env quiet_handler 1
           (c_destroy 101%nat) served_pool).
  - apply served_pool_reachable.
  - reflexivity.
Defined.

(** ** Releasing and acquiring again *)

(** X18.  On a pool that is not draining, whose free list is empty and
    whose [validate] accepts every resource, [acquireSync] called right
    after [release] returns the handle of the record that [release] gave
    back: the record leaves the lent list, passes through the free list,
    and is lent again at the end of the lent list, with its idle time set
    by the release; the free list is empty again. *)
Theorem X18_release_then_acquireSync :
  forall (env : Env) (invoke : nat -> Outcome -> World -> option World)
         (options : option AcquireOptions) (v : Value) (i : nat) (r : Resource)
         (w : World),
    (forall t x, validateResource env t x = true) ->
    isDraining w = false ->
    freeResources w = [] ->
    _getResourceIndex env (lentResources w) v = Some i ->
    lentResources w !! i = Some r ->
    exists request w',
      acquireSync env invoke options (release env v w) = Some (Some (value r), w')
      /\ done request = None
      /\ freeResources w' = []
      /\ lentResources w'
         = delete i (lentResources w)
           ++ [mkResource (res_id r) (value r) (res_createdAt r) (expiresAt r)
                 (JNum (clock env (S (ticks w)))) (Some request)].
Proof.
  intros env invoke options v i r w Hv Hd Hf Hi Hr.
  unfold release. rewrite Hi, Hr. unfold _storeResource.
  cbn [isDraining emit set_log set_lentResources]. rewrite Hd. cbn [negb].
  rewrite Hv. unfold timeNow. cbv zeta.
  cbn [freeResources bump set_ticks emit set_log set_lentResources ticks].
  rewrite Hf. cbn [app].
  unfold acquireSync, _nextFreeResource.
  unfold _scheduleMaintainance.
  destruct (isMaintenanceScheduled _); cbn -[_serveRequest _createRequest];
    rewrite Hv; unfold _createRequest, timeNow; cbn -[_serveRequest];
    rewrite Hd; unfold _serveRequest; cbn;
    eexists _, _; (split; [reflexivity|]); cbn;
    (split; [|split; reflexivity]); reflexivity.
Qed.

(** The theorem at [served_pool], where the handle 101 is lent. *)
Lemma X18_release_then_acquireSync_witness :
  exists request w',
    acquireSync sample_env quiet_invoke None (release sample_env 101%nat served_pool)
    = Some (Some 101%nat, w')
    /\ done request = None
    /\ freeResources w' = []
    /\ lentResources w'
       = [mkResource 2 101%nat 1002 JNaN (JNum 1009) (Some request)].
Proof.
  destruct (X18_release_then_acquireSync sample_env quiet_invoke None 101%nat 0
              (mkResource 2 101%nat 1002 JNaN (JNum 1004)
                 (Some (mkRequest 3 (Some 7%nat) 1005 JNaN)))
              served_pool)
    as (request & w' & H1 & H2 & H3 & H4).
  - intros t x. reflexivity.
  - reflexivity.
  - reflexivity.
  - reflexivity.
  - reflexivity.
  - exists request, w'. repeat split; assumption.
Defined.

(** ** Draining *)

(** X19.  Draining is for ever: a turn of the event loop that starts in
    a draining pool, whatever the turn is and whatever the client's
    callbacks do, ends in a draining pool with empty queues and an empty
    free list. *)
Theorem X19_draining_is_permanent :
  forall (env : Env) (handler : nat -> Outcome -> World -> Script)
         (fuel : nat) (op : Op) (w w' : World),
    reachable env handler w ->
    isDraining w = true ->
    step env handler fuel op w = Some w' ->
    isDraining w' = true
    /\ agingRequests w' = [] /\ agelessRequests w' = []
    /\ freeResources w' = [].
Proof.
  intros env handler fuel op w w' Hr Hd Hs.
  destruct (step_ok env handler fuel op w w' Hs) as (_ & _ & K & _).
  destruct (K Hd) as (Hd' & _).
  pose proof (reachable_step env handler fuel op w w' Hr Hs) as Hr'.
  destruct (reachable_invariant env handler w' Hr') as (_ & _ & H3).
  split; [exact Hd'|]. destruct (H3 Hd') as (Ha & Hb & Hc). auto.
Qed.

(** The theorem at [drained_pool], on which [acquire] is called. *)
Lemma X19_draining_is_permanent_witness :
  exists w',
    step sample_env quiet_handler 2 (op_call (c_acquire None (Some 9%nat)))
      drained_pool = Some w'
    /\ isDraining w' = true
    /\ agingRequests w' = [] /\ agelessRequests w' = []
    /\ freeResources w' = [].
Proof.
  eexists. split; [vm_compute; reflexivity|].
  eapply (X19_draining_is_permanent sample_env quiet_handler 2
            (op_call (c_acquire None (Some 9%nat))) drained_pool).
  - apply drained_pool_reachable.
  - reflexivity.
  - vm_compute. reflexivity.
Defined.

(** ** Calls of the factory *)

Lemma createCalls_nextFree env free w :
  createCalls (snd (nextFree env free w)) = createCalls w.
Proof.
  revert w. induction free as [|r rest IH]; intros w; simpl; [reflexivity|].
  destruct (validateResource env (ticks w) r); simpl; [reflexivity|].
  rewrite IH. now rewrite createCalls_destroyResource.
Qed.

Lemma createCalls_release env v w : createCalls (release env v w) = createCalls w.
Proof.
  unfold release. case_ifs; try reflexivity.
  now rewrite createCalls_storeResource.
Qed.

Lemma createCalls_destroy env v w : createCalls (destroy env v w) = createCalls w.
Proof.
  unfold destroy. case_ifs; try reflexivity; now rewrite createCalls_destroyResource.
Qed.

Lemma createCalls_destroyAll env stack w :
  createCalls (destroyAll env stack w) = createCalls w.
Proof.
  revert w. induction stack as [|r rest IH]; intros w; simpl; [reflexivity|].
  rewrite IH. now rewrite createCalls_destroyResource.
Qed.

Lemma createCalls_waitDrain done w : createCalls (_waitDrain done w) = createCalls w.
Proof. unfold _waitDrain. case_ifs; reflexivity. Qed.

Lemma createCalls_setMaintenanceInterval interval w :
  createCalls (setMaintenanceInterval interval w) = createCalls w.
Proof. unfold setMaintenanceInterval. case_ifs; reflexivity. Qed.

Section FactoryCalls.

Variable env : Env.
Variable invoke : nat -> Outcome -> World -> option World.
Hypothesis invoke_cok :
  forall k o w w', invoke k o w = Some w' -> createCalls w' = createCalls w.

Lemma createCalls_serve request errCode resource w w' :
  _serveRequest invoke request errCode resource w = Some w' ->
  createCalls w' = createCalls w.
Proof.
  unfold _serveRequest. destruct errCode as [code|]; [|destruct resource as [r|]].
  - destruct (done request) as [k|].
    + intros H. now rewrite (invoke_cok _ _ _ _ H).
    + now intros [= <-].
  - destruct (done request) as [k|].
    + intros H. now rewrite (invoke_cok _ _ _ _ H).
    + now intros [= <-].
  - discriminate.
Qed.

Lemma createCalls_acquire options done w w' :
  acquire env invoke options done w = Some w' -> createCalls w' = createCalls w.
Proof.
  unfold acquire, _createRequest, timeNow, _enqueueRequest.
  set (request := mkRequest _ _ _ _).
  set (w1 := emit _ (alloc (bump w))).
  change (createCalls w) with (createCalls w1).
  destruct (isDraining w1).
  - apply createCalls_serve.
  - destruct (js_ge _ _).
    + apply createCalls_serve.
    + intros [= <-]. rewrite createCalls_scheduleMaintainance.
      unfold _insertRequestByAcquireTimeout. case_ifs; reflexivity.
Qed.

Lemma createCalls_acquireSync options w v w' :
  acquireSync env invoke options w = Some (v, w') -> createCalls w' = createCalls w.
Proof.
  unfold acquireSync.
  pose proof (createCalls_nextFree env (freeResources w) w) as Hn.
  fold (_nextFreeResource env w) in Hn.
  destruct (_nextFreeResource env w) as [[r|] w1]; simpl in Hn.
  - unfold _createRequest, timeNow. set (request := mkRequest _ _ _ _).
    cbv zeta. cbn [isDraining alloc set_fresh bump set_ticks].
    destruct (isDraining w1).
    + destruct_serve w3 Hs. simpl. intros [= _ <-].
      rewrite (createCalls_serve _ _ _ _ _ Hs). exact Hn.
    + destruct_serve w3 Hs. simpl. intros [= _ <-].
      rewrite (createCalls_serve _ _ _ _ _ Hs). exact Hn.
  - now intros [= _ <-].
Qed.

Lemma createCalls_drainAging fuel w w' :
  drainAging invoke fuel w = Some w' -> createCalls w' = createCalls w.
Proof.
  revert w. induction fuel as [|n IH]; intros w; simpl; [discriminate|].
  destruct (pop (agingRequests w)) as [[request rest]|].
  - destruct_serve w1 Hs. simpl. intros H.
    rewrite (IH _ H). now rewrite (createCalls_serve _ _ _ _ _ Hs).
  - now intros [= <-].
Qed.

Lemma createCalls_drainAgeless fuel w w' :
  drainAgeless invoke fuel w = Some w' -> createCalls w' = createCalls w.
Proof.
  revert w. induction fuel as [|n IH]; intros w; simpl; [discriminate|].
  destruct (pop (agelessRequests w)) as [[request rest]|].
  - destruct_serve w1 Hs. simpl. intros H.
    rewrite (IH _ H). now rewrite (createCalls_serve _ _ _ _ _ Hs).
  - now intros [= <-].
Qed.

Lemma createCalls_drain done fuel w w' :
  drain env invoke done fuel w = Some w' -> createCalls w' = createCalls w.
Proof.
  unfold drain. destruct (isDraining w); cbn [negb]; simpl.
  - intros [= <-]. apply createCalls_waitDrain.
  - match goal with |- context [drainAging invoke fuel ?x] =>
      destruct (drainAging invoke fuel x) as [w3|] eqn:H3; [|discriminate];
      assert (H2 : createCalls x = createCalls w)
    end.
    { destruct (_maintenanceIntervalID _); reflexivity. }
    simpl. destruct (drainAgeless invoke fuel w3) as [w4|] eqn:H4; [|discriminate].
    simpl. intros [= <-].
    rewrite createCalls_waitDrain. unfold drainFree. rewrite createCalls_destroyAll.
    rewrite (createCalls_drainAgeless _ _ _ H4), (createCalls_drainAging _ _ _ H3).
    exact H2.
Qed.

Lemma createCalls_exec fuel c w w' :
  exec env invoke fuel c w = Some w' -> createCalls w' = createCalls w.
Proof.
  destruct c; simpl.
  - apply createCalls_acquire.
  - destruct (acquireSync env invoke options w) as [[v w1]|] eqn:H; [|discriminate].
    simpl. intros [= <-]. eapply createCalls_acquireSync; eauto.
  - intros [= <-]. apply createCalls_release.
  - intros [= <-]. apply createCalls_destroy.
  - apply createCalls_drain.
  - intros [= <-]. apply createCalls_setMaintenanceInterval.
Qed.

Lemma createCalls_run fuel s w w' :
  run env invoke fuel s w = Some w' -> createCalls w' = createCalls w.
Proof.
  revert w. induction s as [|c k IH]; intros w; simpl.
  - now intros [= <-].
  - destruct (exec env invoke fuel c w) as [w1|] eqn:H1; [|discriminate].
    intros H. rewrite (IH _ _ H). eapply createCalls_exec; exact H1.
Qed.

End FactoryCalls.

Lemma createCalls_callback env handler fuel k o w w' :
  callback env handler fuel k o w = Some w' -> createCalls w' = createCalls w.
Proof.
  revert k o w w'. induction fuel as [|n IH]; intros k o w w'; simpl;
    [discriminate|].
  apply createCalls_run. exact IH.
Qed.

(** X20.  No public method calls the factory's [create], and neither do
    the callbacks that a public method runs, however they call the pool
    again; nor do the callbacks of the factory and the timers of
    [_waitDrain] and of the back-off.  The factory's [create] is called
    by the maintenance only (and by the constructor, which runs a
    maintenance). *)
Theorem X20_only_maintenance_calls_create :
  forall (env : Env) (handler : nat -> Outcome -> World -> Script)
         (fuel : nat) (w : World),
    (forall c w',
        step env handler fuel (op_call c) w = Some w' ->
        createCalls w' = createCalls w)
    /\ (forall cid result,
          createCalls (createCallback env cid result w) = createCalls w)
    /\ (forall did, createCalls (destroyCallback did w) = createCalls w)
    /\ (forall i t w',
          timers w !! i = Some t -> t <> T_scheduledMaintain ->
          step env handler fuel (op_timer i) w = Some w' ->
          createCalls w' = createCalls w).
Proof.
  intros env handler fuel w. split; [|split; [|split]].
  - intros c w' H. simpl in H.
    eapply createCalls_exec; [|exact H].
    intros k o w1 w2. apply createCalls_callback.
  - intros cid result. apply createCalls_createCallback.
  - intros did. unfold destroyCallback. case_ifs; reflexivity.
  - intros i t w' Hi Ht. simpl. rewrite Hi. destruct t; simpl.
    + contradiction.
    + now intros [= <-].
    + intros [= <-]. now rewrite createCalls_waitDrain.
    + intros H. now rewrite (createCalls_callback _ _ _ _ _ _ _ H).
Qed.

(** ** What a maintenance pass leaves behind *)

Lemma serveRequest_quiet_eq request errCode resource w w' :
  _serveRequest quiet_invoke request errCode resource w = Some w' ->
  agingRequests w' = agingRequests w
  /\ agelessRequests w' = agelessRequests w
  /\ freeResources w' = freeResources w.
Proof.
  unfold _serveRequest, quiet_invoke.
  destruct errCode; [|destruct resource; [|discriminate]];
    destruct (done request); intros [= <-]; repeat split.
Qed.

Lemma not_due_after now a b :
  js_isNaN (acquireTimeoutAt a) = false ->
  before a b ->
  js_gt (JNum now) (acquireTimeoutAt a) = false ->
  js_gt (JNum now) (acquireTimeoutAt b) = false.
Proof.
  intros Ha Hab. apply before_deadline_le in Hab.
  rewrite (deadline_num a Ha). unfold js_gt, js_lt, deadline in *.
  destruct (acquireTimeoutAt b) as [| |db]; try reflexivity.
  destruct (acquireTimeoutAt a) as [| |da]; try discriminate.
  intros H. apply Z.ltb_ge in H. apply Z.ltb_ge. lia.
Qed.

Lemma serveAging_quiet_spec env fuel now w w' :
  Forall (fun r => js_isNaN (acquireTimeoutAt r) = false) (agingRequests w) ->
  StronglySorted before (agingRequests w) ->
  serveAging env quiet_invoke fuel now w = Some w' ->
  Forall (fun r => js_gt (JNum now) (acquireTimeoutAt r) = false) (agingRequests w')
  /\ (agingRequests w' = [] \/ freeResources w' = [])
  /\ agelessRequests w' = agelessRequests w.
Proof.
  revert w. induction fuel as [|n IH]; intros w Hnum Hs; simpl; [discriminate|].
  destruct (agingRequests w) as [|request rest] eqn:Hq.
  - intros [= <-]. rewrite Hq. auto.
  - apply Forall_cons in Hnum as [Hn Hnum]. apply StronglySorted_inv in Hs as [Hs Hall].
    destruct (js_gt (JNum now) (acquireTimeoutAt request)) eqn:Hdue.
    + destruct_serve w2 H2. simpl. intros H.
      destruct (serveRequest_quiet_eq _ _ _ _ _ H2) as (Ha & Hb & _).
      cbn in Ha, Hb.
      destruct (IH w2) as (F1 & F2 & F3); [now rewrite Ha|now rewrite Ha|exact H|].
      split; [exact F1|]. split; [exact F2|]. now rewrite F3.
    + pose proof (frame_nextFreeResource env w) as Hf.
      pose proof (nextFree_spec env (freeResources w) w) as Hspec.
      fold (_nextFreeResource env w) in Hspec.
      destruct (_nextFreeResource env w) as [[r|] w1]; simpl in Hf.
      * rewrite (fr_aging _ _ Hf), Hq. simpl tail.
        destruct_serve w3 H3. simpl. intros H.
        destruct (serveRequest_quiet_eq _ _ _ _ _ H3) as (Ha & Hb & _).
        cbn in Ha, Hb.
        destruct (IH w3) as (F1 & F2 & F3); [now rewrite Ha|now rewrite Ha|exact H|].
        split; [exact F1|]. split; [exact F2|].
        now rewrite F3, Hb, (fr_ageless _ _ Hf).
      * intros [= <-]. rewrite (fr_aging _ _ Hf), Hq, (fr_ageless _ _ Hf).
        split; [|split; [right; apply Hspec|reflexivity]].
        constructor; [exact Hdue|].
        rewrite Forall_forall in Hall |- *. intros x Hx.
        apply (not_due_after now request x Hn (Hall x Hx) Hdue).
Qed.

Lemma serveAgeless_quiet_spec env fuel w w' :
  _serveAgelessRequests env quiet_invoke fuel w = Some w' ->
  (agelessRequests w' = [] \/ freeResources w' = [])
  /\ agingRequests w' = agingRequests w
  /\ (freeResources w = [] -> freeResources w' = []).
Proof.
  revert w. induction fuel as [|n IH]; intros w; simpl; [discriminate|].
  destruct (agelessRequests w) as [|request0 rest0] eqn:Hq.
  - intros [= <-]. rewrite Hq. auto.
  - pose proof (frame_nextFreeResource env w) as Hf.
    pose proof (nextFree_spec env (freeResources w) w) as Hspec.
    fold (_nextFreeResource env w) in Hspec.
    destruct (_nextFreeResource env w) as [[r|] w1]; simpl in Hf.
    + destruct (agelessRequests w1) as [|request rest] eqn:Hq1; [discriminate|].
      destruct_serve w3 H3. simpl. intros H.
      destruct (serveRequest_quiet_eq _ _ _ _ _ H3) as (Ha & Hb & Hc).
      cbn in Ha, Hb, Hc.
      destruct (IH w3 H) as (F1 & F2 & F3).
      split; [exact F1|]. split; [now rewrite F2, Ha, (fr_aging _ _ Hf)|].
      intros Hfree. destruct Hspec as (bad & rest' & Hsplit & _).
      rewrite Hfree in Hsplit. now destruct bad.
    + intros [= <-]. split; [right; apply Hspec|].
      split; [apply (fr_aging _ _ Hf)|]. intros _. apply Hspec.
Qed.

(** X21.  When the client's callbacks do not call the pool, the two
    serving loops of a maintenance pass, run on a sorted aging queue,
    leave no request waiting whose deadline was past when the pass read
    the clock, and leave requests waiting only if no free resource is
    left: at the end either the free list is empty or both queues are. *)
Theorem X21_maintenance_serves_all_it_can :
  forall (env : Env) (fuel : nat) (now : Z) (w w4 w5 : World),
    aging_sorted w ->
    serveAging env quiet_invoke fuel now w = Some w4 ->
    _serveAgelessRequests env quiet_invoke fuel w4 = Some w5 ->
    Forall (fun r => js_gt (JNum now) (acquireTimeoutAt r) = false)
      (agingRequests w5)
    /\ (freeResources w5 = []
        \/ (agingRequests w5 = [] /\ agelessRequests w5 = [])).
Proof.
  intros env fuel now w w4 w5 [Hnum Hs] H4 H5.
  destruct (serveAging_quiet_spec env fuel now w w4) as (F1 & F2 & _);
    [eapply Forall_impl; [exact Hnum|]; intros r Hr; apply Hr|exact Hs|exact H4|].
  destruct (serveAgeless_quiet_spec env fuel w4 w5 H5) as (G1 & G2 & G3).
  rewrite G2. split; [exact F1|].
  destruct F2 as [F2|F2]; [|left; auto].
  destruct G1 as [G1|G1]; [right; auto|left; exact G1].
Qed.

(** The theorem at [crowded_pool]: the request due at 1004 is timed out,
    the request due at 1506 gets the free resource, and the request due
    at 1608 and the one without deadline wait, with no resource free. *)
Lemma X21_maintenance_witness :
  map req_id (agingRequests crowded_pool) = [3%nat; 4%nat; 6%nat]
  /\ map req_id (agingRequests tended_pool) = [6%nat]
  /\ map req_id (agelessRequests tended_pool) = [5%nat]
  /\ (Forall (fun r => js_gt (JNum 1020) (acquireTimeoutAt r) = false)
        (agingRequests tended_pool)
      /\ (freeResources tended_pool = []
          \/ (agingRequests tended_pool = [] /\ agelessRequests tended_pool = []))).
Proof.
  split; [vm_compute; reflexivity|]. split; [vm_compute; reflexivity|].
  split; [vm_compute; reflexivity|].
  apply (X21_maintenance_serves_all_it_can sample_env 8 1020 crowded_pool
           tended_aging_pool tended_pool).
  - apply (reachable_invariant sample_env quiet_handler).
    apply pool_after_reachable. vm_compute. discriminate.
  - vm_compute. reflexivity.
  - vm_compute. reflexivity.
Defined.

(** ** Destroyed records *)

(** X22.  In every state that a pool reaches, no record has been reported
    with two [destroy] events, and a record that has been reported
    destroyed is in neither list of the pool: a resource is handed to
    the factory's [destroy] once at most, and is never lent or stored
    afterwards. *)
Theorem X22_no_record_is_destroyed_twice :
  forall (env : Env) (handler : nat -> Outcome -> World -> Script) (w : World),
    reachable env handler w ->
    NoDup (map res_id (destroy_events (log w)))
    /\ (forall r r',
          In r (destroy_events (log w)) ->
          In r' (freeResources w ++ lentResources w) ->
          res_id r <> res_id r').
Proof.
  intros env handler w Hr.
  destruct (reachable_orderly env handler w Hr) as ([] & _).
  unfold ids, pool_resources in td_ids0. cbn [app] in td_ids0.
  rewrite map_app in td_ids0. apply NoDup_app in td_ids0 as (_ & Hdis & Hd).
  split; [exact Hd|]. intros r r' Hin Hin' Heq.
  apply (Hdis (res_id r')).
  - apply list_elem_of_In, in_map, Hin'.
  - rewrite <- Heq. apply list_elem_of_In, in_map, Hin.
Qed.

(** The theorem at [destroyed_pool], where the one resource of the pool
    has been destroyed. *)
Lemma X22_no_record_is_destroyed_twice_witness :
  map res_id (destroy_events (log destroyed_pool)) = [2%nat]
  /\ (NoDup (map res_id (destroy_events (log destroyed_pool)))
      /\ (forall r r',
            In r (destroy_events (log destroyed_pool)) ->
            In r' (freeResources destroyed_pool ++ lentResources destroyed_pool) ->
            res_id r <> res_id r')).
Proof.
  split; [vm_compute; reflexivity|].
  apply (X22_no_record_is_destroyed_twice sample_env quiet_handler destroyed_pool).
  apply pool_after_reachable. vm_compute. discriminate.
Defined.

(** ** Timeouts *)

Lemma tkeeps_refl env w : tkeeps env w w.
Proof. split; auto. Qed.

Lemma tkeeps_trans env w1 w2 w3 :
  tkeeps env w1 w2 -> tkeeps env w2 w3 -> tkeeps env w1 w3.
Proof. intros [a1 b1] [a2 b2]. split; [lia|auto]. Qed.

(** Code that calls no completion. *)
Lemma tkeeps_quiet env w w' :
  (ticks w <= ticks w')%nat -> log_ext (log w) (log w') -> tkeeps env w w'.
Proof.
  intros Ht (new & Hl & Hnew). split; [exact Ht|]. intros H r Hin.
  rewrite Hl in Hin. apply in_app_or in Hin as [Hin|Hin].
  - rewrite Forall_forall in Hnew. apply list_elem_of_In, Hnew in Hin. discriminate.
  - destruct (H r Hin) as (t & Hlt & Hgt). exists t. split; [lia|exact Hgt].
Qed.

Lemma ticks_destroyResource env r w :
  (ticks w <= ticks (_destroyResource env r w))%nat.
Proof.
  unfold _destroyResource, destroyCallback. cbn -[filter]. case_ifs; cbn; lia.
Qed.

Lemma ticks_scheduleMaintainance w :
  ticks (_scheduleMaintainance w) = ticks w.
Proof. unfold _scheduleMaintainance. case_ifs; reflexivity. Qed.

Lemma ticks_storeResource env r w :
  (ticks w <= ticks (_storeResource env r w))%nat.
Proof.
  unfold _storeResource. case_ifs.
  - unfold timeNow. cbv zeta. rewrite ticks_scheduleMaintainance. cbn. lia.
  - etransitivity; [|apply ticks_destroyResource]. cbn. lia.
  - apply ticks_destroyResource.
Qed.

Lemma ticks_nextFree env free w :
  (ticks w <= ticks (snd (nextFree env free w)))%nat.
Proof.
  revert w. induction free as [|r rest IH]; intros w; simpl; [cbn; lia|].
  destruct (validateResource env (ticks w) r); simpl; [lia|].
  etransitivity; [|apply IH]. etransitivity; [|apply ticks_destroyResource].
  cbn. lia.
Qed.

Lemma ticks_createCallback env cid result w :
  (ticks w <= ticks (createCallback env cid result w))%nat.
Proof.
  unfold createCallback. destruct (decide (cid ∈ creating w)); [|lia].
  destruct result; cbv zeta.
  - case_ifs; cbn -[filter]; lia.
  - unfold timeNow. cbv zeta.
    etransitivity; [|apply ticks_storeResource]. cbn -[filter]. lia.
Qed.

Lemma ticks_createLoop env n w : (ticks w <= ticks (createLoop env n w))%nat.
Proof.
  revert w. induction n as [|n IH]; intros w; simpl; [lia|].
  etransitivity; [|apply IH]. unfold _createResource. cbv zeta.
  destruct (createResource env _).
  - etransitivity; [|apply ticks_createCallback]. cbn. lia.
  - cbn. lia.
Qed.

Lemma ticks_destroyList env l w :
  (ticks w <= ticks (fold_left (fun w r => _destroyResource env r w) l w))%nat.
Proof.
  revert w. induction l as [|r l IH]; intros w; simpl; [lia|].
  etransitivity; [|apply IH]. apply ticks_destroyResource.
Qed.

Lemma ticks_destroyDeadResources env key tmo w :
  (ticks w <= ticks (_destroyDeadResources env key tmo w))%nat.
Proof.
  unfold _destroyDeadResources, timeNow.
  destruct (sweep _ _ _ _ _ _) as [free dead].
  etransitivity; [|apply ticks_destroyList]. cbn. lia.
Qed.

Lemma ticks_destroyIdleResources env w :
  (ticks w <= ticks (_destroyIdleResources env w))%nat.
Proof.
  unfold _destroyIdleResources, timeNow. case_ifs; try (cbn; lia).
  pose proof (ticks_destroyDeadResources env idleAt (idleTimeout (cfg (bump w)))
                (bump w)) as H.
  cbn [ticks set_lastIdleCheckAt bump set_ticks] in *. lia.
Qed.

Lemma ticks_destroyExpiredResources env w :
  (ticks w <= ticks (_destroyExpiredResources env w))%nat.
Proof.
  unfold _destroyExpiredResources, timeNow. case_ifs; try (cbn; lia).
  pose proof (ticks_destroyDeadResources env expiresAt (JNum 0) (bump w)) as H.
  cbn [ticks set_lastExpireCheckAt bump set_ticks] in *. lia.
Qed.

Lemma ticks_release env v w : (ticks w <= ticks (release env v w))%nat.
Proof.
  unfold release. case_ifs; try lia.
  etransitivity; [|apply ticks_storeResource]. cbn. lia.
Qed.

Lemma ticks_destroy env v w : (ticks w <= ticks (destroy env v w))%nat.
Proof.
  unfold destroy. case_ifs; try lia;
    (etransitivity; [|apply ticks_destroyResource]); cbn; lia.
Qed.

Lemma ticks_destroyAll env stack w :
  (ticks w <= ticks (destroyAll env stack w))%nat.
Proof.
  revert w. induction stack as [|r rest IH]; intros w; simpl; [lia|].
  etransitivity; [|apply IH]. etransitivity; [|apply ticks_destroyResource].
  cbn. lia.
Qed.

Lemma ticks_waitDrain done w : ticks (_waitDrain done w) = ticks w.
Proof. unfold _waitDrain. case_ifs; reflexivity. Qed.

Lemma ticks_setMaintenanceInterval interval w :
  ticks (setMaintenanceInterval interval w) = ticks w.
Proof. unfold setMaintenanceInterval. case_ifs; reflexivity. Qed.

Lemma tkeeps_frame env w w' :
  frame w w' -> (ticks w <= ticks w')%nat -> tkeeps env w w'.
Proof. intros H Ht. apply tkeeps_quiet; [exact Ht|apply H]. Qed.

Section Timeouts.

Variable env : Env.
Variable invoke : nat -> Outcome -> World -> option World.
Hypothesis invoke_tok : thook_ok env invoke.

Lemma tkeeps_call_done request o w :
  (o = Failure POOL_ACQUIRE_TIMEOUT_ERROR ->
   exists t, (t < ticks w)%nat
             /\ js_gt (JNum (clock env t)) (acquireTimeoutAt request) = true) ->
  tkeeps env w (emit (call_done request o) w).
Proof.
  intros Hev. split; [cbn; lia|]. intros H r [Hin|Hin].
  - injection Hin as -> ->. apply Hev. reflexivity.
  - apply (H r Hin).
Qed.

Lemma tkeeps_serve request errCode resource w w' :
  (errCode = Some POOL_ACQUIRE_TIMEOUT_ERROR ->
   exists t, (t < ticks w)%nat
             /\ js_gt (JNum (clock env t)) (acquireTimeoutAt request) = true) ->
  _serveRequest invoke request errCode resource w = Some w' ->
  tkeeps env w w'.
Proof.
  intros Hev. unfold _serveRequest.
  destruct errCode as [code|]; [|destruct resource as [r|]].
  - set (w1 := emit (emit_serveError code request) w).
    assert (H1 : tkeeps env w w1).
    { apply tkeeps_quiet; [cbn; lia|].
      exists [emit_serveError code request]. split; [reflexivity|].
      constructor; [reflexivity|constructor]. }
    destruct (done request) as [k|].
    + intros H. apply invoke_tok in H.
      eapply tkeeps_trans; [exact H1|]. eapply tkeeps_trans; [|exact H].
      apply tkeeps_call_done. intros [= ->]. apply Hev. reflexivity.
    + intros [= <-]. exact H1.
  - set (w2 := emit _ (set_lentResources _ w)).
    assert (H2 : tkeeps env w w2).
    { apply tkeeps_quiet; [cbn; lia|].
      exists [emit_serveSuccess request (value r)]. split; [reflexivity|].
      constructor; [reflexivity|constructor]. }
    destruct (done request) as [k|].
    + intros H. apply invoke_tok in H.
      eapply tkeeps_trans; [exact H2|]. eapply tkeeps_trans; [|exact H].
      apply tkeeps_call_done. discriminate.
    + intros [= <-]. exact H2.
  - discriminate.
Qed.

Lemma tkeeps_serveAging fuel now w w' :
  (exists t, (t < ticks w)%nat /\ now = clock env t) ->
  serveAging env invoke fuel now w = Some w' -> tkeeps env w w'.
Proof.
  revert w. induction fuel as [|n IH]; intros w Hnow; simpl; [discriminate|].
  destruct (agingRequests w) as [|request rest] eqn:Hq.
  - intros [= <-]. apply tkeeps_refl.
  - destruct (js_gt (JNum now) (acquireTimeoutAt request)) eqn:Hdue.
    + destruct_serve w2 Hs. simpl. intros H.
      assert (K : tkeeps env w w2).
      { apply (tkeeps_trans env w (set_agingRequests rest w));
          [split; auto|].
        eapply tkeeps_serve; [|exact Hs]. intros _.
        destruct Hnow as (t & Hlt & ->). exists t. split; [exact Hlt|exact Hdue]. }
      eapply tkeeps_trans; [exact K|]. apply IH; [|exact H].
      destruct Hnow as (t & Hlt & ->). exists t. split; [|reflexivity].
      destruct K as [K _]. lia.
    + pose proof (frame_nextFreeResource env w) as Hf.
      pose proof (ticks_nextFree env (freeResources w) w) as Ht.
      fold (_nextFreeResource env w) in Ht.
      destruct (_nextFreeResource env w) as [[r|] w1]; simpl in Hf, Ht.
      * destruct_serve w3 Hs. simpl. intros H.
        assert (K : tkeeps env w w3).
        { eapply tkeeps_trans; [apply tkeeps_frame; [exact Hf|exact Ht]|].
          match type of Hs with _serveRequest _ _ _ _ ?x = _ =>
            apply (tkeeps_trans env w1 x); [split; auto|] end.
          eapply tkeeps_serve; [|exact Hs]. discriminate. }
        eapply tkeeps_trans; [exact K|]. apply IH; [|exact H].
        destruct Hnow as (t & Hlt & ->). exists t. split; [|reflexivity].
        destruct K as [K _]. lia.
      * intros [= <-]. apply tkeeps_frame; [exact Hf|exact Ht].
Qed.

Lemma tkeeps_serveAgeless fuel w w' :
  _serveAgelessRequests env invoke fuel w = Some w' -> tkeeps env w w'.
Proof.
  revert w. induction fuel as [|n IH]; intros w; simpl; [discriminate|].
  destruct (agelessRequests w) as [|request0 rest0] eqn:Hq.
  - intros [= <-]. apply tkeeps_refl.
  - pose proof (frame_nextFreeResource env w) as Hf.
    pose proof (ticks_nextFree env (freeResources w) w) as Ht.
    fold (_nextFreeResource env w) in Ht.
    destruct (_nextFreeResource env w) as [[r|] w1]; simpl in Hf, Ht.
    + destruct (agelessRequests w1) as [|request rest]; [discriminate|].
      destruct_serve w3 Hs. simpl. intros H.
      eapply tkeeps_trans; [apply tkeeps_frame; [exact Hf|exact Ht]|].
      apply (tkeeps_trans env w1 (set_agelessRequests rest w1)); [split; auto|].
      eapply tkeeps_trans; [eapply tkeeps_serve; [|exact Hs]; discriminate|].
      now apply IH.
    + intros [= <-]. apply tkeeps_frame; [exact Hf|exact Ht].
Qed.

Lemma tkeeps_acquire options done w w' :
  acquire env invoke options done w = Some w' -> tkeeps env w w'.
Proof.
  unfold acquire, _createRequest, timeNow, _enqueueRequest.
  set (request := mkRequest _ _ _ _).
  set (w1 := emit _ (alloc (bump w))).
  assert (H1 : tkeeps env w w1).
  { split; [cbn; lia|]. intros H r [Hin|Hin]; [discriminate|].
    destruct (H r Hin) as (t & Hlt & Hgt). exists t. split; [cbn; lia|exact Hgt]. }
  destruct (isDraining w1).
  - intros H. eapply tkeeps_trans; [exact H1|].
    eapply tkeeps_serve; [|exact H]. discriminate.
  - destruct (js_ge _ _).
    + intros H. eapply tkeeps_trans; [exact H1|].
      eapply tkeeps_serve; [|exact H]. discriminate.
    + intros [= <-]. eapply tkeeps_trans; [exact H1|].
      apply (tkeeps_trans env _ (_insertRequestByAcquireTimeout request w1)).
      * unfold _insertRequestByAcquireTimeout. destruct (js_isNaN _); split; auto.
      * apply tkeeps_frame; [apply frame_scheduleMaintainance|].
        now rewrite ticks_scheduleMaintainance.
Qed.

Lemma tkeeps_acquireSync options w v w' :
  acquireSync env invoke options w = Some (v, w') -> tkeeps env w w'.
Proof.
  unfold acquireSync.
  pose proof (frame_nextFreeResource env w) as Hf.
  pose proof (ticks_nextFree env (freeResources w) w) as Ht.
  fold (_nextFreeResource env w) in Ht.
  destruct (_nextFreeResource env w) as [[r|] w1]; simpl in Hf, Ht.
  - unfold _createRequest, timeNow. set (request := mkRequest _ _ _ _).
    cbv zeta. cbn [isDraining alloc set_fresh bump set_ticks].
    assert (H2 : tkeeps env w (alloc (bump w1))).
    { eapply tkeeps_trans; [apply tkeeps_frame; [exact Hf|exact Ht]|].
      split; [cbn; lia|]. intros H x Hin.
      destruct (H x Hin) as (t & Hlt & Hgt). exists t. split; [cbn; lia|exact Hgt]. }
    destruct (isDraining w1).
    + destruct_serve w3 Hs. simpl. intros [= _ <-].
      eapply tkeeps_trans; [exact H2|eapply tkeeps_serve; [|exact Hs]; discriminate].
    + destruct_serve w3 Hs. simpl. intros [= _ <-].
      eapply tkeeps_trans; [exact H2|eapply tkeeps_serve; [|exact Hs]; discriminate].
  - intros [= _ <-]. apply tkeeps_frame; [exact Hf|exact Ht].
Qed.

Lemma tkeeps_maintain fuel w w' :
  _maintain env invoke fuel w = Some w' -> tkeeps env w w'.
Proof.
  unfold _maintain, _serveAgingRequests, timeNow.
  destruct (isDraining w || isMaintaining w).
  - intros [= <-]. apply tkeeps_refl.
  - set (w1 := set_isMaintaining true w).
    set (w2 := _destroyExpiredResources env w1).
    set (w3 := _destroyIdleResources env w2).
    assert (H3 : tkeeps env w w3).
    { apply (tkeeps_trans env w w1); [split; auto|].
      apply (tkeeps_trans env w1 w2);
        [apply tkeeps_frame;
         [apply frame_destroyExpiredResources|apply ticks_destroyExpiredResources]|].
      apply tkeeps_frame;
        [apply frame_destroyIdleResources|apply ticks_destroyIdleResources]. }
    destruct (serveAging env invoke fuel (clock env (ticks w3)) (bump w3))
      as [w4|] eqn:H4; [|discriminate].
    simpl. destruct (_serveAgelessRequests _ _ _ _) as [w5|] eqn:H5; [|discriminate].
    simpl. intros [= <-].
    eapply tkeeps_trans; [exact H3|].
    apply (tkeeps_trans env w3 (bump w3)).
    { split; [cbn; lia|]. intros H x Hin.
      destruct (H x Hin) as (t & Hlt & Hgt). exists t. split; [cbn; lia|exact Hgt]. }
    eapply tkeeps_trans.
    { eapply tkeeps_serveAging; [|exact H4]. exists (ticks w3). split; [cbn; lia|reflexivity]. }
    eapply tkeeps_trans; [eapply tkeeps_serveAgeless; exact H5|].
    apply (tkeeps_trans env w5 (_createResources env w5)).
    + apply tkeeps_frame; [apply frame_createResources|apply ticks_createLoop].
    + split; auto.
Qed.

Lemma tkeeps_scheduledMaintain fuel w w' :
  _scheduledMaintain env invoke fuel w = Some w' -> tkeeps env w w'.
Proof.
  unfold _scheduledMaintain.
  destruct (_maintain _ _ _ _) as [w1|] eqn:H1; [|discriminate].
  simpl. intros [= <-].
  eapply tkeeps_trans; [eapply tkeeps_maintain; exact H1|]. split; auto.
Qed.

Lemma tkeeps_drainAging fuel w w' :
  drainAging invoke fuel w = Some w' -> tkeeps env w w'.
Proof.
  revert w. induction fuel as [|n IH]; intros w; simpl; [discriminate|].
  destruct (pop (agingRequests w)) as [[request rest]|].
  - destruct_serve w1 Hs. simpl. intros H.
    eapply tkeeps_trans; [|apply IH, H].
    apply (tkeeps_trans env w (set_agingRequests rest w)); [split; auto|].
    eapply tkeeps_serve; [|exact Hs]. discriminate.
  - intros [= <-]. apply tkeeps_refl.
Qed.

Lemma tkeeps_drainAgeless fuel w w' :
  drainAgeless invoke fuel w = Some w' -> tkeeps env w w'.
Proof.
  revert w. induction fuel as [|n IH]; intros w; simpl; [discriminate|].
  destruct (pop (agelessRequests w)) as [[request rest]|].
  - destruct_serve w1 Hs. simpl. intros H.
    eapply tkeeps_trans; [|apply IH, H].
    apply (tkeeps_trans env w (set_agelessRequests rest w)); [split; auto|].
    eapply tkeeps_serve; [|exact Hs]. discriminate.
  - intros [= <-]. apply tkeeps_refl.
Qed.

Lemma tkeeps_drain done fuel w w' :
  drain env invoke done fuel w = Some w' -> tkeeps env w w'.
Proof.
  unfold drain. destruct (isDraining w); cbn [negb]; simpl.
  - intros [= <-]. apply tkeeps_frame; [apply frame_waitDrain|].
    now rewrite ticks_waitDrain.
  - match goal with |- context [drainAging invoke fuel ?x] =>
      destruct (drainAging invoke fuel x) as [w3|] eqn:H3; [|discriminate];
      assert (H2 : tkeeps env w x)
    end.
    { destruct (_maintenanceIntervalID _); [|split; auto].
      split; [cbn; lia|]. intros H x [Hin|Hin]; [discriminate|].
      apply (H x Hin). }
    simpl. destruct (drainAgeless invoke fuel w3) as [w4|] eqn:H4; [|discriminate].
    simpl. intros [= <-].
    eapply tkeeps_trans; [exact H2|].
    eapply tkeeps_trans; [eapply tkeeps_drainAging; exact H3|].
    eapply tkeeps_trans; [eapply tkeeps_drainAgeless; exact H4|].
    apply (tkeeps_trans env w4 (drainFree env w4)).
    + apply tkeeps_frame; [apply frame_drainFree|apply ticks_destroyAll].
    + apply tkeeps_frame; [apply frame_waitDrain|]. now rewrite ticks_waitDrain.
Qed.

Lemma tkeeps_exec fuel c w w' :
  exec env invoke fuel c w = Some w' -> tkeeps env w w'.
Proof.
  destruct c; simpl.
  - apply tkeeps_acquire.
  - destruct (acquireSync env invoke options w) as [[v w1]|] eqn:H; [|discriminate].
    simpl. intros [= <-]. eapply tkeeps_acquireSync; eauto.
  - intros [= <-]. apply tkeeps_frame; [apply frame_release|apply ticks_release].
  - intros [= <-]. apply tkeeps_frame; [apply frame_destroy|apply ticks_destroy].
  - apply tkeeps_drain.
  - intros [= <-]. apply tkeeps_frame; [apply frame_setMaintenanceInterval|].
    now rewrite ticks_setMaintenanceInterval.
Qed.

Lemma tkeeps_run fuel s w w' :
  run env invoke fuel s w = Some w' -> tkeeps env w w'.
Proof.
  revert w. induction s as [|c k IH]; intros w; simpl.
  - intros [= <-]. apply tkeeps_refl.
  - destruct (exec env invoke fuel c w) as [w1|] eqn:H1; [|discriminate].
    intros H. eapply tkeeps_trans; [eapply tkeeps_exec; exact H1|]. eapply IH; exact H.
Qed.

End Timeouts.

Section ReachableTimeouts.

Variable env : Env.
Variable handler : nat -> Outcome -> World -> Script.

Lemma callback_tok fuel : thook_ok env (callback env handler fuel).
Proof.
  induction fuel as [|n IH]; intros k o w w'; simpl; [discriminate|].
  apply tkeeps_run. exact IH.
Qed.

Lemma tkeeps_step fuel op w w' :
  step env handler fuel op w = Some w' -> tkeeps env w w'.
Proof.
  destruct op; simpl.
  - apply tkeeps_exec, callback_tok.
  - destruct (_maintenanceIntervalID w); [|discriminate].
    apply tkeeps_maintain, callback_tok.
  - destruct (timers w !! i) as [t|]; [|discriminate]. intros H.
    apply (tkeeps_trans env w (set_timers (delete i (timers w)) w)); [split; auto|].
    destruct t; simpl in H.
    + eapply tkeeps_scheduledMaintain; [apply callback_tok|exact H].
    + injection H as <-. split; auto.
    + injection H as <-. apply tkeeps_frame; [apply frame_waitDrain|].
      now rewrite ticks_waitDrain.
    + eapply callback_tok; exact H.
  - intros [= <-]. apply tkeeps_frame;
      [apply frame_createCallback|apply ticks_createCallback].
  - intros [= <-]. apply tkeeps_frame; [apply frame_destroyCallback|].
    unfold destroyCallback. case_ifs; cbn; lia.
Qed.

Lemma reachable_timely w : reachable env handler w -> timely env w.
Proof.
  induction 1 as [options fuel w H|fuel op w w' _ IH H].
  - unfold Pool_new in H.
    apply (tkeeps_maintain env _ (callback_tok fuel)) in H.
    apply H. unfold setMaintenanceInterval. cbn. intros r [Hin|[]]. discriminate.
  - apply (tkeeps_step _ _ _ _ H), IH.
Qed.

End ReachableTimeouts.

(** X23.  No request is timed out early: in every state that a pool
    reaches, whenever a completion callback has been called with
    [POOL_ACQUIRE_TIMEOUT_ERROR], the deadline of its request was before
    a time that the pool had read from the clock by then. *)
Theorem X23_no_request_times_out_early :
  forall (env : Env) (handler : nat -> Outcome -> World -> Script) (w : World)
         (r : Request),
    reachable env handler w ->
    In (call_done r (Failure POOL_ACQUIRE_TIMEOUT_ERROR)) (log w) ->
    exists t d,
      (t < ticks w)%nat
      /\ acquireTimeoutAt r = JNum d
      /\ d < clock env t.
Proof.
  intros env handler w r Hr Hin.
  destruct (reachable_timely env handler w Hr r Hin) as (t & Hlt & Hgt).
  unfold js_gt, js_lt in Hgt.
  destruct (acquireTimeoutAt r) as [| |d]; try discriminate.
  exists t, d. split; [exact Hlt|]. split; [reflexivity|]. now apply Z.ltb_lt.
Qed.

(** The theorem at [maintained_pool], where the request due at 1004 has
    been timed out by the maintenance. *)
Lemma X23_no_request_times_out_early_witness :
  exists t d,
    (t < ticks maintained_pool)%nat
    /\ acquireTimeoutAt (mkRequest 3 (Some 1%nat) 1005 (JNum 1004)) = JNum d
    /\ d < clock sample_env t.
Proof.
  apply (X23_no_request_times_out_early sample_env quiet_handler maintained_pool
           (mkRequest 3 (Some 1%nat) 1005 (JNum 1004))).
  - apply pool_after_reachable. vm_compute. discriminate.
  - vm_compute. repeat (first [left; reflexivity | right]).
Defined.

(** ** Errors *)

Lemma ekeeps_refl w : ekeeps w w.
Proof. repeat split; auto. Qed.

Lemma ekeeps_trans w1 w2 w3 : ekeeps w1 w2 -> ekeeps w2 w3 -> ekeeps w1 w3.
Proof.
  intros (c1 & d1 & h1) (c2 & d2 & h2). split; [congruence|]. split; auto.
Qed.

Lemma error_cause_same code w w' :
  cfg w' = cfg w -> (isDraining w = true -> isDraining w' = true) ->
  error_cause code w -> error_cause code w'.
Proof. intros Hc Hd. destruct code; simpl; rewrite ?Hc; auto. Qed.

(** Code that calls no completion and does not end the draining. *)
Lemma ekeeps_quiet w w' :
  cfg w' = cfg w -> (isDraining w = true -> isDraining w' = true) ->
  log_ext (log w) (log w') -> ekeeps w w'.
Proof.
  intros Hc Hd (new & Hl & Hnew). split; [exact Hc|]. split; [exact Hd|].
  intros H r code Hin. rewrite Hl in Hin. apply in_app_or in Hin as [Hin|Hin].
  - rewrite Forall_forall in Hnew. apply list_elem_of_In, Hnew in Hin. discriminate.
  - eapply error_cause_same; eauto.
Qed.

Lemma ekeeps_frame w w' : frame w w' -> ekeeps w w'.
Proof.
  intros [c _ _ d _ l _]. apply ekeeps_quiet; [exact c|congruence|exact l].
Qed.

(** Code that changes neither the history nor the configuration nor the
    draining flag. *)
Lemma ekeeps_same w w' :
  cfg w' = cfg w -> isDraining w' = isDraining w -> log w' = log w -> ekeeps w w'.
Proof.
  intros Hc Hd Hl. apply ekeeps_quiet; [exact Hc|congruence|].
  exists []. split; [now rewrite Hl|constructor].
Qed.

Section Errors.

Variable env : Env.
Variable invoke : nat -> Outcome -> World -> option World.
Hypothesis invoke_eok : ehook_ok invoke.

Lemma ekeeps_serve request errCode resource w w' :
  (forall code, errCode = Some code -> error_cause code w) ->
  _serveRequest invoke request errCode resource w = Some w' ->
  ekeeps w w'.
Proof.
  intros Hev. unfold _serveRequest.
  destruct errCode as [code|]; [|destruct resource as [r|]].
  - set (w1 := emit (emit_serveError code request) w).
    assert (H1 : ekeeps w w1).
    { apply ekeeps_quiet; auto.
      exists [emit_serveError code request]. split; [reflexivity|].
      constructor; [reflexivity|constructor]. }
    destruct (done request) as [k|].
    + intros H. apply invoke_eok in H.
      eapply ekeeps_trans; [exact H1|]. eapply ekeeps_trans; [|exact H].
      split; [reflexivity|]. split; [auto|].
      intros Hh x c [Hin|Hin].
      * injection Hin as _ <-. apply (Hev code eq_refl).
      * apply (Hh x c Hin).
    + intros [= <-]. exact H1.
  - set (w2 := emit _ (set_lentResources _ w)).
    assert (H2 : ekeeps w w2).
    { apply ekeeps_quiet; auto.
      exists [emit_serveSuccess request (value r)]. split; [reflexivity|].
      constructor; [reflexivity|constructor]. }
    destruct (done request) as [k|].
    + intros H. apply invoke_eok in H.
      eapply ekeeps_trans; [exact H2|]. eapply ekeeps_trans; [|exact H].
      split; [reflexivity|]. split; [auto|].
      intros Hh x c [Hin|Hin]; [discriminate|]. apply (Hh x c Hin).
    + intros [= <-]. exact H2.
  - discriminate.
Qed.

Lemma ekeeps_serveAging fuel now w w' :
  serveAging env invoke fuel now w = Some w' -> ekeeps w w'.
Proof.
  revert w. induction fuel as [|n IH]; intros w; simpl; [discriminate|].
  destruct (agingRequests w) as [|request rest] eqn:Hq.
  - intros [= <-]. apply ekeeps_refl.
  - destruct (js_gt _ _).
    + destruct_serve w2 Hs. simpl. intros H.
      apply (ekeeps_trans w (set_agingRequests rest w));
        [apply ekeeps_same; reflexivity|].
      eapply ekeeps_trans; [|apply IH, H].
      eapply ekeeps_serve; [|exact Hs]. intros code [= <-]. exact I.
    + pose proof (frame_nextFreeResource env w) as Hf.
      destruct (_nextFreeResource env w) as [[r|] w1]; simpl in Hf.
      * destruct_serve w3 Hs. simpl. intros H.
        eapply ekeeps_trans; [apply ekeeps_frame; exact Hf|].
        match type of Hs with _serveRequest _ _ _ _ ?x = _ =>
          apply (ekeeps_trans w1 x); [apply ekeeps_same; reflexivity|] end.
        eapply ekeeps_trans; [|apply IH, H].
        eapply ekeeps_serve; [|exact Hs]. discriminate.
      * intros [= <-]. apply ekeeps_frame, Hf.
Qed.

Lemma ekeeps_serveAgeless fuel w w' :
  _serveAgelessRequests env invoke fuel w = Some w' -> ekeeps w w'.
Proof.
  revert w. induction fuel as [|n IH]; intros w; simpl; [discriminate|].
  destruct (agelessRequests w) as [|request0 rest0] eqn:Hq.
  - intros [= <-]. apply ekeeps_refl.
  - pose proof (frame_nextFreeResource env w) as Hf.
    destruct (_nextFreeResource env w) as [[r|] w1]; simpl in Hf.
    + destruct (agelessRequests w1) as [|request rest]; [discriminate|].
      destruct_serve w3 Hs. simpl. intros H.
      eapply ekeeps_trans; [apply ekeeps_frame; exact Hf|].
      apply (ekeeps_trans w1 (set_agelessRequests rest w1));
        [apply ekeeps_same; reflexivity|].
      eapply ekeeps_trans; [|apply IH, H].
      eapply ekeeps_serve; [|exact Hs]. discriminate.
    + intros [= <-]. apply ekeeps_frame, Hf.
Qed.

Lemma ekeeps_acquire options done w w' :
  acquire env invoke options done w = Some w' -> ekeeps w w'.
Proof.
  unfold acquire, _createRequest, timeNow, _enqueueRequest.
  set (request := mkRequest _ _ _ _).
  set (w1 := emit _ (alloc (bump w))).
  assert (H1 : ekeeps w w1).
  { split; [reflexivity|]. split; [auto|].
    intros Hh x c [Hin|Hin]; [discriminate|]. apply (Hh x c Hin). }
  destruct (isDraining w1) eqn:Hd.
  - intros H. eapply ekeeps_trans; [exact H1|].
    eapply ekeeps_serve; [|exact H]. intros code [= <-]. exact Hd.
  - destruct (js_ge _ _) eqn:Hfull.
    + intros H. eapply ekeeps_trans; [exact H1|].
      eapply ekeeps_serve; [|exact H]. intros code [= <-].
      change (js_isNaN (maxRequests (cfg w1)) = false).
      destruct (maxRequests (cfg w1)); try discriminate; reflexivity.
    + intros [= <-]. eapply ekeeps_trans; [exact H1|].
      eapply ekeeps_trans; [|apply ekeeps_frame, frame_scheduleMaintainance].
      unfold _insertRequestByAcquireTimeout.
      destruct (js_isNaN _); apply ekeeps_same; reflexivity.
Qed.

Lemma ekeeps_acquireSync options w v w' :
  acquireSync env invoke options w = Some (v, w') -> ekeeps w w'.
Proof.
  unfold acquireSync.
  pose proof (frame_nextFreeResource env w) as Hf.
  destruct (_nextFreeResource env w) as [[r|] w1]; simpl in Hf.
  - unfold _createRequest, timeNow. set (request := mkRequest _ _ _ _).
    cbv zeta. cbn [isDraining alloc set_fresh bump set_ticks].
    assert (H2 : ekeeps w (alloc (bump w1))).
    { eapply ekeeps_trans; [apply ekeeps_frame; exact Hf|].
      apply ekeeps_same; reflexivity. }
    destruct (isDraining w1) eqn:Hd.
    + destruct_serve w3 Hs. simpl. intros [= _ <-].
      eapply ekeeps_trans; [exact H2|].
      eapply ekeeps_serve; [|exact Hs]. intros code [= <-]. exact Hd.
    + destruct_serve w3 Hs. simpl. intros [= _ <-].
      eapply ekeeps_trans; [exact H2|].
      eapply ekeeps_serve; [|exact Hs]. discriminate.
  - intros [= _ <-]. apply ekeeps_frame, Hf.
Qed.

Lemma ekeeps_maintain fuel w w' :
  _maintain env invoke fuel w = Some w' -> ekeeps w w'.
Proof.
  unfold _maintain, _serveAgingRequests, timeNow.
  destruct (isDraining w || isMaintaining w).
  - intros [= <-]. apply ekeeps_refl.
  - match goal with |- context [serveAging env invoke fuel ?n ?x] =>
      destruct (serveAging env invoke fuel n x) as [w4|] eqn:H4; [|discriminate];
      assert (H3 : ekeeps w x)
    end.
    { apply (ekeeps_trans _ (set_isMaintaining true w));
        [apply ekeeps_same; reflexivity|].
      eapply ekeeps_trans; [apply ekeeps_frame, frame_destroyExpiredResources|].
      eapply ekeeps_trans; [apply ekeeps_frame, frame_destroyIdleResources|].
      apply ekeeps_same; reflexivity. }
    simpl. destruct (_serveAgelessRequests _ _ _ _) as [w5|] eqn:H5; [|discriminate].
    simpl. intros [= <-].
    eapply ekeeps_trans; [exact H3|].
    eapply ekeeps_trans; [eapply ekeeps_serveAging; exact H4|].
    eapply ekeeps_trans; [eapply ekeeps_serveAgeless; exact H5|].
    eapply ekeeps_trans; [apply ekeeps_frame, frame_createResources|].
    apply ekeeps_same; reflexivity.
Qed.

Lemma ekeeps_scheduledMaintain fuel w w' :
  _scheduledMaintain env invoke fuel w = Some w' -> ekeeps w w'.
Proof.
  unfold _scheduledMaintain.
  destruct (_maintain _ _ _ _) as [w1|] eqn:H1; [|discriminate].
  simpl. intros [= <-].
  eapply ekeeps_trans; [eapply ekeeps_maintain; exact H1|].
  apply ekeeps_same; reflexivity.
Qed.

Lemma ekeeps_drainAging fuel w w' :
  isDraining w = true -> drainAging invoke fuel w = Some w' -> ekeeps w w'.
Proof.
  revert w. induction fuel as [|n IH]; intros w Hd; simpl; [discriminate|].
  destruct (pop (agingRequests w)) as [[request rest]|].
  - destruct_serve w1 Hs. simpl. intros H.
    assert (K : ekeeps w w1).
    { apply (ekeeps_trans w (set_agingRequests rest w));
        [apply ekeeps_same; reflexivity|].
      eapply ekeeps_serve; [|exact Hs]. intros code [= <-]. exact Hd. }
    eapply ekeeps_trans; [exact K|]. apply IH; [|exact H]. now apply K.
  - intros [= <-]. apply ekeeps_refl.
Qed.

Lemma ekeeps_drainAgeless fuel w w' :
  isDraining w = true -> drainAgeless invoke fuel w = Some w' -> ekeeps w w'.
Proof.
  revert w. induction fuel as [|n IH]; intros w Hd; simpl; [discriminate|].
  destruct (pop (agelessRequests w)) as [[request rest]|].
  - destruct_serve w1 Hs. simpl. intros H.
    assert (K : ekeeps w w1).
    { apply (ekeeps_trans w (set_agelessRequests rest w));
        [apply ekeeps_same; reflexivity|].
      eapply ekeeps_serve; [|exact Hs]. intros code [= <-]. exact Hd. }
    eapply ekeeps_trans; [exact K|]. apply IH; [|exact H]. now apply K.
  - intros [= <-]. apply ekeeps_refl.
Qed.

Lemma ekeeps_drain done fuel w w' :
  drain env invoke done fuel w = Some w' -> ekeeps w w'.
Proof.
  unfold drain. destruct (isDraining w) eqn:Hd; cbn [negb]; simpl.
  - intros [= <-]. apply ekeeps_frame, frame_waitDrain.
  - match goal with |- context [drainAging invoke fuel ?x] =>
      destruct (drainAging invoke fuel x) as [w3|] eqn:H3; [|discriminate];
      assert (H2 : ekeeps w x /\ isDraining x = true)
    end.
    { split; [|destruct (_maintenanceIntervalID _); reflexivity].
      split; [destruct (_maintenanceIntervalID _); reflexivity|].
      split; [destruct (_maintenanceIntervalID _); reflexivity|].
      intros Hh r code Hin.
      assert (Hin' : In (call_done r (Failure code)) (log w)).
      { destruct (_maintenanceIntervalID _); [|exact Hin].
        destruct Hin as [Hin|Hin]; [discriminate|exact Hin]. }
      specialize (Hh r code Hin').
      destruct code; simpl in *;
        destruct (_maintenanceIntervalID _); auto. }
    destruct H2 as [H2 Hd2].
    simpl. destruct (drainAgeless invoke fuel w3) as [w4|] eqn:H4; [|discriminate].
    simpl. intros [= <-].
    pose proof (ekeeps_drainAging _ _ _ Hd2 H3) as K3.
    eapply ekeeps_trans; [exact H2|].
    eapply ekeeps_trans; [exact K3|].
    eapply ekeeps_trans;
      [eapply ekeeps_drainAgeless; [apply K3, Hd2|exact H4]|].
    eapply ekeeps_trans; [apply ekeeps_frame, frame_drainFree|].
    apply ekeeps_frame, frame_waitDrain.
Qed.

Lemma ekeeps_exec fuel c w w' :
  exec env invoke fuel c w = Some w' -> ekeeps w w'.
Proof.
  destruct c; simpl.
  - apply ekeeps_acquire.
  - destruct (acquireSync env invoke options w) as [[v w1]|] eqn:H; [|discriminate].
    simpl. intros [= <-]. eapply ekeeps_acquireSync; eauto.
  - intros [= <-]. apply ekeeps_frame, frame_release.
  - intros [= <-]. apply ekeeps_frame, frame_destroy.
  - apply ekeeps_drain.
  - intros [= <-]. apply ekeeps_frame, frame_setMaintenanceInterval.
Qed.

Lemma ekeeps_run fuel s w w' :
  run env invoke fuel s w = Some w' -> ekeeps w w'.
Proof.
  revert w. induction s as [|c k IH]; intros w; simpl.
  - intros [= <-]. apply ekeeps_refl.
  - destruct (exec env invoke fuel c w) as [w1|] eqn:H1; [|discriminate].
    intros H. eapply ekeeps_trans; [eapply ekeeps_exec; exact H1|]. eapply IH; exact H.
Qed.

End Errors.

Section ReachableErrors.

Variable env : Env.
Variable handler : nat -> Outcome -> World -> Script.

Lemma callback_eok fuel : ehook_ok (callback env handler fuel).
Proof.
  induction fuel as [|n IH]; intros k o w w'; simpl; [discriminate|].
  apply ekeeps_run. exact IH.
Qed.

Lemma ekeeps_step fuel op w w' :
  step env handler fuel op w = Some w' -> ekeeps w w'.
Proof.
  destruct op; simpl.
  - apply ekeeps_exec, callback_eok.
  - destruct (_maintenanceIntervalID w); [|discriminate].
    apply ekeeps_maintain, callback_eok.
  - destruct (timers w !! i) as [t|]; [|discriminate]. intros H.
    apply (ekeeps_trans w (set_timers (delete i (timers w)) w));
      [apply ekeeps_same; reflexivity|].
    destruct t; simpl in H.
    + eapply ekeeps_scheduledMaintain; [apply callback_eok|exact H].
    + injection H as <-. apply ekeeps_same; reflexivity.
    + injection H as <-. apply ekeeps_frame, frame_waitDrain.
    + eapply callback_eok; exact H.
  - intros [= <-]. apply ekeeps_frame, frame_createCallback.
  - intros [= <-]. apply ekeeps_frame, frame_destroyCallback.
Qed.

Lemma reachable_honest w : reachable env handler w -> honest w.
Proof.
  induction 1 as [options fuel w H|fuel op w w' _ IH H].
  - unfold Pool_new in H.
    apply (ekeeps_maintain env _ (callback_eok fuel)) in H.
    apply H. unfold setMaintenanceInterval. cbn. intros r code [Hin|[]].
    discriminate.
  - apply (ekeeps_step _ _ _ _ H), IH.
Qed.

End ReachableErrors.

(** X24.  The errors are truthful: in every state that a pool reaches, a
    completion callback has been called with
    [POOL_ACQUIRE_DURING_DRAINING] or [POOL_ACQUIRE_ABORTED_BY_DRAIN] only
    if the pool is draining, and with [POOL_MAX_REQUESTS_LIMIT] only if
    [maxRequests] is a number. *)
Theorem X24_errors_are_truthful :
  forall (env : Env) (handler : nat -> Outcome -> World -> Script) (w : World)
         (r : Request) (code : ErrCode),
    reachable env handler w ->
    In (call_done r (Failure code)) (log w) ->
    (code = POOL_ACQUIRE_DURING_DRAINING \/ code = POOL_ACQUIRE_ABORTED_BY_DRAIN ->
     isDraining w = true)
    /\ (code = POOL_MAX_REQUESTS_LIMIT ->
        exists m, maxRequests (cfg w) = JNum m).
Proof.
  intros env handler w r code Hr Hin.
  pose proof (reachable_honest env handler w Hr r code Hin) as H.
  split.
  - intros [->| ->]; exact H.
  - intros ->. simpl in H. destruct (maxRequests (cfg w)) as [| |m];
      try discriminate. now exists m.
Qed.

(** The theorem at [capped_pool], whose second request was refused. *)
Lemma X24_errors_are_truthful_witness :
  (POOL_MAX_REQUESTS_LIMIT = POOL_ACQUIRE_DURING_DRAINING
   \/ POOL_MAX_REQUESTS_LIMIT = POOL_ACQUIRE_ABORTED_BY_DRAIN ->
   isDraining capped_pool = true)
  /\ (POOL_MAX_REQUESTS_LIMIT = POOL_MAX_REQUESTS_LIMIT ->
      exists m, maxRequests (cfg capped_pool) = JNum m).
Proof.
  apply (X24_errors_are_truthful async_env quiet_handler capped_pool
           (mkRequest 2 (Some 2%nat) 1002 JNaN) POOL_MAX_REQUESTS_LIMIT).
  - apply pool_after_reachable. vm_compute. discriminate.
  - vm_compute. repeat (first [left; reflexivity | right]).
Defined.

(** ** The end of a drain *)

Lemma calm_refl w : calm w w.
Proof. split; auto. Qed.

Lemma calm_trans w1 w2 w3 : calm w1 w2 -> calm w2 w3 -> calm w1 w3.
Proof. intros [e1 a1 l1] [e2 a2 l2]. split; [congruence|congruence|auto]. Qed.

Lemma drain_awaited_app l t w :
  is_waitDrain t = false ->
  drain_awaited (set_timers (timers w ++ [t]) l) = drain_awaited w.
Proof.
  intros Ht. unfold drain_awaited. cbn. rewrite existsb_app. cbn.
  rewrite Ht. now rewrite !orb_false_r.
Qed.

Ltac calm_fields :=
  split; unfold drain_emitted, drain_awaited; cbn;
  rewrite ?existsb_app; cbn; rewrite ?orb_false_r; auto.

Lemma calm_scheduleMaintainance w : calm w (_scheduleMaintainance w).
Proof. unfold _scheduleMaintainance. case_ifs; calm_fields. Qed.

Lemma calm_destroyCallback did w : calm w (destroyCallback did w).
Proof. unfold destroyCallback. destruct (decide _); calm_fields. Qed.

Lemma calm_destroyResource env r w : calm w (_destroyResource env r w).
Proof.
  unfold _destroyResource. cbv zeta.
  destruct (destroyResource env _ r).
  - eapply calm_trans; [|apply calm_destroyCallback]. calm_fields.
  - calm_fields.
Qed.

Lemma calm_storeResource env r w :
  calm w (_storeResource env r w).
Proof.
  unfold _storeResource, timeNow. destruct (isDraining w); cbn [negb].
  - apply calm_destroyResource.
  - destruct (validateResource env _ r).
    + eapply calm_trans; [|apply calm_scheduleMaintainance]. calm_fields.
    + eapply calm_trans; [|apply calm_destroyResource]. calm_fields.
Qed.

Lemma calm_nextFree env free w :
  calm w (snd (nextFree env free w)).
Proof.
  revert w. induction free as [|r rest IH]; intros w; simpl.
  - calm_fields.
  - destruct (validateResource env _ r); simpl.
    + calm_fields.
    + eapply calm_trans; [|apply IH].
      eapply calm_trans; [|apply calm_destroyResource]. calm_fields.
Qed.

Lemma calm_createCallback env cid result w :
  calm w (createCallback env cid result w).
Proof.
  unfold createCallback, timeNow. destruct (decide _); [|apply calm_refl].
  destruct result.
  - cbv zeta. destruct (backoff _); calm_fields.
  - eapply calm_trans; [|apply calm_storeResource]. calm_fields.
Qed.

Lemma calm_createResource env w : calm w (_createResource env w).
Proof.
  unfold _createResource. cbv zeta. destruct (createResource env _).
  - eapply calm_trans; [|apply calm_createCallback]. calm_fields.
  - calm_fields.
Qed.

Lemma calm_createLoop env n w : calm w (createLoop env n w).
Proof.
  revert w. induction n as [|n IH]; intros w; simpl; [apply calm_refl|].
  eapply calm_trans; [apply calm_createResource|apply IH].
Qed.

Lemma calm_destroyList env l w :
  calm w (fold_left (fun w r => _destroyResource env r w) l w).
Proof.
  revert w. induction l as [|r l IH]; intros w; simpl; [apply calm_refl|].
  eapply calm_trans; [apply calm_destroyResource|apply IH].
Qed.

Lemma calm_destroyDeadResources env key tmo w :
  calm w (_destroyDeadResources env key tmo w).
Proof.
  unfold _destroyDeadResources, timeNow.
  destruct (sweep _ _ _ _ _ _) as [free dead].
  eapply calm_trans; [|apply calm_destroyList]. calm_fields.
Qed.

Lemma calm_destroyIdleResources env w : calm w (_destroyIdleResources env w).
Proof.
  unfold _destroyIdleResources, timeNow. destruct (js_gt _ _); [|apply calm_refl].
  destruct (_ >? _); [|calm_fields].
  apply (calm_trans w (bump w)); [calm_fields|].
  match goal with |- calm _ (_ _ (bump ?a)) =>
    apply (calm_trans _ a); [apply calm_destroyDeadResources|generalize a] end.
  intros x. calm_fields.
Qed.

Lemma calm_destroyExpiredResources env w : calm w (_destroyExpiredResources env w).
Proof.
  unfold _destroyExpiredResources, timeNow. destruct (js_gt _ _); [|apply calm_refl].
  destruct (_ >? _); [|calm_fields].
  apply (calm_trans w (bump w)); [calm_fields|].
  match goal with |- calm _ (_ _ (bump ?a)) =>
    apply (calm_trans _ a); [apply calm_destroyDeadResources|generalize a] end.
  intros x. calm_fields.
Qed.

Lemma calm_setMaintenanceInterval interval w :
  calm w (setMaintenanceInterval interval w).
Proof. unfold setMaintenanceInterval. case_ifs; calm_fields. Qed.

Lemma calm_release env v w : calm w (release env v w).
Proof.
  split.
  - unfold release. case_ifs; try reflexivity.
    rewrite (cl_emitted _ _ (calm_storeResource env _ _)). reflexivity.
  - unfold release. case_ifs; try reflexivity.
    rewrite (cl_awaited _ _ (calm_storeResource env _ _)). reflexivity.
  - intros Hl. unfold release. rewrite Hl. exact Hl.
Qed.

Lemma calm_destroy env v w : calm w (destroy env v w).
Proof.
  split.
  - unfold destroy. case_ifs; try reflexivity;
      rewrite (cl_emitted _ _ (calm_destroyResource env _ _)); reflexivity.
  - unfold destroy. case_ifs; try reflexivity;
      rewrite (cl_awaited _ _ (calm_destroyResource env _ _)); reflexivity.
  - intros Hl. unfold destroy. rewrite Hl. cbn. case_ifs; try exact Hl;
      apply (cl_lent _ _ (calm_destroyResource env _ _)); exact Hl.
Qed.

Lemma calm_destroyAll env stack w : calm w (destroyAll env stack w).
Proof.
  revert w. induction stack as [|r rest IH]; intros w; simpl; [apply calm_refl|].
  eapply calm_trans; [|apply IH].
  eapply calm_trans; [|apply calm_destroyResource]. calm_fields.
Qed.

Lemma calm_drainFree env w : calm w (drainFree env w).
Proof. apply calm_destroyAll. Qed.

(** A pool whose counters are exact and whose count is zero holds no
    record. *)
Lemma tidy_count_zero X w :
  tidy X w -> _countResources w = 0 ->
  freeResources w = [] /\ lentResources w = [].
Proof.
  intros Ht Hc. unfold _countResources in Hc.
  rewrite (td_creatingCount _ _ Ht), (td_destroyingCount _ _ Ht) in Hc.
  destruct (freeResources w); [|cbn in Hc; lia].
  destruct (lentResources w); [|cbn in Hc; lia]. auto.
Qed.

Lemma frame_free_nil w w' :
  frame w w' -> isDraining w = true -> freeResources w = [] ->
  freeResources w' = [].
Proof.
  intros F Hd Hf. destruct (freeResources w') as [|r l] eqn:E; [reflexivity|].
  exfalso. pose proof (fr_free _ _ F Hd r) as H. rewrite E, Hf in H.
  specialize (H (list_elem_of_here r l)). inversion H.
Qed.

Lemma dkeeps_trans T M L w1 w2 w3 :
  dkeeps T M w1 w2 -> dkeeps M L w2 w3 -> dkeeps T L w1 w3.
Proof.
  intros [d1 g1 c1] [d2 g2 c2]. split; auto.
  intros Ht Hc. destruct (c1 Ht Hc) as [Ht2 Hc2]. auto.
Qed.

Lemma dkeeps_refl X w : dkeeps X X w w.
Proof. split; auto. Qed.

(** Code that keeps the books, leaves the queues and the flag alone and
    neither emits [drain] nor waits for it. *)
Lemma dkeeps_calm n T L w w' :
  keeps n T L w w' -> frame w w' -> calm w w' -> (T = [] -> L = []) ->
  dkeeps T L w w'.
Proof.
  intros K F C HL.
  assert (G : gone T w -> gone L w').
  { intros (Hd & Hf & Hl & Hx). split; [|split; [|split]].
    - rewrite (fr_draining _ _ F). exact Hd.
    - eapply frame_free_nil; eauto.
    - apply (cl_lent _ _ C), Hl.
    - auto. }
  split.
  - rewrite (fr_draining _ _ F). auto.
  - exact G.
  - intros Ht [Ha He]. split; [apply (kp_tidy _ _ _ _ _ K), Ht|].
    split.
    + rewrite (cl_awaited _ _ C), (fr_draining _ _ F). exact Ha.
    + rewrite (cl_emitted _ _ C). auto.
Qed.

(** The same for a step that changes no list of records. *)
Lemma dkeeps_same X w w' :
  keeps 0 X X w w' -> frame w w' -> calm w w' -> dkeeps X X w w'.
Proof. intros K F C. eapply dkeeps_calm; eauto. Qed.

(** A record in flight that is dropped. *)
Lemma dkeeps_drop r X w : dkeeps (r :: X) X w w.
Proof.
  split; auto.
  - intros (_ & _ & _ & [=]).
  - intros Ht [Ha He]. split; [apply (kp_tidy _ _ _ _ _ (keeps_drop r X w)), Ht|].
    split; [exact Ha|]. intros H. destruct (He H) as (_ & _ & _ & [=]).
Qed.

Lemma dkeeps_nextFreeResource env X w :
  match _nextFreeResource env w with
  | (Some r, w1) => dkeeps X (r :: X) w w1
  | (None, w1) => dkeeps X X w w1
  end.
Proof.
  pose proof (keeps_nextFreeResource env X w) as K.
  pose proof (frame_nextFreeResource env w) as F.
  pose proof (calm_nextFree env (freeResources w) w) as C.
  fold (_nextFreeResource env w) in C.
  destruct (_nextFreeResource env w) as [[r|] w1] eqn:E; simpl in F, C.
  - assert (G : gone X w -> False).
    { intros (_ & Hf & _). unfold _nextFreeResource in E. rewrite Hf in E.
      discriminate. }
    split.
    + rewrite (fr_draining _ _ F). auto.
    + intros H. destruct (G H).
    + intros Ht [Ha He]. split; [apply (kp_tidy _ _ _ _ _ K), Ht|].
      split.
      * rewrite (cl_awaited _ _ C), (fr_draining _ _ F). exact Ha.
      * rewrite (cl_emitted _ _ C). intros H. destruct (G (He H)).
  - eapply dkeeps_calm; eauto.
Qed.

(** A step that touches neither the lists of records, nor the flag, nor
    the [drain] events. *)
Lemma dkeeps_tidy T L w w' :
  (tidy T w -> tidy L w') ->
  isDraining w' = isDraining w ->
  freeResources w' = freeResources w ->
  lentResources w' = lentResources w ->
  drain_emitted w' = drain_emitted w ->
  drain_awaited w' = drain_awaited w ->
  (T = [] -> L = []) ->
  dkeeps T L w w'.
Proof.
  intros K Hd Hf Hl He Ha HL.
  assert (G : gone T w -> gone L w').
  { intros (d & f & l & x). unfold gone. rewrite Hd, Hf, Hl. auto. }
  split.
  - rewrite Hd. auto.
  - exact G.
  - intros Ht [a e]. split; [apply K, Ht|].
    split; rewrite ?Ha, ?He, ?Hd; auto.
Qed.

Lemma dkeeps_step n T L w w' :
  keeps n T L w w' ->
  isDraining w' = isDraining w ->
  freeResources w' = freeResources w ->
  lentResources w' = lentResources w ->
  drain_emitted w' = drain_emitted w ->
  drain_awaited w' = drain_awaited w ->
  (T = [] -> L = []) ->
  dkeeps T L w w'.
Proof. intros K. apply dkeeps_tidy. apply (kp_tidy _ _ _ _ _ K). Qed.

Lemma dkeeps_set_isMaintaining b X w : dkeeps X X w (set_isMaintaining b w).
Proof.
  apply dkeeps_tidy; try reflexivity; [|auto].
  apply tidy_set_isMaintaining.
Qed.

Ltac dkeeps_fields :=
  eapply dkeeps_step; [keeps_fields|reflexivity..|auto].

Section DrainEnd.

Variable env : Env.
Variable invoke : nat -> Outcome -> World -> option World.
Hypothesis invoke_dok : dhook_ok invoke.

Lemma dkeeps_serve_error request code w w' :
  _serveRequest invoke request (Some code) None w = Some w' -> dkeeps [] [] w w'.
Proof.
  unfold _serveRequest. destruct (done request) as [k|].
  - intros H. apply invoke_dok in H.
    eapply dkeeps_trans; [|exact H]. dkeeps_fields.
  - intros [= <-]. dkeeps_fields.
Qed.

Lemma dkeeps_serve_resource request r w w' :
  _serveRequest invoke request None (Some r) w = Some w' -> dkeeps [r] [] w w'.
Proof.
  unfold _serveRequest.
  set (w2 := emit _ (set_lentResources _ w)).
  assert (H2 : dkeeps [r] [] w w2).
  { split; [auto|intros (_ & _ & _ & [=])|].
    intros Ht [Ha He]. split.
    - assert (K : keeps 0 [r] [] w w2); [|apply (kp_tidy _ _ _ _ _ K), Ht].
      apply keeps_resources; cbn; try reflexivity; try lia.
      + ids_submseteq.
      + auto.
      + intros H. apply Forall_app. split; [exact H|].
        constructor; [|constructor]. unfold lent_shape. cbn. discriminate.
    - split; [exact Ha|]. intros H. destruct (He H) as (_ & _ & _ & [=]). }
  destruct (done request) as [k|].
  - intros H. apply invoke_dok in H.
    eapply dkeeps_trans; [exact H2|]. eapply dkeeps_trans; [|exact H].
    dkeeps_fields.
  - intros [= <-]. exact H2.
Qed.

Lemma dkeeps_serveAging fuel now w w' :
  serveAging env invoke fuel now w = Some w' -> dkeeps [] [] w w'.
Proof.
  revert w. induction fuel as [|n IH]; intros w; simpl; [discriminate|].
  destruct (agingRequests w) as [|request rest] eqn:Hq.
  - intros [= <-]. apply dkeeps_refl.
  - destruct (js_gt _ _).
    + destruct_serve w2 Hs. simpl. intros H.
      apply (dkeeps_trans [] [] [] w (set_agingRequests rest w)); [dkeeps_fields|].
      eapply dkeeps_trans; [eapply dkeeps_serve_error; exact Hs|]. now apply IH.
    + pose proof (dkeeps_nextFreeResource env [] w) as Hn.
      destruct (_nextFreeResource env w) as [[r|] w1].
      * destruct_serve w3 Hs. simpl. intros H.
        eapply dkeeps_trans; [exact Hn|].
        match type of Hs with _serveRequest _ _ _ _ ?x = _ =>
          apply (dkeeps_trans [r] [r] [] w1 x); [dkeeps_fields|] end.
        eapply dkeeps_trans; [eapply dkeeps_serve_resource; exact Hs|].
        now apply IH.
      * intros [= <-]. exact Hn.
Qed.

Lemma dkeeps_serveAgeless fuel w w' :
  _serveAgelessRequests env invoke fuel w = Some w' -> dkeeps [] [] w w'.
Proof.
  revert w. induction fuel as [|n IH]; intros w; simpl; [discriminate|].
  destruct (agelessRequests w) as [|request0 rest0] eqn:Hq.
  - intros [= <-]. apply dkeeps_refl.
  - pose proof (dkeeps_nextFreeResource env [] w) as Hn.
    destruct (_nextFreeResource env w) as [[r|] w1].
    + destruct (agelessRequests w1) as [|request rest]; [discriminate|].
      destruct_serve w3 Hs. simpl. intros H.
      eapply dkeeps_trans; [exact Hn|].
      apply (dkeeps_trans [r] [r] [] w1 (set_agelessRequests rest w1));
        [dkeeps_fields|].
      eapply dkeeps_trans; [eapply dkeeps_serve_resource; exact Hs|].
      now apply IH.
    + intros [= <-]. exact Hn.
Qed.

Lemma dkeeps_acquire options done w w' :
  acquire env invoke options done w = Some w' -> dkeeps [] [] w w'.
Proof.
  unfold acquire, _createRequest, timeNow, _enqueueRequest.
  set (request := mkRequest _ _ _ _).
  set (w1 := emit _ (alloc (bump w))).
  assert (H1 : dkeeps [] [] w w1) by (unfold w1, request; dkeeps_fields).
  destruct (isDraining w1).
  - intros H. eapply dkeeps_trans; [exact H1|eapply dkeeps_serve_error; exact H].
  - destruct (js_ge _ _).
    + intros H. eapply dkeeps_trans; [exact H1|eapply dkeeps_serve_error; exact H].
    + intros [= <-]. eapply dkeeps_trans; [exact H1|].
      eapply dkeeps_trans;
        [|apply dkeeps_same;
          [apply keeps_scheduleMaintainance|apply frame_scheduleMaintainance
          |apply calm_scheduleMaintainance]].
      unfold _insertRequestByAcquireTimeout.
      destruct (js_isNaN _); dkeeps_fields.
Qed.

Lemma dkeeps_acquireSync options w v w' :
  acquireSync env invoke options w = Some (v, w') -> dkeeps [] [] w w'.
Proof.
  unfold acquireSync.
  pose proof (dkeeps_nextFreeResource env [] w) as Hn.
  destruct (_nextFreeResource env w) as [[r|] w1].
  - unfold _createRequest, timeNow. set (request := mkRequest _ _ _ _).
    cbv zeta. cbn [isDraining alloc set_fresh bump set_ticks].
    assert (H2 : dkeeps [] [r] w (alloc (bump w1))).
    { eapply dkeeps_trans; [exact Hn|]. dkeeps_fields. }
    destruct (isDraining w1).
    + destruct_serve w3 Hs. simpl. intros [= _ <-].
      eapply dkeeps_trans; [exact H2|].
      eapply dkeeps_trans; [apply dkeeps_drop|].
      eapply dkeeps_serve_error; exact Hs.
    + destruct_serve w3 Hs. simpl. intros [= _ <-].
      eapply dkeeps_trans; [exact H2|]. eapply dkeeps_serve_resource; exact Hs.
  - intros [= _ <-]. exact Hn.
Qed.

Lemma dkeeps_maintain fuel w w' :
  _maintain env invoke fuel w = Some w' -> dkeeps [] [] w w'.
Proof.
  unfold _maintain, _serveAgingRequests, timeNow.
  destruct (isDraining w || isMaintaining w).
  - intros [= <-]. apply dkeeps_refl.
  - match goal with |- context [serveAging env invoke fuel ?n ?x] =>
      destruct (serveAging env invoke fuel n x) as [w4|] eqn:H4; [|discriminate];
      assert (H3 : dkeeps [] [] w x)
    end.
    { eapply dkeeps_trans; [apply (dkeeps_set_isMaintaining true)|].
      eapply dkeeps_trans;
        [apply dkeeps_same;
         [apply keeps_destroyExpiredResources|apply frame_destroyExpiredResources
         |apply calm_destroyExpiredResources]|].
      eapply dkeeps_trans;
        [apply dkeeps_same;
         [apply keeps_destroyIdleResources|apply frame_destroyIdleResources
         |apply calm_destroyIdleResources]|].
      dkeeps_fields. }
    simpl. destruct (_serveAgelessRequests _ _ _ _) as [w5|] eqn:H5; [|discriminate].
    simpl. intros [= <-].
    eapply dkeeps_trans; [exact H3|].
    eapply dkeeps_trans; [eapply dkeeps_serveAging; exact H4|].
    eapply dkeeps_trans; [eapply dkeeps_serveAgeless; exact H5|].
    eapply dkeeps_trans; [|apply dkeeps_set_isMaintaining].
    eapply dkeeps_calm;
      [apply keeps_createLoop|apply frame_createResources|apply calm_createLoop|auto].
Qed.

Lemma dkeeps_drainAging fuel w w' :
  drainAging invoke fuel w = Some w' -> dkeeps [] [] w w'.
Proof.
  revert w. induction fuel as [|n IH]; intros w; simpl; [discriminate|].
  destruct (pop (agingRequests w)) as [[request rest]|].
  - destruct_serve w1 Hs. simpl. intros H.
    eapply dkeeps_trans; [|apply IH, H].
    eapply dkeeps_trans; [|eapply dkeeps_serve_error; exact Hs].
    dkeeps_fields.
  - intros [= <-]. apply dkeeps_refl.
Qed.

Lemma dkeeps_drainAgeless fuel w w' :
  drainAgeless invoke fuel w = Some w' -> dkeeps [] [] w w'.
Proof.
  revert w. induction fuel as [|n IH]; intros w; simpl; [discriminate|].
  destruct (pop (agelessRequests w)) as [[request rest]|].
  - destruct_serve w1 Hs. simpl. intros H.
    eapply dkeeps_trans; [|apply IH, H].
    eapply dkeeps_trans; [|eapply dkeeps_serve_error; exact Hs].
    dkeeps_fields.
  - intros [= <-]. apply dkeeps_refl.
Qed.

(** [_waitDrain] on a draining pool: it emits [drain] only when the
    count is zero, and then the pool holds no record. *)
Lemma dkeeps_waitDrain done w :
  isDraining w = true -> dkeeps [] [] w (_waitDrain done w).
Proof.
  intros Hd.
  pose proof (frame_waitDrain done w) as F.
  pose proof (keeps_waitDrain done [] w) as K.
  assert (Hd' : isDraining (_waitDrain done w) = true)
    by (rewrite (fr_draining _ _ F); exact Hd).
  assert (Hf : freeResources (_waitDrain done w) = freeResources w
               /\ lentResources (_waitDrain done w) = lentResources w).
  { unfold _waitDrain. case_ifs; auto. }
  destruct Hf as [Hf Hl].
  split.
  - auto.
  - intros (_ & f & l & _). unfold gone. rewrite Hf, Hl. auto.
  - intros Ht [Ha He]. split; [apply (kp_tidy _ _ _ _ _ K), Ht|].
    split; [auto|]. intros H. unfold gone. rewrite Hf, Hl.
    destruct (_countResources w =? 0) eqn:Hc.
    + apply Z.eqb_eq in Hc. destruct (tidy_count_zero _ _ Ht Hc). auto.
    + assert (H0 : drain_emitted w = true).
      { revert H. unfold _waitDrain. rewrite Hc. cbn. auto. }
      destruct (He H0) as (_ & f & l & _). auto.
Qed.

Lemma dkeeps_drain done fuel w w' :
  drain env invoke done fuel w = Some w' -> dkeeps [] [] w w'.
Proof.
  unfold drain. destruct (isDraining w) eqn:Hd; cbn [negb]; simpl.
  - intros [= <-]. apply dkeeps_waitDrain, Hd.
  - match goal with |- context [drainAging invoke fuel ?x] =>
      destruct (drainAging invoke fuel x) as [w3|] eqn:H3; [|discriminate];
      assert (H2 : dkeeps [] [] w x /\ isDraining x = true)
    end.
    { split; [|destruct (_maintenanceIntervalID _); reflexivity].
      split.
      - intros H. congruence.
      - intros (H & _). congruence.
      - intros Ht [Ha He]. split.
        + assert (K : keeps 0 [] [] w (set_isDraining true w)) by keeps_fields.
          apply (kp_tidy _ _ _ _ _ (keeps_clearInterval (set_isDraining true w))).
          apply (kp_tidy _ _ _ _ _ K), Ht.
        + split.
          * intros _. destruct (_maintenanceIntervalID _); reflexivity.
          * intros H. assert (H0 : drain_emitted w = true).
            { revert H. destruct (_maintenanceIntervalID _); cbn; auto. }
            destruct (He H0) as (d & _). congruence. }
    destruct H2 as [H2 Hd2].
    simpl. destruct (drainAgeless invoke fuel w3) as [w4|] eqn:H4; [|discriminate].
    simpl. intros [= <-].
    assert (D : dkeeps [] [] w (drainFree env w4)).
    { eapply dkeeps_trans; [exact H2|].
      eapply dkeeps_trans; [eapply dkeeps_drainAging; exact H3|].
      eapply dkeeps_trans; [eapply dkeeps_drainAgeless; exact H4|].
      apply dkeeps_same;
        [apply keeps_drainFree|apply frame_drainFree|apply calm_drainFree]. }
    eapply dkeeps_trans; [exact D|]. apply dkeeps_waitDrain.
    apply (dk_draining _ _ _ _
             (dkeeps_trans _ _ _ _ _ _
                (dkeeps_drainAging _ _ _ H3)
                (dkeeps_trans _ _ _ _ _ _ (dkeeps_drainAgeless _ _ _ H4)
                   (dkeeps_same _ _ _ (keeps_drainFree env w4)
                      (frame_drainFree env w4) (calm_drainFree env w4))))).
    exact Hd2.
Qed.

Lemma dkeeps_exec fuel c w w' :
  exec env invoke fuel c w = Some w' -> dkeeps [] [] w w'.
Proof.
  destruct c; simpl.
  - apply dkeeps_acquire.
  - destruct (acquireSync env invoke options w) as [[v w1]|] eqn:H; [|discriminate].
    simpl. intros [= <-]. eapply dkeeps_acquireSync; eauto.
  - intros [= <-].
    apply dkeeps_same; [apply keeps_release|apply frame_release|apply calm_release].
  - intros [= <-].
    apply dkeeps_same; [apply keeps_destroy|apply frame_destroy|apply calm_destroy].
  - apply dkeeps_drain.
  - intros [= <-].
    apply dkeeps_same;
      [apply keeps_setMaintenanceInterval|apply frame_setMaintenanceInterval
      |apply calm_setMaintenanceInterval].
Qed.

Lemma dkeeps_run fuel s w w' :
  run env invoke fuel s w = Some w' -> dkeeps [] [] w w'.
Proof.
  revert w. induction s as [|c k IH]; intros w; simpl.
  - intros [= <-]. apply dkeeps_refl.
  - destruct (exec env invoke fuel c w) as [w1|] eqn:H1; [|discriminate].
    intros H. eapply dkeeps_trans; [eapply dkeeps_exec; exact H1|]. eapply IH; exact H.
Qed.

End DrainEnd.

Lemma existsb_delete {A} (p : A -> bool) (l : list A) i :
  existsb p (delete i l) = true -> existsb p l = true.
Proof.
  revert i. induction l as [|x l IH]; intros [|i]; simpl; auto.
  - intros ->. apply orb_true_r.
  - destruct (p x); simpl; eauto.
Qed.

Lemma existsb_lookup {A} (p : A -> bool) (l : list A) i x :
  l !! i = Some x -> p x = true -> existsb p l = true.
Proof.
  revert i. induction l as [|y l IH]; intros [|i]; simpl; try discriminate.
  - intros [= ->] ->. reflexivity.
  - intros Hi Hp. rewrite (IH _ Hi Hp). apply orb_true_r.
Qed.

Lemma closed_delete_timer i w :
  closed [] w -> closed [] (set_timers (delete i (timers w)) w).
Proof.
  intros [Ha He]. split; [|exact He].
  unfold drain_awaited. cbn. intros H. apply Ha. eapply existsb_delete, H.
Qed.

Section ReachableDrainEnd.

Variable env : Env.
Variable handler : nat -> Outcome -> World -> Script.

Lemma callback_dok fuel : dhook_ok (callback env handler fuel).
Proof.
  induction fuel as [|n IH]; intros k o w w'; simpl; [discriminate|].
  apply dkeeps_run. exact IH.
Qed.

Lemma fire_closed fuel i t w w' :
  timers w !! i = Some t -> orderly w -> closed [] w ->
  fire env handler fuel t (set_timers (delete i (timers w)) w) = Some w' ->
  closed [] w'.
Proof.
  intros Hi Ho Hc. pose proof (closed_delete_timer i w Hc) as Hc'.
  destruct t as [| |d|k]; simpl.
  - unfold _scheduledMaintain.
    destruct (_maintain _ _ _ _) as [w1|] eqn:H1; [|discriminate].
    simpl. intros [= <-].
    apply (dkeeps_maintain env _ (callback_dok fuel))
      in H1.
    assert (Ht0 : tidy [] (set_timers (delete i (timers w)) w)).
    { destruct Ho as ([c1 c2 c3 c4 c5 c6 c7 c8 c9 c10 c11 c12] & _).
      pose proof (count_delete is_scheduled _ i _ Hi) as Cs.
      pose proof (count_delete is_backoff _ i _ Hi) as Cb.
      cbn in Cs, Cb.
      split; cbn; auto; [rewrite c6|]; lia. }
    exact (proj2 (dk_closed _ _ _ _ H1 Ht0 Hc')).
  - intros [= <-]. exact Hc'.
  - intros [= <-].
    assert (Hd : isDraining w = true).
    { apply (proj1 Hc). eapply existsb_lookup; [exact Hi|reflexivity]. }
    assert (Ho' : orderly (set_timers (delete i (timers w)) w))
      by (eapply orderly_delete_timer; eauto).
    exact (proj2 (dk_closed _ _ _ _
                    (dkeeps_waitDrain d (set_timers (delete i (timers w)) w) Hd)
                    (proj1 Ho') Hc')).
  - intros H. apply callback_dok in H.
    assert (Ho' : orderly (set_timers (delete i (timers w)) w))
      by (eapply orderly_delete_timer; eauto).
    exact (proj2 (dk_closed _ _ _ _ H (proj1 Ho') Hc')).
Qed.

Lemma step_closed fuel op w w' :
  orderly w -> closed [] w -> step env handler fuel op w = Some w' ->
  closed [] w'.
Proof.
  intros Ho Hc. pose proof (proj1 Ho) as Ht. destruct op; simpl.
  - intros H.
    apply (dkeeps_exec env _ (callback_dok fuel))
      in H.
    exact (proj2 (dk_closed _ _ _ _ H Ht Hc)).
  - destruct (_maintenanceIntervalID w); [|discriminate]. intros H.
    apply (dkeeps_maintain env _ (callback_dok fuel))
      in H.
    exact (proj2 (dk_closed _ _ _ _ H Ht Hc)).
  - destruct (timers w !! i) as [t|] eqn:Hi; [|discriminate].
    intros H. eapply fire_closed; eauto.
  - intros [= <-].
    exact (proj2 (dk_closed _ _ _ _
                    (dkeeps_same _ _ _ (keeps_createCallback env cid result w)
                       (frame_createCallback env cid result w)
                       (calm_createCallback env cid result w)) Ht Hc)).
  - intros [= <-].
    exact (proj2 (dk_closed _ _ _ _
                    (dkeeps_same _ _ _ (keeps_destroyCallback did [] w)
                       (frame_destroyCallback did w)
                       (calm_destroyCallback did w)) Ht Hc)).
Qed.

Lemma new_closed options fuel w :
  Pool_new env (callback env handler fuel) options fuel = Some w -> closed [] w.
Proof.
  unfold Pool_new. cbv zeta. intros H.
  apply (dkeeps_maintain env _ (callback_dok fuel))
    in H.
  match type of H with dkeeps _ _ (setMaintenanceInterval ?i ?w0) _ =>
    pose proof (dkeeps_same _ _ _ (keeps_setMaintenanceInterval i [] w0)
                  (frame_setMaintenanceInterval i w0)
                  (calm_setMaintenanceInterval i w0)) as H0;
    pose proof (dkeeps_trans _ _ _ _ _ _ H0 H) as D
  end.
  apply (dk_closed _ _ _ _ D).
  - split; cbn; auto using NoDup_nil_2.
  - split; cbn; discriminate.
Qed.

Lemma reachable_closed w : reachable env handler w -> closed [] w.
Proof.
  induction 1 as [options fuel w H|fuel op w w' Hr IH H].
  - eapply new_closed; exact H.
  - eapply step_closed; [|exact IH|exact H]. eapply reachable_orderly; exact Hr.
Qed.

End ReachableDrainEnd.

(** X25.  After the [drain] event the pool holds and lends nothing: in
    every state that a pool reaches and whose history has a [drain]
    event, the pool is draining and its free list and its lent list are
    empty, whatever the callbacks of the client do. *)
Theorem X25_nothing_is_lent_after_drain :
  forall (env : Env) (handler : nat -> Outcome -> World -> Script) (w : World),
    reachable env handler w ->
    In emit_drain (log w) ->
    isDraining w = true /\ freeResources w = [] /\ lentResources w = [].
Proof.
  intros env handler w Hr Hin.
  destruct (reachable_closed env handler w Hr) as [_ He].
  assert (E : drain_emitted w = true).
  { unfold drain_emitted. apply existsb_exists. exists emit_drain. auto. }
  destruct (He E) as (Hd & Hf & Hl & _). auto.
Qed.

(** The theorem at [drained_pool]. *)
Lemma X25_nothing_is_lent_after_drain_witness :
  isDraining drained_pool = true
  /\ freeResources drained_pool = [] /\ lentResources drained_pool = [].
Proof.
  apply (X25_nothing_is_lent_after_drain sample_env quiet_handler drained_pool).
  - apply pool_after_reachable. vm_compute. discriminate.
  - vm_compute. left. reflexivity.
Defined.
